(** * NextPress asset engine: dependency resolver, loaders, codecs

    A shallow embedding of the script dependency resolver
    ([sortScriptsByDependencies]), the sequential head/body script loaders
    ([HeadScripts], [BodyScripts]), the salted XOR origin codec
    ([encodeWithSalt] / [decodeWithSalt]) and the WooCommerce settings
    transform ([transformWcSettings]) of the NextPress JavaScript package,
    together with the properties established about them. *)

From Stdlib Require Import String Ascii.
From stdpp Require Import base gmap.
From Stdlib Require Import List ZArith Lia Bool Permutation Sorted Relations.
Import ListNotations.

Set Default Proof Using "Type".
Local Open Scope Z_scope.

(** ** JavaScript strings

    A JavaScript string is a finite sequence of UTF-16 code units.  Code units
    are kept as integers in [0, 65536). *)

Definition jsstring : Type := list Z.

(** Literal ASCII text as a JavaScript string. *)
Definition js (s : string) : jsstring :=
  List.map (fun a => Z.of_N (N_of_ascii a)) (list_ascii_of_string s).

Arguments js s%_string.

Definition code_unit (c : Z) : Prop := 0 <= c < 65536.

(** ToBoolean on a string-valued optional field: [undefined], [null] and the
    empty string are falsy. *)
Definition truthy (o : option jsstring) : bool :=
  match o with
  | Some (_ :: _) => true
  | _ => false
  end.

(** [a || b] on optional strings. *)
Definition or_else (a b : option jsstring) : option jsstring :=
  if truthy a then a else b.

Fixpoint str_eqb (a b : jsstring) : bool :=
  match a, b with
  | [], [] => true
  | x :: a', y :: b' => (x =? y) && str_eqb a' b'
  | _, _ => false
  end.

Fixpoint is_prefix (p s : jsstring) : bool :=
  match p, s with
  | [], _ => true
  | x :: p', y :: s' => (x =? y) && is_prefix p' s'
  | _ :: _, [] => false
  end.

(** [Array.prototype.includes] on an array of strings. *)
Definition includes (l : list jsstring) (h : jsstring) : bool :=
  existsb (str_eqb h) l.

(** ** Insertion-ordered maps

    A JavaScript [Map] iterates in insertion order and [set] on an existing
    key keeps the key's position; the resolver's queue is seeded by iterating
    such a map, so the order is part of the model. *)

Module JsMap.

Definition t (V : Type) : Type := list (jsstring * V).

Fixpoint get {V} (m : t V) (k : jsstring) : option V :=
  match m with
  | [] => None
  | (k', v) :: m' => if str_eqb k k' then Some v else get m' k
  end.

Definition has {V} (m : t V) (k : jsstring) : bool :=
  match get m k with Some _ => true | None => false end.

Fixpoint set {V} (m : t V) (k : jsstring) (v : V) : t V :=
  match m with
  | [] => [(k, v)]
  | (k', v') :: m' =>
      if str_eqb k k' then (k', v) :: m' else (k', v') :: set m' k v
  end.

Definition keys {V} (m : t V) : list jsstring := List.map fst m.

End JsMap.

(** ** Asset descriptors *)

Inductive ScriptLoadingGroupEnum := HEADER | FOOTER.
Inductive ScriptLoadingStrategyEnum := ASYNC | DEFER | BLOCKING.

(** An entry of [dependencies]: only its [handle] is ever read. *)
Record ScriptRef := { ref_handle : option jsstring }.

Record EnqueuedScript := {
  id : option jsstring;
  handle : option jsstring;
  src : option jsstring;
  (* [null]/[undefined] array, and [null]/[undefined] entries, both occur *)
  dependencies : option (list (option ScriptRef));
  (* [string | string[]]: a singleton list stands for a plain string *)
  before : option (list jsstring);
  after : option (list jsstring);
  extraData : option jsstring;
  location : option ScriptLoadingGroupEnum;
  strategy : option ScriptLoadingStrategyEnum
}.

(** ** The dependency resolver: [sortScriptsByDependencies] *)

Module Sort.

Definition has_handle (s : EnqueuedScript) : bool := truthy (handle s).

Definition handle_of (s : EnqueuedScript) : jsstring :=
  match handle s with Some h => h | None => [] end.

(** [script.dependencies?.filter(Boolean) || []], then the handles that pass
    [dep?.handle]. *)
Definition dep_handles (s : EnqueuedScript) : list jsstring :=
  match dependencies s with
  | None => []
  | Some ds =>
      List.flat_map
        (fun d => match d with
                  | Some r => if truthy (ref_handle r)
                              then match ref_handle r with Some h => [h] | None => [] end
                              else []
                  | None => []
                  end) ds
  end.

(** First [forEach]: index scripts by handle (a later duplicate overwrites). *)
Definition build_scriptMap (scripts : list EnqueuedScript) : JsMap.t EnqueuedScript :=
  fold_left (fun m s => if has_handle s then JsMap.set m (handle_of s) s else m)
            scripts [].

(** Second [forEach]: seed [adjList] and [inDegree] for every handle. *)
Definition seed_step (st : JsMap.t (list jsstring) * JsMap.t Z) (s : EnqueuedScript)
  : JsMap.t (list jsstring) * JsMap.t Z :=
  let '(adj, deg) := st in
  if has_handle s then
    if JsMap.has adj (handle_of s) then (adj, deg)
    else (JsMap.set adj (handle_of s) [], JsMap.set deg (handle_of s) 0)
  else (adj, deg).

Definition seed_graph (scripts : list EnqueuedScript)
  : JsMap.t (list jsstring) * JsMap.t Z :=
  fold_left seed_step scripts ([], []).

Definition get_list (adj : JsMap.t (list jsstring)) (k : jsstring) : list jsstring :=
  match JsMap.get adj k with Some l => l | None => [] end.

(** [inDegree.get(h) || 0] *)
Definition get_degree (deg : JsMap.t Z) (k : jsstring) : Z :=
  match JsMap.get deg k with Some d => d | None => 0 end.

(** One dependency entry of [script]: add the edge [dep -> script.handle]. *)
Definition add_edge (scriptMap : JsMap.t EnqueuedScript) (h : jsstring)
    (st : JsMap.t (list jsstring) * JsMap.t Z) (dep : jsstring)
  : JsMap.t (list jsstring) * JsMap.t Z :=
  let '(adj, deg) := st in
  if JsMap.has scriptMap dep then
    (JsMap.set adj dep (get_list adj dep ++ [h]),
     JsMap.set deg h (get_degree deg h + 1))
  else (adj, deg).

(** Third [forEach]: build the dependency graph. *)
Definition build_graph (scriptMap : JsMap.t EnqueuedScript)
    (scripts : list EnqueuedScript)
    (st : JsMap.t (list jsstring) * JsMap.t Z)
  : JsMap.t (list jsstring) * JsMap.t Z :=
  fold_left
    (fun st s =>
       if has_handle s
       then fold_left (add_edge scriptMap (handle_of s)) (dep_handles s) st
       else st)
    scripts st.

(** [inDegree.forEach]: handles of in-degree 0, in insertion order. *)
Definition initial_queue (deg : JsMap.t Z) : list jsstring :=
  List.map fst (List.filter (fun kv => snd kv =? 0) deg).

(** [dependents.forEach]: decrement, and enqueue on reaching 0. *)
Definition relax (st : JsMap.t Z * list jsstring) (dependent : jsstring)
  : JsMap.t Z * list jsstring :=
  let '(deg, queue) := st in
  let newDegree := get_degree deg dependent - 1 in
  (JsMap.set deg dependent newDegree,
   if newDegree =? 0 then queue ++ [dependent] else queue).

(** The [while (queue.length > 0)] loop.  [fuel] bounds the number of
    iterations; [None] means the bound was hit with the queue non-empty. *)
Fixpoint kahn (fuel : nat) (adj : JsMap.t (list jsstring)) (deg : JsMap.t Z)
    (queue sorted : list jsstring) : option (list jsstring) :=
  match queue with
  | [] => Some sorted
  | current :: rest =>
      match fuel with
      | O => None
      | S fuel' =>
          let '(deg', queue') := fold_left relax (get_list adj current) (deg, rest) in
          kahn fuel' adj deg' queue' (sorted ++ [current])
      end
  end.

(** The recovery [forEach] after a length mismatch. *)
Definition append_remaining (scripts : list EnqueuedScript) (sorted : list jsstring)
  : list jsstring :=
  fold_left
    (fun sorted s =>
       if has_handle s && negb (includes sorted (handle_of s))
       then sorted ++ [handle_of s] else sorted)
    scripts sorted.

(** [sorted.forEach]: map handles back to script objects. *)
Definition lookup_scripts (scriptMap : JsMap.t EnqueuedScript) (sorted : list jsstring)
  : list EnqueuedScript :=
  List.flat_map
    (fun h => match JsMap.get scriptMap h with Some s => [s] | None => [] end)
    sorted.

Record SortResult := {
  sortedScripts : list EnqueuedScript;
  (* whether [console.warn] was called *)
  warned : bool
}.

Definition sortScriptsByDependencies (scripts : list EnqueuedScript)
  : option SortResult :=
  match scripts with
  | [] => Some {| sortedScripts := []; warned := false |}
  | _ =>
      let scriptMap := build_scriptMap scripts in
      let '(adj, deg) := build_graph scriptMap scripts (seed_graph scripts) in
      match kahn (List.length deg) adj deg (initial_queue deg) [] with
      | None => None
      | Some sorted =>
          let mismatch := negb (Nat.eqb (List.length sorted) (List.length scripts)) in
          let sorted' := if mismatch then append_remaining scripts sorted else sorted in
          Some {| sortedScripts :=
                    lookup_scripts scriptMap sorted'
                    ++ List.filter (fun s => negb (has_handle s)) scripts;
                  warned := mismatch |}
      end
  end.

(** *** The dependency graph the resolver works on *)

(** Handles of the descriptors that have one, in input order. *)
Definition present_handles (scripts : list EnqueuedScript) : list jsstring :=
  map handle_of (filter has_handle scripts).

Definition present (scripts : list EnqueuedScript) (h : jsstring) : bool :=
  includes (present_handles scripts) h.

(** Edges [(dependency, dependent)] contributed by one descriptor: one per
    dependency entry that names a present handle. *)
Definition script_edges (scripts : list EnqueuedScript) (s : EnqueuedScript)
  : list (jsstring * jsstring) :=
  if has_handle s
  then map (fun d => (d, handle_of s)) (filter (present scripts) (dep_handles s))
  else [].

Definition edges (scripts : list EnqueuedScript) : list (jsstring * jsstring) :=
  flat_map (script_edges scripts) scripts.

Definition edge (scripts : list EnqueuedScript) (d h : jsstring) : Prop :=
  In (d, h) (edges scripts).

(** No handle reaches itself along one or more edges. *)
Definition acyclic (scripts : list EnqueuedScript) : Prop :=
  forall h, ~ clos_trans jsstring (edge scripts) h h.

(** [a] lists the handle of [b] among its dependencies. *)
Definition depends_on (a b : EnqueuedScript) : Prop :=
  has_handle b = true /\ In (handle_of b) (dep_handles a).

(** [s'] is what the output holds for the descriptor [s] of the input: a
    descriptor with the handle of [s], and [s] itself when [s] has no
    handle or the handles of the input are pairwise distinct (of the
    descriptors that share a handle the resolver keeps one). *)
Definition stands_for (scripts : list EnqueuedScript) (s' s : EnqueuedScript) : Prop :=
  handle s' = handle s /\
  (has_handle s = false \/ NoDup (present_handles scripts) -> s' = s).

(** A sufficient executable test for [acyclic]: [order] ranks every edge's
    dependency strictly before its dependent. *)
Fixpoint index_of (h : jsstring) (l : list jsstring) : nat :=
  match l with
  | [] => O
  | x :: l' => if str_eqb h x then O else S (index_of h l')
  end.

Definition ranked_by (order : list jsstring) (scripts : list EnqueuedScript) : bool :=
  forallb (fun e => Nat.ltb (index_of (fst e) order) (index_of (snd e) order))
          (edges scripts).

(** Test descriptors in the shape of the unit tests' [createScript]. *)
Definition createScript (h : jsstring) (deps : list jsstring) : EnqueuedScript :=
  {| id := Some (js "script-" ++ h); handle := Some h;
     src := Some (js "https://example.com/" ++ h ++ js ".js");
     dependencies := Some (List.map (fun d => Some {| ref_handle := Some d |}) deps);
     before := None; after := None; extraData := None;
     location := None; strategy := None |}.

Definition scriptWithoutHandle : EnqueuedScript :=
  {| id := Some (js "no-handle"); handle := None;
     src := Some (js "https://example.com/no-handle.js");
     dependencies := None; before := None; after := None; extraData := None;
     location := None; strategy := None |}.

(** *** Graph vocabulary and the invariant of the main loop *)

Definition graph : Type := (JsMap.t (list jsstring) * JsMap.t Z)%type.

(** Adding one edge, as [add_edge] does once the dependency is known to be
    indexed. *)
Definition apply_edge (st : graph) (e : jsstring * jsstring) : graph :=
  (JsMap.set (fst st) (fst e) (get_list (fst st) (fst e) ++ [snd e]),
   JsMap.set (snd st) (snd e) (get_degree (snd st) (snd e) + 1)).

Definition indeg (E : list (jsstring * jsstring)) (h : jsstring) : nat :=
  length (filter (fun e => str_eqb (snd e) h) E).

Definition succs (E : list (jsstring * jsstring)) (d : jsstring) : list jsstring :=
  map snd (filter (fun e => str_eqb (fst e) d) E).

(** Incoming edges whose source has not been output yet. *)
Definition live_indeg (E : list (jsstring * jsstring)) (sorted : list jsstring) (h : jsstring) : nat :=
  length (filter (fun e => str_eqb (snd e) h && negb (includes sorted (fst e))) E).

Record Inv (E : list (jsstring * jsstring)) (Hs : list jsstring)
    (deg : JsMap.t Z) (queue sorted : list jsstring) : Prop := {
  inv_nodup : NoDup (sorted ++ queue);
  inv_sub : forall h, In h (sorted ++ queue) -> In h Hs;
  inv_keys : JsMap.keys deg = Hs;
  inv_deg : forall h, In h Hs -> get_degree deg h = Z.of_nat (live_indeg E sorted h);
  inv_zero : forall h, In h Hs -> (In h (sorted ++ queue) <-> get_degree deg h = 0);
  inv_topo : forall s1 h s2 d, sorted = s1 ++ h :: s2 -> In (d, h) E -> In d s1
}.

(** The handles indexed by the resolver: distinct present handles, in order of
    first occurrence. *)
Definition indexed (scripts : list EnqueuedScript) : list jsstring :=
  JsMap.keys (fst (seed_graph scripts)).

Definition no_handle (s : EnqueuedScript) : bool := negb (has_handle s).

(** The chain of the unit test "should sort scripts with linear
    dependencies", given in reverse order. *)
Definition linear_chain : list EnqueuedScript :=
  [createScript (js "script-3") [js "script-2"];
   createScript (js "script-2") [js "script-1"];
   createScript (js "script-1") []].

(** The input of the unit test "should handle scripts without handles". *)
Definition with_and_without_handle : list EnqueuedScript :=
  [createScript (js "with-handle") []; scriptWithoutHandle].

End Sort.

(** ** The salted XOR origin codec

    [encodeWithSalt] runs in Node ([Buffer]) and [decodeWithSalt] in the
    browser ([atob], [TextEncoder], [TextDecoder]).  The platform codecs they
    call are modelled here after their specifications (WHATWG Encoding,
    HTML forgiving-base64, RFC 4648); bytes are integers in [0, 256). *)

Module Codec.

(** Every code unit of a string value lies in [0, 65536). *)
Definition valid_string (s : jsstring) : bool :=
  forallb (fun c => (0 <=? c) && (c <? 65536)) s.

Definition is_high_surrogate (c : Z) : bool := (0xD800 <=? c) && (c <=? 0xDBFF).
Definition is_low_surrogate (c : Z) : bool := (0xDC00 <=? c) && (c <=? 0xDFFF).

(** The scalar values of a string: surrogate pairs are combined and an
    unpaired surrogate becomes U+FFFD, as in the conversion to a
    [USVString] and in [Buffer.from(s, 'utf8')]. *)
Fixpoint to_scalars (s : jsstring) : list Z :=
  match s with
  | [] => []
  | c :: s' =>
      if is_high_surrogate c then
        match s' with
        | d :: s'' =>
            if is_low_surrogate d
            then (0x10000 + (c - 0xD800) * 0x400 + (d - 0xDC00)) :: to_scalars s''
            else 0xFFFD :: to_scalars s'
        | [] => [0xFFFD]
        end
      else if is_low_surrogate c then 0xFFFD :: to_scalars s'
      else c :: to_scalars s'
  end.

(** No unpaired surrogate. *)
Fixpoint well_formed (s : jsstring) : bool :=
  match s with
  | [] => true
  | c :: s' =>
      if is_high_surrogate c then
        match s' with
        | d :: s'' => is_low_surrogate d && well_formed s''
        | [] => false
        end
      else negb (is_low_surrogate c) && well_formed s'
  end.

Definition utf8_encode_scalar (cp : Z) : list Z :=
  if cp <? 0x80 then [cp]
  else if cp <? 0x800 then [0xC0 + cp / 64; 0x80 + cp mod 64]
  else if cp <? 0x10000 then
    [0xE0 + cp / 4096; 0x80 + (cp / 64) mod 64; 0x80 + cp mod 64]
  else
    [0xF0 + cp / 262144; 0x80 + (cp / 4096) mod 64;
     0x80 + (cp / 64) mod 64; 0x80 + cp mod 64].

(** [Buffer.from(s, 'utf8')] and [new TextEncoder().encode(s)]. *)
Definition utf8_encode (s : jsstring) : list Z :=
  flat_map utf8_encode_scalar (to_scalars s).

(** State of the WHATWG UTF-8 decoder. *)
Record dstate := {
  code_point : Z;
  bytes_seen : Z;
  bytes_needed : Z;
  lower_boundary : Z;
  upper_boundary : Z
}.

Definition dstate0 : dstate :=
  {| code_point := 0; bytes_seen := 0; bytes_needed := 0;
     lower_boundary := 0x80; upper_boundary := 0xBF |}.

(** A byte met while no sequence is open: what is emitted, and the next
    state. *)
Definition lead_byte (b : Z) : list Z * dstate :=
  if b <=? 0x7F then ([b], dstate0)
  else if (0xC2 <=? b) && (b <=? 0xDF) then
    ([], {| code_point := b - 0xC0; bytes_seen := 0; bytes_needed := 1;
            lower_boundary := 0x80; upper_boundary := 0xBF |})
  else if (0xE0 <=? b) && (b <=? 0xEF) then
    ([], {| code_point := b - 0xE0; bytes_seen := 0; bytes_needed := 2;
            lower_boundary := if b =? 0xE0 then 0xA0 else 0x80;
            upper_boundary := if b =? 0xED then 0x9F else 0xBF |})
  else if (0xF0 <=? b) && (b <=? 0xF4) then
    ([], {| code_point := b - 0xF0; bytes_seen := 0; bytes_needed := 3;
            lower_boundary := if b =? 0xF0 then 0x90 else 0x80;
            upper_boundary := if b =? 0xF4 then 0x8F else 0xBF |})
  else ([0xFFFD], dstate0).

(** The decoder in replacement mode: every error emits U+FFFD, and a byte
    that breaks an open sequence is processed again as a lead byte. *)
Fixpoint utf8_decode (st : dstate) (bytes : list Z) : list Z :=
  match bytes with
  | [] => if bytes_needed st =? 0 then [] else [0xFFFD]
  | b :: rest =>
      if bytes_needed st =? 0 then
        fst (lead_byte b) ++ utf8_decode (snd (lead_byte b)) rest
      else if (lower_boundary st <=? b) && (b <=? upper_boundary st) then
        let cp := code_point st * 64 + (b - 0x80) in
        if bytes_seen st + 1 =? bytes_needed st
        then cp :: utf8_decode dstate0 rest
        else utf8_decode {| code_point := cp; bytes_seen := bytes_seen st + 1;
                            bytes_needed := bytes_needed st;
                            lower_boundary := 0x80; upper_boundary := 0xBF |} rest
      else
        0xFFFD :: fst (lead_byte b) ++ utf8_decode (snd (lead_byte b)) rest
  end.

Definition from_scalar (cp : Z) : jsstring :=
  if cp <? 0x10000 then [cp]
  else [0xD800 + (cp - 0x10000) / 0x400; 0xDC00 + (cp - 0x10000) mod 0x400].

Definition from_scalars (cps : list Z) : jsstring := flat_map from_scalar cps.

(** [new TextDecoder().decode(bytes)]: UTF-8, not fatal, and with the default
    [ignoreBOM = false] a leading U+FEFF is dropped from the output. *)
Definition TextDecoder_decode (bytes : list Z) : jsstring :=
  let cps := utf8_decode dstate0 bytes in
  from_scalars (match cps with
                | c :: r => if c =? 0xFEFF then r else cps
                | [] => cps
                end).

(** Base64 (RFC 4648 alphabet). *)
Definition b64_char (v : Z) : Z :=
  if v <? 26 then 65 + v
  else if v <? 52 then 97 + (v - 26)
  else if v <? 62 then 48 + (v - 52)
  else if v =? 62 then 43 else 47.

Definition b64_value (c : Z) : option Z :=
  if (65 <=? c) && (c <=? 90) then Some (c - 65)
  else if (97 <=? c) && (c <=? 122) then Some (c - 97 + 26)
  else if (48 <=? c) && (c <=? 57) then Some (c - 48 + 52)
  else if c =? 43 then Some 62
  else if c =? 47 then Some 63
  else None.

Fixpoint sextets (bs : list Z) : list Z :=
  match bs with
  | a :: b :: c :: rest =>
      a / 4 :: (a mod 4) * 16 + b / 16 :: (b mod 16) * 4 + c / 64 :: c mod 64
        :: sextets rest
  | [a; b] => [a / 4; (a mod 4) * 16 + b / 16; (b mod 16) * 4]
  | [a] => [a / 4; (a mod 4) * 16]
  | [] => []
  end.

Definition padding (n : nat) : jsstring :=
  match Nat.modulo n 3 with
  | 1%nat => [61; 61]
  | 2%nat => [61]
  | _ => []
  end.

(** [buffer.toString('base64')] *)
Definition base64_encode (bs : list Z) : jsstring :=
  map b64_char (sextets bs) ++ padding (length bs).

Definition is_ascii_whitespace (c : Z) : bool :=
  (c =? 9) || (c =? 10) || (c =? 12) || (c =? 13) || (c =? 32).

(** If the length is a multiple of 4, one or two trailing [=] are removed. *)
Definition strip_padding (data : jsstring) : jsstring :=
  if Nat.eqb (Nat.modulo (length data) 4) 0 then
    match rev data with
    | x :: y :: r =>
        if (x =? 61) && (y =? 61) then rev r
        else if x =? 61 then rev (y :: r) else data
    | [x] => if x =? 61 then [] else data
    | [] => data
    end
  else data.

Fixpoint traverse_values (data : jsstring) : option (list Z) :=
  match data with
  | [] => Some []
  | c :: data' =>
      match b64_value c, traverse_values data' with
      | Some v, Some vs => Some (v :: vs)
      | _, _ => None
      end
  end.

Fixpoint unsextets (vs : list Z) : list Z :=
  match vs with
  | a :: b :: c :: d :: rest =>
      a * 4 + b / 16 :: (b mod 16) * 16 + c / 4 :: (c mod 4) * 64 + d
        :: unsextets rest
  | [a; b; c] => [a * 4 + b / 16; (b mod 16) * 16 + c / 4]
  | [a; b] => [a * 4 + b / 16]
  | _ => []
  end.

(** [atob] followed by reading each character's code: the HTML
    forgiving-base64 decode; [None] stands for the [InvalidCharacterError]. *)
Definition atob (s : jsstring) : option (list Z) :=
  let data := strip_padding (filter (fun c => negb (is_ascii_whitespace c)) s) in
  if Nat.eqb (Nat.modulo (length data) 4) 1 then None
  else option_map unsextets (traverse_values data).

(** The XOR loop shared by both functions.  [saltBytes[i % saltBytes.length]]
    is [undefined] for an empty salt, and [b ^ undefined] is [b ^ 0]. *)
Fixpoint xor_loop (i : nat) (bytes salt : list Z) : list Z :=
  match bytes with
  | [] => []
  | b :: rest =>
      Z.lxor b (nth (Nat.modulo i (length salt)) salt 0) :: xor_loop (S i) rest salt
  end.

Definition encodeWithSalt (data salt : jsstring) : jsstring :=
  let textBytes := utf8_encode data in
  let saltBytes := utf8_encode salt in
  base64_encode (xor_loop 0 textBytes saltBytes).

(** [None]: [atob] threw. *)
Definition decodeWithSalt (encoded salt : jsstring) : option jsstring :=
  match atob encoded with
  | None => None
  | Some encodedBytes =>
      let saltBytes := utf8_encode salt in
      Some (TextDecoder_decode (xor_loop 0 encodedBytes saltBytes))
  end.

(** *** Ranges *)

Definition byte (b : Z) : Prop := 0 <= b < 256.

(** Unicode scalar values: code points outside the surrogate range. *)
Definition scalar (cp : Z) : Prop := 0 <= cp < 0xD800 \/ 0xDFFF < cp <= 0x10FFFF.

Definition open_state (cp seen needed lo hi : Z) : dstate :=
  {| code_point := cp; bytes_seen := seen; bytes_needed := needed;
     lower_boundary := lo; upper_boundary := hi |}.

Definition sextet (v : Z) : Prop := 0 <= v < 64.

End Codec.

(** ** Thrown values

    Fallible JavaScript code is modelled in an error monad: [Throw e] is an
    exception that propagates to the nearest [try]. *)

Inductive Exception :=
| JsError (message : jsstring)
| URIError
| SyntaxError
| TypeError.

Inductive result (A : Type) : Type :=
| Ok (a : A)
| Throw (e : Exception).

Arguments Ok {A} a.
Arguments Throw {A} e.

#[global] Instance result_ret : MRet result := fun A a => Ok a.

#[global] Instance result_bind : MBind result :=
  fun A B k r => match r with
                 | Ok a => k a
                 | Throw e => Throw e
                 end.

Fixpoint mapM {A B} (f : A -> result B) (l : list A) : result (list B) :=
  match l with
  | [] => Ok []
  | a :: l' => b ← f a; bs ← mapM f l'; Ok (b :: bs)
  end.

(** ** Percent-encoding: [encodeURIComponent] and [decodeURIComponent]

    Modelled after the ECMAScript [Encode] and [Decode] operations. *)

Module Uri.
Import Codec.

(** [A-Z a-z 0-9 - _ . ! ~ * ' ( )] *)
Definition unreserved (c : Z) : bool :=
  ((65 <=? c) && (c <=? 90)) || ((97 <=? c) && (c <=? 122)) ||
  ((48 <=? c) && (c <=? 57)) ||
  (c =? 45) || (c =? 95) || (c =? 46) || (c =? 33) || (c =? 126) ||
  (c =? 42) || (c =? 39) || (c =? 40) || (c =? 41).

Definition hex_digit (v : Z) : Z := if v <? 10 then 48 + v else 65 + (v - 10).

Definition hex_value (c : Z) : option Z :=
  if (48 <=? c) && (c <=? 57) then Some (c - 48)
  else if (65 <=? c) && (c <=? 70) then Some (c - 65 + 10)
  else if (97 <=? c) && (c <=? 102) then Some (c - 97 + 10)
  else None.

Definition percent (bytes : list Z) : jsstring :=
  flat_map (fun b => [37; hex_digit (b / 16); hex_digit (b mod 16)]) bytes.

Fixpoint encodeURIComponent (s : jsstring) : result jsstring :=
  match s with
  | [] => Ok []
  | c :: s' =>
      if unreserved c then r ← encodeURIComponent s'; Ok (c :: r)
      else if is_high_surrogate c then
        match s' with
        | d :: s'' =>
            if is_low_surrogate d then
              r ← encodeURIComponent s'';
              Ok (percent (utf8_encode_scalar
                             (0x10000 + (c - 0xD800) * 0x400 + (d - 0xDC00))) ++ r)
            else Throw URIError
        | [] => Throw URIError
        end
      else if is_low_surrogate c then Throw URIError
      else r ← encodeURIComponent s'; Ok (percent (utf8_encode_scalar c) ++ r)
  end.

(** A string split into literal code units and [%XX] octets. *)
Inductive item :=
| Lit (c : Z)
| Octet (b : Z).

Fixpoint items (s : jsstring) : result (list item) :=
  match s with
  | [] => Ok []
  | c :: s' =>
      if c =? 37 then
        match s' with
        | h1 :: h2 :: s'' =>
            match hex_value h1, hex_value h2 with
            | Some a, Some b => r ← items s''; Ok (Octet (a * 16 + b) :: r)
            | _, _ => Throw URIError
            end
        | _ => Throw URIError
        end
      else r ← items s'; Ok (Lit c :: r)
  end.

Definition continuation (lo hi b : Z) : bool := (lo <=? b) && (b <=? hi).

(** Octet sequences must be well-formed UTF-8 (no overlong forms, no
    surrogates, nothing above U+10FFFF). *)
Fixpoint decode_items (l : list item) : result jsstring :=
  match l with
  | [] => Ok []
  | Lit c :: r => s ← decode_items r; Ok (c :: s)
  | Octet b :: r =>
      if b <=? 0x7F then s ← decode_items r; Ok (b :: s)
      else if (0xC2 <=? b) && (b <=? 0xDF) then
        match r with
        | Octet b1 :: r1 =>
            if continuation 0x80 0xBF b1 then
              s ← decode_items r1;
              Ok (from_scalar ((b - 0xC0) * 64 + (b1 - 0x80)) ++ s)
            else Throw URIError
        | _ => Throw URIError
        end
      else if (0xE0 <=? b) && (b <=? 0xEF) then
        match r with
        | Octet b1 :: Octet b2 :: r2 =>
            if continuation (if b =? 0xE0 then 0xA0 else 0x80)
                            (if b =? 0xED then 0x9F else 0xBF) b1
               && continuation 0x80 0xBF b2 then
              s ← decode_items r2;
              Ok (from_scalar (((b - 0xE0) * 64 + (b1 - 0x80)) * 64 + (b2 - 0x80)) ++ s)
            else Throw URIError
        | _ => Throw URIError
        end
      else if (0xF0 <=? b) && (b <=? 0xF4) then
        match r with
        | Octet b1 :: Octet b2 :: Octet b3 :: r3 =>
            if continuation (if b =? 0xF0 then 0x90 else 0x80)
                            (if b =? 0xF4 then 0x8F else 0xBF) b1
               && continuation 0x80 0xBF b2 && continuation 0x80 0xBF b3 then
              s ← decode_items r3;
              Ok (from_scalar
                    ((((b - 0xF0) * 64 + (b1 - 0x80)) * 64 + (b2 - 0x80)) * 64
                     + (b3 - 0x80)) ++ s)
            else Throw URIError
        | _ => Throw URIError
        end
      else Throw URIError
  end.

Definition decodeURIComponent (s : jsstring) : result jsstring :=
  l ← items s; decode_items l.

(** The alphabet of an encoded component: unreserved characters, [%] and
    hexadecimal digits. *)
Definition uri_char (c : Z) : bool :=
  unreserved c || (c =? 37) || ((48 <=? c) && (c <=? 57)) || ((65 <=? c) && (c <=? 70)).

End Uri.

(** ** The sequential script loaders

    [HeadScripts] and [BodyScripts] drive the same callback chain:
    [loadNextScript] runs until it has attached a script element with a
    [src], and is resumed by that element's [load] or [error] listener.  The
    model threads the loader's mutable state explicitly and logs every
    effect on the document in the order it happens. *)

(** The fields of [new URL(...)] the package reads.  The parser itself is the
    platform's; the models take it as a parameter ([None]: the constructor
    threw). *)
Record URL := {
  origin : jsstring;
  pathname : jsstring;
  search : jsstring;
  hash : jsstring
}.

Module Loader.

Inductive Role := RoleExtra | RoleBefore | RoleAfter.

(** Created elements.  Ids are kept symbolically: an inline element of role
    [r] for handle [h] has id [`${h}-r`], the main element has id [h]. *)
Inductive Element :=
| InlineEl (owner : option jsstring) (role : Role) (textContent : jsstring)
| ScriptEl (owner : option jsstring) (el_src : jsstring)
           (el_async : option bool) (el_defer : bool)
| ConfigEl (instance : jsstring).

Inductive Effect :=
(* [appendChild]; [asset] is the ordinal ([currentIndex] after its increment)
   of the descriptor being processed *)
| AppendChild (asset : nat) (el : Element)
| ConsoleError (owner : option jsstring)
| ProcessWcSettings (instance : jsstring)
| TriggerDOMContentLoaded
| OnComplete.

(** The closure held by the [load] and [error] listeners of the element in
    flight. *)
Record Listener := {
  l_asset : nat;
  l_cacheKey : jsstring;
  l_owner : option jsstring;
  l_afterScript : option jsstring;
  (* [sortedScripts] from [currentIndex] on *)
  l_rest : list EnqueuedScript
}.

Record State := {
  currentIndex : nat;
  LoadCache : gset jsstring;
  log : list Effect;
  pending : option Listener
}.

Fixpoint uint_to_js (u : Decimal.uint) : jsstring :=
  match u with
  | Decimal.Nil => []
  | Decimal.D0 u => 48 :: uint_to_js u
  | Decimal.D1 u => 49 :: uint_to_js u
  | Decimal.D2 u => 50 :: uint_to_js u
  | Decimal.D3 u => 51 :: uint_to_js u
  | Decimal.D4 u => 52 :: uint_to_js u
  | Decimal.D5 u => 53 :: uint_to_js u
  | Decimal.D6 u => 54 :: uint_to_js u
  | Decimal.D7 u => 55 :: uint_to_js u
  | Decimal.D8 u => 56 :: uint_to_js u
  | Decimal.D9 u => 57 :: uint_to_js u
  end.

(** [`${n}`] for a non-negative integer. *)
Definition number_to_js (n : nat) : jsstring := uint_to_js (Nat.to_uint n).

(** [script.id || script.handle || script.src || `inline-${currentIndex}`],
    the same expression in both loaders. *)
Definition cacheKey (script : EnqueuedScript) (currentIndex : nat) : jsstring :=
  match or_else (or_else (or_else (id script) (handle script)) (src script))
                (Some (js "inline-" ++ number_to_js currentIndex)) with
  | Some k => k
  | None => []
  end.

(** [Array.isArray(x) ? x.join(' ') : x] *)
Fixpoint join (l : list jsstring) : jsstring :=
  match l with
  | [] => []
  | [x] => x
  | x :: l' => x ++ js " " ++ join l'
  end.

Definition nonempty (s : jsstring) : bool :=
  match s with [] => false | _ => true end.

(** [/^\/wp-(?:includes|admin)\//.test(path)] *)
Definition isInternalRoute (path : jsstring) : bool :=
  is_prefix (js "/wp-includes/") path || is_prefix (js "/wp-admin/") path.

Section with_platform.

Variable URL_parse : jsstring -> option URL.
(* [replaceProxyPlaceholders] of the WooCommerce layer, applied to the text of
   [extraData] by the body loader only *)
Variable replaceProxyPlaceholders : jsstring -> jsstring -> jsstring.

Definition extractPath (url : jsstring) : jsstring :=
  match URL_parse url with
  | Some urlObj => pathname urlObj
  | None => url
  end.

(** The proxied load target of a path. *)
Definition proxied (instance path : jsstring) : jsstring :=
  if isInternalRoute path
  then js "/atx/" ++ instance ++ js "/wp-internal-assets" ++ path
  else js "/atx/" ++ instance ++ js "/wp-assets" ++ path.

Definition isExternalScript (scriptUrl backendUrl : jsstring) : bool :=
  match URL_parse scriptUrl, URL_parse backendUrl with
  | Some s, Some b => negb (str_eqb (origin s) (origin b))
  | _, _ => false
  end.

(** The "Transform src URL" block of [HeadScripts]. *)
Definition head_src (instance : jsstring) (script : EnqueuedScript) : jsstring :=
  match src script with
  | Some s => if nonempty s then proxied instance (extractPath s) else []
  | None => []
  end.

(** The "Transform src URL" block of [BodyScripts]; [backendUrl] is [None]
    while unresolved or after a failed resolution. *)
Definition body_src (instance : jsstring) (backendUrl : option jsstring)
    (script : EnqueuedScript) : jsstring :=
  match src script with
  | Some s =>
      if nonempty s then
        match backendUrl with
        | Some b =>
            if nonempty b && isExternalScript s b then s
            else proxied instance (extractPath s)
        | None => proxied instance (extractPath s)
        end
      else []
  | None => []
  end.

Definition afterScript_of (script : EnqueuedScript) : option jsstring :=
  match after script with
  | Some l => Some (join l)
  | None => None
  end.

Definition emit (e : Effect) (st : State) : State :=
  {| currentIndex := currentIndex st; LoadCache := LoadCache st;
     log := log st ++ [e]; pending := pending st |}.

Definition emit_if (b : bool) (e : Effect) (st : State) : State :=
  if b then emit e st else st.

Definition cache_add (k : jsstring) (st : State) : State :=
  {| currentIndex := currentIndex st; LoadCache := {[ k ]} ∪ LoadCache st;
     log := log st; pending := pending st |}.

Definition set_index (n : nat) (st : State) : State :=
  {| currentIndex := n; LoadCache := LoadCache st; log := log st; pending := pending st |}.

Definition set_pending (p : option Listener) (st : State) : State :=
  {| currentIndex := currentIndex st; LoadCache := LoadCache st; log := log st;
     pending := p |}.

Definition is_handle (script : EnqueuedScript) (name : jsstring) : bool :=
  match handle script with Some h => str_eqb h name | None => false end.

Definition has_text (o : option jsstring) : bool := truthy o.

Definition text_of (o : option jsstring) : jsstring :=
  match o with Some t => t | None => [] end.

(** *** [HeadScripts] *)

(** The inline injections that precede the main element: [extraData], the
    [before] script, and the API-fetch configuration. *)
Definition head_inline (instance : jsstring) (script : EnqueuedScript) (n : nat)
    (st : State) : State :=
  let st := emit_if (has_text (extraData script))
              (AppendChild n (InlineEl (handle script) RoleExtra
                                (text_of (extraData script)))) st in
  let beforeScript := match before script with Some l => join l | None => [] end in
  let st := emit_if (nonempty beforeScript)
              (AppendChild n (InlineEl (handle script) RoleBefore beforeScript)) st in
  emit_if (is_handle script (js "wp-api-fetch")) (AppendChild n (ConfigEl instance)) st.

(** [loadNextScript] of the head loader; [rest] is [sortedScripts] from
    [currentIndex] on. *)
Fixpoint head_loadNextScript (instance : jsstring) (rest : list EnqueuedScript)
    (st : State) : State :=
  match rest with
  | [] => emit OnComplete st
  | script :: rest' =>
      let n := S (currentIndex st) in
      let st := set_index n st in
      let key := cacheKey script n in
      if bool_decide (key ∈ LoadCache st) then head_loadNextScript instance rest' st
      else
        let src' := head_src instance script in
        let afterScript := afterScript_of script in
        let st := head_inline instance script n st in
        if nonempty src' then
          let st := emit (AppendChild n (ScriptEl (handle script) src' (Some false) false)) st in
          set_pending (Some {| l_asset := n; l_cacheKey := key; l_owner := handle script;
                               l_afterScript := afterScript; l_rest := rest' |}) st
        else head_loadNextScript instance rest' (cache_add key st)
  end.

(** The [load] listener ([onScriptLoad]). *)
Definition head_on_load (instance : jsstring) (st : State) : State :=
  match pending st with
  | None => st
  | Some l =>
      let st := set_pending None st in
      let st := emit_if (has_text (l_afterScript l))
                  (AppendChild (l_asset l)
                     (InlineEl (l_owner l) RoleAfter (text_of (l_afterScript l)))) st in
      head_loadNextScript instance (l_rest l) (cache_add (l_cacheKey l) st)
  end.

(** The [error] listener. *)
Definition head_on_error (instance : jsstring) (st : State) : State :=
  match pending st with
  | None => st
  | Some l =>
      let st := set_pending None st in
      let st := emit (ConsoleError (l_owner l)) st in
      head_loadNextScript instance (l_rest l) (cache_add (l_cacheKey l) st)
  end.

(** *** [BodyScripts] *)

Definition strategy_async (script : EnqueuedScript) : option bool :=
  match strategy script with Some ASYNC => Some true | _ => None end.

Definition strategy_defer (script : EnqueuedScript) : bool :=
  match strategy script with Some DEFER => true | _ => false end.

(** [onComplete] after [triggerDOMContentLoaded]. *)
Definition body_complete (st : State) : State :=
  emit OnComplete (emit TriggerDOMContentLoaded st).

(** The inline injections that precede the main element: [extraData], the
    [before] script, and the settings post-processing of [wc-settings]. *)
Definition body_inline (instance : jsstring) (script : EnqueuedScript) (n : nat)
    (st : State) : State :=
  let st := emit_if (has_text (extraData script))
              (AppendChild n (InlineEl (handle script) RoleExtra
                 (replaceProxyPlaceholders (text_of (extraData script)) instance))) st in
  let beforeScript := match before script with Some l => join l | None => [] end in
  let st := emit_if (nonempty beforeScript)
              (AppendChild n (InlineEl (handle script) RoleBefore beforeScript)) st in
  emit_if (nonempty beforeScript && is_handle script (js "wc-settings"))
          (ProcessWcSettings instance) st.

Fixpoint body_loadNextScript (instance : jsstring) (backendUrl : option jsstring)
    (rest : list EnqueuedScript) (st : State) : State :=
  match rest with
  | [] => body_complete st
  | script :: rest' =>
      let n := S (currentIndex st) in
      let st := set_index n st in
      let key := cacheKey script n in
      if bool_decide (key ∈ LoadCache st)
      then body_loadNextScript instance backendUrl rest' st
      else
        let src' := body_src instance backendUrl script in
        let afterScript := afterScript_of script in
        let st := body_inline instance script n st in
        if nonempty src' then
          let st := emit (AppendChild n (ScriptEl (handle script) src'
                                           (strategy_async script) (strategy_defer script))) st in
          set_pending (Some {| l_asset := n; l_cacheKey := key; l_owner := handle script;
                               l_afterScript := afterScript; l_rest := rest' |}) st
        else body_loadNextScript instance backendUrl rest' (cache_add key st)
  end.

Definition body_on_load (instance : jsstring) (backendUrl : option jsstring)
    (st : State) : State :=
  match pending st with
  | None => st
  | Some l =>
      let st := set_pending None st in
      let st := emit_if (has_text (l_afterScript l))
                  (AppendChild (l_asset l)
                     (InlineEl (l_owner l) RoleAfter (text_of (l_afterScript l)))) st in
      body_loadNextScript instance backendUrl (l_rest l) (cache_add (l_cacheKey l) st)
  end.

Definition body_on_error (instance : jsstring) (backendUrl : option jsstring)
    (st : State) : State :=
  match pending st with
  | None => st
  | Some l =>
      let st := set_pending None st in
      let st := emit (ConsoleError (l_owner l)) st in
      body_loadNextScript instance backendUrl (l_rest l) (cache_add (l_cacheKey l) st)
  end.

(** The terminal event of the element in flight. *)
Inductive Terminal := Load | Error.

Definition body_fire (instance : jsstring) (backendUrl : option jsstring)
    (ev : Terminal) (st : State) : State :=
  match ev with
  | Load => body_on_load instance backendUrl st
  | Error => body_on_error instance backendUrl st
  end.

(** The state in which the phase calls [loadNextScript] for the first time:
    [cache] is whatever earlier mounts left in [LoadCache]. *)
Definition initial (cache : gset jsstring) : State :=
  {| currentIndex := 0; LoadCache := cache; log := []; pending := None |}.

Definition body_start (instance : jsstring) (backendUrl : option jsstring)
    (sortedScripts : list EnqueuedScript) (cache : gset jsstring) : State :=
  body_loadNextScript instance backendUrl sortedScripts (initial cache).

(** The phase after the terminal events [evs] have fired, in order. *)
Definition body_run (instance : jsstring) (backendUrl : option jsstring)
    (sortedScripts : list EnqueuedScript) (cache : gset jsstring)
    (evs : list Terminal) : State :=
  fold_left (fun st ev => body_fire instance backendUrl ev st) evs
            (body_start instance backendUrl sortedScripts cache).

End with_platform.

(** Script elements with a [src] that were attached, with their asset
    ordinals. *)
Definition attached (st : State) : list (nat * jsstring) :=
  flat_map (fun e => match e with
                     | AppendChild n (ScriptEl _ s _ _) => [(n, s)]
                     | _ => []
                     end) (log st).

Definition completions (st : State) : nat :=
  length (filter (fun e => match e with OnComplete => true | _ => false end) (log st)).

(** The asset an effect belongs to, when it is a DOM insertion. *)
Definition effect_asset (e : Effect) : option nat :=
  match e with AppendChild n _ => Some n | _ => None end.

(** A reference parser for plain [http(s)://host/path?query#fragment] URLs,
    used to instantiate the platform parameter on concrete inputs. *)
Fixpoint span_until (stop : Z -> bool) (s : jsstring) : jsstring * jsstring :=
  match s with
  | [] => ([], [])
  | c :: s' => if stop c then ([], s)
               else let '(a, b) := span_until stop s' in (c :: a, b)
  end.

Definition drop_prefix (p s : jsstring) : option jsstring :=
  if is_prefix p s then Some (skipn (length p) s) else None.

Definition plain_URL_parse (s : jsstring) : option URL :=
  let parse_rest (scheme rest : jsstring) :=
    let '(host, r1) := span_until (fun c => (c =? 47) || (c =? 63) || (c =? 35)) rest in
    let '(path, r2) := span_until (fun c => (c =? 63) || (c =? 35)) r1 in
    let '(query, frag) := span_until (fun c => c =? 35) r2 in
    if nonempty host then
      Some {| origin := scheme ++ host;
              pathname := if nonempty path then path else js "/";
              search := match query with [_] => [] | _ => query end;
              hash := match frag with [_] => [] | _ => frag end |}
    else None in
  match drop_prefix (js "https://") s with
  | Some rest => parse_rest (js "https://") rest
  | None =>
      match drop_prefix (js "http://") s with
      | Some rest => parse_rest (js "http://") rest
      | None => None
      end
  end.

(** *** Predicates on loader states and paths *)

(** Every insertion logged so far belongs to an asset already reached. *)
Definition bounded (st : State) : Prop :=
  forall e n, In e (log st) -> effect_asset e = Some n -> (n <= currentIndex st)%nat.


(** [path] begins with [/wp-includes/] or [/wp-admin/]. *)
Definition core_path (path : jsstring) : Prop :=
  (exists r, path = js "/wp-includes/" ++ r) \/ (exists r, path = js "/wp-admin/" ++ r).

(** The body loader proxies [s]: no backend origin is known, or [s] is not of
    another origin. *)
Definition body_proxies (URL_parse : jsstring -> option URL)
    (backendUrl : option jsstring) (s : jsstring) : Prop :=
  match backendUrl with
  | Some b => nonempty b && isExternalScript URL_parse s b = false
  | None => True
  end.

(** A core script with a version query, as WordPress enqueues it. *)
Definition versioned_core_script : EnqueuedScript :=
  {| id := Some (js "script-wp-hooks"); handle := Some (js "wp-hooks");
     src := Some (js "https://wp.example.com/wp-includes/js/dist/hooks.min.js?ver=6.4");
     dependencies := None; before := None; after := None; extraData := None;
     location := Some FOOTER; strategy := None |}.

Definition versioned_core_url : URL :=
  {| origin := js "https://wp.example.com";
     pathname := js "/wp-includes/js/dist/hooks.min.js";
     search := js "?ver=6.4"; hash := [] |}.

End Loader.

(** ** The WooCommerce settings transform *)

Module WcSettings.
Import Uri.

(** *** Regular expressions of the module, as matchers *)

(** Global replacement driven by a matcher: [m s] tells whether a match
    starts at the head of [s], how many code units it spans (at least one)
    and what replaces it.  [skip] counts the code units of the current match
    still to be passed over. *)
Fixpoint replace_matches (m : jsstring -> option (nat * jsstring)) (skip : nat)
    (s : jsstring) : jsstring :=
  match s with
  | [] => []
  | c :: s' =>
      match skip with
      | S k => replace_matches m k s'
      | O =>
          match m s with
          | Some (n, rep) => rep ++ replace_matches m (Nat.pred n) s'
          | None => c :: replace_matches m O s'
          end
      end
  end.

(** [s.replace(/pat/g, rep)] for a literal, non-empty [pat] and a
    replacement without [$]. *)
Definition replace_all (pat rep s : jsstring) : jsstring :=
  replace_matches (fun t => if is_prefix pat t then Some (length pat, rep) else None) O s.

(** [\s] *)
Definition is_space (c : Z) : bool :=
  (c =? 9) || (c =? 10) || (c =? 11) || (c =? 12) || (c =? 13) || (c =? 32) ||
  (c =? 0xA0) || (c =? 0x1680) || ((0x2000 <=? c) && (c <=? 0x200A)) ||
  (c =? 0x2028) || (c =? 0x2029) || (c =? 0x202F) || (c =? 0x205F) ||
  (c =? 0x3000) || (c =? 0xFEFF).

(** [\w] *)
Definition is_word (c : Z) : bool :=
  ((65 <=? c) && (c <=? 90)) || ((97 <=? c) && (c <=? 122)) ||
  ((48 <=? c) && (c <=? 57)) || (c =? 95).

Definition is_quote (c : Z) : bool := (c =? 39) || (c =? 34).

(** The longest prefix whose code units satisfy [p], and what follows. *)
Fixpoint span (p : Z -> bool) (s : jsstring) : jsstring * jsstring :=
  match s with
  | [] => ([], [])
  | c :: s' => if p c then let '(a, b) := span p s' in (c :: a, b) else ([], s)
  end.

Definition after_prefix (p s : jsstring) : option jsstring :=
  if is_prefix p s then Some (skipn (length p) s) else None.

(** The pattern of [decodeWcSettings], tried at the head of [s]:
    [decodeURIComponent(], optional white space, a single or double quote,
    one or more code units that are not quotes (the capture group), a quote,
    optional white space, [)]. *)
Definition decode_call_at (s : jsstring) : option jsstring :=
  match after_prefix (js "decodeURIComponent(") s with
  | None => None
  | Some r =>
      match snd (span is_space r) with
      | q :: r1 =>
          if is_quote q then
            let '(body, r2) := span (fun c => negb (is_quote c)) r1 in
            match body, r2 with
            | _ :: _, _ :: r3 =>
                match snd (span is_space r3) with
                | c :: _ => if c =? 41 then Some body else None
                | [] => None
                end
            | _, _ => None
            end
          else None
      | [] => None
      end
  end.

(** The leftmost match of a head matcher. *)
Fixpoint first_match {A} (at_head : jsstring -> option A) (s : jsstring) : option A :=
  match at_head s with
  | Some a => Some a
  | None =>
      match s with
      | [] => None
      | _ :: s' => first_match at_head s'
      end
  end.

(** [/var\s+(\w+)\s*=/] tried at the head of [s]. *)
Definition var_decl_at (s : jsstring) : option jsstring :=
  match after_prefix (js "var") s with
  | None => None
  | Some r =>
      match span is_space r with
      | (_ :: _, r1) =>
          match span is_word r1 with
          | ((_ :: _) as name, r2) =>
              match snd (span is_space r2) with
              | c :: _ => if c =? 61 then Some name else None
              | [] => None
              end
          | _ => None
          end
      | _ => None
      end
  end.

(** [/^https?:\/\/[^\/]+/] on [s]: the match and the rest. *)
Definition origin_match (s : jsstring) : option (jsstring * jsstring) :=
  let scheme_rest :=
    match after_prefix (js "https://") s with
    | Some r => Some (js "https://", r)
    | None =>
        match after_prefix (js "http://") s with
        | Some r => Some (js "http://", r)
        | None => None
        end
    end in
  match scheme_rest with
  | Some (scheme, r) =>
      match span (fun c => negb (c =? 47)) r with
      | ((_ :: _) as host, rest) => Some (scheme ++ host, rest)
      | _ => None
      end
  | None => None
  end.

(** [GetSubstitution] for a pattern without capture groups: [$$], [$&],
    [$`] and [$'] are expanded, any other [$] stands for itself. *)
Fixpoint get_substitution (matched before after replacement : jsstring) : jsstring :=
  match replacement with
  | [] => []
  | 36 :: r =>
      match r with
      | 36 :: r' => 36 :: get_substitution matched before after r'
      | 38 :: r' => matched ++ get_substitution matched before after r'
      | 96 :: r' => before ++ get_substitution matched before after r'
      | 39 :: r' => after ++ get_substitution matched before after r'
      | _ => 36 :: get_substitution matched before after r
      end
  | c :: r => c :: get_substitution matched before after r
  end.

(** [s.replace(/^https?:\/\/[^\/]+/, replacement)] *)
Definition replace_origin (s replacement : jsstring) : jsstring :=
  match origin_match s with
  | Some (matched, rest) => get_substitution matched [] rest replacement ++ rest
  | None => s
  end.

(** [s.replace(pat, '')] for a string pattern: the first occurrence only. *)
Fixpoint remove_first (pat s : jsstring) : jsstring :=
  if is_prefix pat s then skipn (length pat) s
  else match s with
       | [] => []
       | c :: s' => c :: remove_first pat s'
       end.

(** *** [esc_js] and [unescape_js] *)

Definition esc_js (text : jsstring) : jsstring :=
  let safe := replace_all [13] [] text in
  let safe := replace_all [92] [92; 92] safe in
  let safe := replace_all [39] [92; 39] safe in
  let safe := replace_all [34] [92; 34] safe in
  replace_all [10] [92; 110] safe.

Definition unescape_js (text : jsstring) : jsstring :=
  let unescaped := replace_all [92; 110] [10] text in
  let unescaped := replace_all [92; 34] [34] unescaped in
  let unescaped := replace_all [92; 39] [39] unescaped in
  replace_all [92; 92] [92] unescaped.

(** The script text [encodeWcSettings] rebuilds. *)
Definition template (varName escaped : jsstring) : jsstring :=
  js "var " ++ varName ++ js " = JSON.parse( decodeURIComponent( '"
  ++ escaped ++ js "' ) );".

(** *** JSON values

    Objects keep their properties in enumeration order. *)

Section with_platform.

(** The platform's numbers, JSON codec and URL parser are parameters. *)
Variable number : Type.
Variable number_truthy : number -> bool.
Variable number_toString : number -> jsstring.

Inductive json :=
| JNull
| JBool (b : bool)
| JNumber (n : number)
| JString (s : jsstring)
| JArray (items : list json)
| JObject (props : list (jsstring * json)).

Variable JSON_parse : jsstring -> result json.
Variable JSON_stringify : json -> jsstring.
Variable URL_parse : jsstring -> option URL.

(** ToBoolean *)
Definition truthy_json (v : json) : bool :=
  match v with
  | JNull => false
  | JBool b => b
  | JNumber n => number_truthy n
  | JString s => Loader.nonempty s
  | JArray _ | JObject _ => true
  end.

Fixpoint join_with (sep : jsstring) (l : list jsstring) : jsstring :=
  match l with
  | [] => []
  | [x] => x
  | x :: l' => x ++ sep ++ join_with sep l'
  end.

(** ToString, as applied by [new URL(value)] to a value that is not a
    string. *)
Fixpoint to_string (v : json) : jsstring :=
  match v with
  | JNull => js "null"
  | JBool true => js "true"
  | JBool false => js "false"
  | JNumber n => number_toString n
  | JString s => s
  | JArray l =>
      join_with (js ",")
        ((fix elems (l : list json) : list jsstring :=
            match l with
            | [] => []
            | JNull :: l' => [] :: elems l'
            | x :: l' => to_string x :: elems l'
            end) l)
  | JObject _ => js "[object Object]"
  end.

(** [new URL(value)] *)
Definition new_URL (v : json) : result URL :=
  match URL_parse (to_string v) with
  | Some u => Ok u
  | None => Throw TypeError
  end.

Fixpoint lookup (props : list (jsstring * json)) (k : jsstring) : option json :=
  match props with
  | [] => None
  | (k', v) :: props' => if str_eqb k k' then Some v else lookup props' k
  end.

(** [obj[k] = v]: an existing property keeps its place. *)
Fixpoint assign (props : list (jsstring * json)) (k : jsstring) (v : json)
  : list (jsstring * json) :=
  match props with
  | [] => [(k, v)]
  | (k', v') :: props' =>
      if str_eqb k k' then (k', v) :: props' else (k', v') :: assign props' k v
  end.

(** [v.k] on a value that is not [null]: only objects carry the properties
    this module reads. *)
Definition get (v : json) (k : jsstring) : option json :=
  match v with
  | JObject props => lookup props k
  | _ => None
  end.

Definition truthy_prop (v : json) (k : jsstring) : option json :=
  match get v k with
  | Some x => if truthy_json x then Some x else None
  | None => None
  end.

(** [Object.entries(v)] and [for (k in v)]: the enumerable properties. *)
Definition entries (v : json) : list (jsstring * json) :=
  match v with
  | JObject props => props
  | JArray l =>
      combine (map Loader.number_to_js (seq 0 (length l))) l
  | JString s =>
      combine (map Loader.number_to_js (seq 0 (length s)))
              (map (fun c => JString [c]) s)
  | _ => []
  end.

Section mutation.

Variable frontendUrl : jsstring.
Variable instance : jsstring.
Variable rewriteLoginUrl : bool.

(** One store page: [permalink] becomes the frontend URL plus the path. *)
Definition rewrite_page (page : json) : result json :=
  match page with
  | JObject props =>
      match truthy_prop page (js "permalink") with
      | Some originalUrl =>
          url ← new_URL originalUrl;
          Ok (JObject (assign props (js "permalink")
                         (JString (frontendUrl ++ pathname url))))
      | None => Ok page
      end
  | _ => Ok page
  end.

(** Step 1: every enumerable property of [storePages]. *)
Definition rewrite_storePages (sp : json) : result json :=
  match sp with
  | JObject props =>
      props' ← mapM (fun kv => v ← rewrite_page (snd kv); Ok (fst kv, v)) props;
      Ok (JObject props')
  | JArray l => l' ← mapM rewrite_page l; Ok (JArray l')
  | _ => Ok sp
  end.

(** A URL-valued property rewritten inside its own [try]: a parse failure
    keeps the original value. *)
Definition rewrite_guarded (props : list (jsstring * json)) (k : jsstring)
    (f : URL -> jsstring) : list (jsstring * json) :=
  match truthy_prop (JObject props) k with
  | Some originalUrl =>
      match new_URL originalUrl with
      | Ok url => assign props k (JString (f url))
      | Throw _ => props
      end
  | None => props
  end.

(** One REST route. *)
Definition rewrite_route (value : json) : json :=
  match value with
  | JString s =>
      let path := replace_origin s [] in
      JString (frontendUrl ++ js "/atx/" ++ instance ++ js "/wp-json"
               ++ remove_first (js "/wp-json") path)
  | _ => value
  end.

(** [newRoutes[key] = ...] on a fresh object: [__proto__] never becomes an
    own property. *)
Definition rewrite_routes (routes : json) : json :=
  JObject (map (fun kv => (fst kv, rewrite_route (snd kv)))
               (filter (fun kv => negb (str_eqb (fst kv) (js "__proto__")))
                       (entries routes))).

(** Step 4: [wcBlocksConfig]. *)
Definition rewrite_wcBlocksConfig (cfg : json) : json :=
  match cfg with
  | JObject props =>
      let props := rewrite_guarded props (js "pluginUrl")
                     (fun url => frontendUrl ++ js "/atx/" ++ instance
                                 ++ js "/wp-assets" ++ pathname url) in
      let props := rewrite_guarded props (js "productImages")
                     (fun url => frontendUrl ++ js "/atx/" ++ instance
                                 ++ js "/wp-assets" ++ pathname url) in
      let props := match truthy_prop (JObject props) (js "homeUrl") with
                   | Some _ => assign props (js "homeUrl") (JString frontendUrl)
                   | None => props
                   end in
      let props := match truthy_prop (JObject props) (js "restApiRoutes") with
                   | Some routes => assign props (js "restApiRoutes") (rewrite_routes routes)
                   | None => props
                   end in
      JObject props
  | _ => cfg
  end.

(** Step 5: [stripe_settings]. *)
Definition rewrite_stripe (st : json) : json :=
  match st with
  | JObject props =>
      let props := rewrite_guarded props (js "stripe_return_url")
                     (fun url => frontendUrl ++ pathname url ++ search url) in
      let props := rewrite_guarded props (js "stripe_checkout_url")
                     (fun url => frontendUrl ++ pathname url ++ search url) in
      JObject props
  | _ => st
  end.

(** The body of the [try] between the clone and the re-encoding. *)
Definition mutate (transformed : json) : result json :=
  match transformed with
  | JNull => Throw TypeError
  | JObject props =>
      (* 1. storePages *)
      props ← match truthy_prop (JObject props) (js "storePages") with
               | Some sp => sp' ← rewrite_storePages sp;
                            Ok (assign props (js "storePages") sp')
               | None => Ok props
               end;
      (* 2. homeUrl *)
      let props := match truthy_prop (JObject props) (js "homeUrl") with
                   | Some (JString _) => assign props (js "homeUrl") (JString frontendUrl)
                   | _ => props
                   end in
      (* 3. dashboardUrl *)
      let props := match truthy_prop (JObject props) (js "dashboardUrl") with
                   | Some (JString originalUrl) =>
                       match URL_parse originalUrl with
                       | Some url =>
                           assign props (js "dashboardUrl")
                                  (JString (frontendUrl ++ pathname url))
                       | None =>
                           assign props (js "dashboardUrl")
                                  (JString (replace_origin originalUrl frontendUrl))
                       end
                   | _ => props
                   end in
      (* 4. wcBlocksConfig *)
      let props := match truthy_prop (JObject props) (js "wcBlocksConfig") with
                   | Some cfg => assign props (js "wcBlocksConfig")
                                        (rewrite_wcBlocksConfig cfg)
                   | None => props
                   end in
      (* 5. stripe_settings *)
      let props := match truthy_prop (JObject props) (js "stripe_settings") with
                   | Some st => assign props (js "stripe_settings") (rewrite_stripe st)
                   | None => props
                   end in
      (* 6. wpLoginUrl *)
      let props := if rewriteLoginUrl then
                     match truthy_prop (JObject props) (js "wpLoginUrl") with
                     | Some _ => assign props (js "wpLoginUrl")
                                        (JString (frontendUrl ++ js "/login"))
                     | None => props
                     end
                   else props in
      Ok (JObject props)
  | _ => Ok transformed
  end.

End mutation.

(** *** The codec *)

Definition decodeWcSettings (beforeScript : jsstring) : result (json * jsstring) :=
  match first_match decode_call_at beforeScript with
  | None =>
      Throw (JsError (js "[decodeWcSettings] Could not find encoded string in beforeScript"))
  | Some encodedString =>
      let unescaped := unescape_js encodedString in
      decodedJson ← decodeURIComponent unescaped;
      target ← JSON_parse decodedJson;
      Ok (target, encodedString)
  end.

Definition encodeWcSettings (beforeScript _encodedString : jsstring) (transformed : json)
  : result jsstring :=
  let json_text := JSON_stringify transformed in
  urlEncoded ← encodeURIComponent json_text;
  let escaped := esc_js urlEncoded in
  match first_match var_decl_at beforeScript with
  | None => Throw (JsError (js "[encodeWcSettings] Could not find variable declaration"))
  | Some varName => Ok (template varName escaped)
  end.

(** The body of the [try] block of [transformWcSettings]. *)
Definition try_transform (beforeScript frontendUrl instance : jsstring)
    (rewriteLoginUrl : bool) : result jsstring :=
  '(target, encodedString) ← decodeWcSettings beforeScript;
  transformed ← JSON_parse (JSON_stringify target);
  transformed ← mutate frontendUrl instance rewriteLoginUrl transformed;
  encodeWcSettings beforeScript encodedString transformed.

(** [transformWcSettings]: the [catch] logs and returns the input. *)
Definition transformWcSettings (beforeScript frontendUrl instance : jsstring)
    (rewriteLoginUrl : bool) : jsstring :=
  match try_transform beforeScript frontendUrl instance rewriteLoginUrl with
  | Ok s => s
  | Throw _ => beforeScript
  end.

End with_platform.

Arguments JNull {number}.
Arguments JBool {number} b.
Arguments JNumber {number} n.
Arguments JString {number} s.
Arguments JArray {number} items.
Arguments JObject {number} props.

End WcSettings.

(** ** A reference platform

    Concrete stand-ins for the platform parameters, used to run the models on
    concrete inputs: integers for numbers, a JSON reader and writer for the
    JSON texts whose numbers are integer literals (other number forms are
    rejected as outside the reference model), and [Loader.plain_URL_parse]. *)

Module Reference.
Import WcSettings.

Definition int_to_js (z : Z) : jsstring :=
  match Z.to_int z with
  | Decimal.Pos u => Loader.uint_to_js u
  | Decimal.Neg u => 45 :: Loader.uint_to_js u
  end.

Definition value : Type := json Z.

Definition is_json_space (c : Z) : bool :=
  (c =? 32) || (c =? 9) || (c =? 10) || (c =? 13).

Definition skip_ws (s : jsstring) : jsstring := snd (span is_json_space s).

Definition is_digit (c : Z) : bool := (48 <=? c) && (c <=? 57).

Definition digits_value (ds : jsstring) : Z :=
  fold_left (fun acc d => acc * 10 + (d - 48)) ds 0.

(** An integer literal at the head of [s]. *)
Definition parse_int (s : jsstring) : result (Z * jsstring) :=
  let '(neg, s1) := match s with
                    | 45 :: r => (true, r)
                    | _ => (false, s)
                    end in
  let '(ds, rest) := match s1 with
                     | 48 :: r => ([48], r)
                     | _ => span is_digit s1
                     end in
  match ds with
  | [] => Throw SyntaxError
  | _ =>
      match rest with
      | c :: _ =>
          if (c =? 46) || (c =? 101) || (c =? 69)
          then Throw (JsError (js "number form outside the reference model"))
          else Ok (if neg then - digits_value ds else digits_value ds, rest)
      | [] => Ok (if neg then - digits_value ds else digits_value ds, rest)
      end
  end.

(** The body of a string literal, after the opening quote. *)
Fixpoint parse_string (s : jsstring) : result (jsstring * jsstring) :=
  match s with
  | [] => Throw SyntaxError
  | c :: r =>
      if c =? 34 then Ok ([], r)
      else if c <? 32 then Throw SyntaxError
      else if c =? 92 then
        match r with
        | e :: r1 =>
            if e =? 117 then
              match r1 with
              | h1 :: h2 :: h3 :: h4 :: r2 =>
                  match Uri.hex_value h1, Uri.hex_value h2,
                        Uri.hex_value h3, Uri.hex_value h4 with
                  | Some a, Some b, Some c', Some d =>
                      '(t, rest) ← parse_string r2;
                      Ok (((a * 16 + b) * 16 + c') * 16 + d :: t, rest)
                  | _, _, _, _ => Throw SyntaxError
                  end
              | _ => Throw SyntaxError
              end
            else
              let unescaped :=
                if e =? 34 then Some 34 else if e =? 92 then Some 92
                else if e =? 47 then Some 47 else if e =? 98 then Some 8
                else if e =? 102 then Some 12 else if e =? 110 then Some 10
                else if e =? 114 then Some 13 else if e =? 116 then Some 9
                else None in
              match unescaped with
              | Some u => '(t, rest) ← parse_string r1; Ok (u :: t, rest)
              | None => Throw SyntaxError
              end
        | [] => Throw SyntaxError
        end
      else '(t, rest) ← parse_string r; Ok (c :: t, rest)
  end.

Definition expect (lit : jsstring) (v : value) (s : jsstring) : result (value * jsstring) :=
  match after_prefix lit s with
  | Some rest => Ok (v, rest)
  | None => Throw SyntaxError
  end.

Fixpoint parse_value (fuel : nat) (s : jsstring) : result (value * jsstring) :=
  match fuel with
  | O => Throw SyntaxError
  | S fuel =>
      match skip_ws s with
      | [] => Throw SyntaxError
      | c :: r =>
          if c =? 110 then expect (js "null") JNull (c :: r)
          else if c =? 116 then expect (js "true") (JBool true) (c :: r)
          else if c =? 102 then expect (js "false") (JBool false) (c :: r)
          else if c =? 34 then '(t, rest) ← parse_string r; Ok (JString t, rest)
          else if c =? 91 then
            match skip_ws r with
            | 93 :: rest => Ok (JArray [], rest)
            | _ => '(l, rest) ← parse_elements fuel r; Ok (JArray l, rest)
            end
          else if c =? 123 then
            match skip_ws r with
            | 125 :: rest => Ok (JObject [], rest)
            | _ => '(m, rest) ← parse_members fuel r; Ok (JObject m, rest)
            end
          else '(z, rest) ← parse_int (c :: r); Ok (JNumber z, rest)
      end
  end
with parse_elements (fuel : nat) (s : jsstring) : result (list value * jsstring) :=
  match fuel with
  | O => Throw SyntaxError
  | S fuel =>
      '(v, r) ← parse_value fuel s;
      match skip_ws r with
      | 44 :: r1 => '(l, rest) ← parse_elements fuel r1; Ok (v :: l, rest)
      | 93 :: rest => Ok ([v], rest)
      | _ => Throw SyntaxError
      end
  end
with parse_members (fuel : nat) (s : jsstring)
  : result (list (jsstring * value) * jsstring) :=
  match fuel with
  | O => Throw SyntaxError
  | S fuel =>
      match skip_ws s with
      | 34 :: r =>
          '(k, r1) ← parse_string r;
          match skip_ws r1 with
          | 58 :: r2 =>
              '(v, r3) ← parse_value fuel r2;
              match skip_ws r3 with
              | 44 :: r4 => '(m, rest) ← parse_members fuel r4; Ok ((k, v) :: m, rest)
              | 125 :: rest => Ok ([(k, v)], rest)
              | _ => Throw SyntaxError
              end
          | _ => Throw SyntaxError
          end
      | _ => Throw SyntaxError
      end
  end.

(** Canonical array indices enumerate first, in ascending order. *)
Definition index_key (k : jsstring) : option Z :=
  match k with
  | [48] => Some 0
  | c :: _ =>
      if (49 <=? c) && (c <=? 57) && forallb is_digit k
         && (digits_value k <? 4294967295)
      then Some (digits_value k) else None
  | [] => None
  end.

Fixpoint insert_index (i : Z) (kv : jsstring * value) (l : list (Z * (jsstring * value)))
  : list (Z * (jsstring * value)) :=
  match l with
  | [] => [(i, kv)]
  | (j, kv') :: l' => if i <? j then (i, kv) :: l else (j, kv') :: insert_index i kv l'
  end.

(** Property order of an object built by successive assignments. *)
Definition ordered (props : list (jsstring * value)) : list (jsstring * value) :=
  let merged := fold_left (fun acc kv => assign Z acc (fst kv) (snd kv)) props [] in
  let indexed := fold_left (fun acc kv => match index_key (fst kv) with
                                          | Some i => insert_index i kv acc
                                          | None => acc
                                          end) merged [] in
  map snd indexed
  ++ filter (fun kv => match index_key (fst kv) with Some _ => false | None => true end)
            merged.

Fixpoint normalize (v : value) : value :=
  match v with
  | JArray l => JArray (map normalize l)
  | JObject props =>
      JObject (ordered ((fix props_norm (l : list (jsstring * value)) :=
                           match l with
                           | [] => []
                           | (k, x) :: l' => (k, normalize x) :: props_norm l'
                           end) props))
  | _ => v
  end.

Definition JSON_parse (s : jsstring) : result value :=
  '(v, rest) ← parse_value (S (length s)) s;
  match skip_ws rest with
  | [] => Ok (normalize v)
  | _ => Throw SyntaxError
  end.

Definition hex_lower (v : Z) : Z := if v <? 10 then 48 + v else 97 + (v - 10).

Definition unicode_escape (c : Z) : jsstring :=
  [92; 117; hex_lower (c / 4096); hex_lower ((c / 256) mod 16);
   hex_lower ((c / 16) mod 16); hex_lower (c mod 16)].

(** [QuoteJSONString] without the surrounding quotes. *)
Fixpoint quote_body (s : jsstring) : jsstring :=
  match s with
  | [] => []
  | c :: r =>
      if c =? 34 then 92 :: 34 :: quote_body r
      else if c =? 92 then 92 :: 92 :: quote_body r
      else if c =? 8 then 92 :: 98 :: quote_body r
      else if c =? 12 then 92 :: 102 :: quote_body r
      else if c =? 10 then 92 :: 110 :: quote_body r
      else if c =? 13 then 92 :: 114 :: quote_body r
      else if c =? 9 then 92 :: 116 :: quote_body r
      else if c <? 32 then unicode_escape c ++ quote_body r
      else if Codec.is_high_surrogate c then
        match r with
        | d :: r' =>
            if Codec.is_low_surrogate d then c :: d :: quote_body r'
            else unicode_escape c ++ quote_body r
        | [] => unicode_escape c
        end
      else if Codec.is_low_surrogate c then unicode_escape c ++ quote_body r
      else c :: quote_body r
  end.

Definition quote (s : jsstring) : jsstring := 34 :: quote_body s ++ [34].

Fixpoint JSON_stringify (v : value) : jsstring :=
  match v with
  | JNull => js "null"
  | JBool true => js "true"
  | JBool false => js "false"
  | JNumber z => int_to_js z
  | JString s => quote s
  | JArray l =>
      91 :: join_with (js ",") (map JSON_stringify l) ++ [93]
  | JObject props =>
      123 :: join_with (js ",")
               ((fix members (l : list (jsstring * value)) : list jsstring :=
                   match l with
                   | [] => []
                   | (k, x) :: l' => (quote k ++ 58 :: JSON_stringify x) :: members l'
                   end) props)
          ++ [125]
  end.

Definition transformWcSettings : jsstring -> jsstring -> jsstring -> bool -> jsstring :=
  WcSettings.transformWcSettings Z (fun z => negb (z =? 0)) int_to_js
    JSON_parse JSON_stringify Loader.plain_URL_parse.

Definition try_transform : jsstring -> jsstring -> jsstring -> bool -> result jsstring :=
  WcSettings.try_transform Z (fun z => negb (z =? 0)) int_to_js
    JSON_parse JSON_stringify Loader.plain_URL_parse.

Definition decodeWcSettings : jsstring -> result (value * jsstring) :=
  WcSettings.decodeWcSettings Z JSON_parse.

Definition encodeWcSettings : jsstring -> jsstring -> value -> result jsstring :=
  WcSettings.encodeWcSettings Z JSON_stringify.

(** A small payload. *)
Definition home_payload : Reference.value :=
  JObject [(js "homeUrl", JString (js "https://shop.test"))].

End Reference.

(** ** The proxy middleware: [isProxiedRoute] and [proxyByWCR]

    The middleware answers a request from its path alone.  The instance
    registry ([getWPInstance]), the regular expressions it builds from the
    slug at run time and the salt of the environment belong to the platform
    and are parameters. *)

Module Proxy.
Import Codec WcSettings.

(** [/^\/atx\/([^/?]+)/]: the capture group. *)
Definition extractSlugFromPath (pathname : jsstring) : option jsstring :=
  match after_prefix (js "/atx/") pathname with
  | Some r =>
      match span (fun c => negb ((c =? 47) || (c =? 63))) r with
      | ((_ :: _) as slug, _) => Some slug
      | _ => None
      end
  | None => None
  end.

(** [/^\/atx\/[^/]+/]: what follows the instance segment. *)
Definition after_instance (pathname : jsstring) : option jsstring :=
  match after_prefix (js "/atx/") pathname with
  | Some r =>
      match span (fun c => negb (c =? 47)) r with
      | (_ :: _, rest) => Some rest
      | _ => None
      end
  | None => None
  end.

(** [/^\/atx\/[^/]+TAIL$/] *)
Definition route_is (tail pathname : jsstring) : bool :=
  match after_instance pathname with
  | Some rest => str_eqb rest tail
  | None => false
  end.

(** [/^\/atx\/[^/]+TAIL/] *)
Definition route_under (tail pathname : jsstring) : bool :=
  match after_instance pathname with
  | Some rest => is_prefix tail rest
  | None => false
  end.

Definition isProxiedRoute (pathname : jsstring) : bool :=
  route_is (js "/proxiee") pathname
  || route_under (js "/wp-internal-assets/") pathname
  || route_under (js "/wp-assets/") pathname
  || route_under (js "/wp-json/") pathname
  || route_is (js "/wp") pathname
  || route_is (js "/wc") pathname.

(** What [.] does not match. *)
Definition is_line_terminator (c : Z) : bool :=
  (c =? 10) || (c =? 13) || (c =? 0x2028) || (c =? 0x2029).

(** [GetSubstitution] for a pattern with one capture group: [$$], [$&],
    [$`], [$'], [$1] and [$01] are expanded, any other [$] stands for
    itself. *)
Fixpoint get_substitution1 (matched before after capture replacement : jsstring)
  : jsstring :=
  match replacement with
  | [] => []
  | c :: r =>
      if c =? 36 then
        match r with
        | d :: r' =>
            if d =? 36 then 36 :: get_substitution1 matched before after capture r'
            else if d =? 38 then matched ++ get_substitution1 matched before after capture r'
            else if d =? 96 then before ++ get_substitution1 matched before after capture r'
            else if d =? 39 then after ++ get_substitution1 matched before after capture r'
            else if d =? 49 then capture ++ get_substitution1 matched before after capture r'
            else if d =? 48 then
              match r' with
              | e :: r'' =>
                  if e =? 49
                  then capture ++ get_substitution1 matched before after capture r''
                  else 36 :: get_substitution1 matched before after capture r
              | [] => 36 :: get_substitution1 matched before after capture r
              end
            else 36 :: get_substitution1 matched before after capture r
        | [] => [36]
        end
      else c :: get_substitution1 matched before after capture r
  end.

(** [nextPath.replace(pattern, replacement)] where the pattern is
    [^\/atx\/[^/]+TAIL] followed by a capture group for the rest of the
    line. *)
Definition replace_route (tail replacement nextPath : jsstring) : jsstring :=
  match after_instance nextPath with
  | Some rest =>
      match after_prefix tail rest with
      | Some r =>
          let '(capture, after) := span (fun c => negb (is_line_terminator c)) r in
          let matched := firstn (length nextPath - length after) nextPath in
          get_substitution1 matched [] after capture replacement ++ after
      | None => nextPath
      end
  | None => nextPath
  end.

(** The fields of an instance configuration the middleware reads. *)
Record Instance := {
  wpHomeUrl : jsstring;
  wpSiteUrl : jsstring
}.

Record Request := {
  nextPath : jsstring;                (* [request.nextUrl.pathname] *)
  method : jsstring;
  params : jsstring;                  (* [new URL(request.url).searchParams.toString()] *)
  has_body : bool                     (* [request.body] is not [null] *)
}.

Inductive Response :=
(* [NextResponse.next], with the [x-url] request header set *)
| Next
(* [new NextResponse('WordPress instance not found', { status: 404 })] *)
| NotFound
(* [NextResponse.json({ d })] *)
| Json (d : jsstring)
| Rewrite (target : jsstring)
(* the backend's response to [fetch(backendRoute, ...)], relayed *)
| Forward (backendRoute method : jsstring) (with_body duplex : bool).

Section with_platform.

(** [getWPInstance(slug)]; it throws for an unknown slug. *)
Variable getWPInstance : jsstring -> result Instance.
(** [new RegExp(source).test(input)]; the constructor throws on a source
    that is not a pattern. *)
Variable RegExp_test : jsstring -> jsstring -> result bool.
(** [process.env.NEXTPRESS_SALT] *)
Variable NEXTPRESS_SALT : option jsstring.

Definition salt : jsstring :=
  match or_else NEXTPRESS_SALT (Some (js "nextpress-default-salt")) with
  | Some s => s
  | None => []
  end.

Definition has_payload (req : Request) : bool :=
  negb (str_eqb (method req) (js "GET")) && negb (str_eqb (method req) (js "HEAD")).

(** The [fetch] of a backend route and the relay of its response. *)
Definition forward (req : Request) (backendRoute : jsstring) : Response :=
  Forward backendRoute (method req) (has_payload req) (has_payload req && has_body req).

Definition proxyByWCR (req : Request) : result Response :=
  let nextPath := nextPath req in
  if negb (isProxiedRoute nextPath) then Ok Next
  else
    match extractSlugFromPath nextPath with
    | None => Ok Next
    | Some slug =>
        match getWPInstance slug with
        | Throw _ => Ok NotFound
        | Ok instance =>
            isBackendUrl ← RegExp_test (js "^/atx/" ++ slug ++ js "/proxiee$") nextPath;
            if isBackendUrl && str_eqb (method req) (js "POST") then
              Ok (Json (encodeWithSalt (wpHomeUrl instance) salt))
            else if route_under (js "/wp-internal-assets/") nextPath then
              Ok (Rewrite (replace_route (js "/wp-internal-assets/")
                             (wpSiteUrl instance ++ js "/$1") nextPath))
            else if route_under (js "/wp-assets/") nextPath then
              Ok (Rewrite (replace_route (js "/wp-assets/")
                             (wpHomeUrl instance ++ js "/$1") nextPath))
            else if route_under (js "/wp-json/") nextPath then
              Ok (forward req
                    (replace_route (js "/wp-json/")
                       (wpHomeUrl instance ++ js "/wp-json/$1?" ++ params req) nextPath))
            else
              isWpAjax ← RegExp_test (js "^/atx/" ++ slug ++ js "/wp$") nextPath;
              isWcAjax ← RegExp_test (js "^/atx/" ++ slug ++ js "/wc$") nextPath;
              if isWpAjax || isWcAjax then
                if isWcAjax
                then Ok (forward req (wpHomeUrl instance ++ js "/?" ++ params req))
                else Ok (forward req (wpSiteUrl instance
                                      ++ js "/wp-admin/admin-ajax.php?" ++ params req))
              else Ok Next
        end
    end.

End with_platform.

(** A reference for the run-time patterns: a source [^TEXT$] whose [TEXT]
    has no pattern syntax character matches exactly [TEXT]. *)
Definition is_syntax_character (c : Z) : bool :=
  existsb (Z.eqb c) (js "^$\.*+?()[]{}|").

Definition literal_RegExp_test (source input : jsstring) : result bool :=
  let outside := Throw (JsError (js "pattern outside the reference model")) in
  match source with
  | c :: r =>
      match rev r with
      | d :: body =>
          if (c =? 94) && (d =? 36) && forallb (fun x => negb (is_syntax_character x)) body
          then Ok (str_eqb input (rev body))
          else outside
      | [] => outside
      end
  | [] => outside
  end.

End Proxy.

(** ** Resolving the backend origin: [getBackendUrl]

    The body loader asks the middleware for the backend origin once per
    instance and keeps the answer in [BackendUrlCache]. *)

Module Backend.
Import Codec.

(** How the [POST] to [/atx/{instance}/proxiee] ended: the [fetch] or the
    reading of the JSON body rejected, or a response arrived with its [ok]
    flag and the text of the [d] field of its body. *)
Inductive Fetched :=
| Rejected
| Responded (ok : bool) (d : jsstring).

(** [process.env.wcr_salt || 'nextpress-default-salt'] *)
Definition salt (wcr_salt : option jsstring) : jsstring :=
  match or_else wcr_salt (Some (js "nextpress-default-salt")) with
  | Some s => s
  | None => []
  end.

(** [getBackendUrl]: the resolved origin ([None]: the promise rejected) and
    the cache afterwards.  [fetched] is consulted only on a cache miss. *)
Definition getBackendUrl (wcr_salt : option jsstring)
    (BackendUrlCache : JsMap.t jsstring) (instance : jsstring) (fetched : Fetched)
  : option jsstring * JsMap.t jsstring :=
  if JsMap.has BackendUrlCache instance
  then (JsMap.get BackendUrlCache instance, BackendUrlCache)
  else
    match fetched with
    | Rejected => (None, BackendUrlCache)
    | Responded ok d =>
        if ok then
          match decodeWithSalt d (salt wcr_salt) with
          | Some backendUrl =>
              (Some backendUrl, JsMap.set BackendUrlCache instance backendUrl)
          | None => (None, BackendUrlCache)
          end
        else (None, BackendUrlCache)
    end.

End Backend.

(** ** Mounting the loaders

    What the effect of each component does when it first runs: the filter
    by location, the resolver, and the start of the callback chain.  The
    body component is given [waitFor] and the outcome of [getBackendUrl]
    ([None]: the promise rejected). *)

Module Mount.
Import Sort Loader.

Definition is_header (script : EnqueuedScript) : bool :=
  match location script with Some HEADER => true | _ => false end.

Definition is_footer (script : EnqueuedScript) : bool :=
  match location script with Some FOOTER => true | _ => false end.

Section with_platform.

Variable URL_parse : jsstring -> option URL.
Variable replaceProxyPlaceholders : jsstring -> jsstring -> jsstring.

Definition head_fire (instance : jsstring) (ev : Terminal) (st : State) : State :=
  match ev with
  | Load => head_on_load URL_parse instance st
  | Error => head_on_error URL_parse instance st
  end.

Definition head_start (instance : jsstring) (sortedScripts : list EnqueuedScript)
    (cache : gset jsstring) : State :=
  head_loadNextScript URL_parse instance sortedScripts (initial cache).

(** [HeadScripts]: the state once the effect has run. *)
Definition HeadScripts (scripts : list EnqueuedScript) (instance : jsstring)
    (cache : gset jsstring) : State :=
  match filter is_header scripts with
  | [] => emit OnComplete (initial cache)
  | headerScripts =>
      match sortScriptsByDependencies headerScripts with
      | Some r => head_start instance (sortedScripts r) cache
      | None => initial cache
      end
  end.

(** [BodyScripts]: the state once the effect has run and the backend origin
    has been resolved, or has failed to. *)
Definition BodyScripts (scripts : list EnqueuedScript) (instance : jsstring)
    (waitFor : bool) (backendUrl : option jsstring) (cache : gset jsstring) : State :=
  if waitFor then
    match filter is_footer scripts with
    | [] => body_complete (initial cache)
    | footerScripts =>
        match sortScriptsByDependencies footerScripts with
        | Some r =>
            body_start URL_parse replaceProxyPlaceholders instance backendUrl
              (sortedScripts r) cache
        | None => initial cache
        end
    end
  else initial cache.

(** The terminal events [evs] fired on a mounted component, in order. *)
Definition head_events (instance : jsstring) (evs : list Terminal) (st : State) : State :=
  fold_left (fun st ev => head_fire instance ev st) evs st.

Definition body_events (instance : jsstring) (backendUrl : option jsstring)
    (evs : list Terminal) (st : State) : State :=
  fold_left (fun st ev => body_fire URL_parse replaceProxyPlaceholders instance
                            backendUrl ev st) evs st.

End with_platform.

(** *** The bookkeeping of a phase

    [tracked target sorted st]: [st] is a state of a phase over [sorted]
    whose main elements load [target script]: the index is within the list,
    every descriptor already passed has its key in the cache or is the one
    in flight, the listener holds the rest of the list, and the attached
    elements are the targets of their descriptors, in increasing order. *)
Record tracked (target : EnqueuedScript -> jsstring) (sorted : list EnqueuedScript)
    (st : State) : Prop := {
  tr_index : (currentIndex st <= length sorted)%nat;
  tr_cached :
    forall i s, nth_error sorted i = Some s -> (i < currentIndex st)%nat ->
      cacheKey s (S i) ∈ LoadCache st \/
      exists l, pending st = Some l /\ l_asset l = S i /\ l_cacheKey l = cacheKey s (S i);
  tr_pending :
    forall l, pending st = Some l ->
      l_rest l = skipn (currentIndex st) sorted /\ l_asset l = currentIndex st;
  tr_attached :
    forall n s', In (n, s') (attached st) ->
      (n <= currentIndex st)%nat /\
      exists s, nth_error sorted (Nat.pred n) = Some s /\ n <> 0%nat /\
                s' = target s /\ nonempty s' = true;
  tr_order : StronglySorted lt (map fst (attached st))
}.

End Mount.

(** ** Proxy placeholders: [replaceProxyPlaceholders] and [processWcSettings]

    The WordPress plugin writes page URLs under the host
    [__NEXTPRESS_PROXY__] and asset URLs under [__NEXTPRESS_ASSETS__]; the
    client puts the frontend origin and the proxy route of the instance in
    their place.  [frontendOrigin] stands for [window.location.origin]
    (empty where there is no [window]). *)

Module Placeholders.
Import WcSettings.

(** [s.includes(needle)] on strings. *)
Fixpoint contains (needle s : jsstring) : bool :=
  is_prefix needle s ||
  match s with
  | [] => false
  | _ :: s' => contains needle s'
  end.

(** An escaped or a plain slash at the head: what follows it. *)
Definition slash_at (s : jsstring) : option jsstring :=
  match s with
  | c :: r =>
      if c =? 92 then
        match r with
        | d :: r' => if d =? 47 then Some r' else None
        | [] => None
        end
      else if c =? 47 then Some r
      else None
  | [] => None
  end.

(** [https?:] at the head: what follows it. *)
Definition scheme_at (s : jsstring) : option jsstring :=
  match after_prefix (js "http") s with
  | Some (c :: r) =>
      if c =? 115 then
        match r with
        | d :: r' => if d =? 58 then Some r' else None
        | [] => None
        end
      else if c =? 58 then Some r
      else None
  | _ => None
  end.

(** The pattern of [replaceProxyPlaceholders] for [marker] -- the scheme,
    two slashes each escaped or not, the marker -- tried at the head of
    [s]: the number of code units matched. *)
Definition placeholder_at (marker s : jsstring) : option nat :=
  match scheme_at s with
  | Some r1 =>
      match slash_at r1 with
      | Some r2 =>
          match slash_at r2 with
          | Some r3 =>
              if is_prefix marker r3
              then Some (length s - length r3 + length marker)%nat
              else None
          | None => None
          end
      | None => None
      end
  | None => None
  end.

(** [text.replace(/\//g, '\\/')] *)
Definition escape_slashes (text : jsstring) : jsstring :=
  replace_all [47] [92; 47] text.

(** One global replacement with its callback: a match written with an
    escaped slash gets the replacement with its slashes escaped. *)
Definition replace_placeholder (marker replacement s : jsstring) : jsstring :=
  replace_matches
    (fun t =>
       match placeholder_at marker t with
       | Some n =>
           Some (n, if contains [92; 47] (firstn n t)
                    then escape_slashes replacement else replacement)
       | None => None
       end) O s.

Definition replaceProxyPlaceholders (frontendOrigin content instance : jsstring)
  : jsstring :=
  match content with
  | [] => content
  | _ =>
      let proxyRouteBase := js "/atx/" ++ instance in
      let result := content in
      let result :=
        if contains (js "__NEXTPRESS_PROXY__") result
        then replace_placeholder (js "__NEXTPRESS_PROXY__") frontendOrigin result
        else result in
      let result :=
        if contains (js "__NEXTPRESS_ASSETS__") result
        then replace_placeholder (js "__NEXTPRESS_ASSETS__") proxyRouteBase result
        else result in
      result
  end.

(** The pattern of [processValue] for [marker]: the scheme, [//], the
    marker. *)
Definition plain_placeholder_at (marker s : jsstring) : option nat :=
  match scheme_at s with
  | Some r1 =>
      if is_prefix (js "//" ++ marker) r1
      then Some (length s - length r1 + 2 + length marker)%nat
      else None
  | None => None
  end.

(** [s.replace(pattern, replacement)] for a pattern without the [g] flag
    and without capture groups: the leftmost match only. *)
Fixpoint replace_first (m : jsstring -> option nat) (replacement before s : jsstring)
  : jsstring :=
  match m s with
  | Some n => get_substitution (firstn n s) before (skipn n s) replacement ++ skipn n s
  | None =>
      match s with
      | [] => []
      | c :: s' => c :: replace_first m replacement (before ++ [c]) s'
      end
  end.

Section with_platform.

Variable number : Type.
Variable number_truthy : number -> bool.
Variable frontendOrigin instance : jsstring.

(** [processValue] on the values [JSON.parse] builds.  An own property
    named [__proto__] is not copied: the assignment [processed[key] = ...]
    reaches the prototype setter instead of creating a property. *)
Fixpoint processValue (value : json number) : json number :=
  match value with
  | JString s =>
      if contains (js "__NEXTPRESS_PROXY__") s then
        JString (replace_first (plain_placeholder_at (js "__NEXTPRESS_PROXY__"))
                   frontendOrigin [] s)
      else if contains (js "__NEXTPRESS_ASSETS__") s then
        JString (replace_first (plain_placeholder_at (js "__NEXTPRESS_ASSETS__"))
                   (js "/atx/" ++ instance) [] s)
      else value
  | JArray items => JArray (map processValue items)
  | JObject props =>
      JObject
        ((fix each (ps : list (jsstring * json number)) : list (jsstring * json number) :=
            match ps with
            | [] => []
            | (key, v) :: ps' =>
                if str_eqb key (js "__proto__") then each ps'
                else (key, processValue v) :: each ps'
            end) props)
  | _ => value
  end.

(** [processWcSettings]: the new [window.wcSettings], and whether the
    function warned that there was none. *)
Definition processWcSettings (wcSettings : option (json number))
  : option (json number) * bool :=
  match wcSettings with
  | Some settings =>
      if truthy_json number number_truthy settings
      then (Some (processValue settings), false)
      else (wcSettings, true)
  | None => (None, true)
  end.

End with_platform.

(** The eight ways to write the scheme and the two slashes in front of a
    placeholder host. *)
Definition url_prefixes : list jsstring :=
  [js "http://"; js "http:/\/"; js "http:\//"; js "http:\/\/";
   js "https://"; js "https:/\/"; js "https:\//"; js "https:\/\/"].

(** No string of [value] holds a placeholder and no object of it has a
    property named [__proto__]. *)
Fixpoint unmarked {number : Type} (value : json number) : bool :=
  match value with
  | JString s =>
      negb (contains (js "__NEXTPRESS_PROXY__") s)
      && negb (contains (js "__NEXTPRESS_ASSETS__") s)
  | JArray items => forallb unmarked items
  | JObject props =>
      (fix each (ps : list (jsstring * json number)) : bool :=
         match ps with
         | [] => true
         | (key, v) :: ps' =>
             negb (str_eqb key (js "__proto__")) && unmarked v && each ps'
         end) props
  | _ => true
  end.

End Placeholders.

(** ** The order of a loader phase in time *)

Module Sequence.
Import Loader.

(** [sequenced target cache0 sorted k st]: [st] is a state of a phase over
    [sorted], started with [cache0] in [LoadCache], after [k] terminal
    events.  At most one main element was attached per terminal event, plus
    the one in flight; the element in flight is the last one attached and
    belongs to the descriptor at the current index; the cache holds nothing
    but [cache0] and keys of descriptors already reached; and every
    descriptor already reached that has a target was attached, unless its
    key was in [cache0] or is the key of an earlier descriptor. *)
Record sequenced (target : EnqueuedScript -> jsstring) (cache0 : gset jsstring)
    (sorted : list EnqueuedScript) (k : nat) (st : State) : Prop := {
  sq_index : (currentIndex st <= length sorted)%nat;
  sq_count :
    (length (attached st)
     <= k + match pending st with Some _ => 1 | None => 0 end)%nat;
  sq_flight :
    forall l, pending st = Some l ->
      l_asset l = currentIndex st /\ l_asset l <> 0%nat /\
      l_rest l = skipn (currentIndex st) sorted /\
      exists pre script,
        attached st = pre ++ [(l_asset l, target script)] /\
        nth_error sorted (Nat.pred (l_asset l)) = Some script /\
        l_cacheKey l = cacheKey script (l_asset l);
  sq_cache :
    forall key, key ∈ LoadCache st ->
      key ∈ cache0 \/
      exists j s, (j < currentIndex st)%nat /\ nth_error sorted j = Some s /\
                  cacheKey s (S j) = key;
  sq_reached :
    forall i s, nth_error sorted i = Some s -> (i < currentIndex st)%nat ->
      nonempty (target s) = true ->
      In (S i, target s) (attached st) \/
      cacheKey s (S i) ∈ cache0 \/
      exists j s', (j < i)%nat /\ nth_error sorted j = Some s' /\
                   cacheKey s' (S j) = cacheKey s (S i)
}.

End Sequence.

(** ** Sample inputs *)

Module Samples.
Import Sort Loader WcSettings Proxy.

Definition shop : Instance :=
  {| wpHomeUrl := js "https://wp.example.com";
     wpSiteUrl := js "https://wp.example.com/core" |}.

(** A registry that knows the instance [default] only. *)
Definition registry (slug : jsstring) : result Instance :=
  if str_eqb slug (js "default") then Ok shop
  else Throw (JsError (js "unknown instance")).

(** A script that names a dependency missing from the list. *)
Definition missing_dependency : list EnqueuedScript :=
  [createScript (js "cart") [js "jquery"]; createScript (js "checkout") []].

(** Two scripts that depend on each other. *)
Definition mutual_cycle : list EnqueuedScript :=
  [createScript (js "a") [js "b"]; createScript (js "b") [js "a"]].


Definition store_settings : list (jsstring * Reference.value) :=
  [(js "homeUrl", JString (js "https://shop.test"));
   (js "adminUrl", JString (js "https://shop.test/wp-admin/"));
   (js "storePages",
    JObject [(js "cart",
              JObject [(js "id", JNumber 7);
                       (js "permalink", JString (js "https://shop.test/cart/"))])])].

Definition store_settings_out : list (jsstring * Reference.value) :=
  [(js "homeUrl", JString (js "http://localhost:3000"));
   (js "adminUrl", JString (js "https://shop.test/wp-admin/"));
   (js "storePages",
    JObject [(js "cart",
              JObject [(js "id", JNumber 7);
                       (js "permalink", JString (js "http://localhost:3000/cart/"))])])].

(** Settings with a store page whose permalink is not a URL. *)
Definition bad_permalink : list (jsstring * Reference.value) :=
  [(js "storePages",
    JObject [(js "cart", JObject [(js "permalink", JString (js "cart"))])])].

End Samples.

(** * Properties *)

(** ** Strings and maps *)

Lemma str_eqb_eq (a b : jsstring) : str_eqb a b = true <-> a = b.
Proof.
  revert b; induction a as [|x a IH]; intros [|y b]; simpl; split; try congruence.
  - rewrite andb_true_iff, Z.eqb_eq, IH. intros [-> ->]; reflexivity.
  - intros [= -> ->]. rewrite Z.eqb_refl. simpl. apply IH; reflexivity.
Qed.

Lemma str_eqb_refl (a : jsstring) : str_eqb a a = true.
Proof. apply str_eqb_eq; reflexivity. Qed.

Lemma str_eqb_neq (a b : jsstring) : str_eqb a b = false <-> a <> b.
Proof.
  rewrite <- str_eqb_eq. destruct (str_eqb a b); split; congruence.
Qed.

Lemma str_eqb_sym (a b : jsstring) : str_eqb a b = str_eqb b a.
Proof.
  destruct (str_eqb a b) eqn:E.
  - apply str_eqb_eq in E; subst; symmetry; apply str_eqb_refl.
  - symmetry; apply str_eqb_neq; apply str_eqb_neq in E; congruence.
Qed.

Lemma str_eq_dec (a b : jsstring) : {a = b} + {a <> b}.
Proof.
  destruct (str_eqb a b) eqn:E; [left; apply str_eqb_eq | right; apply str_eqb_neq]; exact E.
Defined.

Ltac str_cases a b :=
  let E := fresh "E" in
  destruct (str_eqb a b) eqn:E;
  [apply str_eqb_eq in E; try subst | apply str_eqb_neq in E].

Lemma includes_In (l : list jsstring) (h : jsstring) : includes l h = true <-> In h l.
Proof.
  unfold includes. rewrite existsb_exists. split.
  - intros (x & Hx & E). apply str_eqb_eq in E; subst; exact Hx.
  - intros H; exists h; split; [exact H | apply str_eqb_refl].
Qed.

Lemma includes_not_In (l : list jsstring) (h : jsstring) : includes l h = false <-> ~ In h l.
Proof.
  rewrite <- includes_In. destruct (includes l h); split; congruence.
Qed.

Module JsMapFacts.
Import JsMap.

Section facts.
Context {V : Type}.
Implicit Types (m : t V) (k : jsstring) (v : V).

Lemma get_set_eq m k v : get (set m k v) k = Some v.
Proof.
  induction m as [|[k' v'] m IH]; simpl.
  - rewrite str_eqb_refl; reflexivity.
  - destruct (str_eqb k k') eqn:E; simpl; rewrite E; [reflexivity | exact IH].
Qed.

Lemma get_set_ne m k k' v : k <> k' -> get (set m k v) k' = get m k'.
Proof.
  intros Hne. induction m as [|[k0 v0] m IH]; simpl.
  - apply not_eq_sym, str_eqb_neq in Hne. rewrite Hne; reflexivity.
  - destruct (str_eqb k k0) eqn:E; simpl.
    + apply str_eqb_eq in E; subst k0.
      apply not_eq_sym, str_eqb_neq in Hne. rewrite Hne; reflexivity.
    + rewrite IH; reflexivity.
Qed.

Lemma get_Some_In_keys m k v : get m k = Some v -> In k (keys m).
Proof.
  induction m as [|[k0 v0] m IH]; simpl; [discriminate|].
  str_cases k k0; [left; reflexivity | right; auto].
Qed.

Lemma get_None_keys m k : get m k = None <-> ~ In k (keys m).
Proof.
  induction m as [|[k0 v0] m IH]; simpl; [tauto|].
  str_cases k k0.
  - split; [discriminate | intros H; exfalso; apply H; left; reflexivity].
  - rewrite IH. split; [intros H [->|]; tauto | tauto].
Qed.

Lemma has_In_keys m k : has m k = true <-> In k (keys m).
Proof.
  unfold has. destruct (get m k) eqn:E.
  - split; [intros _; eapply get_Some_In_keys; eauto | reflexivity].
  - apply get_None_keys in E. split; [discriminate | tauto].
Qed.

Lemma keys_set_present m k v : In k (keys m) -> keys (set m k v) = keys m.
Proof.
  induction m as [|[k0 v0] m IH]; simpl; [tauto|].
  intros H. str_cases k k0; simpl; [reflexivity|].
  f_equal. apply IH. destruct H; congruence.
Qed.

Lemma keys_set_absent m k v : ~ In k (keys m) -> keys (set m k v) = keys m ++ [k].
Proof.
  induction m as [|[k0 v0] m IH]; simpl; [reflexivity|].
  intros H. str_cases k k0; simpl; [tauto|].
  f_equal. apply IH. tauto.
Qed.

End facts.
End JsMapFacts.

(** ** The dependency resolver *)

Module SortFacts.
Import JsMap JsMapFacts Sort.

Lemma fold_left_flat_map {A B C} (f : A -> C -> A) (g : B -> list C) l a :
  fold_left f (flat_map g l) a = fold_left (fun a x => fold_left f (g x) a) l a.
Proof.
  revert a; induction l as [|x l IH]; intros a; simpl; [reflexivity|].
  rewrite fold_left_app. apply IH.
Qed.

Lemma fold_left_ext_in {A B} (f g : A -> B -> A) l a :
  (forall a x, In x l -> f a x = g a x) -> fold_left f l a = fold_left g l a.
Proof.
  revert a; induction l as [|x l IH]; intros a H; simpl; [reflexivity|].
  rewrite H by (left; reflexivity). apply IH. intros; apply H; right; assumption.
Qed.

Lemma get_degree_set_eq deg k v : get_degree (set deg k v) k = v.
Proof. unfold get_degree. rewrite get_set_eq. reflexivity. Qed.

Lemma get_degree_set_ne deg k k' v : k <> k' -> get_degree (set deg k v) k' = get_degree deg k'.
Proof. intros H. unfold get_degree. rewrite get_set_ne by exact H. reflexivity. Qed.

Lemma get_list_set_eq adj k v : get_list (set adj k v) k = v.
Proof. unfold get_list. rewrite get_set_eq. reflexivity. Qed.

Lemma get_list_set_ne adj k k' v : k <> k' -> get_list (set adj k v) k' = get_list adj k'.
Proof. intros H. unfold get_list. rewrite get_set_ne by exact H. reflexivity. Qed.

Lemma NoDup_snoc (l : list jsstring) (x : jsstring) :
  NoDup l -> ~ In x l -> NoDup (l ++ [x]).
Proof.
  intros HN Hx. apply NoDup_app.
  - exact HN.
  - constructor; [simpl; tauto | constructor].
  - intros y Hy [<-|[]]. exact (Hx Hy).
Qed.

(** *** The script index *)

Lemma build_scriptMap_keys_gen scripts m k :
  In k (keys (fold_left (fun m s => if has_handle s then set m (handle_of s) s else m) scripts m))
  <-> In k (keys m) \/ In k (present_handles scripts).
Proof.
  revert m; induction scripts as [|s scripts IH]; intros m; simpl.
  - unfold present_handles; simpl; tauto.
  - rewrite IH. unfold present_handles; simpl.
    destruct (has_handle s) eqn:Hs; simpl; [|tauto].
    destruct (in_dec str_eq_dec (handle_of s) (keys m)) as [Hin|Hin].
    + rewrite keys_set_present by exact Hin.
      split; [tauto|]. intros [H|[<-|H]]; tauto.
    + rewrite keys_set_absent by exact Hin. rewrite in_app_iff; simpl.
      split; [intros [[H|[<-|[]]]|H]; tauto | intros [H|[<-|H]]; tauto].
Qed.

Lemma has_scriptMap scripts k :
  has (build_scriptMap scripts) k = present scripts k.
Proof.
  unfold present. apply eq_true_iff_eq.
  rewrite has_In_keys, includes_In. unfold build_scriptMap.
  rewrite build_scriptMap_keys_gen. simpl; tauto.
Qed.

Lemma present_In scripts k : present scripts k = true <-> In k (present_handles scripts).
Proof. apply includes_In. Qed.

Lemma In_present_handles scripts h :
  In h (present_handles scripts) <->
  exists s, In s scripts /\ has_handle s = true /\ handle_of s = h.
Proof.
  unfold present_handles. rewrite in_map_iff. split.
  - intros (s & <- & Hs). apply filter_In in Hs. exists s; tauto.
  - intros (s & Hin & Hh & <-). exists s; split; [reflexivity|]. apply filter_In; tauto.
Qed.

(** *** Edges *)

Lemma In_edges scripts d h :
  In (d, h) (edges scripts) <->
  exists s, In s scripts /\ has_handle s = true /\ handle_of s = h /\
            In d (dep_handles s) /\ In d (present_handles scripts).
Proof.
  unfold edges. rewrite in_flat_map. split.
  - intros (s & Hin & He). unfold script_edges in He.
    destruct (has_handle s) eqn:Hs; [|destruct He].
    apply in_map_iff in He. destruct He as (d' & [= <- <-] & Hd).
    apply filter_In in Hd. destruct Hd as [Hd Hp]. apply present_In in Hp.
    exists s; tauto.
  - intros (s & Hin & Hs & <- & Hd & Hp). exists s; split; [exact Hin|].
    unfold script_edges. rewrite Hs. apply in_map_iff. exists d; split; [reflexivity|].
    apply filter_In; split; [exact Hd | apply present_In; exact Hp].
Qed.

Lemma edge_endpoints scripts d h :
  In (d, h) (edges scripts) ->
  In d (present_handles scripts) /\ In h (present_handles scripts).
Proof.
  rewrite In_edges. intros (s & Hin & Hs & <- & Hd & Hp). split; [exact Hp|].
  apply In_present_handles. exists s; tauto.
Qed.

Lemma add_edge_apply sm h ds st :
  fold_left (add_edge sm h) ds st
  = fold_left apply_edge (map (fun d => (d, h)) (filter (has sm) ds)) st.
Proof.
  revert st; induction ds as [|d ds IH]; intros [adj deg]; simpl; [reflexivity|].
  destruct (has sm d) eqn:Hd; simpl; apply IH.
Qed.

Lemma build_graph_edges scripts st :
  build_graph (build_scriptMap scripts) scripts st
  = fold_left apply_edge (edges scripts) st.
Proof.
  unfold build_graph, edges. rewrite fold_left_flat_map.
  apply fold_left_ext_in. intros a s _. unfold script_edges.
  destruct (has_handle s); [|reflexivity].
  rewrite add_edge_apply. do 2 f_equal.
  apply filter_ext. intros d. apply has_scriptMap.
Qed.

Lemma apply_edges_degree E st k :
  get_degree (snd (fold_left apply_edge E st)) k
  = get_degree (snd st) k + Z.of_nat (indeg E k).
Proof.
  revert st; induction E as [|[d h] E IH]; intros [adj deg]; simpl.
  - unfold indeg; simpl; lia.
  - rewrite IH. unfold apply_edge, indeg; simpl.
    str_cases h k.
    + rewrite get_degree_set_eq. simpl length. lia.
    + rewrite get_degree_set_ne by exact E0. lia.
Qed.

Lemma apply_edges_succs E st k :
  get_list (fst (fold_left apply_edge E st)) k = get_list (fst st) k ++ succs E k.
Proof.
  revert st; induction E as [|[d h] E IH]; intros [adj deg]; simpl.
  - unfold succs; simpl. rewrite app_nil_r. reflexivity.
  - rewrite IH. unfold apply_edge, succs; simpl.
    str_cases d k.
    + rewrite get_list_set_eq. simpl. rewrite <- app_assoc. reflexivity.
    + rewrite get_list_set_ne by exact E0. reflexivity.
Qed.

Lemma apply_edges_keys E st :
  (forall d h, In (d, h) E -> In d (keys (fst st)) /\ In h (keys (snd st))) ->
  keys (fst (fold_left apply_edge E st)) = keys (fst st) /\
  keys (snd (fold_left apply_edge E st)) = keys (snd st).
Proof.
  revert st; induction E as [|[d h] E IH]; intros [adj deg] H; simpl; [tauto|].
  destruct (H d h (or_introl eq_refl)) as [Hd Hh]; simpl in Hd, Hh.
  assert (K1 : keys (fst (apply_edge (adj, deg) (d, h))) = keys adj)
    by (apply keys_set_present; exact Hd).
  assert (K2 : keys (snd (apply_edge (adj, deg) (d, h))) = keys deg)
    by (apply keys_set_present; exact Hh).
  destruct (IH (apply_edge (adj, deg) (d, h))) as [I1 I2].
  - intros d' h' Hin. rewrite K1, K2. apply (H d' h'). right; exact Hin.
  - rewrite I1, I2, K1, K2. tauto.
Qed.

(** *** Seeding *)



Lemma seed_graph_gen scripts adj deg :
  keys adj = keys deg -> NoDup (keys adj) ->
  (forall k, get_degree deg k = 0) -> (forall k, get_list adj k = []) ->
  let st := fold_left seed_step scripts (adj, deg) in
  keys (fst st) = keys (snd st) /\ NoDup (keys (fst st)) /\
  (forall k, get_degree (snd st) k = 0) /\ (forall k, get_list (fst st) k = []) /\
  (forall k, In k (keys (fst st)) <-> In k (keys adj) \/ In k (present_handles scripts)).
Proof.
  revert adj deg; induction scripts as [|s scripts IH]; intros adj deg HK HN HD HL; simpl.
  - unfold present_handles; simpl. tauto.
  - unfold present_handles; simpl.
    destruct (has_handle s) eqn:Hs; simpl.
    + destruct (has adj (handle_of s)) eqn:Hh.
      * specialize (IH adj deg HK HN HD HL). simpl in IH.
        destruct IH as (A & B & C & D & E). repeat split; try assumption.
        -- intros H. apply E in H. unfold present_handles in H. tauto.
        -- intros [H|[<-|H]]; apply E; unfold present_handles; try tauto.
           left. apply has_In_keys; exact Hh.
      * assert (Hnin : ~ In (handle_of s) (keys adj)).
        { rewrite <- has_In_keys. rewrite Hh. discriminate. }
        assert (Hnin' : ~ In (handle_of s) (keys deg)) by (rewrite <- HK; exact Hnin).
        destruct (IH (set adj (handle_of s) []) (set deg (handle_of s) 0)) as (A & B & C & D & E).
        -- rewrite !keys_set_absent by assumption. rewrite HK; reflexivity.
        -- rewrite keys_set_absent by assumption.
           apply NoDup_snoc; assumption.
        -- intros k. destruct (str_eq_dec (handle_of s) k) as [->|Hne].
           ++ apply get_degree_set_eq.
           ++ rewrite get_degree_set_ne by exact Hne. apply HD.
        -- intros k. destruct (str_eq_dec (handle_of s) k) as [->|Hne].
           ++ apply get_list_set_eq.
           ++ rewrite get_list_set_ne by exact Hne. apply HL.
        -- repeat split; try assumption.
           ++ intros H. apply E in H. rewrite keys_set_absent in H by assumption.
              rewrite in_app_iff in H. simpl in H. unfold present_handles in H. tauto.
           ++ intros H. apply E. rewrite keys_set_absent by assumption.
              rewrite in_app_iff. simpl. unfold present_handles. tauto.
    + apply (IH adj deg HK HN HD HL).
Qed.

Lemma exists_last_or_nil {A} (l : list A) :
  l = [] \/ exists l' x, l = l' ++ [x].
Proof.
  destruct l as [|a l]; [left; reflexivity | right].
  destruct (@exists_last A (a :: l)) as (l' & x & Heq); [discriminate|].
  exists l', x; exact Heq.
Qed.

(** *** One pass over the dependents of a dequeued handle *)

Lemma relax_fold ds deg q :
  exists deg' pushed,
    fold_left relax ds (deg, q) = (deg', q ++ pushed) /\
    (forall h, get_degree deg' h
               = get_degree deg h - Z.of_nat (count_occ str_eq_dec ds h)) /\
    NoDup pushed /\
    (forall h, In h pushed <->
               0 < get_degree deg h <= Z.of_nat (count_occ str_eq_dec ds h)) /\
    ((forall d, In d ds -> In d (keys deg)) -> keys deg' = keys deg).
Proof.
  revert deg q; induction ds as [|x ds IH]; intros deg q.
  - exists deg, []. simpl. rewrite app_nil_r.
    repeat split; simpl; try tauto; try lia; try constructor.
  - set (new := get_degree deg x - 1).
    set (q1 := if new =? 0 then q ++ [x] else q).
    assert (Hstep : fold_left relax (x :: ds) (deg, q)
                    = fold_left relax ds (set deg x new, q1)) by reflexivity.
    destruct (IH (set deg x new) q1) as (deg' & pushed & Hf & Hd & Hn & Hp & Hk).
    assert (Hx : get_degree (set deg x new) x = new) by apply get_degree_set_eq.
    assert (Hpx : ~ (new = 0 /\ In x pushed)).
    { intros [Hz Hin]. apply Hp in Hin. rewrite Hx in Hin. lia. }
    exists deg', ((if new =? 0 then [x] else []) ++ pushed).
    split; [|split; [|split; [|split]]].
    + rewrite Hstep, Hf. f_equal. unfold q1.
      destruct (new =? 0); [rewrite <- app_assoc | ]; reflexivity.
    + intros h. rewrite Hd. destruct (str_eq_dec x h) as [->|Hne].
      * rewrite Hx. rewrite count_occ_cons_eq by reflexivity. unfold new. lia.
      * rewrite get_degree_set_ne by exact Hne.
        rewrite count_occ_cons_neq by exact Hne. reflexivity.
    + destruct (new =? 0) eqn:Hz; simpl; [|exact Hn].
      constructor; [|exact Hn]. intros Hin. apply Hpx. split; [lia | exact Hin].
    + intros h. rewrite in_app_iff, Hp.
      destruct (str_eq_dec x h) as [->|Hne].
      * rewrite Hx. rewrite count_occ_cons_eq by reflexivity.
        rewrite Nat2Z.inj_succ.
        destruct (Z.eqb_spec new 0) as [Hz|Hz]; simpl; unfold new in *.
        -- split; [intros _; lia | intros _; left; left; reflexivity].
        -- split; [intros [[]|H]; lia | intros H; right; lia].
      * rewrite get_degree_set_ne by exact Hne.
        rewrite count_occ_cons_neq by exact Hne.
        destruct (new =? 0); simpl; (split; [|tauto]).
        -- intros [[Heq|[]]|Hr]; [congruence | exact Hr].
        -- intros [[]|Hr]; exact Hr.
    + intros Hin. rewrite Hk.
      * apply keys_set_present. apply Hin; left; reflexivity.
      * intros d Hd'. rewrite keys_set_present by (apply Hin; left; reflexivity).
        apply Hin; right; exact Hd'.
Qed.

(** *** The loop invariant of Kahn's algorithm *)

Section kahn.

Variable E : list (jsstring * jsstring).
Variable Hs : list jsstring.
Variable adj : JsMap.t (list jsstring).
Hypothesis Hs_nodup : NoDup Hs.
Hypothesis E_in_Hs : forall d h, In (d, h) E -> In d Hs /\ In h Hs.
Hypothesis adj_succs : forall k, get_list adj k = succs E k.

Lemma includes_snoc l c d : includes (l ++ [c]) d = includes l d || str_eqb d c.
Proof.
  unfold includes. rewrite existsb_app. simpl. rewrite orb_false_r. reflexivity.
Qed.

Lemma live_indeg_snoc sorted c h :
  ~ In c sorted ->
  live_indeg E sorted h
  = (live_indeg E (sorted ++ [c]) h + count_occ str_eq_dec (succs E c) h)%nat.
Proof using Type.
  intros Hc. unfold live_indeg, succs. clear E_in_Hs adj_succs.
  apply includes_not_In in Hc.
  induction E as [|[d t] E' IH]; simpl; [reflexivity|].
  rewrite includes_snoc.
  destruct (str_eqb d c) eqn:Ed; destruct (str_eqb t h) eqn:Et; simpl;
    try (apply str_eqb_eq in Ed; subst d; rewrite Hc; simpl);
    rewrite ?orb_false_r; simpl;
    try (destruct (str_eq_dec t h) as [Hth|Hth];
         [apply str_eqb_eq in Hth | apply str_eqb_neq in Hth]; try congruence);
    try (destruct (includes sorted d)); simpl; lia.
Qed.

Lemma live_indeg_zero sorted h d :
  live_indeg E sorted h = 0%nat -> In (d, h) E -> In d sorted.
Proof using Type.
  unfold live_indeg. intros Hz Hin.
  apply length_zero_iff_nil in Hz.
  destruct (includes sorted d) eqn:Hi; [apply includes_In; exact Hi|].
  exfalso.
  assert (Hf : In (d, h) (filter (fun e => str_eqb (snd e) h && negb (includes sorted (fst e))) E)).
  { apply filter_In. split; [exact Hin|]. simpl. rewrite str_eqb_refl, Hi. reflexivity. }
  rewrite Hz in Hf. destruct Hf.
Qed.

Lemma live_indeg_pos sorted h :
  (0 < live_indeg E sorted h)%nat -> exists d, In (d, h) E /\ ~ In d sorted.
Proof using Type.
  unfold live_indeg. intros Hp.
  destruct (filter _ E) as [|[d t] l] eqn:Hf; [simpl in Hp; lia|].
  assert (Hin : In (d, t) (filter (fun e => str_eqb (snd e) h && negb (includes sorted (fst e))) E))
    by (rewrite Hf; left; reflexivity).
  apply filter_In in Hin. destruct Hin as [Hin Hc]. simpl in Hc.
  apply andb_true_iff in Hc. destruct Hc as [Ht Hn].
  apply str_eqb_eq in Ht; subst t. apply negb_true_iff, includes_not_In in Hn.
  exists d; tauto.
Qed.

Lemma In_succs c h : In h (succs E c) <-> In (c, h) E.
Proof using Type.
  unfold succs. rewrite in_map_iff. split.
  - intros ([d t] & <- & Hin). apply filter_In in Hin. simpl in *.
    destruct Hin as [Hin He]. apply str_eqb_eq in He; subst; exact Hin.
  - intros Hin. exists (c, h). split; [reflexivity|]. apply filter_In.
    split; [exact Hin | apply str_eqb_refl].
Qed.

Lemma kahn_step deg c rest sorted :
  Inv E Hs deg (c :: rest) sorted ->
  exists deg' queue',
    fold_left relax (get_list adj c) (deg, rest) = (deg', queue') /\
    Inv E Hs deg' queue' (sorted ++ [c]).
Proof using Hs_nodup E_in_Hs adj_succs.
  intros [Hnd Hsub Hkeys Hdeg Hzero Htopo].
  destruct (relax_fold (get_list adj c) deg rest)
    as (deg' & pushed & Hf & Hd & Hpn & Hp & Hk).
  exists deg', (rest ++ pushed). split; [exact Hf|].
  rewrite adj_succs in *.
  assert (HcH : In c Hs) by (apply Hsub; apply in_or_app; right; left; reflexivity).
  assert (Hcs : ~ In c sorted).
  { intros Hin. apply NoDup_app_remove_r in Hnd as Hnd'.
    apply NoDup_remove_2 in Hnd. apply Hnd. apply in_or_app; left; exact Hin. }
  assert (Hc0 : get_degree deg c = 0).
  { apply Hzero; [exact HcH|]. apply in_or_app; right; left; reflexivity. }
  assert (HdsH : forall h, In h (succs E c) -> In h Hs).
  { intros h Hin. apply In_succs in Hin. apply E_in_Hs in Hin. tauto. }
  assert (Hcnt : forall h, In h Hs ->
            get_degree deg h
            = Z.of_nat (live_indeg E (sorted ++ [c]) h)
              + Z.of_nat (count_occ str_eq_dec (succs E c) h)).
  { intros h Hh. rewrite Hdeg by exact Hh.
    rewrite (live_indeg_snoc sorted c h Hcs). lia. }
  assert (HpH : forall h, In h pushed -> In h Hs).
  { intros h Hin. apply Hp in Hin. apply HdsH.
    apply (count_occ_In str_eq_dec). lia. }
  assert (Hpold : forall h, In h pushed -> ~ In h (sorted ++ c :: rest)).
  { intros h Hin Hold. pose proof (HpH h Hin) as HhH.
    apply Hzero in Hold; [|exact HhH]. apply Hp in Hin. lia. }
  assert (Hre : (sorted ++ [c]) ++ rest ++ pushed = (sorted ++ c :: rest) ++ pushed).
  { rewrite <- !app_assoc. reflexivity. }
  constructor.
  - rewrite Hre. apply NoDup_app; try assumption.
    intros h Hold Hin. exact (Hpold h Hin Hold).
  - intros h. rewrite Hre, in_app_iff. intros [Hin|Hin]; [apply Hsub | apply HpH]; exact Hin.
  - rewrite Hk; [exact Hkeys|]. intros d Hin. rewrite Hkeys. apply HdsH; exact Hin.
  - intros h Hh. rewrite Hd, (Hcnt h Hh). lia.
  - intros h Hh. rewrite Hre, in_app_iff, Hd, Hp.
    pose proof (Hcnt h Hh) as Hc. pose proof (Hzero h Hh) as Hz.
    split.
    + intros [Hold|Hpu]; [apply Hz in Hold |]; lia.
    + intros Hz'.
      destruct (Nat.eq_dec (count_occ str_eq_dec (succs E c) h) 0) as [H0|H0].
      * left. apply Hz. lia.
      * right. lia.
  - intros s1 h s2 d Heq Hin.
    destruct (exists_last_or_nil s2) as [->|(s2' & x & ->)].
    + apply app_inj_tail in Heq. destruct Heq as [<- <-].
      apply (live_indeg_zero sorted c d); [|exact Hin].
      pose proof (Hdeg c HcH). lia.
    + change (s1 ++ h :: s2' ++ [x]) with (s1 ++ (h :: s2') ++ [x]) in Heq.
      rewrite app_assoc in Heq. apply app_inj_tail in Heq. destruct Heq as [Heq _].
      exact (Htopo s1 h s2' d Heq Hin).
Qed.

Lemma kahn_runs fuel deg queue sorted :
  Inv E Hs deg queue sorted ->
  (length Hs <= fuel + length sorted)%nat ->
  exists sorted' deg',
    kahn fuel adj deg queue sorted = Some sorted' /\ Inv E Hs deg' [] sorted'.
Proof using Hs_nodup E_in_Hs adj_succs.
  revert deg queue sorted; induction fuel as [|fuel IH]; intros deg queue sorted HI Hlen.
  - destruct queue as [|c rest].
    + exists sorted, deg. split; [reflexivity | exact HI].
    + exfalso. destruct HI as [Hnd Hsub _ _ _ _].
      pose proof (NoDup_incl_length Hnd Hsub) as Hl.
      rewrite length_app in Hl. simpl in *. lia.
  - destruct queue as [|c rest].
    + exists sorted, deg. split; [reflexivity | exact HI].
    + destruct (kahn_step deg c rest sorted HI) as (deg' & queue' & Hf & HI').
      simpl. rewrite Hf. apply (IH deg' queue' (sorted ++ [c]) HI').
      rewrite length_app. simpl. lia.
Qed.

End kahn.

(** *** The graph handed to the loop *)

Lemma In_get {V} (m : JsMap.t V) k v :
  NoDup (keys m) -> In (k, v) m -> get m k = Some v.
Proof.
  induction m as [|[k0 v0] m IH]; simpl; [tauto|].
  intros Hnd [Heq|Hin].
  - injection Heq as -> ->. rewrite str_eqb_refl. reflexivity.
  - inversion Hnd as [|? ? Hnin Hnd']; subst.
    str_cases k k0.
    + exfalso. apply Hnin. apply (in_map fst) in Hin. exact Hin.
    + apply IH; assumption.
Qed.

Lemma get_In {V} (m : JsMap.t V) k v : get m k = Some v -> In (k, v) m.
Proof.
  induction m as [|[k0 v0] m IH]; simpl; [discriminate|].
  str_cases k k0.
  - intros [= ->]. left; reflexivity.
  - intros Hg. right. apply IH; exact Hg.
Qed.

Lemma NoDup_map_fst_filter {A B} (f : A * B -> bool) (l : list (A * B)) :
  NoDup (map fst l) -> NoDup (map fst (filter f l)).
Proof.
  induction l as [|x l IH]; simpl; [constructor|].
  intros Hnd. inversion Hnd as [|? ? Hnin Hnd']; subst.
  destruct (f x); simpl; [|apply IH; exact Hnd'].
  constructor; [|apply IH; exact Hnd'].
  intros Hin. apply Hnin. apply in_map_iff in Hin.
  destruct Hin as (y & Hy & Hin). apply filter_In in Hin.
  apply in_map_iff. exists y. tauto.
Qed.

Lemma In_initial_queue deg h :
  NoDup (keys deg) ->
  (In h (initial_queue deg) <-> In h (keys deg) /\ get_degree deg h = 0).
Proof.
  intros Hnd. unfold initial_queue. rewrite in_map_iff. split.
  - intros ([k v] & <- & Hin). apply filter_In in Hin. simpl in *.
    destruct Hin as [Hin Hz]. apply Z.eqb_eq in Hz. subst v. split.
    + apply (in_map fst) in Hin. exact Hin.
    + unfold get_degree. rewrite (In_get deg k 0 Hnd Hin). reflexivity.
  - intros [Hin Hz]. unfold get_degree in Hz.
    destruct (get deg h) as [v|] eqn:Hg.
    + subst v. exists (h, 0). split; [reflexivity|]. apply filter_In.
      split; [apply get_In; exact Hg | reflexivity].
    + apply get_None_keys in Hg. tauto.
Qed.

Lemma live_indeg_nil E h : live_indeg E [] h = indeg E h.
Proof.
  unfold live_indeg, indeg. f_equal. apply filter_ext. intros e. simpl.
  apply andb_true_r.
Qed.

Lemma Inv_init E deg :
  NoDup (keys deg) ->
  (forall k, get_degree deg k = Z.of_nat (indeg E k)) ->
  Inv E (keys deg) deg (initial_queue deg) [].
Proof.
  intros Hnd Hdeg. constructor; simpl.
  - unfold initial_queue. apply NoDup_map_fst_filter. exact Hnd.
  - intros h Hin. apply In_initial_queue in Hin; tauto.
  - reflexivity.
  - intros h _. rewrite live_indeg_nil. apply Hdeg.
  - intros h Hh. rewrite In_initial_queue by exact Hnd. tauto.
  - intros [|] ? ? ? Heq; discriminate.
Qed.

Lemma seed_graph_spec scripts :
  keys (fst (seed_graph scripts)) = keys (snd (seed_graph scripts)) /\
  NoDup (keys (fst (seed_graph scripts))) /\
  (forall k, get_degree (snd (seed_graph scripts)) k = 0) /\
  (forall k, get_list (fst (seed_graph scripts)) k = []) /\
  (forall k, In k (keys (fst (seed_graph scripts))) <-> In k (present_handles scripts)).
Proof.
  assert (N : NoDup (keys (@nil (jsstring * list jsstring)))) by constructor.
  pose proof (seed_graph_gen scripts [] [] eq_refl N (fun _ => eq_refl) (fun _ => eq_refl)) as H.
  simpl in H. destruct H as (A & B & C & D & F).
  repeat split; try assumption.
  - intros Hk. apply F in Hk. tauto.
  - intros Hk. apply F. tauto.
Qed.

Lemma indexed_NoDup scripts : NoDup (indexed scripts).
Proof. apply seed_graph_spec. Qed.

Lemma In_indexed scripts h : In h (indexed scripts) <-> In h (present_handles scripts).
Proof. apply seed_graph_spec. Qed.

Lemma graph_built scripts adj deg :
  build_graph (build_scriptMap scripts) scripts (seed_graph scripts) = (adj, deg) ->
  keys deg = indexed scripts /\
  (forall k, get_degree deg k = Z.of_nat (indeg (edges scripts) k)) /\
  (forall k, get_list adj k = succs (edges scripts) k).
Proof.
  rewrite build_graph_edges. intros Hb.
  destruct (seed_graph_spec scripts) as (K & N & D & L & I).
  pose proof (apply_edges_degree (edges scripts) (seed_graph scripts)) as Hd.
  pose proof (apply_edges_succs (edges scripts) (seed_graph scripts)) as Hl.
  destruct (apply_edges_keys (edges scripts) (seed_graph scripts)) as [K1 K2].
  { intros d h Hin. apply edge_endpoints in Hin. rewrite <- K.
    split; apply I; tauto. }
  rewrite Hb in *. simpl in *. split; [|split].
  - rewrite K2, <- K. reflexivity.
  - intros k. rewrite Hd, D. lia.
  - intros k. rewrite Hl, L. reflexivity.
Qed.

(** The loop always exits through the empty queue, and its result satisfies
    the invariant over the graph of present handles. *)
Lemma kahn_result scripts adj deg :
  build_graph (build_scriptMap scripts) scripts (seed_graph scripts) = (adj, deg) ->
  exists sorted deg',
    kahn (length deg) adj deg (initial_queue deg) [] = Some sorted /\
    Inv (edges scripts) (indexed scripts) deg' [] sorted.
Proof.
  intros Hb. destruct (graph_built scripts adj deg Hb) as (K & D & L).
  assert (Hnd : NoDup (keys deg)) by (rewrite K; apply indexed_NoDup).
  pose proof (Inv_init (edges scripts) deg Hnd D) as HI. rewrite K in HI.
  apply (kahn_runs (edges scripts) (indexed scripts) adj (indexed_NoDup scripts)) with (fuel := length deg) in HI.
  - exact HI.
  - intros d h Hin. apply edge_endpoints in Hin. rewrite !In_indexed. exact Hin.
  - exact L.
  - simpl. rewrite <- K. unfold keys. rewrite length_map. lia.
Qed.

(** *** Acyclic graphs are sorted completely *)

Lemma index_of_lt_split s1 h s2 d :
  In d s1 -> ~ In h s1 ->
  (index_of d (s1 ++ h :: s2) < index_of h (s1 ++ h :: s2))%nat.
Proof.
  induction s1 as [|x s1 IH]; simpl; [tauto|].
  intros Hd Hh.
  destruct (str_eqb d x) eqn:Ed; destruct (str_eqb h x) eqn:Eh;
    try (apply str_eqb_eq in Eh; subst; tauto); [lia|].
  apply str_eqb_neq in Ed.
  apply -> Nat.succ_lt_mono. apply IH; [|tauto].
  destruct Hd as [Hd|Hd]; [congruence | exact Hd].
Qed.

Section complete.

Variable E : list (jsstring * jsstring).
Variable Hs : list jsstring.
Variable deg : JsMap.t Z.
Variable S : list jsstring.
Hypothesis E_in_Hs : forall d h, In (d, h) E -> In d Hs /\ In h Hs.
Hypothesis HI : Inv E Hs deg [] S.

Let edgeR (d h : jsstring) : Prop := In (d, h) E.
Let unsorted (h : jsstring) : Prop := In h Hs /\ ~ In h S.

Lemma unsorted_pred h : unsorted h -> exists d, edgeR d h /\ unsorted d.
Proof using E_in_Hs HI.
  intros [Hh Hn]. destruct HI as [_ _ _ Hdeg Hzero _].
  rewrite app_nil_r in Hzero.
  assert (Hpos : (0 < live_indeg E S h)%nat).
  { pose proof (Hdeg h Hh) as Hd. pose proof (Hzero h Hh) as Hz.
    destruct (live_indeg E S h); [|lia]. exfalso. apply Hn, Hz. lia. }
  destruct (live_indeg_pos E S h Hpos) as (d & Hin & Hd).
  exists d. split; [exact Hin|]. split; [|exact Hd].
  apply E_in_Hs in Hin. tauto.
Qed.

Lemma unsorted_chain n h :
  unsorted h ->
  exists l, length l = Datatypes.S n /\ Forall unsorted l /\ Sorted edgeR l.
Proof using E_in_Hs HI.
  intros Hu. induction n as [|n IH].
  - exists [h]. split; [reflexivity|]. split.
    + constructor; [exact Hu | constructor].
    + constructor; constructor.
  - destruct IH as (l & Hlen & Hall & Hsorted).
    destruct l as [|x l]; [discriminate|].
    inversion Hall as [|? ? Hx Hall']; subst.
    destruct (unsorted_pred x Hx) as (d & Hdx & Hd).
    exists (d :: x :: l). split; [simpl in *; lia|]. split.
    + constructor; assumption.
    + constructor; [exact Hsorted | constructor; exact Hdx].
Qed.

Lemma Sorted_clos_trans l : Sorted edgeR l -> StronglySorted (clos_trans _ edgeR) l.
Proof using Type.
  intros Hs'. apply Sorted_StronglySorted.
  - intros x y z; apply t_trans.
  - induction Hs' as [|a l Hl IH Hhd]; constructor; [exact IH|].
    destruct Hhd; constructor. apply t_step; assumption.
Qed.

Lemma StronglySorted_irrefl_NoDup (R : jsstring -> jsstring -> Prop) l :
  (forall x, ~ R x x) -> StronglySorted R l -> NoDup l.
Proof using Type.
  intros Hirr Hss. induction Hss as [|a l Hl IH Hall]; constructor; [|exact IH].
  intros Hin. rewrite Forall_forall in Hall. exact (Hirr a (Hall a Hin)).
Qed.

Lemma acyclic_sorted_all :
  (forall h, ~ clos_trans _ edgeR h h) -> forall h, In h Hs -> In h S.
Proof using E_in_Hs HI.
  intros Hacyc h Hh.
  destruct (in_dec str_eq_dec h S) as [Hin|Hn]; [exact Hin|exfalso].
  destruct (unsorted_chain (length Hs) h (conj Hh Hn)) as (l & Hlen & Hall & Hsorted).
  apply Sorted_clos_trans in Hsorted.
  apply (StronglySorted_irrefl_NoDup _ l Hacyc) in Hsorted.
  assert (Hincl : incl l Hs).
  { intros x Hx. rewrite Forall_forall in Hall. apply Hall; exact Hx. }
  pose proof (NoDup_incl_length Hsorted Hincl). lia.
Qed.

(** Conversely, what the loop outputs is topologically ordered, so a complete
    output rules out cycles. *)
Lemma sorted_all_acyclic :
  (forall h, In h Hs -> In h S) -> forall h, ~ clos_trans _ edgeR h h.
Proof using E_in_Hs HI.
  intros Hall.
  destruct HI as [Hnd _ _ _ _ Htopo]. rewrite app_nil_r in Hnd.
  assert (Hlt : forall d h, clos_trans _ edgeR d h ->
            (index_of d S < index_of h S)%nat /\ In d S /\ In h S).
  { intros d h Hc. induction Hc as [d h He | d m h _ [IH1 [I1 I2]] _ [IH2 [I3 I4]]].
    - destruct (E_in_Hs d h He) as [Hd Hh]. apply Hall in Hd, Hh.
      split; [|tauto].
      destruct (in_split h S Hh) as (s1 & s2 & ->).
      pose proof (Htopo s1 h s2 d eq_refl He) as Hd1.
      assert (Hh1 : ~ In h s1).
      { intros Hin. apply NoDup_remove_2 in Hnd. apply Hnd. apply in_or_app; tauto. }
      apply index_of_lt_split; assumption.
    - split; [lia | tauto]. }
  intros h Hc. apply Hlt in Hc. lia.
Qed.

End complete.

Lemma ranked_by_acyclic order scripts :
  ranked_by order scripts = true -> acyclic scripts.
Proof.
  unfold ranked_by, acyclic. rewrite forallb_forall. intros Hr.
  assert (Hlt : forall d h, clos_trans _ (edge scripts) d h ->
            (index_of d order < index_of h order)%nat).
  { intros d h Hc. induction Hc as [d h He | d m h _ IH1 _ IH2]; [|lia].
    apply Hr in He. apply Nat.ltb_lt in He. exact He. }
  intros h Hc. apply Hlt in Hc. lia.
Qed.

(** *** The recovery pass *)

Lemma append_remaining_spec scripts sorted :
  exists rest,
    append_remaining scripts sorted = sorted ++ rest /\
    (NoDup sorted -> NoDup (sorted ++ rest)) /\
    (forall h, In h rest <-> In h (present_handles scripts) /\ ~ In h sorted).
Proof.
  unfold append_remaining. revert sorted.
  induction scripts as [|s scripts IH]; intros sorted; simpl.
  - exists []. rewrite app_nil_r. unfold present_handles; simpl. tauto.
  - unfold present_handles; simpl.
    destruct (has_handle s) eqn:Hh; simpl.
    + destruct (includes sorted (handle_of s)) eqn:Hi; simpl.
      * destruct (IH sorted) as (rest & He & Hn & Hr). exists rest.
        split; [exact He|]. split; [exact Hn|].
        intros h. rewrite Hr. unfold present_handles. apply includes_In in Hi.
        split; [tauto|]. intros [[<-|H] Hn']; tauto.
      * apply includes_not_In in Hi.
        destruct (IH (sorted ++ [handle_of s])) as (rest & He & Hn & Hr).
        exists (handle_of s :: rest). split; [|split].
        -- rewrite He, <- app_assoc. reflexivity.
        -- intros Hnd. change (handle_of s :: rest) with ([handle_of s] ++ rest).
           rewrite app_assoc. apply Hn. apply NoDup_snoc; assumption.
        -- intros h. simpl. rewrite Hr, in_app_iff. simpl. unfold present_handles.
           destruct (str_eq_dec (handle_of s) h) as [Heq|Hne];
             [rewrite <- Heq; tauto | tauto].
    + apply IH.
Qed.

Lemma append_remaining_complete scripts sorted :
  (forall h, In h (present_handles scripts) -> In h sorted) ->
  append_remaining scripts sorted = sorted.
Proof.
  intros Hall. destruct (append_remaining_spec scripts sorted) as (rest & He & _ & Hr).
  destruct rest as [|h rest]; [rewrite He; apply app_nil_r|].
  exfalso. destruct (proj1 (Hr h) (or_introl eq_refl)) as [Hp Hn]. exact (Hn (Hall h Hp)).
Qed.

(** *** Mapping handles back to descriptors *)

Lemma scriptMap_get_gen scripts m h s :
  get (fold_left (fun m s => if has_handle s then set m (handle_of s) s else m) scripts m) h
  = Some s ->
  get m h = Some s \/ (In s scripts /\ has_handle s = true /\ handle_of s = h).
Proof.
  revert m; induction scripts as [|x scripts IH]; intros m; simpl; [tauto|].
  intros Hg. apply IH in Hg. destruct Hg as [Hg|Hg]; [|tauto].
  destruct (has_handle x) eqn:Hx; [|tauto].
  destruct (str_eq_dec (handle_of x) h) as [<-|Hne].
  - rewrite get_set_eq in Hg. injection Hg as <-. tauto.
  - rewrite get_set_ne in Hg by exact Hne. tauto.
Qed.

Lemma scriptMap_get scripts h s :
  get (build_scriptMap scripts) h = Some s ->
  In s scripts /\ has_handle s = true /\ handle_of s = h.
Proof.
  intros Hg. apply scriptMap_get_gen in Hg. destruct Hg as [Hg|Hg]; [discriminate|exact Hg].
Qed.

Lemma scriptMap_get_unique_gen scripts m s :
  NoDup (present_handles scripts) -> In s scripts -> has_handle s = true ->
  get (fold_left (fun m s => if has_handle s then set m (handle_of s) s else m) scripts m)
      (handle_of s) = Some s.
Proof.
  revert m; induction scripts as [|x scripts IH]; intros m Hnd Hin Hs; simpl; [destruct Hin|].
  unfold present_handles in Hnd; simpl in Hnd.
  destruct Hin as [->|Hin].
  - rewrite Hs in *. simpl in Hnd. inversion Hnd as [|? ? Hnin _]; subst.
    destruct (get (fold_left (fun m s => if has_handle s then set m (handle_of s) s else m)
                             scripts (set m (handle_of s) s)) (handle_of s)) as [s'|] eqn:Hg.
    + apply scriptMap_get_gen in Hg. destruct Hg as [Hg|(Hin' & Hs' & He)].
      * rewrite get_set_eq in Hg. congruence.
      * exfalso. apply Hnin. rewrite <- He. apply in_map. apply filter_In. tauto.
    + exfalso. apply get_None_keys in Hg. apply Hg.
      apply build_scriptMap_keys_gen. left.
      apply has_In_keys. unfold has. rewrite get_set_eq. reflexivity.
  - apply IH; [|exact Hin|exact Hs].
    destruct (has_handle x); [inversion Hnd; assumption | exact Hnd].
Qed.

Lemma scriptMap_get_unique scripts s :
  NoDup (present_handles scripts) -> In s scripts -> has_handle s = true ->
  get (build_scriptMap scripts) (handle_of s) = Some s.
Proof. apply scriptMap_get_unique_gen. Qed.

Lemma lookup_scripts_nth sm S i a :
  (forall h, In h S -> has sm h = true) ->
  nth_error (lookup_scripts sm S) i = Some a ->
  exists h, nth_error S i = Some h /\ get sm h = Some a.
Proof.
  revert i; induction S as [|h S IH]; intros i Hall; simpl.
  - destruct i; discriminate.
  - pose proof (Hall h (or_introl eq_refl)) as Hh. unfold has in Hh.
    destruct (get sm h) as [s|] eqn:Hg; [|discriminate]. simpl.
    destruct i as [|i]; simpl.
    + intros [= <-]. exists h. tauto.
    + apply IH. intros h' Hin. apply Hall. right; exact Hin.
Qed.

Lemma lookup_scripts_length sm S :
  (forall h, In h S -> has sm h = true) ->
  length (lookup_scripts sm S) = length S.
Proof.
  induction S as [|h S IH]; intros Hall; simpl; [reflexivity|].
  pose proof (Hall h (or_introl eq_refl)) as Hh. unfold has in Hh.
  destruct (get sm h) as [s|] eqn:Hg; [|discriminate]. simpl.
  rewrite IH; [reflexivity|]. intros h' Hin. apply Hall. right; exact Hin.
Qed.

Lemma lookup_present_handles scripts :
  NoDup (present_handles scripts) ->
  lookup_scripts (build_scriptMap scripts) (present_handles scripts)
  = filter has_handle scripts.
Proof.
  intros Hnd. unfold present_handles, lookup_scripts.
  assert (H : forall s, In s (filter has_handle scripts) ->
            get (build_scriptMap scripts) (handle_of s) = Some s).
  { intros s Hin. apply filter_In in Hin. apply scriptMap_get_unique; tauto. }
  induction (filter has_handle scripts) as [|s l IH]; simpl; [reflexivity|].
  rewrite (H s (or_introl eq_refl)). simpl. f_equal.
  apply IH. intros s' Hin. apply H. right; exact Hin.
Qed.

Lemma filter_partition_perm {A} (f : A -> bool) (l : list A) :
  Permutation (filter f l ++ filter (fun x => negb (f x)) l) l.
Proof.
  induction l as [|x l IH]; simpl; [constructor|].
  destruct (f x); simpl.
  - constructor. exact IH.
  - symmetry. apply Permutation_cons_app. symmetry. exact IH.
Qed.

(** *** The resolver as a whole *)

Lemma sort_unfold scripts :
  scripts <> [] ->
  exists S deg',
    Inv (edges scripts) (indexed scripts) deg' [] S /\
    sortScriptsByDependencies scripts
    = Some {| sortedScripts :=
                lookup_scripts (build_scriptMap scripts)
                  (if negb (length S =? length scripts)%nat
                   then append_remaining scripts S else S)
                ++ filter no_handle scripts;
              warned := negb (length S =? length scripts)%nat |}.
Proof.
  intros Hne. unfold sortScriptsByDependencies.
  destruct scripts as [|s0 scripts0]; [congruence|].
  set (scripts := s0 :: scripts0) in *.
  destruct (build_graph (build_scriptMap scripts) scripts (seed_graph scripts))
    as [adj deg] eqn:Hb.
  destruct (kahn_result scripts adj deg Hb) as (S & deg' & Hk & HI).
  exists S, deg'. split; [exact HI|]. rewrite Hk. reflexivity.
Qed.

Lemma edges_in_indexed scripts d h :
  In (d, h) (edges scripts) -> In d (indexed scripts) /\ In h (indexed scripts).
Proof. intros Hin. apply edge_endpoints in Hin. rewrite !In_indexed. exact Hin. Qed.

Lemma lookup_scripts_has_handle scripts l :
  Forall (fun s => has_handle s = true) (lookup_scripts (build_scriptMap scripts) l).
Proof.
  apply Forall_forall. intros s Hin. unfold lookup_scripts in Hin.
  apply in_flat_map in Hin. destruct Hin as (h & _ & Hin).
  destruct (get (build_scriptMap scripts) h) as [s'|] eqn:Hg; [|destruct Hin].
  destruct Hin as [<-|[]]. apply scriptMap_get in Hg. tauto.
Qed.

Lemma indexed_length scripts : (length (indexed scripts) <= length scripts)%nat.
Proof.
  assert (H1 : (length (indexed scripts) <= length (present_handles scripts))%nat).
  { apply NoDup_incl_length; [apply indexed_NoDup|].
    intros h Hh. apply In_indexed; exact Hh. }
  unfold present_handles in H1. rewrite length_map in H1.
  pose proof (filter_length_le has_handle scripts). lia.
Qed.

(** The resolver returns on every input. *)
Lemma sort_total scripts : exists r, sortScriptsByDependencies scripts = Some r.
Proof.
  destruct scripts as [|s scripts]; [eexists; reflexivity|].
  destruct (sort_unfold (s :: scripts)) as (S & deg' & _ & Hr); [discriminate|].
  eexists; exact Hr.
Qed.

(** The warning stays silent exactly when the graph is acyclic and every
    descriptor carries a handle of its own. *)
Lemma warned_false_iff scripts r :
  sortScriptsByDependencies scripts = Some r ->
  (warned r = false <->
   acyclic scripts /\ length (indexed scripts) = length scripts).
Proof.
  destruct scripts as [|s0 scripts0].
  - intros [= <-]. simpl. split; [intros _; split; [|reflexivity] | reflexivity].
    intros h Hc. induction Hc; auto.
  - set (scripts := s0 :: scripts0).
    destruct (sort_unfold scripts) as (S & deg' & HI & Hr); [discriminate|].
    rewrite Hr. intros [= <-]. cbn [warned].
    rewrite negb_false_iff, Nat.eqb_eq.
    pose proof (indexed_length scripts) as Hle.
    pose proof (indexed_NoDup scripts) as Hnd.
    pose proof HI as i.
    destruct HI as [HSnd HSsub _ _ _ _]. rewrite app_nil_r in HSnd, HSsub.
    pose proof (NoDup_incl_length HSnd HSsub) as HSle.
    assert (Hsl : length scripts = Datatypes.S (length scripts0)) by reflexivity.
    split.
    + intros Hlen. split; [|lia].
      refine (sorted_all_acyclic (edges scripts) (indexed scripts) deg' S
                (edges_in_indexed scripts) i _).
      apply NoDup_length_incl; [exact HSnd | lia | exact HSsub].
    + intros [Hac Hlen].
      pose proof (acyclic_sorted_all (edges scripts) (indexed scripts) deg' S
                    (edges_in_indexed scripts) i Hac) as Hall.
      pose proof (NoDup_incl_length Hnd Hall). lia.
Qed.

Lemma nth_error_NoDup_lt (l s1 s2 : list jsstring) (h d : jsstring) (j : nat) :
  NoDup l -> l = s1 ++ h :: s2 -> In d s1 -> nth_error l j = Some d -> (j < length s1)%nat.
Proof.
  intros Hnd -> Hd Hj.
  destruct (In_nth_error s1 d Hd) as (j' & Hj').
  assert (Hlt : (j' < length s1)%nat) by (apply nth_error_Some; congruence).
  assert (Hj'' : nth_error (s1 ++ h :: s2) j' = Some d).
  { rewrite nth_error_app1 by exact Hlt. exact Hj'. }
  assert (j = j'); [|lia].
  apply (proj1 (NoDup_nth_error (s1 ++ h :: s2)) Hnd).
  - apply nth_error_Some. congruence.
  - congruence.
Qed.

End SortFacts.

Module SortClaims.
Import JsMap JsMapFacts Sort SortFacts.

(** C1. For an acyclic descriptor set the resolver loses no descriptor
    (each one of the input is in the output, itself or, when its handle is
    repeated, the descriptor that carries the handle), and for every
    descriptor of the input and every dependency of it that is in the
    input, the dependency occurs earlier in the output than the dependent:
    both occur, as themselves when the handles of the input are pairwise
    distinct.  Accordingly no descriptor of the output comes before one it
    depends on. *)
Theorem sort_dependencies_first scripts :
  acyclic scripts ->
  exists r, sortScriptsByDependencies scripts = Some r /\
    (forall s, In s scripts ->
       exists s', In s' (sortedScripts r) /\ stands_for scripts s' s) /\
    (forall a b, In a scripts -> In b scripts -> depends_on a b ->
       exists i j a' b',
         nth_error (sortedScripts r) i = Some a' /\ stands_for scripts a' a /\
         nth_error (sortedScripts r) j = Some b' /\ stands_for scripts b' b /\
         (j < i)%nat) /\
    (NoDup (present_handles scripts) ->
     forall a b, In a scripts -> In b scripts -> depends_on a b ->
       exists i j,
         nth_error (sortedScripts r) i = Some a /\
         nth_error (sortedScripts r) j = Some b /\ (j < i)%nat) /\
    (forall i j a b,
       nth_error (sortedScripts r) i = Some a ->
       nth_error (sortedScripts r) j = Some b ->
       depends_on a b -> (j < i)%nat).
Proof.
  intros Hac. destruct scripts as [|s0 scripts0].
  - eexists; split; [reflexivity|]. split; [intros s []|].
    split; [intros a b []|]. split; [intros _ a b []|].
    intros [|i] j a b Hi; discriminate.
  - set (scripts := s0 :: scripts0) in *.
    destruct (sort_unfold scripts) as (S & deg' & HI & Hr); [discriminate|].
    eexists; split; [exact Hr|]. cbn [sortedScripts].
    pose proof (acyclic_sorted_all (edges scripts) (indexed scripts) deg' S
                  (edges_in_indexed scripts) HI Hac) as Hall.
    assert (HS' : (if negb (length S =? length scripts)%nat
                   then append_remaining scripts S else S) = S).
    { destruct (negb _); [|reflexivity]. apply append_remaining_complete.
      intros h Hh. apply Hall, In_indexed, Hh. }
    rewrite HS'. clear HS'.
    destruct HI as [HSnd HSsub _ _ _ Htopo]. rewrite app_nil_r in HSnd, HSsub.
    assert (Hhas : forall h, In h S -> has (build_scriptMap scripts) h = true).
    { intros h Hh. rewrite has_scriptMap. apply present_In, In_indexed, HSsub, Hh. }
    pose proof (lookup_scripts_length _ S Hhas) as Hlen.
    set (L := lookup_scripts (build_scriptMap scripts) S) in *.
    (* where a descriptor with a handle sits *)
    assert (Hpos : forall s, In s scripts -> has_handle s = true ->
              exists i s', nth_error S i = Some (handle_of s) /\
                           nth_error L i = Some s' /\ stands_for scripts s' s).
    { intros s Hs Hh.
      assert (HinS : In (handle_of s) S).
      { apply Hall, In_indexed, In_present_handles. exists s. tauto. }
      destruct (In_nth_error _ _ HinS) as [i Hi].
      assert (HiL : (i < length L)%nat).
      { rewrite Hlen. apply nth_error_Some. congruence. }
      destruct (nth_error L i) as [s'|] eqn:Hs'; [|apply nth_error_None in Hs'; lia].
      destruct (lookup_scripts_nth _ S i s' Hhas Hs') as (h' & Hh' & Hg).
      assert (h' = handle_of s) by congruence. subst h'.
      exists i, s'. split; [exact Hi|]. split; [exact Hs'|].
      pose proof (scriptMap_get _ _ _ Hg) as (_ & Hh1 & Hh2).
      split.
      - unfold has_handle, handle_of in Hh, Hh1, Hh2.
        destruct (handle s) as [[|c t]|], (handle s') as [[|c' t']|];
          try discriminate; congruence.
      - intros [Hn|Hnd]; [congruence|].
        pose proof (scriptMap_get_unique scripts s Hnd Hs Hh). congruence. }
    (* where a descriptor without a handle sits *)
    assert (Htail : forall s, In s scripts -> has_handle s = false ->
              exists k, nth_error (L ++ filter no_handle scripts) (length L + k) = Some s).
    { intros s Hs Hh.
      assert (Hin : In s (filter no_handle scripts)).
      { apply filter_In. split; [exact Hs|]. unfold no_handle. rewrite Hh. reflexivity. }
      destruct (In_nth_error _ _ Hin) as [k Hk]. exists k.
      rewrite nth_error_app2 by lia. rewrite <- Hk. f_equal. lia. }
    assert (Hself : forall s, stands_for scripts s s).
    { intros s. split; [reflexivity | intros _; reflexivity]. }
    assert (HposL : forall i s', nth_error L i = Some s' ->
              nth_error (L ++ filter no_handle scripts) i = Some s' /\ (i < length L)%nat).
    { intros i s' Hi.
      assert (Hlt : (i < length L)%nat) by (apply nth_error_Some; congruence).
      split; [rewrite nth_error_app1 by exact Hlt; exact Hi | exact Hlt]. }
    assert (Hedge : forall a b, In a scripts -> In b scripts -> depends_on a b ->
              exists i j a' b',
                nth_error (L ++ filter no_handle scripts) i = Some a' /\
                stands_for scripts a' a /\
                nth_error (L ++ filter no_handle scripts) j = Some b' /\
                stands_for scripts b' b /\ (j < i)%nat); [|split; [|split; [|split]]].
    2: { intros s Hs. destruct (has_handle s) eqn:Hh.
      * destruct (Hpos s Hs Hh) as (i & s' & _ & Hi & Hst).
        exists s'. split; [|exact Hst].
        apply in_or_app. left. exact (nth_error_In _ _ Hi).
      * destruct (Htail s Hs Hh) as (k & Hk).
        exists s. split; [exact (nth_error_In _ _ Hk) | apply Hself]. }
    2: exact Hedge.
    2: { intros Hnd a b Ha Hb Hdep.
         destruct (Hedge a b Ha Hb Hdep) as (i & j & a' & b' & Hi & [_ Ea] & Hj & [_ Eb] & Hlt).
         rewrite (Ea (or_intror Hnd)) in Hi. rewrite (Eb (or_intror Hnd)) in Hj.
         exists i, j. repeat split; assumption. }
    + intros a b Ha Hb [Hhb Hdep].
      destruct (Hpos b Hb Hhb) as (j & b' & HSj & HLj & Hstb).
      destruct (HposL j b' HLj) as (Hoj & Hjlt).
      destruct (has_handle a) eqn:Hha.
      * destruct (Hpos a Ha Hha) as (i & a' & HSi & HLi & Hsta).
        destruct (HposL i a' HLi) as (Hoi & _).
        exists i, j, a', b'.
        split; [exact Hoi|]. split; [exact Hsta|]. split; [exact Hoj|]. split; [exact Hstb|].
        assert (He : In (handle_of b, handle_of a) (edges scripts)).
        { apply In_edges. exists a. repeat split; try assumption.
          apply In_present_handles. exists b. tauto. }
        destruct (nth_error_split S i HSi) as (s1 & s2 & HSeq & Hl1).
        pose proof (Htopo s1 (handle_of a) s2 (handle_of b) HSeq He) as Hin1.
        rewrite <- Hl1.
        exact (nth_error_NoDup_lt S s1 s2 (handle_of a) (handle_of b) j HSnd HSeq Hin1 HSj).
      * destruct (Htail a Ha Hha) as (k & Hk).
        exists (length L + k)%nat, j, a, b'.
        split; [exact Hk|]. split; [apply Hself|]. split; [exact Hoj|]. split; [exact Hstb|].
        lia.
    + intros i j a b Hi Hj [Hb Hdep].
      (* the dependency has a handle, so it sits in the indexed part *)
      assert (HjL : (j < length L)%nat).
      { destruct (Nat.lt_ge_cases j (length L)) as [Hlt|Hge]; [exact Hlt|exfalso].
        rewrite nth_error_app2 in Hj by exact Hge.
        apply nth_error_In, filter_In in Hj. destruct Hj as [_ Hn].
        unfold no_handle in Hn. rewrite Hb in Hn. discriminate. }
      rewrite nth_error_app1 in Hj by exact HjL.
      destruct (lookup_scripts_nth _ S j b Hhas Hj) as (hb & HSj & Hgb).
      apply scriptMap_get in Hgb. destruct Hgb as (Hbin & _ & Hhb).
      destruct (Nat.lt_ge_cases i (length L)) as [HiL|HiL]; [|lia].
      rewrite nth_error_app1 in Hi by exact HiL.
      destruct (lookup_scripts_nth _ S i a Hhas Hi) as (ha & HSi & Hga).
      apply scriptMap_get in Hga. destruct Hga as (Hain & Ha & Hha).
      assert (He : In (handle_of b, ha) (edges scripts)).
      { apply In_edges. exists a. repeat split; try assumption.
        apply In_present_handles. exists b. tauto. }
      destruct (nth_error_split S i HSi) as (s1 & s2 & HSeq & Hl1).
      pose proof (Htopo s1 ha s2 (handle_of b) HSeq He) as Hin1.
      rewrite <- Hl1. rewrite <- Hhb in HSj.
      exact (nth_error_NoDup_lt S s1 s2 ha (handle_of b) j HSnd HSeq Hin1 HSj).
Qed.

(** C3. When the present handles are pairwise distinct the output is a
    permutation of the input, of the same length, and the descriptors without
    a handle form its tail, in their input order. *)
Theorem sort_permutation scripts :
  NoDup (present_handles scripts) ->
  exists r, sortScriptsByDependencies scripts = Some r /\
    Permutation scripts (sortedScripts r) /\
    length (sortedScripts r) = length scripts /\
    exists withHandles,
      sortedScripts r = withHandles ++ filter no_handle scripts /\
      Forall (fun s => has_handle s = true) withHandles.
Proof.
  intros Hnd. destruct scripts as [|s0 scripts0].
  - eexists; split; [reflexivity|]. simpl. split; [constructor|]. split; [reflexivity|].
    exists []. split; [reflexivity | constructor].
  - set (scripts := s0 :: scripts0) in *.
    destruct (sort_unfold scripts) as (S & deg' & HI & Hr); [discriminate|].
    eexists; split; [exact Hr|]. cbn [sortedScripts].
    destruct HI as [HSnd HSsub _ _ _ _]. rewrite app_nil_r in HSnd, HSsub.
    assert (HSp : forall h, In h S -> In h (present_handles scripts)).
    { intros h Hh. apply In_indexed, HSsub, Hh. }
    set (S' := if negb (length S =? length scripts)%nat
               then append_remaining scripts S else S).
    assert (HP : Permutation S' (present_handles scripts)).
    { unfold S'. destruct (Nat.eqb_spec (length S) (length scripts)) as [Hl|Hl]; cbn [negb].
      - apply NoDup_Permutation_bis; [exact HSnd | | exact HSp].
        unfold present_handles. rewrite length_map.
        pose proof (filter_length_le has_handle scripts). lia.
      - destruct (append_remaining_spec scripts S) as (rest & He & Hn & Hrest).
        rewrite He. apply NoDup_Permutation; [apply Hn; exact HSnd | exact Hnd |].
        intros h. rewrite in_app_iff, Hrest. split.
        + intros [Hh|[Hh _]]; [apply HSp|]; exact Hh.
        + intros Hh. destruct (in_dec str_eq_dec h S); tauto. }
    assert (HPL : Permutation (lookup_scripts (build_scriptMap scripts) S')
                              (filter has_handle scripts)).
    { rewrite <- (lookup_present_handles scripts Hnd).
      unfold lookup_scripts. apply Permutation_flat_map. exact HP. }
    assert (HPall : Permutation scripts
              (lookup_scripts (build_scriptMap scripts) S' ++ filter no_handle scripts)).
    { symmetry. rewrite HPL. apply filter_partition_perm. }
    split; [exact HPall|]. split.
    + symmetry. apply Permutation_length. exact HPall.
    + eexists; split; [reflexivity|]. apply lookup_scripts_has_handle.
Qed.

End SortClaims.

(** ** The salted XOR origin codec *)

Module CodecFacts.
Import Codec.

Ltac zbool :=
  repeat match goal with
  | H : (_ && _) = true |- _ => apply andb_true_iff in H; destruct H
  | H : (_ && _) = false |- _ => apply andb_false_iff in H
  | H : (_ || _) = false |- _ => apply orb_false_iff in H; destruct H
  | H : negb _ = true |- _ => apply negb_true_iff in H
  | H : negb _ = false |- _ => apply negb_false_iff in H
  | H : (_ <=? _) = true |- _ => apply Z.leb_le in H
  | H : (_ <=? _) = false |- _ => apply Z.leb_gt in H
  | H : (_ <? _) = true |- _ => apply Z.ltb_lt in H
  | H : (_ <? _) = false |- _ => apply Z.ltb_ge in H
  | H : (_ =? _) = true |- _ => apply Z.eqb_eq in H
  | H : (_ =? _) = false |- _ => apply Z.eqb_neq in H
  end.

Lemma leb_true a b : a <= b -> (a <=? b) = true.
Proof. apply Z.leb_le. Qed.
Lemma leb_false a b : b < a -> (a <=? b) = false.
Proof. apply Z.leb_gt. Qed.
Lemma ltb_true a b : a < b -> (a <? b) = true.
Proof. apply Z.ltb_lt. Qed.
Lemma ltb_false a b : b <= a -> (a <? b) = false.
Proof. apply Z.ltb_ge. Qed.
Lemma eqb_false a b : a <> b -> (a =? b) = false.
Proof. apply Z.eqb_neq. Qed.
Lemma eqb_true a b : a = b -> (a =? b) = true.
Proof. apply Z.eqb_eq. Qed.

(** Decide the integer comparisons of the goal by linear arithmetic. *)
Ltac zdecide :=
  repeat match goal with
  | |- context [?a <=? ?b] =>
      first [rewrite (leb_true a b) by lia | rewrite (leb_false a b) by lia]
  | |- context [?a <? ?b] =>
      first [rewrite (ltb_true a b) by lia | rewrite (ltb_false a b) by lia]
  | |- context [?a =? ?b] =>
      first [rewrite (eqb_true a b) by lia | rewrite (eqb_false a b) by lia]
  end.

(** *** UTF-16 and scalar values *)

Lemma list_ind2 {A} (P : list A -> Prop) :
  P [] -> (forall a, P [a]) -> (forall a b l, P l -> P (b :: l) -> P (a :: b :: l)) ->
  forall l, P l.
Proof.
  intros H0 H1 H2 l.
  assert (H : P l /\ forall a, P (a :: l)); [|tauto].
  induction l as [|b l [IH1 IH2]]; split; auto.
Qed.

Lemma valid_string_cons c s :
  valid_string (c :: s) = true <-> (0 <= c < 65536) /\ valid_string s = true.
Proof.
  change (valid_string (c :: s)) with ((0 <=? c) && (c <? 65536) && valid_string s).
  rewrite !andb_true_iff, Z.leb_le, Z.ltb_lt. tauto.
Qed.

Lemma to_scalars_cons2 a b l :
  to_scalars (a :: b :: l)
  = if is_high_surrogate a then
      if is_low_surrogate b
      then (0x10000 + (a - 0xD800) * 0x400 + (b - 0xDC00)) :: to_scalars l
      else 0xFFFD :: to_scalars (b :: l)
    else if is_low_surrogate a then 0xFFFD :: to_scalars (b :: l)
    else a :: to_scalars (b :: l).
Proof. reflexivity. Qed.

Lemma to_scalars_one a :
  to_scalars [a]
  = if is_high_surrogate a then [0xFFFD]
    else if is_low_surrogate a then [0xFFFD] else [a].
Proof. reflexivity. Qed.

Lemma well_formed_cons2 a b l :
  well_formed (a :: b :: l)
  = if is_high_surrogate a then is_low_surrogate b && well_formed l
    else negb (is_low_surrogate a) && well_formed (b :: l).
Proof. reflexivity. Qed.

Lemma well_formed_one a :
  well_formed [a] = if is_high_surrogate a then false else negb (is_low_surrogate a) && true.
Proof. reflexivity. Qed.

Lemma high_surrogate_iff c : is_high_surrogate c = true <-> 0xD800 <= c <= 0xDBFF.
Proof. unfold is_high_surrogate. rewrite andb_true_iff, !Z.leb_le. tauto. Qed.

Lemma low_surrogate_iff c : is_low_surrogate c = true <-> 0xDC00 <= c <= 0xDFFF.
Proof. unfold is_low_surrogate. rewrite andb_true_iff, !Z.leb_le. tauto. Qed.

Lemma high_surrogate_not c : is_high_surrogate c = false <-> ~ (0xD800 <= c <= 0xDBFF).
Proof. rewrite <- high_surrogate_iff. destruct (is_high_surrogate c); split; congruence. Qed.

Lemma low_surrogate_not c : is_low_surrogate c = false <-> ~ (0xDC00 <= c <= 0xDFFF).
Proof. rewrite <- low_surrogate_iff. destruct (is_low_surrogate c); split; congruence. Qed.

Ltac surrogates :=
  repeat match goal with
  | H : is_high_surrogate _ = true |- _ => apply high_surrogate_iff in H
  | H : is_high_surrogate _ = false |- _ => apply high_surrogate_not in H
  | H : is_low_surrogate _ = true |- _ => apply low_surrogate_iff in H
  | H : is_low_surrogate _ = false |- _ => apply low_surrogate_not in H
  end.

Lemma to_scalars_scalar s :
  valid_string s = true -> Forall scalar (to_scalars s).
Proof.
  induction s as [|a|a b l IH1 IH2] using list_ind2; intros Hv.
  - constructor.
  - apply valid_string_cons in Hv. destruct Hv as [Ha _].
    rewrite to_scalars_one.
    destruct (is_high_surrogate a) eqn:H1; [|destruct (is_low_surrogate a) eqn:H2];
      surrogates; (constructor; [unfold scalar; lia | constructor]).
  - apply valid_string_cons in Hv. destruct Hv as [Ha Hvb].
    pose proof Hvb as Hvl. apply valid_string_cons in Hvl. destruct Hvl as [Hb Hvl].
    specialize (IH1 Hvl). specialize (IH2 Hvb).
    rewrite to_scalars_cons2.
    destruct (is_high_surrogate a) eqn:H1;
      [destruct (is_low_surrogate b) eqn:H2 | destruct (is_low_surrogate a) eqn:H2];
      surrogates; constructor; try assumption; unfold scalar; lia.
Qed.

Lemma from_to_scalars s :
  valid_string s = true -> well_formed s = true -> from_scalars (to_scalars s) = s.
Proof.
  induction s as [|a|a b l IH1 IH2] using list_ind2; intros Hv Hw.
  - reflexivity.
  - apply valid_string_cons in Hv. destruct Hv as [Ha _].
    rewrite well_formed_one in Hw. rewrite to_scalars_one.
    destruct (is_high_surrogate a) eqn:H1; [discriminate|].
    destruct (is_low_surrogate a) eqn:H2; [discriminate|].
    unfold from_scalars, flat_map, from_scalar. rewrite ltb_true by lia. reflexivity.
  - apply valid_string_cons in Hv. destruct Hv as [Ha Hvb].
    pose proof Hvb as Hvl. apply valid_string_cons in Hvl. destruct Hvl as [Hb Hvl].
    rewrite well_formed_cons2 in Hw. rewrite to_scalars_cons2.
    destruct (is_high_surrogate a) eqn:H1.
    + apply andb_true_iff in Hw. destruct Hw as [H2 Hw]. rewrite H2.
      unfold from_scalars in *. cbn [flat_map]. rewrite (IH1 Hvl Hw).
      surrogates. unfold from_scalar. rewrite ltb_false by lia.
      cbn [app]. f_equal; [|f_equal]; Z.div_mod_to_equations; lia.
    + apply andb_true_iff in Hw. destruct Hw as [H2 Hw]. apply negb_true_iff in H2.
      rewrite H2. unfold from_scalars in *. cbn [flat_map]. rewrite (IH2 Hvb Hw).
      unfold from_scalar. rewrite ltb_true by lia. reflexivity.
Qed.

Lemma to_scalars_head s c r :
  well_formed s = true -> to_scalars s = c :: r -> c = 0xFEFF -> exists s', s = 0xFEFF :: s'.
Proof.
  destruct s as [|a [|b s]]; [discriminate| |].
  - rewrite to_scalars_one.
    destruct (is_high_surrogate a) eqn:H1; [|destruct (is_low_surrogate a) eqn:H2];
      intros _ [= <- _] Hc; try discriminate. subst a. eexists; reflexivity.
  - rewrite to_scalars_cons2.
    destruct (is_high_surrogate a) eqn:H1;
      [destruct (is_low_surrogate b) eqn:H2 | destruct (is_low_surrogate a) eqn:H2];
      intros _ [= <- _] Hc; try discriminate; surrogates; try lia.
    subst a. eexists; reflexivity.
Qed.

(** *** UTF-8 *)

Lemma utf8_encode_scalar_bytes cp :
  scalar cp -> Forall byte (utf8_encode_scalar cp).
Proof.
  intros Hs. unfold utf8_encode_scalar, scalar, byte in *.
  destruct (Z.ltb_spec cp 0x80); [|destruct (Z.ltb_spec cp 0x800);
    [|destruct (Z.ltb_spec cp 0x10000)]];
    repeat (constructor; [Z.div_mod_to_equations; lia|]); constructor.
Qed.

Lemma split_2 cp :
  0x80 <= cp < 0x800 ->
  exists a b, cp / 64 = a /\ cp mod 64 = b /\
    2 <= a < 32 /\ 0 <= b < 64 /\ cp = a * 64 + b.
Proof.
  intros H. exists (cp / 64), (cp mod 64). repeat split; Z.div_mod_to_equations; lia.
Qed.

Lemma split_3 cp :
  0x800 <= cp < 0x10000 -> ~ (0xD800 <= cp <= 0xDFFF) ->
  exists a b c, cp / 4096 = a /\ (cp / 64) mod 64 = b /\ cp mod 64 = c /\
    0 <= a < 16 /\ 0 <= b < 64 /\ 0 <= c < 64 /\
    (a = 0 -> 32 <= b) /\ (a = 13 -> b < 32) /\ cp = (a * 64 + b) * 64 + c.
Proof.
  intros H Hn. exists (cp / 4096), ((cp / 64) mod 64), (cp mod 64).
  repeat split; Z.div_mod_to_equations; lia.
Qed.

Lemma split_4 cp :
  0x10000 <= cp <= 0x10FFFF ->
  exists a b c d, cp / 262144 = a /\ (cp / 4096) mod 64 = b /\
    (cp / 64) mod 64 = c /\ cp mod 64 = d /\
    0 <= a < 5 /\ 0 <= b < 64 /\ 0 <= c < 64 /\ 0 <= d < 64 /\
    (a = 0 -> 16 <= b) /\ (a = 4 -> b < 16) /\
    cp = ((a * 64 + b) * 64 + c) * 64 + d.
Proof.
  intros H. exists (cp / 262144), ((cp / 4096) mod 64), ((cp / 64) mod 64), (cp mod 64).
  repeat split; Z.div_mod_to_equations; lia.
Qed.

Lemma lead_byte_1 b : b <= 0x7F -> lead_byte b = ([b], dstate0).
Proof. intros H. unfold lead_byte. zdecide. reflexivity. Qed.

Lemma lead_byte_2 b :
  0xC2 <= b <= 0xDF -> lead_byte b = ([], open_state (b - 0xC0) 0 1 0x80 0xBF).
Proof. intros H. unfold lead_byte. zdecide. reflexivity. Qed.

Lemma lead_byte_3 b :
  0xE0 <= b <= 0xEF ->
  lead_byte b = ([], open_state (b - 0xE0) 0 2 (if b =? 0xE0 then 0xA0 else 0x80)
                                             (if b =? 0xED then 0x9F else 0xBF)).
Proof. intros H. unfold lead_byte. zdecide. reflexivity. Qed.

Lemma lead_byte_4 b :
  0xF0 <= b <= 0xF4 ->
  lead_byte b = ([], open_state (b - 0xF0) 0 3 (if b =? 0xF0 then 0x90 else 0x80)
                                             (if b =? 0xF4 then 0x8F else 0xBF)).
Proof. intros H. unfold lead_byte. zdecide. reflexivity. Qed.

Lemma utf8_decode_lead b rest :
  utf8_decode dstate0 (b :: rest)
  = fst (lead_byte b) ++ utf8_decode (snd (lead_byte b)) rest.
Proof. reflexivity. Qed.

Lemma utf8_decode_last cp seen needed lo hi b rest :
  needed <> 0 -> lo <= b <= hi -> seen + 1 = needed ->
  utf8_decode (open_state cp seen needed lo hi) (b :: rest)
  = cp * 64 + (b - 0x80) :: utf8_decode dstate0 rest.
Proof.
  intros Hn Hb Hs. cbn [utf8_decode open_state bytes_needed lower_boundary
    upper_boundary bytes_seen code_point].
  rewrite (eqb_false needed 0) by exact Hn.
  rewrite (leb_true lo b), (leb_true b hi) by lia.
  rewrite (eqb_true (seen + 1) needed) by exact Hs. reflexivity.
Qed.

Lemma utf8_decode_more cp seen needed lo hi b rest :
  needed <> 0 -> lo <= b <= hi -> seen + 1 <> needed ->
  utf8_decode (open_state cp seen needed lo hi) (b :: rest)
  = utf8_decode (open_state (cp * 64 + (b - 0x80)) (seen + 1) needed 0x80 0xBF) rest.
Proof.
  intros Hn Hb Hs. cbn [utf8_decode open_state bytes_needed lower_boundary
    upper_boundary bytes_seen code_point].
  rewrite (eqb_false needed 0) by exact Hn.
  rewrite (leb_true lo b), (leb_true b hi) by lia.
  rewrite (eqb_false (seen + 1) needed) by exact Hs. reflexivity.
Qed.

Lemma utf8_decode_encode_scalar cp rest :
  scalar cp ->
  utf8_decode dstate0 (utf8_encode_scalar cp ++ rest) = cp :: utf8_decode dstate0 rest.
Proof.
  intros Hs. unfold utf8_encode_scalar, scalar in *.
  destruct (Z.ltb_spec cp 0x80); [|destruct (Z.ltb_spec cp 0x800);
    [|destruct (Z.ltb_spec cp 0x10000)]]; cbn [app]; rewrite utf8_decode_lead.
  - rewrite lead_byte_1 by lia. reflexivity.
  - destruct (split_2 cp) as (a & b & -> & -> & Ha & Hb & Heq); [lia|].
    rewrite lead_byte_2 by lia. cbn [fst snd app].
    rewrite utf8_decode_last by lia. f_equal. lia.
  - destruct (split_3 cp) as (a & b & c & -> & -> & -> & Ha & Hb & Hc & Hlo & Hhi & Heq);
      [lia|lia|].
    rewrite lead_byte_3 by lia. cbn [fst snd app].
    rewrite utf8_decode_more;
      [| lia | destruct (Z.eqb_spec (224 + a) 224), (Z.eqb_spec (224 + a) 237); lia | lia].
    rewrite utf8_decode_last by lia. f_equal. lia.
  - destruct (split_4 cp) as (a & b & c & d & -> & -> & -> & -> & Ha & Hb & Hc & Hd
                              & Hlo & Hhi & Heq); [lia|].
    rewrite lead_byte_4 by lia. cbn [fst snd app].
    rewrite utf8_decode_more;
      [| lia | destruct (Z.eqb_spec (240 + a) 240), (Z.eqb_spec (240 + a) 244); lia | lia].
    rewrite utf8_decode_more by lia.
    rewrite utf8_decode_last by lia. f_equal. lia.
Qed.

Lemma utf8_decode_encode cps :
  Forall scalar cps -> utf8_decode dstate0 (flat_map utf8_encode_scalar cps) = cps.
Proof.
  induction 1 as [|cp cps Hcp _ IH]; [reflexivity|].
  simpl flat_map. rewrite utf8_decode_encode_scalar by exact Hcp. rewrite IH. reflexivity.
Qed.

Lemma utf8_encode_bytes s : valid_string s = true -> Forall byte (utf8_encode s).
Proof.
  intros Hv. unfold utf8_encode. apply Forall_flat_map.
  eapply Forall_impl; [|apply to_scalars_scalar; exact Hv].
  intros cp. apply utf8_encode_scalar_bytes.
Qed.

(** [TextDecoder] undoes the UTF-8 encoding of a well-formed string that does
    not begin with U+FEFF. *)
Lemma TextDecoder_utf8_encode s :
  valid_string s = true -> well_formed s = true ->
  (forall s', s <> 0xFEFF :: s') ->
  TextDecoder_decode (utf8_encode s) = s.
Proof.
  intros Hv Hw Hbom. unfold TextDecoder_decode, utf8_encode.
  rewrite utf8_decode_encode by (apply to_scalars_scalar; exact Hv).
  destruct (to_scalars s) as [|c r] eqn:Hts.
  - rewrite <- Hts. apply from_to_scalars; assumption.
  - destruct (Z.eqb_spec c 0xFEFF) as [Hc|Hc].
    + destruct (to_scalars_head s c r Hw Hts Hc) as (s' & ->). exfalso. exact (Hbom s' eq_refl).
    + rewrite <- Hts. apply from_to_scalars; assumption.
Qed.

(** *** Base64 *)

Lemma list_ind3 {A} (P : list A -> Prop) :
  P [] -> (forall a, P [a]) -> (forall a b, P [a; b]) ->
  (forall a b c l, P l -> P (a :: b :: c :: l)) ->
  forall l, P l.
Proof.
  intros H0 H1 H2 H3 l.
  assert (H : P l /\ (forall a, P (a :: l)) /\ (forall a b, P (a :: b :: l))); [|tauto].
  induction l as [|c l (IH1 & IH2 & IH3)]; repeat split; auto.
Qed.

Lemma b64_char_range v :
  sextet v ->
  65 <= b64_char v <= 90 \/ 97 <= b64_char v <= 122 \/ 48 <= b64_char v <= 57 \/
  b64_char v = 43 \/ b64_char v = 47.
Proof.
  unfold sextet, b64_char. intros H.
  destruct (Z.ltb_spec v 26); [lia|].
  destruct (Z.ltb_spec v 52); [lia|].
  destruct (Z.ltb_spec v 62); [lia|].
  destruct (Z.eqb_spec v 62); lia.
Qed.

Lemma b64_value_char v : sextet v -> b64_value (b64_char v) = Some v.
Proof.
  unfold sextet, b64_char. intros H.
  destruct (Z.ltb_spec v 26); [|destruct (Z.ltb_spec v 52);
    [|destruct (Z.ltb_spec v 62); [|destruct (Z.eqb_spec v 62)]]];
    unfold b64_value; zdecide; cbn [andb]; f_equal; lia.
Qed.

Lemma traverse_values_chars vs :
  Forall sextet vs -> traverse_values (map b64_char vs) = Some vs.
Proof.
  induction 1 as [|v vs Hv _ IH]; [reflexivity|].
  cbn [map traverse_values]. rewrite b64_value_char by exact Hv. rewrite IH. reflexivity.
Qed.

Lemma sextets_sextet bs : Forall byte bs -> Forall sextet (sextets bs).
Proof.
  unfold byte, sextet.
  induction bs as [|a|a b|a b c l IH] using list_ind3; intros Hb; cbn [sextets].
  - constructor.
  - inversion Hb; subst. repeat (constructor; [Z.div_mod_to_equations; lia|]). constructor.
  - inversion Hb as [|? ? Ha Hb']; subst. inversion Hb'; subst.
    repeat (constructor; [Z.div_mod_to_equations; lia|]). constructor.
  - inversion Hb as [|? ? Ha Hb1]; subst. inversion Hb1 as [|? ? Hb2 Hb3]; subst.
    inversion Hb3 as [|? ? Hc Hl]; subst.
    repeat (constructor; [Z.div_mod_to_equations; lia|]). apply IH; exact Hl.
Qed.

Lemma unsextets_sextets bs : Forall byte bs -> unsextets (sextets bs) = bs.
Proof.
  unfold byte.
  induction bs as [|a|a b|a b c l IH] using list_ind3; intros Hb; cbn [sextets unsextets].
  - reflexivity.
  - inversion Hb; subst. f_equal. Z.div_mod_to_equations; lia.
  - inversion Hb as [|? ? Ha Hb']; subst. inversion Hb'; subst.
    f_equal; [|f_equal]; Z.div_mod_to_equations; lia.
  - inversion Hb as [|? ? Ha Hb1]; subst. inversion Hb1 as [|? ? Hb2 Hb3]; subst.
    inversion Hb3 as [|? ? Hc Hl]; subst.
    rewrite IH by exact Hl.
    f_equal; [|f_equal; [|f_equal]]; Z.div_mod_to_equations; lia.
Qed.

Lemma padding_add3 n : padding (S (S (S n))) = padding n.
Proof.
  unfold padding. replace (S (S (S n))) with (n + 1 * 3)%nat by lia.
  rewrite Nat.Div0.mod_add. reflexivity.
Qed.

Lemma mod4_add4 n : Nat.modulo (4 + n) 4 = Nat.modulo n 4.
Proof.
  replace (4 + n)%nat with (n + 1 * 4)%nat by lia. apply Nat.Div0.mod_add.
Qed.

Lemma sextets_length bs :
  Nat.modulo (length (sextets bs) + length (padding (length bs))) 4 = 0%nat /\
  Nat.modulo (length (sextets bs)) 4 <> 1%nat.
Proof.
  induction bs as [|a|a b|a b c l IH] using list_ind3; try (split; [reflexivity | discriminate]).
  cbn [sextets length]. rewrite padding_add3.
  change (S (S (S (S (length (sextets l)))))) with (4 + length (sextets l))%nat.
  rewrite <- Nat.add_assoc, !mod4_add4. exact IH.
Qed.

Lemma padding_cases n : padding n = [] \/ padding n = [61] \/ padding n = [61; 61].
Proof.
  unfold padding. destruct (Nat.modulo n 3) as [|[|[|]]]; tauto.
Qed.

Lemma strip_padding_app body pad :
  Nat.modulo (length (body ++ pad)) 4 = 0%nat ->
  pad = [] \/ pad = [61] \/ pad = [61; 61] ->
  Forall (fun c => c <> 61) body ->
  strip_padding (body ++ pad) = body.
Proof.
  intros Hlen Hpad Hbody. unfold strip_padding. rewrite Hlen. cbn [Nat.eqb].
  rewrite rev_app_distr.
  assert (Hrev : Forall (fun c => c <> 61) (rev body)).
  { apply Forall_forall. intros c Hc. rewrite Forall_forall in Hbody.
    apply Hbody. apply in_rev. exact Hc. }
  destruct Hpad as [->|[->| ->]]; cbn [rev app].
  - rewrite app_nil_r.
    destruct (rev body) as [|x [|y r]] eqn:Hr.
    + reflexivity.
    + inversion Hrev; subst. rewrite eqb_false by assumption. reflexivity.
    + inversion Hrev; subst. rewrite (eqb_false x 61) by assumption. reflexivity.
  - destruct (rev body) as [|y r] eqn:Hr.
    + cbn. destruct body; [reflexivity|].
      apply (f_equal (@length Z)) in Hr. rewrite length_rev in Hr. discriminate.
    + inversion Hrev; subst. rewrite (eqb_true 61 61) by reflexivity.
      rewrite (eqb_false y 61) by assumption. cbn [andb rev].
      rewrite <- (rev_involutive body), Hr. reflexivity.
  - cbn [andb]. rewrite (eqb_true 61 61) by reflexivity. cbn [andb].
    apply rev_involutive.
Qed.

Lemma atob_base64_encode bs : Forall byte bs -> atob (base64_encode bs) = Some bs.
Proof.
  intros Hb. unfold atob, base64_encode.
  pose proof (sextets_sextet bs Hb) as Hsx.
  destruct (sextets_length bs) as [Hl4 Hl1].
  assert (Hchars : Forall (fun c => c <> 61 /\ is_ascii_whitespace c = false)
                          (map b64_char (sextets bs))).
  { apply Forall_map. eapply Forall_impl; [|exact Hsx].
    intros v Hv. pose proof (b64_char_range v Hv) as Hr.
    unfold is_ascii_whitespace. split; [lia|].
    repeat rewrite eqb_false by lia. reflexivity. }
  assert (Hfilter : filter (fun c => negb (is_ascii_whitespace c))
                      (map b64_char (sextets bs) ++ padding (length bs))
                    = map b64_char (sextets bs) ++ padding (length bs)).
  { apply forallb_filter_id. rewrite forallb_app. apply andb_true_iff. split.
    - apply forallb_forall. intros c Hc. rewrite Forall_forall in Hchars.
      destruct (Hchars c Hc) as [_ Hw]. rewrite Hw. reflexivity.
    - destruct (padding_cases (length bs)) as [->|[->| ->]]; reflexivity. }
  rewrite Hfilter.
  rewrite strip_padding_app.
  - rewrite length_map. destruct (Nat.eqb_spec (Nat.modulo (length (sextets bs)) 4) 1);
      [contradiction|].
    rewrite traverse_values_chars by exact Hsx. cbn [option_map].
    rewrite unsextets_sextets by exact Hb. reflexivity.
  - rewrite length_app, length_map. exact Hl4.
  - apply padding_cases.
  - eapply Forall_impl; [|exact Hchars]. intros c [Hc _]. exact Hc.
Qed.

(** *** The XOR loop *)

Lemma lxor_byte a b : byte a -> byte b -> byte (Z.lxor a b).
Proof.
  unfold byte. intros Ha Hb.
  assert (H0 : 0 <= Z.lxor a b) by (apply Z.lxor_nonneg; lia).
  split; [exact H0|].
  destruct (Z.eq_dec (Z.lxor a b) 0) as [Hz|Hz]; [lia|].
  apply (Z.log2_lt_pow2 _ 8); [lia|].
  eapply Z.le_lt_trans; [apply Z.log2_lxor; lia|].
  apply Z.max_lub_lt.
  - destruct (Z.eq_dec a 0) as [->|]; [simpl; lia|]. apply Z.log2_lt_pow2; lia.
  - destruct (Z.eq_dec b 0) as [->|]; [simpl; lia|]. apply Z.log2_lt_pow2; lia.
Qed.

Lemma nth_byte salt i : Forall byte salt -> byte (nth i salt 0).
Proof.
  intros Hs. destruct (Nat.lt_ge_cases i (length salt)) as [Hlt|Hge].
  - rewrite Forall_forall in Hs. apply Hs. apply nth_In. exact Hlt.
  - rewrite nth_overflow by exact Hge. unfold byte. lia.
Qed.

Lemma xor_loop_bytes i bs salt :
  Forall byte bs -> Forall byte salt -> Forall byte (xor_loop i bs salt).
Proof.
  intros Hb Hs. revert i. induction Hb as [|b bs Hb _ IH]; intros i; cbn [xor_loop].
  - constructor.
  - constructor; [|apply IH]. apply lxor_byte; [exact Hb | apply nth_byte; exact Hs].
Qed.

Lemma xor_loop_involutive i bs salt : xor_loop i (xor_loop i bs salt) salt = bs.
Proof.
  revert i. induction bs as [|b bs IH]; intros i; cbn [xor_loop]; [reflexivity|].
  rewrite IH. f_equal.
  rewrite Z.lxor_assoc, Z.lxor_nilpotent, Z.lxor_0_r. reflexivity.
Qed.

End CodecFacts.

Module CodecClaims.
Import Codec CodecFacts.

(** C5 (as amended). For every well-formed string [x] (no unpaired surrogate)
    that does not begin with U+FEFF, and every salt [s], empty or not,
    decoding the encoding of [x] under [s] returns [x]. *)
Theorem decode_encode_with_salt x s :
  valid_string x = true -> valid_string s = true ->
  well_formed x = true -> (forall x', x <> 0xFEFF :: x') ->
  decodeWithSalt (encodeWithSalt x s) s = Some x.
Proof.
  intros Hx Hs Hw Hbom. unfold decodeWithSalt, encodeWithSalt.
  pose proof (utf8_encode_bytes x Hx) as Hbx.
  pose proof (utf8_encode_bytes s Hs) as Hbs.
  rewrite atob_base64_encode by (apply xor_loop_bytes; assumption).
  rewrite xor_loop_involutive.
  rewrite TextDecoder_utf8_encode by assumption. reflexivity.
Qed.

(** C5, counterexample: a leading U+FEFF is lost ([TextDecoder] treats it as
    a byte order mark), under a non-empty salt. *)
Lemma decode_encode_with_salt_bom :
  let x := 0xFEFF :: js "https://wp.example.com" in
  let s := js "nextpress-default-salt" in
  s <> [] /\ decodeWithSalt (encodeWithSalt x s) s = Some (js "https://wp.example.com") /\
  decodeWithSalt (encodeWithSalt x s) s <> Some x.
Proof.
  cbv zeta. split; [discriminate|]. split; [vm_compute; reflexivity|].
  vm_compute. discriminate.
Qed.

End CodecClaims.

(** ** The sequential loaders *)

Module LoaderFacts.
Import Loader.

Section with_platform.

Variable URL_parse : jsstring -> option URL.
Variable replaceProxyPlaceholders : jsstring -> jsstring -> jsstring.
Variable instance : jsstring.
Variable backendUrl : option jsstring.

Local Abbreviation loadNext := (body_loadNextScript URL_parse replaceProxyPlaceholders instance backendUrl).
Local Abbreviation fire := (body_fire URL_parse replaceProxyPlaceholders instance backendUrl).
Local Abbreviation run := (body_run URL_parse replaceProxyPlaceholders instance backendUrl).

Lemma bounded_emit e st :
  bounded st ->
  (forall n, effect_asset e = Some n -> (n <= currentIndex st)%nat) ->
  bounded (emit e st).
Proof.
  intros Hb He e' n Hin Ha. unfold emit in Hin. cbn [log] in Hin.
  apply in_app_iff in Hin. destruct Hin as [Hin|[<-|[]]].
  - exact (Hb e' n Hin Ha).
  - exact (He n Ha).
Qed.

Lemma bounded_emit_if b e st :
  bounded st ->
  (forall n, effect_asset e = Some n -> (n <= currentIndex st)%nat) ->
  bounded (emit_if b e st).
Proof. destruct b; [apply bounded_emit | intros H _; exact H]. Qed.

Lemma bounded_set_index n st :
  bounded st -> (currentIndex st <= n)%nat -> bounded (set_index n st).
Proof. intros Hb Hle e m Hin Ha. specialize (Hb e m Hin Ha). cbn. lia. Qed.

Lemma bounded_cache_add k st : bounded st -> bounded (cache_add k st).
Proof. intros Hb e m Hin Ha. exact (Hb e m Hin Ha). Qed.

Lemma bounded_set_pending p st : bounded st -> bounded (set_pending p st).
Proof. intros Hb e m Hin Ha. exact (Hb e m Hin Ha). Qed.

Ltac asset_le :=
  let n := fresh in let H := fresh in
  intros n H; cbn in H; try discriminate; injection H as <-; cbn; lia.

Lemma completions_emit e st :
  completions (emit e st)
  = (completions st + match e with OnComplete => 1 | _ => 0 end)%nat.
Proof.
  unfold completions. cbn [log emit]. rewrite filter_app, length_app.
  destruct e; reflexivity.
Qed.

Lemma attached_emit e st :
  attached (emit e st)
  = attached st ++ match e with AppendChild n (ScriptEl _ s _ _) => [(n, s)] | _ => [] end.
Proof.
  unfold attached. cbn [log emit]. rewrite flat_map_app. cbn. rewrite app_nil_r. reflexivity.
Qed.

(** The inline injections touch nothing but the log, and log no main
    element. *)
Lemma body_inline_spec script n st :
  let st' := body_inline replaceProxyPlaceholders instance script n st in
  currentIndex st' = currentIndex st /\ LoadCache st' = LoadCache st /\
  pending st' = pending st /\ completions st' = completions st /\
  attached st' = attached st /\
  (bounded st -> (n <= currentIndex st)%nat -> bounded st').
Proof.
  unfold body_inline, emit_if.
  destruct (has_text _), (nonempty _), (_ && _); cbv zeta;
    rewrite ?completions_emit, ?attached_emit, ?app_nil_r, ?Nat.add_0_r;
    repeat split; try (intros Hb Hn; repeat apply bounded_emit); try assumption;
    try (intros m H; cbn in H; try discriminate; injection H as <-; cbn; lia).
Qed.

(** What one call of [loadNextScript] leaves behind. *)
Lemma loadNext_spec rest st :
  bounded st -> pending st = None ->
  let st' := loadNext rest st in
  bounded st' /\
  (currentIndex st <= currentIndex st')%nat /\
  LoadCache st ⊆ LoadCache st' /\
  match pending st' with
  | Some l =>
      l_asset l = currentIndex st' /\
      (length (l_rest l) < length rest)%nat /\
      completions st' = completions st
  | None => completions st' = S (completions st)
  end.
Proof.
  revert st. induction rest as [|script rest IH]; intros st Hb Hp.
  - cbn [body_loadNextScript]. unfold body_complete. split; [|split; [|split]].
    + repeat apply bounded_emit; try exact Hb; intros n H; discriminate.
    + cbn. lia.
    + cbn. set_solver.
    + cbn [pending emit]. rewrite Hp. rewrite !completions_emit. lia.
  - cbn [body_loadNextScript].
    set (n := S (currentIndex st)).
    assert (Hb1 : bounded (set_index n st)) by (apply bounded_set_index; [exact Hb | lia]).
    destruct (bool_decide _).
    + destruct (IH (set_index n st) Hb1 Hp) as (A & B & C & D).
      set (r := loadNext rest (set_index n st)) in *.
      split; [exact A|]. split; [cbn in B; lia|]. split; [exact C|].
      destruct (pending r); [|exact D]. destruct D as (D1 & D2 & D3).
      split; [exact D1|]. split; [cbn; lia | exact D3].
    + destruct (body_inline_spec script n (set_index n st)) as (Hi3 & Hc3 & Hp3 & Hk3 & _ & Hb3).
      set (st3 := body_inline replaceProxyPlaceholders instance script n (set_index n st)) in *.
      cbn [currentIndex LoadCache pending set_index] in Hi3, Hc3, Hp3.
      change (completions (set_index n st)) with (completions st) in Hk3.
      assert (Hb4 : bounded st3) by (apply Hb3; [exact Hb1 | cbn; lia]).
      destruct (nonempty (body_src _ _ _ _)).
      * cbn [pending set_pending l_asset l_rest currentIndex emit].
        split; [apply bounded_set_pending, bounded_emit; [exact Hb4|]|].
        { intros m H. cbn in H. injection H as <-. lia. }
        split; [rewrite Hi3; unfold n; lia|].
        split; [cbn; rewrite Hc3; set_solver|].
        split; [symmetry; exact Hi3|]. split; [cbn; lia|].
        change (completions (emit ?e st3)) with (completions (emit e st3)).
        unfold completions in *. cbn [log set_pending emit].
        rewrite filter_app, length_app. cbn. lia.
      * destruct (IH (cache_add (cacheKey script n) st3)) as (A & B & C & D).
        { apply bounded_cache_add; exact Hb4. }
        { rewrite <- Hp. exact Hp3. }
        set (r := loadNext rest (cache_add (cacheKey script n) st3)) in *.
        split; [exact A|]. split; [cbn in B; rewrite Hi3 in B; unfold n in B; lia|].
        split; [cbn in C; rewrite Hc3 in C; set_solver|].
        destruct (pending r).
        -- destruct D as (D1 & D2 & D3). split; [exact D1|].
           split; [cbn; lia|]. rewrite D3. exact Hk3.
        -- rewrite D. f_equal. exact Hk3.
Qed.


Lemma fire_spec ev st :
  bounded st ->
  (forall l, pending st = Some l -> l_asset l = currentIndex st) ->
  let st' := fire ev st in
  bounded st' /\
  (forall l', pending st' = Some l' -> l_asset l' = currentIndex st') /\
  match pending st with
  | None => st' = st
  | Some l =>
      l_cacheKey l ∈ LoadCache st' /\
      match pending st' with
      | Some l' => (length (l_rest l') < length (l_rest l))%nat /\
                   completions st' = completions st
      | None => completions st' = S (completions st)
      end
  end.
Proof.
  intros Hb Hl. destruct (pending st) as [l|] eqn:Hp.
  - assert (Hla : l_asset l = currentIndex st) by (apply Hl; reflexivity).
    destruct ev; cbn [body_fire]; unfold body_on_load, body_on_error; rewrite Hp.
    + set (st1 := emit_if _ _ (set_pending None st)).
      assert (Hb1 : bounded st1).
      { apply bounded_emit_if; [apply bounded_set_pending; exact Hb|].
        intros n H. cbn in H. injection H as <-. cbn. lia. }
      assert (Hp1 : pending st1 = None) by (unfold st1, emit_if; destruct (has_text _); reflexivity).
      assert (Hk1 : completions st1 = completions st).
      { unfold st1, emit_if. destruct (has_text _); rewrite ?completions_emit, ?Nat.add_0_r;
          reflexivity. }
      destruct (loadNext_spec (l_rest l) (cache_add (l_cacheKey l) st1))
        as (A & B & C & D).
      { apply bounded_cache_add; exact Hb1. }
      { exact Hp1. }
      set (r := loadNext (l_rest l) (cache_add (l_cacheKey l) st1)) in *.
      split; [exact A|]. split.
      * intros l' Hl'. rewrite Hl' in D. tauto.
      * split; [cbn in C; set_solver|].
        destruct (pending r);
          [destruct D as (_ & D2 & D3); split; [exact D2 | rewrite D3; exact Hk1]
          | rewrite D; f_equal; exact Hk1].
    + set (st1 := emit _ (set_pending None st)).
      assert (Hb1 : bounded st1).
      { apply bounded_emit; [apply bounded_set_pending; exact Hb|]. intros n H; discriminate. }
      assert (Hk1 : completions st1 = completions st).
      { unfold st1. rewrite completions_emit, Nat.add_0_r. reflexivity. }
      destruct (loadNext_spec (l_rest l) (cache_add (l_cacheKey l) st1))
        as (A & B & C & D).
      { apply bounded_cache_add; exact Hb1. }
      { reflexivity. }
      set (r := loadNext (l_rest l) (cache_add (l_cacheKey l) st1)) in *.
      split; [exact A|]. split.
      * intros l' Hl'. rewrite Hl' in D. tauto.
      * split; [cbn in C; set_solver|].
        destruct (pending r);
          [destruct D as (_ & D2 & D3); split; [exact D2 | rewrite D3; exact Hk1]
          | rewrite D; f_equal; exact Hk1].
  - assert (Hst : fire ev st = st).
    { destruct ev; cbn [body_fire]; unfold body_on_load, body_on_error; rewrite Hp; reflexivity. }
    cbv zeta. rewrite Hst. rewrite Hp. repeat split; [exact Hb | intros; discriminate].
Qed.

(** *** Whole runs of the body phase *)

Lemma fire_idle ev st : pending st = None -> fire ev st = st.
Proof.
  intros Hp. destruct ev; cbn [body_fire]; unfold body_on_load, body_on_error;
    rewrite Hp; reflexivity.
Qed.

Lemma fold_fire_idle evs st :
  pending st = None -> fold_left (fun st ev => fire ev st) evs st = st.
Proof.
  intros Hp. induction evs as [|ev evs IH]; [reflexivity|].
  cbn [fold_left]. rewrite fire_idle by exact Hp. exact IH.
Qed.

Lemma run_snoc sorted cache evs ev :
  run sorted cache (evs ++ [ev]) = fire ev (run sorted cache evs).
Proof. unfold body_run. rewrite fold_left_app. reflexivity. Qed.


Lemma bounded_initial cache : bounded (initial cache).
Proof. intros e n []. Qed.

Lemma run_inv sorted cache evs :
  let st := run sorted cache evs in
  bounded st /\
  (forall l, pending st = Some l -> l_asset l = currentIndex st) /\
  match pending st with
  | Some l => (length (l_rest l) + length evs < length sorted)%nat /\
              completions st = 0%nat
  | None => completions st = 1%nat
  end.
Proof.
  induction evs as [|ev evs IH] using rev_ind.
  - unfold body_run, body_start. cbn [fold_left].
    destruct (loadNext_spec sorted (initial cache) (bounded_initial cache) eq_refl)
      as (A & B & C & D).
    set (r := loadNext sorted (initial cache)) in *.
    split; [exact A|]. split.
    + intros l Hl. rewrite Hl in D. tauto.
    + destruct (pending r); [|exact D]. destruct D as (_ & D2 & D3).
      split; [cbn; lia | exact D3].
  - cbv zeta in *. rewrite run_snoc. destruct IH as (Hb & Hl & Hm).
    destruct (fire_spec ev (run sorted cache evs) Hb Hl) as (A & B & C).
    set (st := run sorted cache evs) in *.
    split; [exact A|]. split; [exact B|].
    destruct (pending st) as [l|] eqn:Hp.
    + destruct C as (_ & C). destruct Hm as (Hm1 & Hm2).
      destruct (pending (fire ev st)).
      * destruct C as (C1 & C2). rewrite length_app. cbn. split; lia.
      * lia.
    + rewrite C, Hp. exact Hm.
Qed.




End with_platform.
End LoaderFacts.

Module SequenceFacts.
Import Loader LoaderFacts Sequence.


Section bookkeeping.

Variable target : EnqueuedScript -> jsstring.
Variable cache0 : gset jsstring.
Variable sorted : list EnqueuedScript.

Local Abbreviation seq := (sequenced target cache0 sorted).






End bookkeeping.

Section body.

Variable URL_parse : jsstring -> option URL.
Variable replaceProxyPlaceholders : jsstring -> jsstring -> jsstring.
Variable instance : jsstring.
Variable backendUrl : option jsstring.
Variable cache0 : gset jsstring.
Variable sorted : list EnqueuedScript.

Local Abbreviation loadNext :=
  (body_loadNextScript URL_parse replaceProxyPlaceholders instance backendUrl).
Local Abbreviation fire := (body_fire URL_parse replaceProxyPlaceholders instance backendUrl).
Local Abbreviation run := (body_run URL_parse replaceProxyPlaceholders instance backendUrl).
Local Abbreviation target := (body_src URL_parse instance backendUrl).
Local Abbreviation seq := (sequenced target cache0 sorted).






End body.

End SequenceFacts.

Module LoaderClaims.
Import Loader LoaderFacts.


(** *** Cache keys and load targets *)

Lemma is_prefix_spec p s : is_prefix p s = true <-> exists r, s = p ++ r.
Proof.
  revert s. induction p as [|x p IH]; intros s; cbn [is_prefix].
  - split; [intros _; exists s; reflexivity | reflexivity].
  - destruct s as [|y s]; [split; [discriminate | intros [r Hr]; discriminate]|].
    rewrite andb_true_iff, Z.eqb_eq, IH. split.
    + intros [-> [r ->]]. exists r. reflexivity.
    + intros [r Hr]. injection Hr as -> ->. split; [reflexivity | exists r; reflexivity].
Qed.

Lemma isInternalRoute_spec path : isInternalRoute path = true <-> core_path path.
Proof.
  unfold isInternalRoute, core_path. rewrite orb_true_iff, !is_prefix_spec. tauto.
Qed.

(** C8 (as amended). In both loaders the deduplication key of a descriptor is
    its [id]; failing that its [handle]; failing that its [src]; failing that
    the synthetic key [inline-<ordinal>]; no other field is consulted, and a
    descriptor whose key is in [LoadCache] is skipped. *)
Theorem cache_key_precedence
    (URL_parse : jsstring -> option URL)
    (replaceProxyPlaceholders : jsstring -> jsstring -> jsstring)
    (instance : jsstring) (backendUrl : option jsstring)
    (script : EnqueuedScript) (n : nat) :
  cacheKey script n
  = (if truthy (id script) then text_of (id script)
     else if truthy (handle script) then text_of (handle script)
     else if truthy (src script) then text_of (src script)
     else js "inline-" ++ number_to_js n) /\
  (forall rest st,
      currentIndex st = Nat.pred n -> n <> 0%nat -> cacheKey script n ∈ LoadCache st ->
      head_loadNextScript URL_parse instance (script :: rest) st
      = head_loadNextScript URL_parse instance rest (set_index n st) /\
      body_loadNextScript URL_parse replaceProxyPlaceholders instance backendUrl
        (script :: rest) st
      = body_loadNextScript URL_parse replaceProxyPlaceholders instance backendUrl
          rest (set_index n st)).
Proof.
  split.
  - unfold cacheKey, or_else.
    destruct (id script) as [[|c i]|]; cbn [truthy text_of];
      destruct (handle script) as [[|c' h]|]; cbn [truthy text_of];
      destruct (src script) as [[|c'' s]|]; cbn [truthy text_of]; reflexivity.
  - intros rest st Hi Hn Hk.
    assert (Hs : S (currentIndex st) = n) by lia.
    cbn [head_loadNextScript body_loadNextScript LoadCache set_index].
    rewrite Hs. rewrite !bool_decide_eq_true_2 by exact Hk. split; reflexivity.
Qed.

(** C8, counterexample: with both an [id] and a [handle] the key is the
    [id], not the [handle]. *)
Lemma cache_key_prefers_id :
  let script := Sort.createScript (js "jquery") [] in
  handle script = Some (js "jquery") /\
  cacheKey script 1 = js "script-jquery" /\
  cacheKey script 1 <> js "jquery".
Proof.
  cbv zeta. split; [reflexivity|]. split; [reflexivity|]. vm_compute. discriminate.
Qed.

(** C9. A non-empty [src] that parses as an absolute URL and is routed
    through the proxy is rewritten to [/atx/{instance}/wp-internal-assets]
    followed by the URL's path when that path begins with [/wp-includes/] or
    [/wp-admin/], and to [/atx/{instance}/wp-assets] followed by the path
    otherwise, by either loader. *)
Theorem proxy_target_shape
    (URL_parse : jsstring -> option URL) (instance : jsstring)
    (backendUrl : option jsstring) (script : EnqueuedScript) (s : jsstring) (u : URL) :
  src script = Some s -> nonempty s = true -> URL_parse s = Some u ->
  let internal := js "/atx/" ++ instance ++ js "/wp-internal-assets" ++ pathname u in
  let content := js "/atx/" ++ instance ++ js "/wp-assets" ++ pathname u in
  (core_path (pathname u) ->
     head_src URL_parse instance script = internal /\
     (body_proxies URL_parse backendUrl s ->
      body_src URL_parse instance backendUrl script = internal)) /\
  (~ core_path (pathname u) ->
     head_src URL_parse instance script = content /\
     (body_proxies URL_parse backendUrl s ->
      body_src URL_parse instance backendUrl script = content)).
Proof.
  intros Hsrc Hne Hu. cbv zeta.
  assert (Hhead : head_src URL_parse instance script = proxied instance (pathname u)).
  { unfold head_src, extractPath. rewrite Hsrc, Hne, Hu. reflexivity. }
  assert (Hbody : body_proxies URL_parse backendUrl s ->
                  body_src URL_parse instance backendUrl script
                  = proxied instance (pathname u)).
  { unfold body_proxies, body_src, extractPath. rewrite Hsrc, Hne, Hu.
    destruct backendUrl as [b|]; [intros ->|]; reflexivity. }
  split; intros Hc.
  - apply isInternalRoute_spec in Hc. unfold proxied in *. rewrite Hc in *. tauto.
  - assert (Hf : isInternalRoute (pathname u) = false).
    { destruct (isInternalRoute (pathname u)) eqn:E; [|reflexivity].
      apply isInternalRoute_spec in E. contradiction. }
    unfold proxied in *. rewrite Hf in *. tauto.
Qed.

(** C10. When the [src] is an absolute URL with a query string or a
    fragment, the proxied target is the namespace prefix followed by the
    URL's path alone: the query and the fragment are dropped, so the target
    is not the origin-only rewrite of the URL. *)
Theorem proxy_target_drops_query
    (URL_parse : jsstring -> option URL) (instance : jsstring)
    (backendUrl : option jsstring) (script : EnqueuedScript) (s : jsstring) (u : URL) :
  src script = Some s -> nonempty s = true -> URL_parse s = Some u ->
  search u ++ hash u <> [] ->
  let namespace := if isInternalRoute (pathname u)
                   then js "/atx/" ++ instance ++ js "/wp-internal-assets"
                   else js "/atx/" ++ instance ++ js "/wp-assets" in
  head_src URL_parse instance script = namespace ++ pathname u /\
  (body_proxies URL_parse backendUrl s ->
   body_src URL_parse instance backendUrl script = namespace ++ pathname u) /\
  namespace ++ pathname u <> namespace ++ pathname u ++ search u ++ hash u.
Proof.
  intros Hsrc Hne Hu Hq. cbv zeta.
  assert (Hp : proxied instance (pathname u)
               = (if isInternalRoute (pathname u)
                  then js "/atx/" ++ instance ++ js "/wp-internal-assets"
                  else js "/atx/" ++ instance ++ js "/wp-assets") ++ pathname u).
  { unfold proxied. destruct (isInternalRoute (pathname u)); rewrite <- !app_assoc; reflexivity. }
  rewrite <- Hp. split; [|split].
  - unfold head_src, extractPath. rewrite Hsrc, Hne, Hu. reflexivity.
  - unfold body_proxies, body_src, extractPath. rewrite Hsrc, Hne, Hu.
    destruct backendUrl as [b|]; [intros ->|]; reflexivity.
  - rewrite Hp. intros Heq. apply app_inv_head in Heq.
    rewrite <- (app_nil_r (pathname u)) in Heq at 1. apply app_inv_head in Heq.
    apply Hq. symmetry. exact Heq.
Qed.

End LoaderClaims.

(** ** Percent-encoding *)

Module UriFacts.
Import Codec CodecFacts Uri.

Lemma bind_Ok {A B} (r : result A) (k : A -> result B) (b : B) :
  r ≫= k = Ok b -> exists a, r = Ok a /\ k a = Ok b.
Proof. destruct r as [a|e]; [intros H; exists a; tauto | discriminate]. Qed.

Lemma hex_value_digit v : 0 <= v < 16 -> hex_value (hex_digit v) = Some v.
Proof.
  intros H. unfold hex_digit, hex_value.
  destruct (Z.ltb_spec v 10); zdecide; cbn [andb]; f_equal; lia.
Qed.

Lemma items_percent bs r :
  Forall byte bs ->
  items (percent bs ++ r) = (l ← items r; Ok (map Octet bs ++ l)).
Proof.
  unfold byte. induction 1 as [|b bs Hb _ IH].
  - cbn. destruct (items r); reflexivity.
  - cbn [percent flat_map app items]. change (37 =? 37) with true. cbv iota.
    fold (percent bs).
    rewrite !hex_value_digit by (Z.div_mod_to_equations; lia).
    rewrite IH. destruct (items r) as [l|e]; cbn; [|reflexivity].
    do 3 f_equal. Z.div_mod_to_equations. lia.
Qed.

Lemma unreserved_not_percent c : unreserved c = true -> (c =? 37) = false.
Proof.
  unfold unreserved. intros H. apply Z.eqb_neq. intros ->. discriminate.
Qed.

Lemma decode_items_scalar cp l :
  scalar cp ->
  decode_items (map Octet (utf8_encode_scalar cp) ++ l)
  = (s ← decode_items l; Ok (from_scalar cp ++ s)).
Proof.
  intros Hs. unfold utf8_encode_scalar, scalar in *.
  destruct (Z.ltb_spec cp 0x80); [|destruct (Z.ltb_spec cp 0x800);
    [|destruct (Z.ltb_spec cp 0x10000)]]; cbn [map app decode_items].
  - rewrite leb_true by lia. unfold from_scalar. rewrite ltb_true by lia. reflexivity.
  - destruct (split_2 cp) as (a & b & -> & -> & Ha & Hb & Heq); [lia|].
    rewrite (leb_false (192 + a) 127) by lia.
    rewrite (leb_true 194 (192 + a)), (leb_true (192 + a) 223) by lia. cbn [andb].
    unfold continuation. rewrite (leb_true 128 (128 + b)), (leb_true (128 + b) 191) by lia.
    cbn [andb]. replace ((192 + a - 192) * 64 + (128 + b - 128)) with cp by lia.
    reflexivity.
  - destruct (split_3 cp) as (a & b & c & -> & -> & -> & Ha & Hb & Hc & Hlo & Hhi & Heq);
      [lia|lia|].
    rewrite (leb_false (224 + a) 127) by lia.
    rewrite (leb_false (224 + a) 223) by lia. rewrite andb_false_r.
    rewrite (leb_true 224 (224 + a)), (leb_true (224 + a) 239) by lia. cbn [andb].
    unfold continuation.
    assert (Hc1 : ((if 224 + a =? 224 then 160 else 128) <=? 128 + b) = true).
    { apply Z.leb_le. destruct (Z.eqb_spec (224 + a) 224); lia. }
    assert (Hc2 : (128 + b <=? (if 224 + a =? 237 then 159 else 191)) = true).
    { apply Z.leb_le. destruct (Z.eqb_spec (224 + a) 237); lia. }
    rewrite Hc1, Hc2, (leb_true 128 (128 + c)), (leb_true (128 + c) 191) by lia.
    cbn [andb].
    replace (((224 + a - 224) * 64 + (128 + b - 128)) * 64 + (128 + c - 128)) with cp by lia.
    reflexivity.
  - destruct (split_4 cp) as (a & b & c & d & -> & -> & -> & -> & Ha & Hb & Hc & Hd
                              & Hlo & Hhi & Heq); [lia|].
    rewrite (leb_false (240 + a) 127) by lia.
    rewrite (leb_false (240 + a) 223) by lia. rewrite andb_false_r.
    rewrite (leb_false (240 + a) 239) by lia. rewrite andb_false_r.
    rewrite (leb_true 240 (240 + a)), (leb_true (240 + a) 244) by lia. cbn [andb].
    unfold continuation.
    assert (Hc1 : ((if 240 + a =? 240 then 144 else 128) <=? 128 + b) = true).
    { apply Z.leb_le. destruct (Z.eqb_spec (240 + a) 240); lia. }
    assert (Hc2 : (128 + b <=? (if 240 + a =? 244 then 143 else 191)) = true).
    { apply Z.leb_le. destruct (Z.eqb_spec (240 + a) 244); lia. }
    rewrite Hc1, Hc2, (leb_true 128 (128 + c)), (leb_true (128 + c) 191),
      (leb_true 128 (128 + d)), (leb_true (128 + d) 191) by lia.
    cbn [andb].
    replace ((((240 + a - 240) * 64 + (128 + b - 128)) * 64 + (128 + c - 128)) * 64
             + (128 + d - 128)) with cp by lia.
    reflexivity.
Qed.

(** What [encodeURIComponent] emits decodes back to its input. *)
Lemma decode_encode_items s e :
  valid_string s = true -> encodeURIComponent s = Ok e ->
  exists l, items e = Ok l /\ decode_items l = Ok s.
Proof.
  revert e. induction s as [|a|a b s IH1 IH2] using list_ind2; intros e Hv He.
  - injection He as <-. exists []. split; reflexivity.
  - apply valid_string_cons in Hv. destruct Hv as [Ha _].
    cbn [encodeURIComponent] in He.
    destruct (unreserved a) eqn:Hu.
    + injection He as <-. cbn [items]. rewrite (unreserved_not_percent a Hu).
      exists [Lit a]. split; reflexivity.
    + destruct (is_high_surrogate a) eqn:H1; [discriminate|].
      destruct (is_low_surrogate a) eqn:H2; [discriminate|].
      injection He as <-. surrogates.
      assert (Hsc : scalar a) by (unfold scalar; lia).
      rewrite items_percent by (apply utf8_encode_scalar_bytes; exact Hsc).
      cbn [items]. eexists; split; [reflexivity|]. cbn.
      rewrite decode_items_scalar by exact Hsc. cbn.
      unfold from_scalar. rewrite ltb_true by lia. reflexivity.
  - apply valid_string_cons in Hv. destruct Hv as [Ha Hvb].
    pose proof Hvb as Hvs. apply valid_string_cons in Hvs. destruct Hvs as [Hb Hvs].
    assert (Hstep : forall cp r' s',
              scalar cp -> valid_string s' = true ->
              (forall e', encodeURIComponent s' = Ok e' ->
                          exists l, items e' = Ok l /\ decode_items l = Ok s') ->
              encodeURIComponent s' = Ok r' ->
              exists l, items (percent (utf8_encode_scalar cp) ++ r') = Ok l /\
                        decode_items l = Ok (from_scalar cp ++ s')).
    { intros cp r' s' Hsc Hvs' IH Hr'. destruct (IH r' Hr') as (l & Hl & Hd).
      rewrite items_percent by (apply utf8_encode_scalar_bytes; exact Hsc).
      rewrite Hl. eexists; split; [reflexivity|].
      rewrite decode_items_scalar by exact Hsc. rewrite Hd. reflexivity. }
    change (encodeURIComponent (a :: b :: s)) with
      (if unreserved a then r ← encodeURIComponent (b :: s); Ok (a :: r)
       else if is_high_surrogate a then
         if is_low_surrogate b then
           r ← encodeURIComponent s;
           Ok (percent (utf8_encode_scalar
                          (0x10000 + (a - 0xD800) * 0x400 + (b - 0xDC00))) ++ r)
         else Throw URIError
       else if is_low_surrogate a then Throw URIError
       else r ← encodeURIComponent (b :: s); Ok (percent (utf8_encode_scalar a) ++ r)) in He.
    destruct (unreserved a) eqn:Hu.
    + apply bind_Ok in He. destruct He as (r & Hr & [= <-]).
      destruct (IH2 r Hvb Hr) as (l & Hl & Hd).
      cbn [items]. rewrite (unreserved_not_percent a Hu), Hl.
      eexists; split; [reflexivity|]. cbn [decode_items]. rewrite Hd. reflexivity.
    + destruct (is_high_surrogate a) eqn:H1.
      * destruct (is_low_surrogate b) eqn:H2; [|discriminate].
        apply bind_Ok in He. destruct He as (r & Hr & [= <-]). surrogates.
        destruct (Hstep (0x10000 + (a - 0xD800) * 0x400 + (b - 0xDC00)) r s)
          as (l & Hl & Hd); try assumption.
        { unfold scalar; lia. }
        { intros e' He'. apply IH1; assumption. }
        exists l. split; [exact Hl|]. rewrite Hd. f_equal.
        unfold from_scalar. rewrite ltb_false by lia. cbn [app].
        f_equal; [|f_equal]; Z.div_mod_to_equations; lia.
      * destruct (is_low_surrogate a) eqn:H2; [discriminate|].
        apply bind_Ok in He. destruct He as (r & Hr & [= <-]). surrogates.
        destruct (Hstep a r (b :: s)) as (l & Hl & Hd); try assumption.
        { unfold scalar; lia. }
        { intros e' He'. apply IH2; assumption. }
        exists l. split; [exact Hl|]. rewrite Hd. f_equal.
        unfold from_scalar. rewrite ltb_true by lia. reflexivity.
Qed.

Lemma decodeURIComponent_encode s e :
  valid_string s = true -> encodeURIComponent s = Ok e -> decodeURIComponent e = Ok s.
Proof.
  intros Hv He. destruct (decode_encode_items s e Hv He) as (l & Hl & Hd).
  unfold decodeURIComponent. rewrite Hl. exact Hd.
Qed.

Lemma hex_digit_uri_char v : 0 <= v < 16 -> uri_char (hex_digit v) = true.
Proof.
  intros H. unfold uri_char, hex_digit.
  destruct (Z.ltb_spec v 10).
  - rewrite (leb_true 48 (48 + v)), (leb_true (48 + v) 57) by lia.
    cbn [andb]. rewrite !orb_true_r. reflexivity.
  - rewrite (leb_true 65 (65 + (v - 10))), (leb_true (65 + (v - 10)) 70) by lia.
    cbn [andb]. rewrite !orb_true_r. reflexivity.
Qed.

Lemma percent_uri_chars bs : Forall byte bs -> forallb uri_char (percent bs) = true.
Proof.
  unfold byte. induction 1 as [|b bs Hb _ IH]; [reflexivity|].
  cbn [percent flat_map]. fold (percent bs). rewrite forallb_app, IH.
  cbn [forallb]. rewrite !hex_digit_uri_char by (Z.div_mod_to_equations; lia).
  reflexivity.
Qed.

Lemma encodeURIComponent_uri_chars s e :
  valid_string s = true -> encodeURIComponent s = Ok e -> forallb uri_char e = true.
Proof.
  revert e. induction s as [|a|a b s IH1 IH2] using list_ind2; intros e Hv He.
  - injection He as <-. reflexivity.
  - apply valid_string_cons in Hv. destruct Hv as [Ha _].
    cbn [encodeURIComponent] in He.
    destruct (unreserved a) eqn:Hu.
    + injection He as <-. cbn. unfold uri_char. rewrite Hu. reflexivity.
    + destruct (is_high_surrogate a) eqn:H1; [discriminate|].
      destruct (is_low_surrogate a) eqn:H2; [discriminate|].
      injection He as <-. surrogates. rewrite app_nil_r.
      apply percent_uri_chars, utf8_encode_scalar_bytes. unfold scalar; lia.
  - apply valid_string_cons in Hv. destruct Hv as [Ha Hvb].
    pose proof Hvb as Hvs. apply valid_string_cons in Hvs. destruct Hvs as [Hb Hvs].
    change (encodeURIComponent (a :: b :: s)) with
      (if unreserved a then r ← encodeURIComponent (b :: s); Ok (a :: r)
       else if is_high_surrogate a then
         if is_low_surrogate b then
           r ← encodeURIComponent s;
           Ok (percent (utf8_encode_scalar
                          (0x10000 + (a - 0xD800) * 0x400 + (b - 0xDC00))) ++ r)
         else Throw URIError
       else if is_low_surrogate a then Throw URIError
       else r ← encodeURIComponent (b :: s); Ok (percent (utf8_encode_scalar a) ++ r)) in He.
    destruct (unreserved a) eqn:Hu.
    + apply bind_Ok in He. destruct He as (r & Hr & [= <-]).
      cbn [forallb]. rewrite (IH2 r Hvb Hr). unfold uri_char. rewrite Hu. reflexivity.
    + destruct (is_high_surrogate a) eqn:H1.
      * destruct (is_low_surrogate b) eqn:H2; [|discriminate].
        apply bind_Ok in He. destruct He as (r & Hr & [= <-]). surrogates.
        rewrite forallb_app, (IH1 r Hvs Hr), andb_true_r.
        apply percent_uri_chars, utf8_encode_scalar_bytes. unfold scalar; lia.
      * destruct (is_low_surrogate a) eqn:H2; [discriminate|].
        apply bind_Ok in He. destruct He as (r & Hr & [= <-]). surrogates.
        rewrite forallb_app, (IH2 r Hvb Hr), andb_true_r.
        apply percent_uri_chars, utf8_encode_scalar_bytes. unfold scalar; lia.
Qed.

(** The only quote [encodeURIComponent] lets through is the apostrophe, and
    only where the input has one. *)
Lemma encodeURIComponent_apostrophe s e :
  valid_string s = true -> encodeURIComponent s = Ok e -> ~ In 39 s -> ~ In 39 e.
Proof.
  assert (Hp : forall bs, ~ In 39 (percent bs) \/ exists b, In b bs /\ ~ byte b).
  { induction bs as [|b bs IH]; [left; tauto|].
    destruct (Z_lt_dec b 0) as [Hlt|Hge]; [right; exists b; unfold byte; split; [left; reflexivity | lia]|].
    destruct (Z_lt_dec b 256) as [Hlt|Hge2];
      [|right; exists b; unfold byte; split; [left; reflexivity | lia]].
    destruct IH as [IH|(b' & Hin & Hb')]; [|right; exists b'; split; [right; exact Hin | exact Hb']].
    left. cbn [percent flat_map]. fold (percent bs). rewrite in_app_iff.
    intros [[H|[H|[H|[]]]]|H]; try tauto; try discriminate;
      unfold hex_digit in H;
      [destruct (Z.ltb_spec (b / 16) 10) | destruct (Z.ltb_spec (b mod 16) 10)];
      Z.div_mod_to_equations; lia. }
  assert (Hpb : forall cp, scalar cp -> ~ In 39 (percent (utf8_encode_scalar cp))).
  { intros cp Hcp. destruct (Hp (utf8_encode_scalar cp)) as [H|(b & Hin & Hb)]; [exact H|].
    exfalso. apply Hb. pose proof (utf8_encode_scalar_bytes cp Hcp) as Hall.
    rewrite Forall_forall in Hall. apply Hall; exact Hin. }
  revert e. induction s as [|a|a b s IH1 IH2] using list_ind2; intros e Hv He Hn.
  - injection He as <-. tauto.
  - apply valid_string_cons in Hv. destruct Hv as [Ha _].
    cbn [encodeURIComponent] in He.
    destruct (unreserved a) eqn:Hu.
    + injection He as <-. exact Hn.
    + destruct (is_high_surrogate a) eqn:H1; [discriminate|].
      destruct (is_low_surrogate a) eqn:H2; [discriminate|].
      injection He as <-. surrogates. rewrite app_nil_r. apply Hpb. unfold scalar; lia.
  - apply valid_string_cons in Hv. destruct Hv as [Ha Hvb].
    pose proof Hvb as Hvs. apply valid_string_cons in Hvs. destruct Hvs as [Hb Hvs].
    change (encodeURIComponent (a :: b :: s)) with
      (if unreserved a then r ← encodeURIComponent (b :: s); Ok (a :: r)
       else if is_high_surrogate a then
         if is_low_surrogate b then
           r ← encodeURIComponent s;
           Ok (percent (utf8_encode_scalar
                          (0x10000 + (a - 0xD800) * 0x400 + (b - 0xDC00))) ++ r)
         else Throw URIError
       else if is_low_surrogate a then Throw URIError
       else r ← encodeURIComponent (b :: s); Ok (percent (utf8_encode_scalar a) ++ r)) in He.
    assert (Hnb : ~ In 39 (b :: s)) by (intros H; apply Hn; right; exact H).
    assert (Hns : ~ In 39 s) by (intros H; apply Hn; right; right; exact H).
    destruct (unreserved a) eqn:Hu.
    + apply bind_Ok in He. destruct He as (r & Hr & [= <-]).
      intros [H|H]; [apply Hn; left; exact H | exact (IH2 r Hvb Hr Hnb H)].
    + destruct (is_high_surrogate a) eqn:H1.
      * destruct (is_low_surrogate b) eqn:H2; [|discriminate].
        apply bind_Ok in He. destruct He as (r & Hr & [= <-]). surrogates.
        rewrite in_app_iff. intros [H|H]; [|exact (IH1 r Hvs Hr Hns H)].
        revert H. apply Hpb. unfold scalar; lia.
      * destruct (is_low_surrogate a) eqn:H2; [discriminate|].
        apply bind_Ok in He. destruct He as (r & Hr & [= <-]). surrogates.
        rewrite in_app_iff. intros [H|H]; [|exact (IH2 r Hvb Hr Hnb H)].
        revert H. apply Hpb. unfold scalar; lia.
Qed.

End UriFacts.

(** ** The WooCommerce settings transform *)

Module WcFacts.
Import Codec CodecFacts Uri UriFacts WcSettings.

(** *** Replacement and escaping *)

Lemma replace_matches_none m s :
  (forall c t, m (c :: t) = None) -> replace_matches m O s = s.
Proof.
  intros Hm. induction s as [|c s IH]; [reflexivity|].
  cbn [replace_matches]. rewrite Hm, IH. reflexivity.
Qed.

Lemma is_prefix_head_ne p pat c s : p <> c -> is_prefix (p :: pat) (c :: s) = false.
Proof. intros H. cbn [is_prefix]. rewrite (eqb_false p c) by exact H. reflexivity. Qed.

Lemma replace_all_absent p pat rep s :
  ~ In p s -> replace_all (p :: pat) rep s = s.
Proof.
  unfold replace_all. induction s as [|c s IH]; intros Hn; [reflexivity|].
  cbn [replace_matches].
  rewrite is_prefix_head_ne by (intros ->; apply Hn; left; reflexivity).
  rewrite IH; [reflexivity|]. intros H; apply Hn; right; exact H.
Qed.

Lemma esc_js_plain s :
  ~ In 13 s -> ~ In 92 s -> ~ In 39 s -> ~ In 34 s -> ~ In 10 s -> esc_js s = s.
Proof.
  intros H1 H2 H3 H4 H5. unfold esc_js.
  rewrite (replace_all_absent 13) by exact H1.
  rewrite (replace_all_absent 92) by exact H2.
  rewrite (replace_all_absent 39) by exact H3.
  rewrite (replace_all_absent 34) by exact H4.
  apply replace_all_absent; exact H5.
Qed.

Lemma unescape_js_plain s : ~ In 92 s -> unescape_js s = s.
Proof.
  intros H. unfold unescape_js.
  rewrite (replace_all_absent 92 [110]) by exact H.
  rewrite (replace_all_absent 92 [34]) by exact H.
  rewrite (replace_all_absent 92 [39]) by exact H.
  apply replace_all_absent; exact H.
Qed.

Lemma uri_chars_not_in c e :
  forallb uri_char e = true -> uri_char c = false -> ~ In c e.
Proof.
  intros Hall Hc Hin. rewrite forallb_forall in Hall. rewrite (Hall c Hin) in Hc.
  discriminate.
Qed.

(** *** Spans *)

Lemma span_app p a c r :
  forallb p a = true -> p c = false -> span p (a ++ c :: r) = (a, c :: r).
Proof.
  intros Ha Hc. induction a as [|x a IH]; cbn [app span forallb] in *.
  - rewrite Hc. reflexivity.
  - apply andb_true_iff in Ha. destruct Ha as [Hx Ha]. rewrite Hx, (IH Ha). reflexivity.
Qed.

Lemma span_spec p s a b :
  span p s = (a, b) ->
  s = a ++ b /\ forallb p a = true /\ match b with c :: _ => p c = false | [] => True end.
Proof.
  revert a b. induction s as [|c s IH]; intros a b; cbn [span].
  - intros [= <- <-]. repeat split.
  - destruct (p c) eqn:Hc.
    + destruct (span p s) as [a' b'] eqn:Hs. intros [= <- <-].
      destruct (IH a' b' eq_refl) as (-> & Ha & Hb). cbn [forallb]. rewrite Hc, Ha.
      repeat split. exact Hb.
    + intros [= <- <-]. repeat split. exact Hc.
Qed.

Lemma is_prefix_app p r : is_prefix p (p ++ r) = true.
Proof.
  induction p as [|x p IH]; [reflexivity|]. cbn. rewrite Z.eqb_refl. exact IH.
Qed.

Lemma after_prefix_app p r : after_prefix p (p ++ r) = Some r.
Proof.
  unfold after_prefix. rewrite is_prefix_app. f_equal.
  induction p as [|x p IH]; [reflexivity | exact IH].
Qed.

Lemma word_not_space c : is_word c = true -> is_space c = false.
Proof.
  unfold is_word, is_space. intros H.
  repeat (apply orb_true_iff in H; destruct H as [H|H]);
    zbool; repeat rewrite eqb_false by lia;
    try (rewrite (leb_false 8192 c) by lia); try (rewrite (leb_false c 8202) by lia);
    reflexivity.
Qed.

(** *** The two patterns on the rebuilt script *)

(** What [var_decl_at] captures is a non-empty run of word characters. *)
Lemma var_decl_at_word s name :
  var_decl_at s = Some name -> name <> [] /\ forallb is_word name = true.
Proof.
  unfold var_decl_at. destruct (after_prefix _ s) as [r|]; [|discriminate].
  destruct (span is_space r) as [[|x sp] r1]; [discriminate|].
  destruct (span is_word r1) as [[|y nm] r2] eqn:Hw; [discriminate|].
  destruct (snd (span is_space r2)) as [|c ?]; [discriminate|].
  destruct (c =? 61); [|discriminate].
  intros [= <-]. split; [discriminate|]. apply span_spec in Hw. tauto.
Qed.

Lemma first_match_word s name :
  first_match var_decl_at s = Some name -> name <> [] /\ forallb is_word name = true.
Proof.
  induction s as [|c s IH]; cbn [first_match].
  - destruct (var_decl_at []) eqn:H; [|discriminate]. intros [= <-].
    apply (var_decl_at_word []); exact H.
  - destruct (var_decl_at (c :: s)) eqn:H; [|exact IH]. intros [= <-].
    apply (var_decl_at_word (c :: s)); exact H.
Qed.

Lemma var_decl_template name escaped :
  name <> [] -> forallb is_word name = true ->
  first_match var_decl_at (template name escaped) = Some name.
Proof.
  intros Hne Hw.
  assert (H : var_decl_at (template name escaped) = Some name).
  { unfold var_decl_at, template.
    change (js "var " ++ name ++ ?r) with (js "var" ++ (32 :: name ++ r)).
    rewrite after_prefix_app.
    destruct name as [|c name]; [congruence|].
    cbn [forallb] in Hw. apply andb_true_iff in Hw. destruct Hw as [Hc Hw].
    change (32 :: (c :: name) ++ ?r) with ([32] ++ c :: (name ++ r)).
    rewrite (span_app is_space [32] c) by (reflexivity || apply word_not_space; exact Hc).
    change (c :: name ++ ?r) with ((c :: name) ++ r).
    change (js " = JSON.parse( decodeURIComponent( '" ++ ?r)
      with (32 :: (js "= JSON.parse( decodeURIComponent( '" ++ r)).
    rewrite (span_app is_word (c :: name) 32);
      [|cbn [forallb]; rewrite Hc, Hw; reflexivity | reflexivity].
    reflexivity. }
  unfold template in *. cbn [app js] in *.
  cbn [first_match]. cbn in H. cbn. rewrite H. reflexivity.
Qed.

Lemma first_match_here {A} (f : jsstring -> option A) s a :
  f s = Some a -> first_match f s = Some a.
Proof. intros H. destruct s; cbn [first_match]; rewrite H; reflexivity. Qed.

Lemma first_match_next {A} (f : jsstring -> option A) c s :
  f (c :: s) = None -> first_match f (c :: s) = first_match f s.
Proof. intros H. cbn [first_match]. rewrite H. reflexivity. Qed.

Lemma decode_call_at_no_prefix s :
  is_prefix (js "decodeURIComponent(") s = false -> decode_call_at s = None.
Proof. intros H. unfold decode_call_at, after_prefix. rewrite H. reflexivity. Qed.

Lemma decode_call_at_head c s : c <> 100 -> decode_call_at (c :: s) = None.
Proof.
  intros H. apply decode_call_at_no_prefix.
  change (js "decodeURIComponent(") with (100 :: js "ecodeURIComponent(").
  apply is_prefix_head_ne. congruence.
Qed.

Lemma is_prefix_word_space w rest p :
  ~ In 32 p -> forallb is_word w = true ->
  is_prefix (p ++ [40]) (w ++ 32 :: rest) = false.
Proof.
  revert p. induction w as [|c w IH]; intros p Hp Hw.
  - destruct p as [|x p]; cbn [app]; apply is_prefix_head_ne; [discriminate|].
    intros ->. apply Hp. left; reflexivity.
  - cbn [forallb] in Hw. apply andb_true_iff in Hw. destruct Hw as [Hc Hw].
    destruct p as [|x p]; cbn [app].
    + apply is_prefix_head_ne. intros <-. discriminate.
    + cbn [is_prefix]. rewrite IH; [apply andb_false_r | | exact Hw].
      intros H. apply Hp. right; exact H.
Qed.

Lemma first_match_decode_word w rest :
  forallb is_word w = true ->
  first_match decode_call_at (w ++ 32 :: rest) = first_match decode_call_at (32 :: rest).
Proof.
  induction w as [|c w IH]; intros Hw; [reflexivity|].
  cbn [app]. rewrite first_match_next.
  - apply IH. cbn [forallb] in Hw. apply andb_true_iff in Hw. tauto.
  - apply decode_call_at_no_prefix.
    change (js "decodeURIComponent(") with (js "decodeURIComponent" ++ [40]).
    apply (is_prefix_word_space (c :: w)); [|exact Hw].
    vm_compute. intuition discriminate.
Qed.

Lemma decode_call_template name escaped :
  forallb is_word name = true -> escaped <> [] ->
  forallb (fun c => negb (is_quote c)) escaped = true ->
  first_match decode_call_at (template name escaped) = Some escaped.
Proof.
  intros Hw Hne Hq. unfold template.
  change (js "var ") with [118; 97; 114; 32].
  cbn [app].
  rewrite 3 first_match_next by (apply decode_call_at_head; discriminate).
  change (32 :: name ++ ?r) with ([32] ++ name ++ r). cbn [app].
  rewrite first_match_next by (apply decode_call_at_head; discriminate).
  change (js " = JSON.parse( decodeURIComponent( '")
    with (32 :: js "= JSON.parse( " ++ js "decodeURIComponent(" ++ js " '").
  cbn [app]. rewrite <- !app_assoc.
  rewrite first_match_decode_word by exact Hw.
  change (js "= JSON.parse( ") with [61; 32; 74; 83; 79; 78; 46; 112; 97; 114; 115; 101; 40; 32].
  cbn [app].
  rewrite 15 first_match_next by (apply decode_call_at_head; discriminate).
  apply first_match_here.
  unfold decode_call_at. rewrite after_prefix_app.
  change (js " '" ++ ?r) with ([32] ++ 39 :: r).
  rewrite (span_app is_space [32] 39) by reflexivity.
  cbn [snd]. change (is_quote 39) with true. cbv iota.
  change (js "' ) );") with (39 :: js " ) );").
  rewrite (span_app (fun c => negb (is_quote c)) escaped 39) by (exact Hq || reflexivity).
  destruct escaped as [|c e]; [congruence|]. reflexivity.
Qed.

(** [encodeURIComponent] never returns the empty string for a non-empty
    one. *)
Lemma encodeURIComponent_nonempty s e :
  encodeURIComponent s = Ok e -> s <> [] -> e <> [].
Proof.
  destruct s as [|a s]; [congruence|]. intros He _. cbn [encodeURIComponent] in He.
  destruct (unreserved a).
  - apply bind_Ok in He. destruct He as (r & _ & [= <-]). discriminate.
  - destruct (is_high_surrogate a).
    + destruct s as [|b s]; [discriminate|].
      destruct (is_low_surrogate b); [|discriminate].
      apply bind_Ok in He. destruct He as (r & _ & [= <-]).
      unfold utf8_encode_scalar.
      repeat match goal with |- context [if ?c then _ else _] => destruct c end; discriminate.
    + destruct (is_low_surrogate a); [discriminate|].
      apply bind_Ok in He. destruct He as (r & _ & [= <-]).
      unfold utf8_encode_scalar.
      repeat match goal with |- context [if ?c then _ else _] => destruct c end; discriminate.
Qed.

Section mutation_throws.

Variable number : Type.
Variable number_truthy : number -> bool.
Variable number_toString : number -> jsstring.
Variable URL_parse : jsstring -> option URL.
Variable frontendUrl : jsstring.

Local Abbreviation page_step := (rewrite_page number number_truthy number_toString
                                  URL_parse frontendUrl).

Lemma rewrite_page_throw page permalink :
  lookup number page (js "permalink") = Some (JString permalink) ->
  permalink <> [] -> URL_parse permalink = None ->
  page_step (JObject page) = Throw TypeError.
Proof using Type.
  intros Hpl Hne Hurl. unfold rewrite_page, truthy_prop, get. rewrite Hpl.
  cbn [truthy_json]. destruct permalink as [|c pl]; [congruence|].
  cbn [Loader.nonempty]. unfold new_URL. cbn [to_string]. rewrite Hurl. reflexivity.
Qed.

Lemma rewrite_page_error v e : page_step v = Throw e -> e = TypeError.
Proof using Type.
  unfold rewrite_page. destruct v; try discriminate.
  destruct (truthy_prop _ _ _ _); [|discriminate].
  unfold new_URL. destruct (URL_parse _); [discriminate|]. cbn. congruence.
Qed.

Lemma rewrite_pages_throw (pages : list (jsstring * json number)) (key : jsstring)
    page permalink :
  In (key, JObject page) pages ->
  lookup number page (js "permalink") = Some (JString permalink) ->
  permalink <> [] -> URL_parse permalink = None ->
  mapM (fun kv => v ← page_step (snd kv); Ok (fst kv, v)) pages = Throw TypeError.
Proof using Type.
  intros Hin Hpl Hne Hurl.
  induction pages as [|[k v] l IH]; [destruct Hin|]. destruct Hin as [Heq|Hin].
  - injection Heq as -> ->. cbn [mapM snd fst].
    rewrite (rewrite_page_throw page permalink Hpl Hne Hurl). reflexivity.
  - cbn [mapM snd fst]. destruct (page_step v) as [v'|e] eqn:Hv.
    + cbn. rewrite (IH Hin). reflexivity.
    + cbn. f_equal. exact (rewrite_page_error v e Hv).
Qed.

End mutation_throws.

End WcFacts.

Module WcClaims.
Import Codec CodecFacts Uri UriFacts WcSettings WcFacts.

Section with_platform.

Variable number : Type.
Variable number_truthy : number -> bool.
Variable number_toString : number -> jsstring.
Variable JSON_parse : jsstring -> result (json number).
Variable JSON_stringify : json number -> jsstring.
Variable URL_parse : jsstring -> option URL.

Local Abbreviation decode := (decodeWcSettings number JSON_parse).
Local Abbreviation encode := (encodeWcSettings number JSON_stringify).
Local Abbreviation try_run :=
  (try_transform number number_truthy number_toString JSON_parse JSON_stringify URL_parse).
Local Abbreviation transform :=
  (transformWcSettings number number_truthy number_toString JSON_parse JSON_stringify
     URL_parse).
Local Abbreviation mutation := (mutate number number_truthy number_toString URL_parse).

(** C4 (as amended). For every script [rawScript] in the form the encoder
    itself produces -- [encodeWcSettings] applied to a payload whose JSON text
    has no apostrophe and survives [JSON.parse] -- decoding [rawScript] and
    re-encoding the decoded payload unchanged yields [rawScript] again. *)
Theorem decode_encode_round_trip
    (beforeScript encoded0 rawScript : jsstring) (payload payload' : json number) :
  encode beforeScript encoded0 payload = Ok rawScript ->
  valid_string (JSON_stringify payload) = true ->
  JSON_stringify payload <> [] ->
  ~ In 39 (JSON_stringify payload) ->
  JSON_parse (JSON_stringify payload) = Ok payload' ->
  JSON_stringify payload' = JSON_stringify payload ->
  exists encodedString,
    decode rawScript = Ok (payload', encodedString) /\
    encode rawScript encodedString payload' = Ok rawScript.
Proof using Type.
  intros Henc Hv Hne Hap Hparse Hstr.
  unfold encodeWcSettings in Henc.
  apply bind_Ok in Henc. destruct Henc as (e & He & Henc).
  destruct (first_match var_decl_at beforeScript) as [name|] eqn:Hvar; [|discriminate].
  injection Henc as <-.
  destruct (first_match_word beforeScript name Hvar) as [Hname Hword].
  pose proof (encodeURIComponent_uri_chars _ e Hv He) as Hchars.
  pose proof (encodeURIComponent_apostrophe _ e Hv He Hap) as Hap'.
  pose proof (encodeURIComponent_nonempty _ e He Hne) as Hne'.
  assert (Hesc : esc_js e = e).
  { apply esc_js_plain; try exact Hap';
      apply (uri_chars_not_in _ e Hchars); reflexivity. }
  assert (Hunesc : unescape_js e = e).
  { apply unescape_js_plain. apply (uri_chars_not_in _ e Hchars); reflexivity. }
  assert (Hquote : forallb (fun c => negb (is_quote c)) e = true).
  { apply forallb_forall. intros c Hc. unfold is_quote.
    destruct (Z.eqb_spec c 39) as [->|_]; [contradiction|].
    destruct (Z.eqb_spec c 34) as [->|_]; [|reflexivity].
    exfalso. revert Hc. apply (uri_chars_not_in _ e Hchars). reflexivity. }
  rewrite Hesc. exists e. split.
  - unfold decodeWcSettings.
    rewrite (decode_call_template name e Hword Hne' Hquote).
    rewrite Hunesc, (decodeURIComponent_encode _ e Hv He). cbn.
    rewrite Hparse. reflexivity.
  - unfold encodeWcSettings. rewrite Hstr, He. cbn [mbind result_bind].
    rewrite Hesc, (var_decl_template name e Hname Hword). reflexivity.
Qed.

(** C7. [transformWcSettings] is a total function of its arguments, and it
    returns [beforeScript] itself whenever anything inside its [try] block
    throws: when the decode pattern is absent, when the captured text is not
    valid percent-encoding or not JSON, when the clone or the mutation throws
    (a store-page permalink that is not a URL, a [null] payload), and when the
    variable declaration cannot be found for re-encoding.  Otherwise it
    returns the re-encoded script. *)
Theorem transform_never_throws
    (beforeScript frontendUrl instance : jsstring) (rewriteLoginUrl : bool) :
  let out := transform beforeScript frontendUrl instance rewriteLoginUrl in
  (forall e, try_run beforeScript frontendUrl instance rewriteLoginUrl = Throw e ->
             out = beforeScript) /\
  (forall s, try_run beforeScript frontendUrl instance rewriteLoginUrl = Ok s -> out = s) /\
  (first_match decode_call_at beforeScript = None -> out = beforeScript) /\
  (forall enc e,
      first_match decode_call_at beforeScript = Some enc ->
      decodeURIComponent (unescape_js enc) = Throw e -> out = beforeScript) /\
  (forall enc text e,
      first_match decode_call_at beforeScript = Some enc ->
      decodeURIComponent (unescape_js enc) = Ok text ->
      JSON_parse text = Throw e -> out = beforeScript) /\
  (forall target enc e,
      decode beforeScript = Ok (target, enc) ->
      JSON_parse (JSON_stringify target) = Throw e -> out = beforeScript) /\
  (forall target enc transformed e,
      decode beforeScript = Ok (target, enc) ->
      JSON_parse (JSON_stringify target) = Ok transformed ->
      mutation frontendUrl instance rewriteLoginUrl transformed = Throw e ->
      out = beforeScript) /\
  (forall target enc transformed transformed' e,
      decode beforeScript = Ok (target, enc) ->
      JSON_parse (JSON_stringify target) = Ok transformed ->
      mutation frontendUrl instance rewriteLoginUrl transformed = Ok transformed' ->
      encode beforeScript enc transformed' = Throw e -> out = beforeScript) /\
  (forall props pages key page permalink,
      lookup number props (js "storePages") = Some (JObject pages) ->
      In (key, JObject page) pages ->
      lookup number page (js "permalink") = Some (JString permalink) ->
      permalink <> [] -> URL_parse permalink = None ->
      mutation frontendUrl instance rewriteLoginUrl (JObject props) = Throw TypeError) /\
  mutation frontendUrl instance rewriteLoginUrl JNull = Throw TypeError.
Proof using Type.
  cbv zeta. unfold transformWcSettings, try_transform.
  split; [intros e ->; reflexivity|].
  split; [intros s ->; reflexivity|].
  split; [|split; [|split; [|split; [|split; [|split; [|split]]]]]].
  - intros H. unfold decodeWcSettings. rewrite H. reflexivity.
  - intros enc e H1 H2. unfold decodeWcSettings. rewrite H1, H2. reflexivity.
  - intros enc text e H1 H2 H3. unfold decodeWcSettings. rewrite H1, H2. cbn.
    rewrite H3. reflexivity.
  - intros target enc e H1 H2. rewrite H1. cbn. rewrite H2. reflexivity.
  - intros target enc transformed e H1 H2 H3. rewrite H1. cbn. rewrite H2. cbn.
    rewrite H3. reflexivity.
  - intros target enc transformed transformed' e H1 H2 H3 H4. rewrite H1. cbn.
    rewrite H2. cbn. rewrite H3. cbn. rewrite H4. reflexivity.
  - intros props pages key page permalink Hsp Hin Hpl Hne Hurl.
    unfold mutate, truthy_prop, get. rewrite Hsp. cbn [truthy_json].
    unfold rewrite_storePages.
    rewrite (rewrite_pages_throw _ _ _ _ _ pages key page permalink Hin Hpl Hne Hurl).
    reflexivity.
  - reflexivity.
Qed.

End with_platform.

(** C4, counterexample: the decoder accepts a double-quoted argument, the
    encoder always writes single quotes, so this script does not survive the
    round trip. *)
Lemma round_trip_changes_quotes :
  let rawScript := js "var wcSettings = JSON.parse( decodeURIComponent( "
                   ++ [34] ++ js "%7B%7D" ++ [34] ++ js " ) );" in
  Reference.decodeWcSettings rawScript = Ok (JObject [], js "%7B%7D") /\
  Reference.encodeWcSettings rawScript (js "%7B%7D") (JObject [])
  = Ok (js "var wcSettings = JSON.parse( decodeURIComponent( '%7B%7D' ) );") /\
  Reference.encodeWcSettings rawScript (js "%7B%7D") (JObject []) <> Ok rawScript.
Proof.
  cbv zeta. split; [vm_compute; reflexivity|]. split; [vm_compute; reflexivity|].
  vm_compute. discriminate.
Qed.

End WcClaims.

(** ** Concrete runs *)

Module Examples.
Import Sort SortFacts SortClaims Codec CodecFacts CodecClaims Loader LoaderFacts LoaderClaims.

Lemma sort_dependencies_first_witness :
  acyclic linear_chain /\
  exists r, sortScriptsByDependencies linear_chain = Some r /\
    (forall s, In s linear_chain ->
       exists s', In s' (sortedScripts r) /\ stands_for linear_chain s' s) /\
    (forall a b, In a linear_chain -> In b linear_chain -> depends_on a b ->
       exists i j a' b',
         nth_error (sortedScripts r) i = Some a' /\ stands_for linear_chain a' a /\
         nth_error (sortedScripts r) j = Some b' /\ stands_for linear_chain b' b /\
         (j < i)%nat) /\
    (NoDup (present_handles linear_chain) ->
     forall a b, In a linear_chain -> In b linear_chain -> depends_on a b ->
       exists i j,
         nth_error (sortedScripts r) i = Some a /\
         nth_error (sortedScripts r) j = Some b /\ (j < i)%nat) /\
    (forall i j a b,
       nth_error (sortedScripts r) i = Some a ->
       nth_error (sortedScripts r) j = Some b ->
       depends_on a b -> (j < i)%nat).
Proof.
  assert (H : acyclic linear_chain).
  { apply (ranked_by_acyclic [js "script-1"; js "script-2"; js "script-3"]).
    vm_compute. reflexivity. }
  split; [exact H|]. exact (sort_dependencies_first linear_chain H).
Defined.

Lemma sort_permutation_witness :
  NoDup (present_handles with_and_without_handle) /\
  exists r, sortScriptsByDependencies with_and_without_handle = Some r /\
    Permutation with_and_without_handle (sortedScripts r) /\
    length (sortedScripts r) = length with_and_without_handle /\
    exists withHandles,
      sortedScripts r = withHandles ++ filter no_handle with_and_without_handle /\
      Forall (fun s => has_handle s = true) withHandles.
Proof.
  assert (H : NoDup (present_handles with_and_without_handle)).
  { vm_compute. constructor; [intros [] | constructor]. }
  split; [exact H|]. exact (sort_permutation with_and_without_handle H).
Defined.

(** C6, at the failing input: the descriptors of the unit test "should
    handle scripts without handles" have no dependency edge at all, yet the
    resolver signals its circular-dependency warning, because it compares the
    number of ordered handles with the number of descriptors. *)
Theorem warning_without_cycle :
  acyclic with_and_without_handle /\
  length (indexed with_and_without_handle) = 1%nat /\
  sortScriptsByDependencies with_and_without_handle
  = Some {| sortedScripts := with_and_without_handle; warned := true |}.
Proof.
  split; [|split].
  - apply (ranked_by_acyclic []). vm_compute. reflexivity.
  - vm_compute. reflexivity.
  - vm_compute. reflexivity.
Qed.


Lemma decode_encode_with_salt_witness :
  decodeWithSalt (encodeWithSalt (js "https://wp.example.com") (js "nextpress-default-salt"))
                 (js "nextpress-default-salt")
  = Some (js "https://wp.example.com").
Proof.
  apply decode_encode_with_salt.
  - vm_compute. reflexivity.
  - vm_compute. reflexivity.
  - vm_compute. reflexivity.
  - intros x'. vm_compute. discriminate.
Defined.

Lemma proxy_target_shape_witness :
  let s := js "https://wp.example.com/wp-includes/js/dist/hooks.min.js?ver=6.4" in
  let internal := js "/atx/" ++ js "shop" ++ js "/wp-internal-assets"
                  ++ pathname versioned_core_url in
  let content := js "/atx/" ++ js "shop" ++ js "/wp-assets" ++ pathname versioned_core_url in
  (core_path (pathname versioned_core_url) ->
     head_src plain_URL_parse (js "shop") versioned_core_script = internal /\
     (body_proxies plain_URL_parse None s ->
      body_src plain_URL_parse (js "shop") None versioned_core_script = internal)) /\
  (~ core_path (pathname versioned_core_url) ->
     head_src plain_URL_parse (js "shop") versioned_core_script = content /\
     (body_proxies plain_URL_parse None s ->
      body_src plain_URL_parse (js "shop") None versioned_core_script = content)).
Proof.
  apply (proxy_target_shape plain_URL_parse (js "shop") None versioned_core_script
           (js "https://wp.example.com/wp-includes/js/dist/hooks.min.js?ver=6.4")
           versioned_core_url).
  - reflexivity.
  - reflexivity.
  - vm_compute. reflexivity.
Defined.

Lemma proxy_target_drops_query_witness :
  let s := js "https://wp.example.com/wp-includes/js/dist/hooks.min.js?ver=6.4" in
  let namespace := if isInternalRoute (pathname versioned_core_url)
                   then js "/atx/" ++ js "shop" ++ js "/wp-internal-assets"
                   else js "/atx/" ++ js "shop" ++ js "/wp-assets" in
  head_src plain_URL_parse (js "shop") versioned_core_script
  = namespace ++ pathname versioned_core_url /\
  (body_proxies plain_URL_parse None s ->
   body_src plain_URL_parse (js "shop") None versioned_core_script
   = namespace ++ pathname versioned_core_url) /\
  namespace ++ pathname versioned_core_url
  <> namespace ++ pathname versioned_core_url
     ++ search versioned_core_url ++ hash versioned_core_url.
Proof.
  apply (proxy_target_drops_query plain_URL_parse (js "shop") None versioned_core_script
           (js "https://wp.example.com/wp-includes/js/dist/hooks.min.js?ver=6.4")
           versioned_core_url).
  - reflexivity.
  - reflexivity.
  - vm_compute. reflexivity.
  - vm_compute. discriminate.
Defined.

Import WcSettings.

Lemma decode_encode_round_trip_witness :
  let rawScript :=
    js "var wcSettings = JSON.parse( decodeURIComponent( '%7B%22homeUrl%22%3A%22https%3A%2F%2Fshop.test%22%7D' ) );" in
  Reference.encodeWcSettings (js "var wcSettings = 0;") [] Reference.home_payload = Ok rawScript /\
  exists encodedString,
    Reference.decodeWcSettings rawScript = Ok (Reference.home_payload, encodedString) /\
    Reference.encodeWcSettings rawScript encodedString Reference.home_payload = Ok rawScript.
Proof.
  cbv zeta. split; [vm_compute; reflexivity|].
  apply (WcClaims.decode_encode_round_trip Z Reference.JSON_parse Reference.JSON_stringify
           (js "var wcSettings = 0;") [] _ Reference.home_payload Reference.home_payload).
  - vm_compute; reflexivity.
  - vm_compute; reflexivity.
  - vm_compute; discriminate.
  - intros H. vm_compute in H.
    repeat (destruct H as [H|H]; [discriminate H|]). exact H.
  - vm_compute; reflexivity.
  - reflexivity.
Defined.

(** A script without the decode call comes back unchanged. *)
Lemma transform_never_throws_witness :
  Reference.transformWcSettings (js "console.log(1);") (js "http://localhost:3000")
    (js "default") false = js "console.log(1);".
Proof.
  apply (WcClaims.transform_never_throws Z (fun z => negb (z =? 0)) Reference.int_to_js
           Reference.JSON_parse Reference.JSON_stringify Loader.plain_URL_parse
           (js "console.log(1);") (js "http://localhost:3000") (js "default") false).
  vm_compute; reflexivity.
Defined.

(** A store page whose permalink is not a URL aborts the whole transform. *)
Example transform_bad_permalink :
  let beforeScript :=
    js "var wcSettings = JSON.parse( decodeURIComponent( '%7B%22storePages%22%3A%7B%22cart%22%3A%7B%22permalink%22%3A%22cart%22%7D%7D%7D' ) );" in
  Reference.decodeWcSettings beforeScript
  = Ok (JObject [(js "storePages",
                  JObject [(js "cart", JObject [(js "permalink", JString (js "cart"))])])],
        js "%7B%22storePages%22%3A%7B%22cart%22%3A%7B%22permalink%22%3A%22cart%22%7D%7D%7D") /\
  Reference.try_transform beforeScript (js "http://localhost:3000") (js "default") false
  = Throw TypeError /\
  Reference.transformWcSettings beforeScript (js "http://localhost:3000") (js "default") false
  = beforeScript.
Proof. cbv zeta. repeat split; vm_compute; reflexivity. Qed.

(** A well-formed script is rewritten. *)
Example transform_home_url :
  Reference.transformWcSettings
    (js "var wcSettings = JSON.parse( decodeURIComponent( '%7B%22homeUrl%22%3A%22https%3A%2F%2Fshop.test%22%7D' ) );")
    (js "http://localhost:3000") (js "default") false
  = js "var wcSettings = JSON.parse( decodeURIComponent( '%7B%22homeUrl%22%3A%22http%3A%2F%2Flocalhost%3A3000%22%7D' ) );".
Proof. vm_compute; reflexivity. Qed.

End Examples.


(** * Further properties *)

(** ** Route recognition and the middleware *)

Module ProxyFacts.
Import Codec CodecFacts WcSettings WcFacts Loader Proxy.

Lemma span_all p a : forallb p a = true -> span p a = (a, []).
Proof.
  induction a as [|c a IH]; intros H; [reflexivity|].
  cbn [forallb] in H. apply andb_true_iff in H. destruct H as [Hc Ha].
  cbn [span]. rewrite Hc, (IH Ha). reflexivity.
Qed.

Lemma forallb_not_char x s :
  forallb (fun c => negb (c =? x)) s = true <-> ~ In x s.
Proof.
  rewrite forallb_forall. split.
  - intros H Hin. specialize (H x Hin). rewrite Z.eqb_refl in H. discriminate.
  - intros H c Hc. destruct (Z.eqb_spec c x) as [->|_]; [contradiction | reflexivity].
Qed.

Lemma after_prefix_Some p s r : after_prefix p s = Some r <-> s = p ++ r.
Proof.
  unfold after_prefix. split.
  - destruct (is_prefix p s) eqn:E; [|discriminate]. intros [= <-].
    revert s E. induction p as [|x p IH]; intros s E; [reflexivity|].
    destruct s as [|y s]; [discriminate|]. cbn [is_prefix] in E.
    apply andb_true_iff in E. destruct E as [Exy E]. apply Z.eqb_eq in Exy. subst y.
    cbn [length skipn app]. f_equal. apply IH, E.
  - intros ->. apply after_prefix_app.
Qed.


(** The instance segment is the longest run without a slash. *)
Lemma after_instance_intro slug rest :
  slug <> [] -> ~ In 47 slug -> (rest = [] \/ exists r, rest = 47 :: r) ->
  after_instance (js "/atx/" ++ slug ++ rest) = Some rest.
Proof.
  intros Hne Hs Hrest. unfold after_instance. rewrite after_prefix_app.
  apply forallb_not_char in Hs.
  assert (Hspan : span (fun c => negb (c =? 47)) (slug ++ rest) = (slug, rest)).
  { destruct Hrest as [->|[r ->]].
    - rewrite app_nil_r. apply span_all, Hs.
    - apply span_app; [exact Hs | reflexivity]. }
  rewrite Hspan. destruct slug; [congruence | reflexivity].
Qed.

Lemma after_instance_elim p rest :
  after_instance p = Some rest ->
  exists slug, p = js "/atx/" ++ slug ++ rest /\ slug <> [] /\ ~ In 47 slug /\
               (rest = [] \/ exists r, rest = 47 :: r).
Proof.
  unfold after_instance. destruct (after_prefix (js "/atx/") p) as [r|] eqn:Hp; [|discriminate].
  apply after_prefix_Some in Hp.
  destruct (span (fun c => negb (c =? 47)) r) as [slug rest'] eqn:Hs.
  destruct slug as [|c slug]; [discriminate|]. intros [= <-].
  apply span_spec in Hs. destruct Hs as (Hr & Hall & Hhead).
  exists (c :: slug). subst r. split; [exact Hp|]. split; [discriminate|].
  split; [apply forallb_not_char, Hall|].
  destruct rest' as [|d rest']; [left; reflexivity|]. right. exists rest'.
  destruct (Z.eqb_spec d 47) as [->|_]; [reflexivity | discriminate].
Qed.

Lemma route_is_spec tail p :
  route_is tail p = true <-> after_instance p = Some tail.
Proof.
  unfold route_is. destruct (after_instance p) as [rest|]; [|split; discriminate].
  rewrite str_eqb_eq. split; congruence.
Qed.

Lemma route_under_spec tail p :
  route_under tail p = true <-> exists r, after_instance p = Some (tail ++ r).
Proof.
  unfold route_under. destruct (after_instance p) as [rest|].
  - rewrite LoaderClaims.is_prefix_spec. split.
    + intros [r ->]. exists r. reflexivity.
    + intros [r [= ->]]. exists r. reflexivity.
  - split; [discriminate | intros [r Hr]; discriminate].
Qed.

(** The tails the middleware recognises after the instance segment. *)
Lemma isProxiedRoute_tail p :
  isProxiedRoute p = true <->
  exists tail, after_instance p = Some tail /\
    (tail = js "/proxiee" \/ tail = js "/wp" \/ tail = js "/wc" \/
     (exists r, tail = js "/wp-internal-assets/" ++ r) \/
     (exists r, tail = js "/wp-assets/" ++ r) \/
     (exists r, tail = js "/wp-json/" ++ r)).
Proof.
  unfold isProxiedRoute. rewrite !orb_true_iff, !route_is_spec, !route_under_spec. split.
  - intros [[[[[H|[r H]]|[r H]]|[r H]]|H]|H]; eexists; (split; [exact H|]); eauto 10.
  - intros (tail & Ht & [->|[->|[->|[[r ->]|[[r ->]|[r ->]]]]]]); eauto 10.
Qed.

Lemma get_substitution1_plain m b a cap u r :
  ~ In 36 u ->
  get_substitution1 m b a cap (u ++ r) = u ++ get_substitution1 m b a cap r.
Proof.
  induction u as [|c u IH]; intros Hu; [reflexivity|].
  cbn [app get_substitution1].
  destruct (Z.eqb_spec c 36) as [->|_]; [exfalso; apply Hu; left; reflexivity|].
  f_equal. apply IH. intros H. apply Hu. right. exact H.
Qed.

Lemma get_substitution1_no_dollar m b a cap u :
  ~ In 36 u -> get_substitution1 m b a cap u = u.
Proof.
  intros Hu. rewrite <- (app_nil_r u) at 1.
  rewrite get_substitution1_plain by exact Hu. apply app_nil_r.
Qed.

(** A path of one line under [TAIL] is matched as a whole. *)
Lemma replace_route_whole slug tail t rest replacement :
  slug <> [] -> ~ In 47 slug -> tail = 47 :: t ->
  forallb (fun c => negb (is_line_terminator c)) rest = true ->
  replace_route tail replacement (js "/atx/" ++ slug ++ tail ++ rest)
  = get_substitution1 (js "/atx/" ++ slug ++ tail ++ rest) [] [] rest replacement.
Proof.
  intros Hne Hs Ht Hrest. unfold replace_route.
  rewrite (after_instance_intro slug (tail ++ rest) Hne Hs)
    by (right; exists (t ++ rest); rewrite Ht; reflexivity).
  rewrite after_prefix_app, (span_all _ rest Hrest).
  cbn [length]. rewrite Nat.sub_0_r, firstn_all, app_nil_r. reflexivity.
Qed.

Lemma extractSlug_intro slug r :
  slug <> [] -> ~ In 47 slug -> ~ In 63 slug ->
  extractSlugFromPath (js "/atx/" ++ slug ++ 47 :: r) = Some slug.
Proof.
  intros Hne Hs Hq. unfold extractSlugFromPath. rewrite after_prefix_app.
  assert (Hall : forallb (fun c => negb ((c =? 47) || (c =? 63))) slug = true).
  { apply forallb_forall. intros c Hc.
    destruct (Z.eqb_spec c 47) as [->|_]; [contradiction|].
    destruct (Z.eqb_spec c 63) as [->|_]; [contradiction | reflexivity]. }
  rewrite (span_app _ slug 47 r Hall) by reflexivity.
  destruct slug; [congruence | reflexivity].
Qed.

(** The round trip of the origin codec, for text without an unpaired
    surrogate and without a leading byte order mark. *)
Lemma decodeWithSalt_encodeWithSalt x s :
  valid_string x = true -> valid_string s = true ->
  well_formed x = true -> (forall x', x <> 0xFEFF :: x') ->
  decodeWithSalt (encodeWithSalt x s) s = Some x.
Proof.
  intros Hx Hs Hw Hbom. unfold decodeWithSalt, encodeWithSalt.
  pose proof (utf8_encode_bytes x Hx) as Hbx.
  pose proof (utf8_encode_bytes s Hs) as Hbs.
  rewrite atob_base64_encode by (apply xor_loop_bytes; assumption).
  rewrite xor_loop_involutive.
  rewrite TextDecoder_utf8_encode by assumption. reflexivity.
Qed.

Lemma salt_valid env :
  (forall s, env = Some s -> valid_string s = true) -> valid_string (Proxy.salt env) = true.
Proof.
  intros H. unfold Proxy.salt, or_else.
  destruct env as [[|c s]|]; cbn [truthy]; try reflexivity. apply H. reflexivity.
Qed.

Lemma get_substitution1_capture m b a cap r :
  get_substitution1 m b a cap (36 :: 49 :: r) = cap ++ get_substitution1 m b a cap r.
Proof. reflexivity. Qed.

Lemma str_eqb_app (a b c : jsstring) : str_eqb (a ++ b) (a ++ c) = str_eqb b c.
Proof.
  induction a as [|x a IH]; [reflexivity|]. cbn [app str_eqb].
  rewrite Z.eqb_refl. exact IH.
Qed.

Lemma isProxiedRoute_intro slug tail :
  slug <> [] -> ~ In 47 slug ->
  (tail = js "/proxiee" \/ tail = js "/wp" \/ tail = js "/wc" \/
   (exists r, tail = js "/wp-internal-assets/" ++ r) \/
   (exists r, tail = js "/wp-assets/" ++ r) \/
   (exists r, tail = js "/wp-json/" ++ r)) ->
  after_instance (js "/atx/" ++ slug ++ tail) = Some tail /\
  isProxiedRoute (js "/atx/" ++ slug ++ tail) = true.
Proof.
  intros Hne Hs Hcases.
  assert (Hai : after_instance (js "/atx/" ++ slug ++ tail) = Some tail).
  { apply after_instance_intro; [exact Hne | exact Hs |]. right.
    destruct Hcases as [->|[->|[->|[[r ->]|[[r ->]|[r ->]]]]]]; eexists; reflexivity. }
  split; [exact Hai|]. apply isProxiedRoute_tail. exists tail. tauto.
Qed.

End ProxyFacts.

Module ProxyProps.
Import Codec CodecFacts WcSettings WcFacts Loader Proxy ProxyFacts.

(** X1. A path is a proxied route exactly when it is [/atx/], an instance
    segment that is not empty and has no slash, and then one of [/proxiee],
    [/wp], [/wc] alone, or anything under [/wp-internal-assets/],
    [/wp-assets/] or [/wp-json/]. *)
Theorem proxied_route_shape (pathname : jsstring) :
  isProxiedRoute pathname = true <->
  exists slug tail,
    pathname = js "/atx/" ++ slug ++ tail /\ slug <> [] /\ ~ In 47 slug /\
    (tail = js "/proxiee" \/ tail = js "/wp" \/ tail = js "/wc" \/
     (exists r, tail = js "/wp-internal-assets/" ++ r) \/
     (exists r, tail = js "/wp-assets/" ++ r) \/
     (exists r, tail = js "/wp-json/" ++ r)).
Proof.
  rewrite isProxiedRoute_tail. split.
  - intros (tail & Ht & Hcases). apply after_instance_elim in Ht.
    destruct Ht as (slug & Hp & Hne & Hs & _). exists slug, tail. tauto.
  - intros (slug & tail & -> & Hne & Hs & Hcases). exists tail. split; [|exact Hcases].
    apply after_instance_intro; [exact Hne | exact Hs |]. right.
    destruct Hcases as [->|[->|[->|[[r ->]|[[r ->]|[r ->]]]]]]; eexists; reflexivity.
Qed.

(** X2. On a proxied route without a question mark -- every URL path -- the
    slug [extractSlugFromPath] returns is the whole instance segment, so the
    second pass-through of [proxyByWCR] is never taken. *)
Theorem proxied_route_slug (pathname : jsstring) :
  isProxiedRoute pathname = true -> ~ In 63 pathname ->
  exists slug tail,
    pathname = js "/atx/" ++ slug ++ 47 :: tail /\
    slug <> [] /\ ~ In 47 slug /\
    extractSlugFromPath pathname = Some slug.
Proof.
  intros Hp Hq. apply isProxiedRoute_tail in Hp. destruct Hp as (tail & Ht & Hcases).
  apply after_instance_elim in Ht. destruct Ht as (slug & -> & Hne & Hs & _).
  assert (Htail : exists r, tail = 47 :: r).
  { destruct Hcases as [->|[->|[->|[[r ->]|[[r ->]|[r ->]]]]]]; eexists; reflexivity. }
  destruct Htail as [r ->]. exists slug, r. repeat split; try assumption.
  unfold extractSlugFromPath. rewrite after_prefix_app.
  assert (Hall : forallb (fun c => negb ((c =? 47) || (c =? 63))) slug = true).
  { apply forallb_forall. intros c Hc.
    destruct (Z.eqb_spec c 47) as [->|_]; [contradiction|].
    destruct (Z.eqb_spec c 63) as [->|_]; [|reflexivity].
    exfalso. apply Hq. apply in_or_app. right. apply in_or_app. left. exact Hc. }
  rewrite (span_app _ slug 47 r Hall) by reflexivity.
  destruct slug; [congruence | reflexivity].
Qed.

Section routing.

Variable getWPInstance : jsstring -> result Instance.
Variable RegExp_test : jsstring -> jsstring -> result bool.
Variable NEXTPRESS_SALT : option jsstring.

Local Abbreviation proxy := (proxyByWCR getWPInstance RegExp_test NEXTPRESS_SALT).

(** X3. The load target the loaders and the stylesheet renderer build for an
    asset path is a proxied route, and the middleware rewrites it to the
    same path on the backend: under the site URL for a core path, under the
    home URL otherwise. *)
Theorem proxied_asset_reaches_backend
    (instance path : jsstring) (cfg : Instance) (req : Request) :
  instance <> [] -> ~ In 47 instance -> ~ In 63 instance ->
  (exists r, path = 47 :: r) ->
  forallb (fun c => negb (is_line_terminator c)) path = true ->
  getWPInstance instance = Ok cfg ->
  ~ In 36 (wpHomeUrl cfg) -> ~ In 36 (wpSiteUrl cfg) ->
  nextPath req = proxied instance path ->
  RegExp_test (js "^/atx/" ++ instance ++ js "/proxiee$") (nextPath req) = Ok false ->
  isProxiedRoute (nextPath req) = true /\
  proxy req
  = Ok (Rewrite ((if isInternalRoute path then wpSiteUrl cfg else wpHomeUrl cfg) ++ path)).
Proof using Type.
  intros Hne Hs Hq [r ->] Hline Hcfg Hhome Hsite Hreq Hre.
  cbn [forallb] in Hline. apply andb_true_iff in Hline. destruct Hline as [_ Hline].
  unfold proxyByWCR. rewrite Hreq in *. clear Hreq.
  unfold proxied in *. destruct (isInternalRoute (47 :: r)).
  - change (js "/atx/" ++ instance ++ js "/wp-internal-assets" ++ 47 :: r)
      with (js "/atx/" ++ instance ++ js "/wp-internal-assets/" ++ r) in *.
    assert (Hai : after_instance (js "/atx/" ++ instance ++ js "/wp-internal-assets/" ++ r)
                  = Some (js "/wp-internal-assets/" ++ r)).
    { apply after_instance_intro; [exact Hne | exact Hs |]. right. eexists. reflexivity. }
    assert (Hp : isProxiedRoute (js "/atx/" ++ instance ++ js "/wp-internal-assets/" ++ r)
                 = true).
    { apply isProxiedRoute_tail. eexists. split; [exact Hai|]. eauto 10. }
    split; [exact Hp|]. rewrite Hp. cbn [negb].
    change (js "/wp-internal-assets/" ++ r) with (47 :: js "wp-internal-assets/" ++ r) at 1.
    rewrite (extractSlug_intro instance _ Hne Hs Hq), Hcfg.
    change (47 :: js "wp-internal-assets/" ++ r) with (js "/wp-internal-assets/" ++ r).
    rewrite Hre. cbn [mbind result_bind andb].
    assert (Hu : route_under (js "/wp-internal-assets/")
                   (js "/atx/" ++ instance ++ js "/wp-internal-assets/" ++ r) = true).
    { apply route_under_spec. exists r. exact Hai. }
    rewrite Hu.
    rewrite (replace_route_whole instance (js "/wp-internal-assets/")
               (js "wp-internal-assets/") r _ Hne Hs eq_refl Hline).
    rewrite (get_substitution1_plain _ _ _ _ (wpSiteUrl cfg) _ Hsite).
    cbn. rewrite app_nil_r. reflexivity.
  - change (js "/atx/" ++ instance ++ js "/wp-assets" ++ 47 :: r)
      with (js "/atx/" ++ instance ++ js "/wp-assets/" ++ r) in *.
    assert (Hai : after_instance (js "/atx/" ++ instance ++ js "/wp-assets/" ++ r)
                  = Some (js "/wp-assets/" ++ r)).
    { apply after_instance_intro; [exact Hne | exact Hs |]. right. eexists. reflexivity. }
    assert (Hp : isProxiedRoute (js "/atx/" ++ instance ++ js "/wp-assets/" ++ r) = true).
    { apply isProxiedRoute_tail. eexists. split; [exact Hai|]. eauto 10. }
    split; [exact Hp|]. rewrite Hp. cbn [negb].
    change (js "/wp-assets/" ++ r) with (47 :: js "wp-assets/" ++ r) at 1.
    rewrite (extractSlug_intro instance _ Hne Hs Hq), Hcfg.
    change (47 :: js "wp-assets/" ++ r) with (js "/wp-assets/" ++ r).
    rewrite Hre. cbn [mbind result_bind andb].
    assert (Hi : route_under (js "/wp-internal-assets/")
                   (js "/atx/" ++ instance ++ js "/wp-assets/" ++ r) = false).
    { unfold route_under. rewrite Hai. reflexivity. }
    assert (Hu : route_under (js "/wp-assets/")
                   (js "/atx/" ++ instance ++ js "/wp-assets/" ++ r) = true).
    { apply route_under_spec. exists r. exact Hai. }
    rewrite Hi, Hu.
    rewrite (replace_route_whole instance (js "/wp-assets/") (js "wp-assets/") r _
               Hne Hs eq_refl Hline).
    rewrite (get_substitution1_plain _ _ _ _ (wpHomeUrl cfg) _ Hhome).
    cbn. rewrite app_nil_r. reflexivity.
Qed.

(** X4. For a slug the registry does not know, the middleware answers 404 on
    every proxied route and passes every other path through; it does not
    throw. *)
Theorem proxy_unknown_instance (slug tail : jsstring) (req : Request) (e : Exception) :
  nextPath req = js "/atx/" ++ slug ++ 47 :: tail ->
  slug <> [] -> ~ In 47 slug -> ~ In 63 slug ->
  getWPInstance slug = Throw e ->
  proxy req = Ok (if isProxiedRoute (nextPath req) then NotFound else Next).
Proof using Type.
  intros Hp Hne Hs Hq Hcfg. unfold proxyByWCR. rewrite Hp.
  destruct (isProxiedRoute _); [|reflexivity]. cbn [negb].
  rewrite (extractSlug_intro slug tail Hne Hs Hq), Hcfg. reflexivity.
Qed.

(** X5. Where the requests of a known instance go, when the patterns built from
    its slug match literally: a REST path goes to the home URL under
    [/wp-json/] and always gets a [?], even in front of an empty query;
    [/wp] goes to [admin-ajax.php] under the site URL and [/wc] to the root
    of the home URL; a body is forwarded only for methods other than [GET]
    and [HEAD]. *)
Theorem proxy_backend_routes (slug : jsstring) (cfg : Instance) (req : Request) :
  slug <> [] -> ~ In 47 slug -> ~ In 63 slug ->
  getWPInstance slug = Ok cfg ->
  (forall p, RegExp_test (js "^/atx/" ++ slug ++ js "/proxiee$") p
             = Ok (str_eqb p (js "/atx/" ++ slug ++ js "/proxiee"))) ->
  (forall p, RegExp_test (js "^/atx/" ++ slug ++ js "/wp$") p
             = Ok (str_eqb p (js "/atx/" ++ slug ++ js "/wp"))) ->
  (forall p, RegExp_test (js "^/atx/" ++ slug ++ js "/wc$") p
             = Ok (str_eqb p (js "/atx/" ++ slug ++ js "/wc"))) ->
  ~ In 36 (wpHomeUrl cfg) -> ~ In 36 (params req) ->
  let relay route :=
    Ok (Forward route (method req) (has_payload req) (has_payload req && has_body req)) in
  (forall rest,
      nextPath req = js "/atx/" ++ slug ++ js "/wp-json/" ++ rest ->
      forallb (fun c => negb (is_line_terminator c)) rest = true ->
      proxy req = relay (wpHomeUrl cfg ++ js "/wp-json/" ++ rest ++ js "?" ++ params req)) /\
  (nextPath req = js "/atx/" ++ slug ++ js "/wp" ->
   proxy req = relay (wpSiteUrl cfg ++ js "/wp-admin/admin-ajax.php?" ++ params req)) /\
  (nextPath req = js "/atx/" ++ slug ++ js "/wc" ->
   proxy req = relay (wpHomeUrl cfg ++ js "/?" ++ params req)) /\
  (method req = js "GET" \/ method req = js "HEAD" -> has_payload req = false).
Proof using Type.
  intros Hne Hs Hq Hcfg Hre1 Hre2 Hre3 Hhome Hpar. cbv zeta.
  split; [|split; [|split]].
  - intros rest Hp Hline. unfold proxyByWCR. rewrite Hp.
    destruct (isProxiedRoute_intro slug (js "/wp-json/" ++ rest) Hne Hs) as [Hai Hpr];
      [eauto 10|].
    rewrite Hpr. cbn [negb].
    change (js "/wp-json/" ++ rest) with (47 :: js "wp-json/" ++ rest) at 1.
    rewrite (extractSlug_intro slug _ Hne Hs Hq), Hcfg.
    change (47 :: js "wp-json/" ++ rest) with (js "/wp-json/" ++ rest).
    rewrite Hre1, !str_eqb_app. cbn [mbind result_bind].
    change (str_eqb (js "/wp-json/" ++ rest) (js "/proxiee")) with false. cbn [andb].
    unfold route_under. rewrite Hai.
    change (is_prefix (js "/wp-internal-assets/") (js "/wp-json/" ++ rest)) with false.
    change (is_prefix (js "/wp-assets/") (js "/wp-json/" ++ rest)) with false.
    rewrite is_prefix_app. cbv iota. unfold forward. do 2 f_equal.
    rewrite (replace_route_whole slug (js "/wp-json/") (js "wp-json/") rest _
               Hne Hs eq_refl Hline).
    rewrite (get_substitution1_plain _ _ _ _ (wpHomeUrl cfg) _ Hhome). f_equal.
    change (js "/wp-json/$1?" ++ params req)
      with (js "/wp-json/" ++ 36 :: 49 :: 63 :: params req).
    rewrite get_substitution1_plain by (vm_compute; intuition discriminate).
    rewrite get_substitution1_capture. f_equal. f_equal.
    cbn [get_substitution1]. change (63 =? 36) with false. cbv iota.
    rewrite (get_substitution1_no_dollar _ _ _ _ (params req) Hpar). reflexivity.
  - intros Hp. unfold proxyByWCR. rewrite Hp.
    destruct (isProxiedRoute_intro slug (js "/wp") Hne Hs) as [Hai Hpr]; [eauto 10|].
    rewrite Hpr. cbn [negb].
    change (js "/wp") with (47 :: js "wp") at 1.
    rewrite (extractSlug_intro slug _ Hne Hs Hq), Hcfg.
    change (47 :: js "wp") with (js "/wp").
    rewrite Hre1, Hre2, Hre3, !str_eqb_app. cbn [mbind result_bind].
    unfold route_under. rewrite Hai. reflexivity.
  - intros Hp. unfold proxyByWCR. rewrite Hp.
    destruct (isProxiedRoute_intro slug (js "/wc") Hne Hs) as [Hai Hpr]; [eauto 10|].
    rewrite Hpr. cbn [negb].
    change (js "/wc") with (47 :: js "wc") at 1.
    rewrite (extractSlug_intro slug _ Hne Hs Hq), Hcfg.
    change (47 :: js "wc") with (js "/wc").
    rewrite Hre1, Hre2, Hre3, !str_eqb_app. cbn [mbind result_bind].
    unfold route_under. rewrite Hai. reflexivity.
  - unfold has_payload. intros [->| ->]; reflexivity.
Qed.

(** X6. The origin handshake.  A [POST] to [/atx/{slug}/proxiee] is answered
    with the home URL encoded under the salt of the environment; the client,
    whose [wcr_salt] is set to the same value by [withWCR], decodes exactly
    the home URL from it, caches it, and answers later calls from the cache
    whatever the network does.  Any other method on that path is passed
    through. *)
Theorem backend_url_handshake
    (slug : jsstring) (cfg : Instance) (req : Request) (cache : JsMap.t jsstring) :
  slug <> [] -> ~ In 47 slug -> ~ In 63 slug ->
  getWPInstance slug = Ok cfg ->
  nextPath req = js "/atx/" ++ slug ++ js "/proxiee" ->
  (forall p, RegExp_test (js "^/atx/" ++ slug ++ js "/proxiee$") p
             = Ok (str_eqb p (js "/atx/" ++ slug ++ js "/proxiee"))) ->
  (forall p, RegExp_test (js "^/atx/" ++ slug ++ js "/wp$") p
             = Ok (str_eqb p (js "/atx/" ++ slug ++ js "/wp"))) ->
  (forall p, RegExp_test (js "^/atx/" ++ slug ++ js "/wc$") p
             = Ok (str_eqb p (js "/atx/" ++ slug ++ js "/wc"))) ->
  valid_string (wpHomeUrl cfg) = true -> well_formed (wpHomeUrl cfg) = true ->
  (forall x', wpHomeUrl cfg <> 0xFEFF :: x') ->
  (forall s, NEXTPRESS_SALT = Some s -> valid_string s = true) ->
  JsMap.has cache slug = false ->
  (method req = js "POST" ->
   exists d,
     proxy req = Ok (Json d) /\
     Backend.getBackendUrl NEXTPRESS_SALT cache slug (Backend.Responded true d)
     = (Some (wpHomeUrl cfg), JsMap.set cache slug (wpHomeUrl cfg)) /\
     forall fetched,
       Backend.getBackendUrl NEXTPRESS_SALT (JsMap.set cache slug (wpHomeUrl cfg)) slug fetched
       = (Some (wpHomeUrl cfg), JsMap.set cache slug (wpHomeUrl cfg))) /\
  (method req <> js "POST" -> proxy req = Ok Next).
Proof using Type.
  intros Hne Hs Hq Hcfg Hp Hre1 Hre2 Hre3 Hv Hw Hbom Hsalt Hmiss.
  assert (Hstart : proxy req
            = if str_eqb (method req) (js "POST")
              then Ok (Json (encodeWithSalt (wpHomeUrl cfg) (Proxy.salt NEXTPRESS_SALT)))
              else Ok Next).
  { unfold proxyByWCR. rewrite Hp.
    destruct (isProxiedRoute_intro slug (js "/proxiee") Hne Hs) as [Hai Hpr]; [eauto 10|].
    rewrite Hpr. cbn [negb].
    change (js "/proxiee") with (47 :: js "proxiee") at 1.
    rewrite (extractSlug_intro slug _ Hne Hs Hq), Hcfg.
    change (47 :: js "proxiee") with (js "/proxiee").
    rewrite Hre1, Hre2, Hre3, !str_eqb_app, str_eqb_refl. cbn [mbind result_bind andb].
    destruct (str_eqb (method req) (js "POST")); [reflexivity|].
    unfold route_under. rewrite Hai. reflexivity. }
  split.
  - intros Hm. rewrite Hstart, Hm, str_eqb_refl. eexists. split; [reflexivity|].
    assert (Hdec : decodeWithSalt
                     (encodeWithSalt (wpHomeUrl cfg) (Proxy.salt NEXTPRESS_SALT))
                     (Backend.salt NEXTPRESS_SALT) = Some (wpHomeUrl cfg)).
    { apply decodeWithSalt_encodeWithSalt; try assumption. apply salt_valid, Hsalt. }
    split.
    + unfold Backend.getBackendUrl. rewrite Hmiss, Hdec. reflexivity.
    + intros fetched. unfold Backend.getBackendUrl, JsMap.has.
      rewrite JsMapFacts.get_set_eq. reflexivity.
  - intros Hm. rewrite Hstart. apply str_eqb_neq in Hm. rewrite Hm. reflexivity.
Qed.

End routing.

End ProxyProps.


(** ** The resolver on inputs without usable edges, and on duplicates *)

Module SortMore.
Import JsMap JsMapFacts Sort SortFacts.

Lemma flat_map_nil {A B} (f : A -> list B) (l : list A) :
  (forall x, In x l -> f x = []) -> flat_map f l = [].
Proof.
  induction l as [|x l IH]; intros H; [reflexivity|]. cbn [flat_map].
  rewrite (H x) by (left; reflexivity). apply IH. intros y Hy. apply H. right. exact Hy.
Qed.

Lemma filter_all {A} (f : A -> bool) (l : list A) :
  (forall x, In x l -> f x = true) -> filter f l = l.
Proof.
  induction l as [|x l IH]; intros H; [reflexivity|]. cbn [filter].
  rewrite (H x) by (left; reflexivity). f_equal. apply IH. intros y Hy. apply H. right. exact Hy.
Qed.

Lemma filter_none {A} (f : A -> bool) (l : list A) :
  (forall x, In x l -> f x = false) -> filter f l = [].
Proof.
  induction l as [|x l IH]; intros H; [reflexivity|]. cbn [filter].
  rewrite (H x) by (left; reflexivity). apply IH. intros y Hy. apply H. right. exact Hy.
Qed.

Lemma edges_nil scripts :
  (forall s d, In s scripts -> In d (dep_handles s) -> present scripts d = false) ->
  edges scripts = [].
Proof.
  intros H. unfold edges. apply flat_map_nil. intros s Hs. unfold script_edges.
  destruct (has_handle s); [|reflexivity].
  rewrite filter_none; [reflexivity|]. intros d Hd. exact (H s d Hs Hd).
Qed.

(** With no adjacency at all the loop just moves the queue to the output. *)
Lemma kahn_no_edges adj :
  (forall k, get_list adj k = []) ->
  forall queue fuel deg sorted,
    (length queue <= fuel)%nat ->
    kahn fuel adj deg queue sorted = Some (sorted ++ queue).
Proof.
  intros Hadj. induction queue as [|c rest IH]; intros fuel deg sorted Hf.
  - destruct fuel; cbn [kahn]; rewrite app_nil_r; reflexivity.
  - destruct fuel as [|fuel]; [cbn [length] in Hf; lia|]. cbn [kahn].
    rewrite Hadj. cbn [fold_left]. rewrite IH by (cbn [length] in Hf; lia).
    rewrite <- app_assoc. reflexivity.
Qed.

Lemma present_handles_cons s scripts :
  present_handles (s :: scripts)
  = if has_handle s then handle_of s :: present_handles scripts
    else present_handles scripts.
Proof. unfold present_handles. cbn [filter]. destruct (has_handle s); reflexivity. Qed.

Lemma seed_keys_fresh scripts :
  forall adj deg,
    NoDup (keys adj ++ present_handles scripts) ->
    keys (fst (fold_left seed_step scripts (adj, deg))) = keys adj ++ present_handles scripts.
Proof.
  induction scripts as [|s scripts IH]; intros adj deg Hnd.
  - cbn. rewrite app_nil_r. reflexivity.
  - cbn [fold_left]. rewrite present_handles_cons in *. unfold seed_step at 2.
    destruct (has_handle s).
    + assert (Hout : ~ In (handle_of s) (keys adj)).
      { apply NoDup_remove_2 in Hnd. intros H. apply Hnd. apply in_or_app. left. exact H. }
      assert (Hhas : has adj (handle_of s) = false).
      { destruct (has adj (handle_of s)) eqn:E; [|reflexivity].
        apply has_In_keys in E. contradiction. }
      rewrite Hhas. rewrite IH.
      * rewrite (keys_set_absent adj _ [] Hout), <- app_assoc. reflexivity.
      * rewrite (keys_set_absent adj _ [] Hout), <- app_assoc. exact Hnd.
    + apply IH. exact Hnd.
Qed.

Lemma indexed_NoDup_eq scripts :
  NoDup (present_handles scripts) -> indexed scripts = present_handles scripts.
Proof. intros Hnd. unfold indexed, seed_graph. rewrite seed_keys_fresh; [reflexivity | exact Hnd]. Qed.

Lemma append_remaining_fresh scripts :
  forall sorted,
    NoDup (sorted ++ present_handles scripts) ->
    append_remaining scripts sorted = sorted ++ present_handles scripts.
Proof.
  unfold append_remaining.
  induction scripts as [|s scripts IH]; intros sorted Hnd.
  - cbn. rewrite app_nil_r. reflexivity.
  - cbn [fold_left]. rewrite present_handles_cons in *.
    destruct (has_handle s); cbn [andb].
    + assert (Hout : includes sorted (handle_of s) = false).
      { apply includes_not_In. apply NoDup_remove_2 in Hnd. intros H. apply Hnd.
        apply in_or_app. left. exact H. }
      rewrite Hout. cbn [negb]. rewrite IH; rewrite <- app_assoc; [reflexivity | exact Hnd].
    + apply IH. exact Hnd.
Qed.

Lemma degrees_of_entries (deg : JsMap.t Z) k v :
  NoDup (keys deg) -> In (k, v) deg -> get_degree deg k = v.
Proof. intros Hnd Hin. unfold get_degree. rewrite (In_get deg k v Hnd Hin). reflexivity. Qed.

(** The shape of the result once the ordered handles are known. *)
Lemma sort_result scripts adj deg S :
  scripts <> [] ->
  build_graph (build_scriptMap scripts) scripts (seed_graph scripts) = (adj, deg) ->
  kahn (length deg) adj deg (initial_queue deg) [] = Some S ->
  sortScriptsByDependencies scripts
  = Some {| sortedScripts :=
              lookup_scripts (build_scriptMap scripts)
                (if negb (length S =? length scripts)%nat
                 then append_remaining scripts S else S)
              ++ filter no_handle scripts;
            warned := negb (length S =? length scripts)%nat |}.
Proof.
  intros Hne Hb Hk. unfold sortScriptsByDependencies.
  destruct scripts as [|s0 scripts0]; [congruence|].
  rewrite Hb, Hk. reflexivity.
Qed.

Lemma build_scriptMap_snoc l x :
  build_scriptMap (l ++ [x])
  = if has_handle x then set (build_scriptMap l) (handle_of x) x else build_scriptMap l.
Proof. unfold build_scriptMap. rewrite fold_left_app. reflexivity. Qed.

(** The map keeps, for each handle, the last descriptor that carries it. *)
Lemma scriptMap_get_last scripts h s :
  get (build_scriptMap scripts) h = Some s ->
  exists l1 l2,
    scripts = l1 ++ s :: l2 /\ has_handle s = true /\ handle_of s = h /\
    forall s', In s' l2 -> has_handle s' = true -> handle_of s' <> h.
Proof.
  revert h s. induction scripts as [|x l IH] using rev_ind; intros h s Hg; [discriminate|].
  rewrite build_scriptMap_snoc in Hg.
  assert (Hold : get (build_scriptMap l) h = Some s ->
                 (has_handle x = true -> handle_of x <> h) ->
                 exists l1 l2,
                   l ++ [x] = l1 ++ s :: l2 /\ has_handle s = true /\ handle_of s = h /\
                   forall s', In s' l2 -> has_handle s' = true -> handle_of s' <> h).
  { intros Hg' Hx. destruct (IH h s Hg') as (l1 & l2 & -> & Hs & Hh & Hlast).
    exists l1, (l2 ++ [x]). split; [rewrite <- app_assoc; reflexivity|].
    split; [exact Hs|]. split; [exact Hh|].
    intros s' Hin Hs'. apply in_app_or in Hin. destruct Hin as [Hin|[<-|[]]].
    - exact (Hlast s' Hin Hs').
    - exact (Hx Hs'). }
  destruct (has_handle x) eqn:Hx.
  - destruct (str_eq_dec (handle_of x) h) as [E|E].
    + rewrite E, get_set_eq in Hg. injection Hg as <-.
      exists l, []. split; [reflexivity|]. split; [exact Hx|]. split; [exact E|].
      intros s' [].
    + rewrite get_set_ne in Hg by exact E. apply Hold; [exact Hg | intros _; exact E].
  - apply Hold; [exact Hg | discriminate].
Qed.

Lemma lookup_scripts_handles scripts S :
  (forall h, In h S -> In h (present_handles scripts)) ->
  map handle_of (lookup_scripts (build_scriptMap scripts) S) = S.
Proof.
  intros HS. induction S as [|h S IH]; [reflexivity|].
  unfold lookup_scripts in *. cbn [flat_map].
  assert (Hh : has (build_scriptMap scripts) h = true).
  { rewrite has_scriptMap. apply present_In, HS. left. reflexivity. }
  unfold has in Hh. destruct (get (build_scriptMap scripts) h) as [s|] eqn:Hg; [|discriminate].
  cbn [app map]. apply scriptMap_get in Hg. destruct Hg as (_ & _ & ->).
  f_equal. apply IH. intros k Hk. apply HS. right. exact Hk.
Qed.

Lemma In_lookup_scripts sm S s :
  In s (lookup_scripts sm S) <-> exists h, In h S /\ get sm h = Some s.
Proof.
  unfold lookup_scripts. rewrite in_flat_map. split.
  - intros (h & Hh & Hin). exists h. split; [exact Hh|].
    destruct (get sm h) as [s'|]; [|destruct Hin]. destruct Hin as [->|[]]. reflexivity.
  - intros (h & Hh & Hg). exists h. split; [exact Hh|]. rewrite Hg. left. reflexivity.
Qed.

(** The handles the result is built from: each present handle once. *)
Lemma sorted_handles scripts :
  scripts <> [] ->
  exists S w,
    sortScriptsByDependencies scripts
    = Some {| sortedScripts := lookup_scripts (build_scriptMap scripts) S
                               ++ filter no_handle scripts;
              warned := w |} /\
    NoDup S /\ forall h, In h S <-> In h (present_handles scripts).
Proof.
  intros Hne. destruct (sort_unfold scripts Hne) as (S & deg' & HI & Hr).
  destruct HI as [HSnd HSsub _ _ _ _]. rewrite app_nil_r in HSnd, HSsub.
  destruct (Nat.eqb_spec (length S) (length scripts)) as [Hl|Hl]; cbn [negb] in Hr.
  - exists S, false. split; [exact Hr|]. split; [exact HSnd|]. intros h. split.
    + intros Hh. apply In_indexed, HSsub, Hh.
    + intros Hh. apply In_indexed in Hh. revert h Hh.
      apply NoDup_length_incl; [exact HSnd | | exact HSsub].
      pose proof (indexed_length scripts). lia.
  - destruct (append_remaining_spec scripts S) as (rest & He & Hn & Hrest).
    exists (append_remaining scripts S), true. split; [exact Hr|]. rewrite He.
    split; [apply Hn, HSnd|]. intros h. rewrite in_app_iff, Hrest. split.
    + intros [Hh|[Hh _]]; [apply In_indexed, HSsub|]; exact Hh.
    + intros Hh. destruct (in_dec str_eq_dec h S); tauto.
Qed.

Lemma indexed_full_iff scripts :
  length (indexed scripts) = length scripts <->
  (forall s, In s scripts -> has_handle s = true) /\ NoDup (present_handles scripts).
Proof.
  assert (Hle1 : (length (indexed scripts) <= length (present_handles scripts))%nat).
  { apply NoDup_incl_length; [apply indexed_NoDup|]. intros h. apply In_indexed. }
  assert (Hle2 : (length (present_handles scripts) <= length scripts)%nat).
  { unfold present_handles. rewrite length_map. apply filter_length_le. }
  split.
  - intros Hlen. split.
    + assert (Hf : length (filter has_handle scripts) = length scripts).
      { unfold present_handles in Hle1, Hle2. rewrite length_map in Hle1, Hle2. lia. }
      clear - Hf. induction scripts as [|x l IH]; intros s []; cbn [filter length] in Hf;
        pose proof (filter_length_le has_handle l); destruct (has_handle x) eqn:Hx;
        cbn [length] in Hf; try lia; subst; auto.
    + apply (NoDup_incl_NoDup (indexed_NoDup scripts)); [lia|].
      intros h. apply In_indexed.
  - intros [Hall Hnd]. rewrite (indexed_NoDup_eq scripts Hnd).
    unfold present_handles. rewrite length_map, filter_all; [reflexivity | exact Hall].
Qed.

(** The resolver returns descriptors of its input only. *)
Lemma sort_subset scripts r s :
  sortScriptsByDependencies scripts = Some r -> In s (sortedScripts r) -> In s scripts.
Proof.
  assert (Hcases : scripts = [] \/ scripts <> [])
    by (destruct scripts; [left; reflexivity | right; discriminate]).
  destruct Hcases as [->|Hne]; [intros [= <-] []|].
  destruct (sorted_handles scripts Hne) as (S & w & Hr & _ & _).
  rewrite Hr. intros Heq Hin. injection Heq as Heq. subst r. cbn [sortedScripts] in Hin.
  apply in_app_or in Hin. destruct Hin as [Hin|Hin].
  - apply In_lookup_scripts in Hin. destruct Hin as (h & _ & Hg).
    apply scriptMap_get in Hg. tauto.
  - apply filter_In in Hin. tauto.
Qed.

End SortMore.

Module SortProps.
Import JsMap JsMapFacts Sort SortFacts SortMore.

(** X7. When no dependency names a handle of the input and the handles are
    pairwise distinct, the resolver keeps the input order: the descriptors
    with a handle as they came, then those without. *)
Theorem sort_without_edges_keeps_order scripts :
  (forall s d, In s scripts -> In d (dep_handles s) -> present scripts d = false) ->
  NoDup (present_handles scripts) ->
  exists r, sortScriptsByDependencies scripts = Some r /\
    sortedScripts r = filter has_handle scripts ++ filter no_handle scripts /\
    warned r = negb (forallb has_handle scripts).
Proof.
  intros Hdeps Hnd. destruct scripts as [|s0 scripts0].
  - eexists; split; [reflexivity|]. split; reflexivity.
  - set (scripts := s0 :: scripts0) in *.
    destruct (build_graph (build_scriptMap scripts) scripts (seed_graph scripts))
      as [adj deg] eqn:Hb.
    destruct (graph_built scripts adj deg Hb) as (Hkeys & Hdeg & Hadj).
    rewrite (edges_nil scripts Hdeps) in Hdeg, Hadj.
    assert (Hknd : NoDup (keys deg)) by (rewrite Hkeys; apply indexed_NoDup).
    assert (Hq : initial_queue deg = keys deg).
    { unfold initial_queue, keys. f_equal. apply filter_all. intros [k v] Hin.
      cbn [snd]. rewrite <- (degrees_of_entries deg k v Hknd Hin), Hdeg. reflexivity. }
    assert (Hk : kahn (length deg) adj deg (initial_queue deg) [] = Some (keys deg)).
    { rewrite (kahn_no_edges adj Hadj); [rewrite Hq; reflexivity|].
      rewrite Hq. unfold keys. rewrite length_map. lia. }
    rewrite Hkeys, (indexed_NoDup_eq scripts Hnd) in Hk.
    eexists. split; [exact (sort_result scripts adj deg _ ltac:(discriminate) Hb Hk)|].
    cbn [sortedScripts warned].
    assert (Hrest : (if negb (length (present_handles scripts) =? length scripts)%nat
                     then append_remaining scripts (present_handles scripts)
                     else present_handles scripts) = present_handles scripts).
    { destruct (negb _); [|reflexivity]. apply append_remaining_complete. tauto. }
    rewrite Hrest, (lookup_present_handles scripts Hnd). split; [reflexivity|].
    f_equal. unfold present_handles. rewrite length_map.
    destruct (forallb has_handle scripts) eqn:Hall.
    + rewrite filter_all by (apply forallb_forall; exact Hall). apply Nat.eqb_refl.
    + apply Nat.eqb_neq. intros Hlen.
      assert (Hf : forallb has_handle scripts = true); [|congruence].
      clear - Hlen. induction scripts as [|s l IH]; [reflexivity|].
      cbn [filter forallb length] in *. pose proof (filter_length_le has_handle l).
      destruct (has_handle s); cbn [length] in Hlen; [|lia].
      cbn [andb]. apply IH. lia.
Qed.

(** X8. When every descriptor with a handle depends on some handle of the input,
    so that nothing is free to go first, the resolver degrades to the
    input order (descriptors with a handle, then those without) and warns. *)
Theorem sort_without_free_script_keeps_order scripts :
  scripts <> [] ->
  (forall s, In s scripts -> has_handle s = true ->
             exists d, In d (dep_handles s) /\ present scripts d = true) ->
  NoDup (present_handles scripts) ->
  sortScriptsByDependencies scripts
  = Some {| sortedScripts := filter has_handle scripts ++ filter no_handle scripts;
            warned := true |}.
Proof.
  intros Hne Hdeps Hnd.
  destruct (build_graph (build_scriptMap scripts) scripts (seed_graph scripts))
    as [adj deg] eqn:Hb.
  destruct (graph_built scripts adj deg Hb) as (Hkeys & Hdeg & Hadj).
  assert (Hknd : NoDup (keys deg)) by (rewrite Hkeys; apply indexed_NoDup).
  assert (Hq : initial_queue deg = []).
  { unfold initial_queue. rewrite filter_none; [reflexivity|]. intros [k v] Hin.
    cbn [snd]. rewrite <- (degrees_of_entries deg k v Hknd Hin), Hdeg.
    assert (Hk : In k (present_handles scripts)).
    { apply In_indexed. rewrite <- Hkeys. apply in_map_iff. exists (k, v). tauto. }
    apply In_present_handles in Hk. destruct Hk as (s & Hs & Hh & Hk).
    destruct (Hdeps s Hs Hh) as (d & Hd & Hp).
    assert (He : In (d, k) (edges scripts)).
    { apply In_edges. exists s. repeat split; try assumption. apply present_In, Hp. }
    apply Z.eqb_neq. unfold indeg.
    assert (Hin' : In (d, k) (filter (fun e => str_eqb (snd e) k) (edges scripts))).
    { apply filter_In. split; [exact He | apply str_eqb_refl]. }
    destruct (filter _ (edges scripts)); [destruct Hin' | cbn [length]; lia]. }
  assert (Hk : kahn (length deg) adj deg (initial_queue deg) [] = Some []).
  { rewrite Hq. destruct (length deg); reflexivity. }
  rewrite (sort_result scripts adj deg [] Hne Hb Hk).
  destruct scripts as [|s0 scripts0]; [congruence|].
  cbn [length Nat.eqb negb].
  rewrite (append_remaining_fresh _ [] Hnd). cbn [app].
  rewrite (lookup_present_handles _ Hnd). reflexivity.
Qed.

(** X9. On every input the result holds each handle of the input exactly once,
    represented by the last descriptor that carries it (earlier descriptors
    with the same handle are dropped), and keeps every descriptor without a
    handle, in input order. *)
Theorem sort_keeps_last_of_each_handle scripts :
  exists r, sortScriptsByDependencies scripts = Some r /\
    NoDup (map handle_of (filter has_handle (sortedScripts r))) /\
    (forall h, In h (present_handles scripts) ->
               exists s, In s (sortedScripts r) /\ has_handle s = true /\ handle_of s = h) /\
    (forall s, In s (sortedScripts r) -> has_handle s = true ->
               exists l1 l2,
                 scripts = l1 ++ s :: l2 /\
                 forall s', In s' l2 -> has_handle s' = true ->
                            handle_of s' <> handle_of s) /\
    filter no_handle (sortedScripts r) = filter no_handle scripts.
Proof.
  destruct scripts as [|s0 scripts0].
  - eexists; split; [reflexivity|]. cbn. split; [constructor|].
    split; [intros h []|]. split; [intros s []|reflexivity].
  - set (scripts := s0 :: scripts0).
    destruct (sorted_handles scripts) as (S & w & Hr & HSnd & HS); [discriminate|].
    eexists; split; [exact Hr|]. cbn [sortedScripts].
    set (L := lookup_scripts (build_scriptMap scripts) S).
    assert (HL : forall s, In s L -> has_handle s = true).
    { apply Forall_forall, lookup_scripts_has_handle. }
    assert (HN : forall s, In s (filter no_handle scripts) -> has_handle s = false).
    { intros s Hs. apply filter_In in Hs. destruct Hs as [_ Hs].
      unfold no_handle in Hs. apply negb_true_iff, Hs. }
    split; [|split; [|split]].
    + rewrite filter_app, (filter_all has_handle L HL), (filter_none has_handle _ HN),
        app_nil_r.
      unfold L. rewrite lookup_scripts_handles by (intros h; apply HS). exact HSnd.
    + intros h Hh. apply HS in Hh.
      assert (Hhas : has (build_scriptMap scripts) h = true).
      { rewrite has_scriptMap. apply present_In, HS, Hh. }
      unfold has in Hhas.
      destruct (get (build_scriptMap scripts) h) as [s|] eqn:Hg; [|discriminate].
      exists s. pose proof (scriptMap_get scripts h s Hg) as (_ & Hs & Heq).
      split; [|tauto]. apply in_or_app. left. apply In_lookup_scripts. eauto.
    + intros s Hin Hs. apply in_app_or in Hin. destruct Hin as [Hin|Hin].
      * apply In_lookup_scripts in Hin. destruct Hin as (h & _ & Hg).
        destruct (scriptMap_get_last scripts h s Hg) as (l1 & l2 & He & _ & Hh & Hlast).
        exists l1, l2. split; [exact He|]. rewrite Hh. exact Hlast.
      * rewrite (HN s Hin) in Hs. discriminate.
    + rewrite filter_app.
      rewrite (filter_none no_handle L)
        by (intros s Hs; unfold no_handle; rewrite (HL s Hs); reflexivity).
      apply filter_all. intros s Hs. apply filter_In in Hs. tauto.
Qed.

(** X10. The warning of the resolver is silent exactly when the handle graph has
    no cycle, every descriptor has a handle and no two descriptors share
    one: a descriptor without a handle or a repeated handle raises it as a
    cycle does. *)
Theorem sort_warning_iff scripts :
  exists r, sortScriptsByDependencies scripts = Some r /\
    (warned r = false <->
     acyclic scripts /\ (forall s, In s scripts -> has_handle s = true) /\
     NoDup (present_handles scripts)).
Proof.
  destruct (sort_total scripts) as [r Hr]. exists r. split; [exact Hr|].
  rewrite (warned_false_iff scripts r Hr), indexed_full_iff. tauto.
Qed.

End SortProps.


(** ** Escaping for inline scripts *)

Module EscFacts.
Import WcSettings WcFacts.

Lemma replace_all_char c rep s :
  replace_all [c] rep s = flat_map (fun x => if x =? c then rep else [x]) s.
Proof.
  unfold replace_all. set (m := fun t : jsstring => _).
  induction s as [|x s IH]; [reflexivity|].
  cbn [replace_matches flat_map].
  assert (Hm : m (x :: s) = if x =? c then Some (1%nat, rep) else None).
  { unfold m. cbn [is_prefix]. rewrite andb_true_r, (Z.eqb_sym c x).
    destruct (x =? c); reflexivity. }
  rewrite Hm. destruct (x =? c); cbn [Nat.pred]; rewrite IH; reflexivity.
Qed.

Lemma esc_js_app a b : esc_js (a ++ b) = esc_js a ++ esc_js b.
Proof. unfold esc_js. rewrite !replace_all_char, !flat_map_app. reflexivity. Qed.

(** What [esc_js] makes of one code unit. *)
Lemma esc_js_unit c :
  esc_js [c]
  = if c =? 13 then []
    else if c =? 92 then [92; 92]
    else if c =? 39 then [92; 39]
    else if c =? 34 then [92; 34]
    else if c =? 10 then [92; 110]
    else [c].
Proof.
  unfold esc_js. rewrite !replace_all_char.
  destruct (Z.eqb_spec c 13) as [->|H13]; [reflexivity|].
  destruct (Z.eqb_spec c 92) as [->|H92]; [reflexivity|].
  destruct (Z.eqb_spec c 39) as [->|H39]; [reflexivity|].
  destruct (Z.eqb_spec c 34) as [->|H34]; [reflexivity|].
  destruct (Z.eqb_spec c 10) as [->|H10]; [reflexivity|].
  cbn [flat_map app].
  rewrite (proj2 (Z.eqb_neq c 13) H13). cbn [flat_map app].
  rewrite (proj2 (Z.eqb_neq c 92) H92). cbn [flat_map app].
  rewrite (proj2 (Z.eqb_neq c 39) H39). cbn [flat_map app].
  rewrite (proj2 (Z.eqb_neq c 34) H34). cbn [flat_map app].
  rewrite (proj2 (Z.eqb_neq c 10) H10). reflexivity.
Qed.

Lemma esc_js_cons c s : esc_js (c :: s) = esc_js [c] ++ esc_js s.
Proof. exact (esc_js_app [c] s). Qed.

(** A two-unit pattern that starts with a backslash, against the pieces
    [esc_js] emits. *)
Lemma replace_pair_single x rep c rest :
  c <> 92 -> replace_all [92; x] rep (c :: rest) = c :: replace_all [92; x] rep rest.
Proof.
  intros Hc. unfold replace_all. cbn [replace_matches].
  rewrite is_prefix_head_ne by congruence. reflexivity.
Qed.

Lemma replace_pair_hit x rep rest :
  replace_all [92; x] rep (92 :: x :: rest) = rep ++ replace_all [92; x] rep rest.
Proof.
  unfold replace_all. cbn [replace_matches is_prefix length Nat.pred].
  rewrite !Z.eqb_refl. reflexivity.
Qed.

Lemma replace_pair_miss x rep q rest :
  q <> x -> q <> 92 ->
  replace_all [92; x] rep (92 :: q :: rest) = 92 :: q :: replace_all [92; x] rep rest.
Proof.
  intros Hx Hq. unfold replace_all. cbn [replace_matches is_prefix].
  rewrite Z.eqb_refl, (proj2 (Z.eqb_neq x q)) by congruence. cbn [andb].
  rewrite (proj2 (Z.eqb_neq 92 q)) by congruence. reflexivity.
Qed.

End EscFacts.

Module EscProps.
Import WcSettings WcFacts EscFacts.

(** X11. The text [esc_js] returns holds no line feed and no carriage return, and
    each quote in it, single or double, comes right after a backslash. *)
Theorem esc_js_output (text : jsstring) :
  ~ In 10 (esc_js text) /\ ~ In 13 (esc_js text) /\
  forall pre c post,
    esc_js text = pre ++ c :: post -> is_quote c = true -> exists pre', pre = pre' ++ [92].
Proof.
  induction text as [|c0 text (IH10 & IH13 & IHq)].
  - split; [intros []|]. split; [intros []|]. intros [|? ?] c post H; discriminate.
  - rewrite esc_js_cons, esc_js_unit.
    destruct (Z.eqb_spec c0 13) as [->|H13]; [cbn [app]; tauto|].
    destruct (Z.eqb_spec c0 92) as [->|H92];
      [|destruct (Z.eqb_spec c0 39) as [->|H39];
        [|destruct (Z.eqb_spec c0 34) as [->|H34];
          [|destruct (Z.eqb_spec c0 10) as [->|H10]]]].
    all: cbn [app]; split; [intros [H|H]; [lia|]; try (destruct H as [H|H]; [lia|]); tauto|].
    all: split; [intros [H|H]; [lia|]; try (destruct H as [H|H]; [lia|]); tauto|].
    all: intros pre c post Heq Hc.
    all: try (destruct pre as [|p0 [|p1 pre]]; cbn [app] in Heq;
              [ injection Heq as E _; subst c; vm_compute in Hc; discriminate
              | injection Heq as E1 E2 _; subst p0; exists []; reflexivity
              | injection Heq as E1 E2 Heq; subst p0 p1;
                destruct (IHq pre c post Heq Hc) as [pre' ->];
                eexists (92 :: _ :: pre'); reflexivity ]).
    destruct pre as [|p0 pre]; cbn [app] in Heq.
    + injection Heq as E _. subst c. unfold is_quote in Hc.
      rewrite (proj2 (Z.eqb_neq c0 39) H39), (proj2 (Z.eqb_neq c0 34) H34) in Hc.
      discriminate.
    + injection Heq as E Heq. subst p0. destruct (IHq pre c post Heq Hc) as [pre' ->].
      exists (c0 :: pre'). reflexivity.
Qed.

(** X12. On text without a backslash and without a carriage return,
    [unescape_js] undoes [esc_js]. *)
Theorem unescape_js_esc_js (text : jsstring) :
  ~ In 92 text -> ~ In 13 text -> unescape_js (esc_js text) = text.
Proof.
  induction text as [|c text IH]; intros H92 H13; [reflexivity|].
  assert (IH' : unescape_js (esc_js text) = text).
  { apply IH; intros H; [apply H92 | apply H13]; right; exact H. }
  assert (Hc92 : c <> 92) by (intros ->; apply H92; left; reflexivity).
  assert (Hc13 : c <> 13) by (intros ->; apply H13; left; reflexivity).
  clear IH H92 H13. unfold unescape_js in *.
  rewrite esc_js_cons, esc_js_unit.
  rewrite (proj2 (Z.eqb_neq c 13) Hc13), (proj2 (Z.eqb_neq c 92) Hc92).
  destruct (Z.eqb_spec c 39) as [->|H39];
    [|destruct (Z.eqb_spec c 34) as [->|H34];
      [|destruct (Z.eqb_spec c 10) as [->|H10]]]; cbn [app].
  - rewrite (replace_pair_miss 110) by lia. rewrite (replace_pair_miss 34) by lia.
    rewrite replace_pair_hit. cbn [app]. rewrite replace_pair_single by lia.
    rewrite IH'. reflexivity.
  - rewrite (replace_pair_miss 110) by lia. rewrite replace_pair_hit. cbn [app].
    rewrite !replace_pair_single by lia. rewrite IH'. reflexivity.
  - rewrite replace_pair_hit. cbn [app]. rewrite !replace_pair_single by lia.
    rewrite IH'. reflexivity.
  - rewrite !replace_pair_single by lia. rewrite IH'. reflexivity.
Qed.

End EscProps.


(** ** The URL rewrites of [transformWcSettings] *)

Module MutateFacts.
Import Uri WcSettings WcFacts.

Section with_platform.

Variable number : Type.
Variable number_truthy : number -> bool.
Variable number_toString : number -> jsstring.
Variable URL_parse : jsstring -> option URL.
Variable frontendUrl instance : jsstring.
Variable rewriteLoginUrl : bool.

Local Abbreviation value := (json number).
Local Abbreviation look := (lookup number).
Local Abbreviation put := (assign number).
Local Abbreviation prop := (truthy_prop number number_truthy).
Local Abbreviation mutation :=
  (mutate number number_truthy number_toString URL_parse frontendUrl instance
     rewriteLoginUrl).
Local Abbreviation page_step :=
  (rewrite_page number number_truthy number_toString URL_parse frontendUrl).
Local Abbreviation pages_step :=
  (rewrite_storePages number number_truthy number_toString URL_parse frontendUrl).

(** [p'] has the keys of [p], in the same order, and differs from it at most
    at [k]. *)
Local Abbreviation touches k p p' :=
  (map fst p' = map fst p /\ forall k', k' <> k -> look p' k' = look p k').

Lemma lookup_assign_eq (props : list (jsstring * value)) k v :
  look (put props k v) k = Some v.
Proof using Type.
  induction props as [|[k0 v0] props IH]; cbn [assign lookup].
  - rewrite str_eqb_refl. reflexivity.
  - destruct (str_eqb k k0) eqn:E; cbn [lookup]; rewrite E; [reflexivity | exact IH].
Qed.

Lemma lookup_assign_ne (props : list (jsstring * value)) k k' v :
  k' <> k -> look (put props k v) k' = look props k'.
Proof using Type.
  intros Hne. induction props as [|[k0 v0] props IH]; cbn [assign lookup].
  - rewrite (proj2 (str_eqb_neq k' k) Hne). reflexivity.
  - destruct (str_eqb k k0) eqn:E; cbn [lookup].
    + apply str_eqb_eq in E. subst k0.
      rewrite (proj2 (str_eqb_neq k' k) Hne). reflexivity.
    + rewrite IH. reflexivity.
Qed.

Lemma keys_assign (props : list (jsstring * value)) k v x :
  look props k = Some x -> map fst (put props k v) = map fst props.
Proof using Type.
  induction props as [|[k0 v0] props IH]; cbn [assign lookup]; [discriminate|].
  destruct (str_eqb k k0) eqn:E; cbn [map fst]; [reflexivity|].
  intros H. rewrite (IH H). reflexivity.
Qed.

Lemma truthy_prop_lookup (props : list (jsstring * value)) k x :
  prop (JObject props) k = Some x -> look props k = Some x /\ truthy_json number number_truthy x = true.
Proof using Type.
  unfold truthy_prop, get. destruct (look props k) as [y|]; [|discriminate].
  destruct (truthy_json _ _ y) eqn:E; [|discriminate]. intros [= <-].
  split; [reflexivity | exact E].
Qed.

Lemma truthy_prop_intro (props : list (jsstring * value)) k x :
  look props k = Some x -> truthy_json number number_truthy x = true ->
  prop (JObject props) k = Some x.
Proof using Type. intros H1 H2. unfold truthy_prop, get. rewrite H1, H2. reflexivity. Qed.

Lemma touches_refl k (p : list (jsstring * value)) : touches k p p.
Proof using Type. split; [reflexivity | intros; reflexivity]. Qed.

Lemma touches_assign k (p : list (jsstring * value)) v x :
  prop (JObject p) k = Some x -> touches k p (put p k v).
Proof using Type.
  intros H. apply truthy_prop_lookup in H. destruct H as [H _]. split.
  - exact (keys_assign p k v x H).
  - intros k' Hne. apply lookup_assign_ne, Hne.
Qed.

Lemma step1_touches props p1 :
  match prop (JObject props) (js "storePages") with
  | Some sp => sp' ← pages_step sp; Ok (put props (js "storePages") sp')
  | None => Ok props
  end = Ok p1 ->
  touches (js "storePages") props p1.
Proof using Type.
  destruct (prop (JObject props) (js "storePages")) as [sp|] eqn:E.
  - destruct (pages_step sp) as [sp'|e]; [|discriminate]. cbn [mbind result_bind].
    intros [= <-]. exact (touches_assign _ _ _ _ E).
  - intros [= <-]. apply touches_refl.
Qed.

Lemma step2_touches p1 :
  touches (js "homeUrl") p1
    (match prop (JObject p1) (js "homeUrl") with
     | Some (JString _) => put p1 (js "homeUrl") (JString frontendUrl)
     | _ => p1
     end).
Proof using Type.
  destruct (prop (JObject p1) (js "homeUrl")) as [[]|] eqn:E;
    try apply touches_refl. exact (touches_assign _ _ _ _ E).
Qed.

Lemma step3_touches p2 :
  touches (js "dashboardUrl") p2
    (match prop (JObject p2) (js "dashboardUrl") with
     | Some (JString originalUrl) =>
         match URL_parse originalUrl with
         | Some url => put p2 (js "dashboardUrl") (JString (frontendUrl ++ pathname url))
         | None => put p2 (js "dashboardUrl")
                       (JString (replace_origin originalUrl frontendUrl))
         end
     | _ => p2
     end).
Proof using Type.
  destruct (prop (JObject p2) (js "dashboardUrl")) as [[]|] eqn:E;
    try apply touches_refl.
  destruct (URL_parse _); exact (touches_assign _ _ _ _ E).
Qed.

Lemma step_touches k (f : value -> value) p :
  touches k p (match prop (JObject p) k with Some x => put p k (f x) | None => p end).
Proof using Type.
  destruct (prop (JObject p) k) eqn:E; [exact (touches_assign _ _ _ _ E) | apply touches_refl].
Qed.

Lemma step6_touches p5 :
  touches (js "wpLoginUrl") p5
    (if rewriteLoginUrl then
       match prop (JObject p5) (js "wpLoginUrl") with
       | Some _ => put p5 (js "wpLoginUrl") (JString (frontendUrl ++ js "/login"))
       | None => p5
       end
     else p5).
Proof using Type.
  destruct rewriteLoginUrl; [|apply touches_refl].
  exact (step_touches _ (fun _ => JString (frontendUrl ++ js "/login")) p5).
Qed.

(** The six steps of the mutation, in order. *)
Lemma mutate_steps props out :
  mutation (JObject props) = Ok out ->
  exists p1 p2 p3 p4 p5 p6,
    match prop (JObject props) (js "storePages") with
    | Some sp => sp' ← pages_step sp; Ok (put props (js "storePages") sp')
    | None => Ok props
    end = Ok p1 /\
    p2 = match prop (JObject p1) (js "homeUrl") with
         | Some (JString _) => put p1 (js "homeUrl") (JString frontendUrl)
         | _ => p1
         end /\
    p3 = match prop (JObject p2) (js "dashboardUrl") with
         | Some (JString originalUrl) =>
             match URL_parse originalUrl with
             | Some url =>
                 put p2 (js "dashboardUrl") (JString (frontendUrl ++ pathname url))
             | None =>
                 put p2 (js "dashboardUrl")
                     (JString (replace_origin originalUrl frontendUrl))
             end
         | _ => p2
         end /\
    p4 = match prop (JObject p3) (js "wcBlocksConfig") with
         | Some cfg =>
             put p3 (js "wcBlocksConfig")
                 (rewrite_wcBlocksConfig number number_truthy number_toString
                    URL_parse frontendUrl instance cfg)
         | None => p3
         end /\
    p5 = match prop (JObject p4) (js "stripe_settings") with
         | Some st =>
             put p4 (js "stripe_settings")
                 (rewrite_stripe number number_truthy number_toString URL_parse
                    frontendUrl st)
         | None => p4
         end /\
    p6 = (if rewriteLoginUrl then
            match prop (JObject p5) (js "wpLoginUrl") with
            | Some _ => put p5 (js "wpLoginUrl") (JString (frontendUrl ++ js "/login"))
            | None => p5
            end
          else p5) /\
    out = JObject p6.
Proof using Type.
  unfold mutate.
  destruct (match prop (JObject props) (js "storePages") with
            | Some sp => _
            | None => _
            end) as [p1|e]; [|discriminate].
  cbn [mbind result_bind]. intros [= <-]. exists p1.
  do 5 eexists. repeat (split; [reflexivity|]). reflexivity.
Qed.

(** Every step leaves the keys alone and touches one of them at most. *)
Lemma mutate_touches props out :
  mutation (JObject props) = Ok out ->
  exists p1 p2 p3 p4 p5 p6,
    out = JObject p6 /\
    touches (js "storePages") props p1 /\ touches (js "homeUrl") p1 p2 /\
    touches (js "dashboardUrl") p2 p3 /\ touches (js "wcBlocksConfig") p3 p4 /\
    touches (js "stripe_settings") p4 p5 /\
    touches (js "wpLoginUrl") p5 p6 /\ (rewriteLoginUrl = false -> p6 = p5).
Proof using Type.
  intros H. destruct (mutate_steps props out H)
    as (p1 & p2 & p3 & p4 & p5 & p6 & H1 & H2 & H3 & H4 & H5 & H6 & Hout).
  exists p1, p2, p3, p4, p5, p6. split; [exact Hout|].
  split; [exact (step1_touches props p1 H1)|].
  split; [rewrite H2; apply step2_touches|].
  split; [rewrite H3; apply step3_touches|].
  split; [rewrite H4; apply step_touches|].
  split; [rewrite H5; apply step_touches|].
  split; [rewrite H6; apply step6_touches|].
  intros Hrl. rewrite H6, Hrl. reflexivity.
Qed.

Lemma mapM_Forall2 {A B} (f : A -> result B) l l' :
  mapM f l = Ok l' -> Forall2 (fun a b => f a = Ok b) l l'.
Proof using Type.
  revert l'. induction l as [|a l IH]; intros l'; cbn [mapM].
  - intros [= <-]. constructor.
  - destruct (f a) as [b|e] eqn:Ha; [|discriminate]. cbn [mbind result_bind].
    destruct (mapM f l) as [bs|e]; [|discriminate]. cbn [mbind result_bind].
    intros [= <-]. constructor; [exact Ha | apply IH; reflexivity].
Qed.

Lemma mapM_Throw {A B} (f : A -> result B) l e :
  mapM f l = Throw e -> exists a, In a l /\ f a = Throw e.
Proof using Type.
  induction l as [|a l IH]; cbn [mapM]; [discriminate|].
  destruct (f a) as [b|e'] eqn:Ha; cbn [mbind result_bind].
  - destruct (mapM f l) as [bs|e']; cbn [mbind result_bind]; [discriminate|].
    intros [= ->]. destruct (IH eq_refl) as (x & Hx & Hfx). exists x. split; [right|]; assumption.
  - intros [= ->]. exists a. split; [left; reflexivity | exact Ha].
Qed.

(** One store page with a permalink that parses. *)
Lemma rewrite_page_ok page permalink url :
  look page (js "permalink") = Some (JString permalink) -> permalink <> [] ->
  URL_parse permalink = Some url ->
  page_step (JObject page)
  = Ok (JObject (put page (js "permalink") (JString (frontendUrl ++ pathname url)))).
Proof using Type.
  intros Hp Hne Hu. unfold rewrite_page.
  rewrite (truthy_prop_intro page _ _ Hp) by (destruct permalink; [congruence | reflexivity]).
  unfold new_URL. cbn [to_string]. rewrite Hu. reflexivity.
Qed.

(** What makes one store page fail. *)
Lemma rewrite_page_Throw page e :
  page_step page = Throw e ->
  e = TypeError /\
  exists v, prop page (js "permalink") = Some v /\
            URL_parse (to_string number number_toString v) = None.
Proof using Type.
  unfold rewrite_page. destruct page; try discriminate.
  destruct (prop (JObject props) (js "permalink")) as [v|] eqn:Hv; [|discriminate].
  unfold new_URL. destruct (URL_parse _) eqn:Hu; [discriminate|].
  cbn [mbind result_bind]. intros [= <-]. split; [reflexivity|]. exists v. split; [reflexivity | exact Hu].
Qed.

End with_platform.

End MutateFacts.


Module MutateProps.
Import Uri WcSettings WcFacts MutateFacts.

Ltac distinct_keys :=
  let E := fresh "E" in intros E; vm_compute in E; discriminate E.

Section with_platform.

Variable number : Type.
Variable number_truthy : number -> bool.
Variable number_toString : number -> jsstring.
Variable URL_parse : jsstring -> option URL.
Variable frontendUrl instance : jsstring.
Variable rewriteLoginUrl : bool.

Local Abbreviation value := (json number).
Local Abbreviation look := (lookup number).
Local Abbreviation put := (assign number).
Local Abbreviation prop := (truthy_prop number number_truthy).
Local Abbreviation mutation :=
  (mutate number number_truthy number_toString URL_parse frontendUrl instance
     rewriteLoginUrl).

(** X13. A successful mutation of a settings object returns an object with the
    same keys in the same order, and changes no setting other than
    [storePages], [homeUrl], [dashboardUrl], [wcBlocksConfig],
    [stripe_settings] and, when the login rewrite is on, [wpLoginUrl]:
    [adminUrl] and everything else stay as they were. *)
Theorem mutate_leaves_other_settings (props : list (jsstring * value)) (out : value) :
  mutation (JObject props) = Ok out ->
  exists props',
    out = JObject props' /\ map fst props' = map fst props /\
    forall k,
      ~ In k [js "storePages"; js "homeUrl"; js "dashboardUrl"; js "wcBlocksConfig";
              js "stripe_settings"] ->
      (k = js "wpLoginUrl" -> rewriteLoginUrl = false) ->
      look props' k = look props k.
Proof using Type.
  intros H.
  destruct (mutate_touches number number_truthy number_toString URL_parse frontendUrl
              instance rewriteLoginUrl props out H)
    as (p1 & p2 & p3 & p4 & p5 & p6 & Hout & [K1 T1] & [K2 T2] & [K3 T3] & [K4 T4]
        & [K5 T5] & [K6 T6] & Hrl).
  exists p6. split; [exact Hout|]. split; [congruence|].
  intros k Hk Hlogin.
  assert (H65 : look p6 k = look p5 k).
  { destruct (str_eq_dec k (js "wpLoginUrl")) as [E|E].
    - rewrite (Hrl (Hlogin E)). reflexivity.
    - apply T6, E. }
  rewrite H65, T5, T4, T3, T2, T1; [reflexivity|..];
    intros ->; apply Hk; cbn [In]; auto 10.
Qed.

(** X14. What a successful mutation writes: a [homeUrl] that was a non-empty
    string becomes the frontend URL; a [dashboardUrl] that was a non-empty
    string becomes the frontend URL followed by the path of the old one
    when that parses, and otherwise the old one with its origin replaced;
    with the login rewrite on, a truthy [wpLoginUrl] becomes the frontend
    [/login] route. *)
Theorem mutate_rewrites_urls (props props' : list (jsstring * value)) :
  mutation (JObject props) = Ok (JObject props') ->
  (forall s, look props (js "homeUrl") = Some (JString s) -> s <> [] ->
             look props' (js "homeUrl") = Some (JString frontendUrl)) /\
  (forall s, look props (js "dashboardUrl") = Some (JString s) -> s <> [] ->
             look props' (js "dashboardUrl")
             = Some (JString (match URL_parse s with
                              | Some url => frontendUrl ++ pathname url
                              | None => replace_origin s frontendUrl
                              end))) /\
  (forall v, rewriteLoginUrl = true ->
             look props (js "wpLoginUrl") = Some v ->
             truthy_json number number_truthy v = true ->
             look props' (js "wpLoginUrl") = Some (JString (frontendUrl ++ js "/login"))).
Proof using Type.
  intros H.
  destruct (mutate_steps number number_truthy number_toString URL_parse frontendUrl
              instance rewriteLoginUrl props _ H)
    as (p1 & p2 & p3 & p4 & p5 & p6 & H1 & H2 & H3 & H4 & H5 & H6 & Hout).
  injection Hout as ->.
  pose proof (step1_touches _ _ _ URL_parse frontendUrl props p1 H1) as [_ T1].
  pose proof (step2_touches number number_truthy frontendUrl p1) as [_ T2].
  rewrite <- H2 in T2.
  pose proof (step3_touches number number_truthy URL_parse frontendUrl p2) as [_ T3].
  rewrite <- H3 in T3.
  pose proof (step_touches number number_truthy (js "wcBlocksConfig")
                (rewrite_wcBlocksConfig number number_truthy number_toString URL_parse
                   frontendUrl instance) p3) as [_ T4].
  rewrite <- H4 in T4.
  pose proof (step_touches number number_truthy (js "stripe_settings")
                (rewrite_stripe number number_truthy number_toString URL_parse
                   frontendUrl) p4) as [_ T5].
  rewrite <- H5 in T5.
  pose proof (step6_touches number number_truthy frontendUrl rewriteLoginUrl p5) as [_ T6].
  rewrite <- H6 in T6.
  split; [|split].
  - intros s Hs Hne.
    rewrite T6, T5, T4, T3 by distinct_keys.
    rewrite <- T1 in Hs by distinct_keys.
    rewrite H2, (truthy_prop_intro number number_truthy p1 _ _ Hs)
      by (destruct s; [congruence | reflexivity]).
    apply lookup_assign_eq.
  - intros s Hs Hne.
    rewrite T6, T5, T4 by distinct_keys.
    rewrite <- T1, <- T2 in Hs by distinct_keys.
    rewrite H3, (truthy_prop_intro number number_truthy p2 _ _ Hs)
      by (destruct s; [congruence | reflexivity]).
    destruct (URL_parse s); apply lookup_assign_eq.
  - intros v Hrl Hv Ht.
    rewrite <- T1, <- T2, <- T3, <- T4, <- T5 in Hv by distinct_keys.
    rewrite H6, Hrl, (truthy_prop_intro number number_truthy p5 _ _ Hv Ht).
    apply lookup_assign_eq.
Qed.

(** X15. Store pages.  After a successful mutation the [storePages] object has
    the same pages under the same names, and a page whose [permalink] is a
    non-empty string that parses as a URL has it replaced by the frontend
    URL followed by the path of the old one, its other fields untouched. *)
Theorem mutate_store_pages
    (props props' pages : list (jsstring * value)) :
  mutation (JObject props) = Ok (JObject props') ->
  look props (js "storePages") = Some (JObject pages) ->
  exists pages',
    look props' (js "storePages") = Some (JObject pages') /\
    map fst pages' = map fst pages /\
    forall i key page permalink url,
      nth_error pages i = Some (key, JObject page) ->
      look page (js "permalink") = Some (JString permalink) -> permalink <> [] ->
      URL_parse permalink = Some url ->
      exists page',
        nth_error pages' i = Some (key, JObject page') /\
        look page' (js "permalink") = Some (JString (frontendUrl ++ pathname url)) /\
        map fst page' = map fst page /\
        forall k, k <> js "permalink" -> look page' k = look page k.
Proof using Type.
  intros H Hsp.
  destruct (mutate_steps number number_truthy number_toString URL_parse frontendUrl
              instance rewriteLoginUrl props _ H)
    as (p1 & p2 & p3 & p4 & p5 & p6 & H1 & H2 & H3 & H4 & H5 & H6 & Hout).
  injection Hout as ->.
  pose proof (step2_touches number number_truthy frontendUrl p1) as [_ T2].
  rewrite <- H2 in T2.
  pose proof (step3_touches number number_truthy URL_parse frontendUrl p2) as [_ T3].
  rewrite <- H3 in T3.
  pose proof (step_touches number number_truthy (js "wcBlocksConfig")
                (rewrite_wcBlocksConfig number number_truthy number_toString URL_parse
                   frontendUrl instance) p3) as [_ T4].
  rewrite <- H4 in T4.
  pose proof (step_touches number number_truthy (js "stripe_settings")
                (rewrite_stripe number number_truthy number_toString URL_parse
                   frontendUrl) p4) as [_ T5].
  rewrite <- H5 in T5.
  pose proof (step6_touches number number_truthy frontendUrl rewriteLoginUrl p5) as [_ T6].
  rewrite <- H6 in T6.
  rewrite T6, T5, T4, T3, T2 by distinct_keys. clear T2 T3 T4 T5 T6 H2 H3 H4 H5 H6.
  rewrite (truthy_prop_intro number number_truthy props _ _ Hsp eq_refl) in H1.
  cbn [rewrite_storePages] in H1.
  destruct (mapM _ pages) as [pages'|e] eqn:Hm; [|discriminate].
  cbn [mbind result_bind] in H1. injection H1 as <-.
  exists pages'. split; [apply lookup_assign_eq|].
  apply mapM_Forall2 in Hm. clear Hsp H. split.
  - induction Hm as [|[k v] [k' v'] l l' Hkv _ IH]; [reflexivity|].
    cbn [map fst]. f_equal; [|exact IH].
    cbn [fst snd] in Hkv. destruct (rewrite_page _ _ _ _ _ v); [|discriminate].
    cbn [mbind result_bind] in Hkv. injection Hkv as -> _. reflexivity.
  - intros i key page permalink url Hi Hp Hne Hu. revert i Hi.
    induction Hm as [|[k v] [k' v'] l l' Hkv _ IH]; intros [|i] Hi; try discriminate.
    + injection Hi as -> ->. cbn [fst snd] in Hkv.
      rewrite (rewrite_page_ok number number_truthy number_toString URL_parse
                 frontendUrl page permalink url Hp Hne Hu) in Hkv.
      cbn [mbind result_bind] in Hkv. injection Hkv as <- <-.
      eexists. split; [reflexivity|]. split; [apply lookup_assign_eq|].
      split; [exact (keys_assign number page _ _ _ Hp)|].
      intros k Hk. apply lookup_assign_ne, Hk.
    + exact (IH i Hi).
Qed.

(** X16. The only way the mutation of a settings object fails: [storePages] is
    truthy and holds a page whose truthy [permalink] is not a URL.  The
    failure is the [TypeError] of the [URL] constructor; no other setting can
    abort the transform. *)
Theorem mutate_fails_only_on_permalink (props : list (jsstring * value)) (e : Exception) :
  mutation (JObject props) = Throw e ->
  e = TypeError /\
  exists storePages page permalink,
    prop (JObject props) (js "storePages") = Some storePages /\
    ((exists pages key, storePages = JObject pages /\ In (key, page) pages) \/
     (exists pages, storePages = JArray pages /\ In page pages)) /\
    prop page (js "permalink") = Some permalink /\
    URL_parse (to_string number number_toString permalink) = None.
Proof using Type.
  unfold mutate.
  destruct (prop (JObject props) (js "storePages")) as [sp|] eqn:Hsp;
    [|cbn [mbind result_bind]; discriminate].
  destruct (rewrite_storePages _ _ _ _ _ sp) as [sp'|e'] eqn:Hr;
    cbn [mbind result_bind]; [discriminate|].
  intros [= ->]. destruct sp as [| | | |l|pages]; cbn [rewrite_storePages] in Hr;
    try discriminate.
  - destruct (mapM _ l) as [l'|e'] eqn:Hm; cbn [mbind result_bind] in Hr; [discriminate|].
    injection Hr as ->. apply mapM_Throw in Hm. destruct Hm as (page & Hin & Hpage).
    apply rewrite_page_Throw in Hpage. destruct Hpage as (-> & v & Hv & Hu).
    split; [reflexivity|]. exists (JArray l), page, v.
    split; [reflexivity|]. split; [right; eauto|]. split; assumption.
  - destruct (mapM _ pages) as [l'|e'] eqn:Hm; cbn [mbind result_bind] in Hr; [discriminate|].
    injection Hr as ->. apply mapM_Throw in Hm. destruct Hm as ([key page] & Hin & Hpage).
    cbn [fst snd] in Hpage.
    destruct (rewrite_page _ _ _ _ _ page) as [v'|e'] eqn:Hp;
      cbn [mbind result_bind] in Hpage; [discriminate|].
    injection Hpage as ->.
    apply rewrite_page_Throw in Hp. destruct Hp as (-> & v & Hv & Hu).
    split; [reflexivity|]. exists (JObject pages), page, v.
    split; [reflexivity|]. split; [left; eauto|]. split; assumption.
Qed.

End with_platform.

End MutateProps.


(** ** REST routes and the whole transform *)

Module TransformFacts.
Import Codec Uri WcSettings WcFacts ProxyFacts.




End TransformFacts.

Module TransformProps.
Import Codec Uri WcSettings WcFacts TransformFacts.


Section with_platform.

Variable number : Type.
Variable number_truthy : number -> bool.
Variable number_toString : number -> jsstring.
Variable JSON_parse : jsstring -> result (json number).
Variable JSON_stringify : json number -> jsstring.
Variable URL_parse : jsstring -> option URL.

(** X18. On a script in the form the encoder writes, when every stage succeeds
    the transform returns the same declaration -- same variable, same
    statement -- around the re-encoded, mutated payload. *)
Theorem transform_keeps_declaration
    (name encoded text encoded' frontendUrl instance : jsstring) (rewriteLoginUrl : bool)
    (target clone out : json number) :
  name <> [] -> forallb is_word name = true ->
  encoded <> [] -> forallb (fun c => negb (is_quote c)) encoded = true ->
  decodeURIComponent (unescape_js encoded) = Ok text ->
  JSON_parse text = Ok target ->
  JSON_parse (JSON_stringify target) = Ok clone ->
  mutate number number_truthy number_toString URL_parse frontendUrl instance
    rewriteLoginUrl clone = Ok out ->
  encodeURIComponent (JSON_stringify out) = Ok encoded' ->
  transformWcSettings number number_truthy number_toString JSON_parse JSON_stringify
    URL_parse (template name encoded) frontendUrl instance rewriteLoginUrl
  = template name (esc_js encoded').
Proof using Type.
  intros Hne Hw Hene Hq Hdec Hparse Hclone Hmut Henc.
  unfold transformWcSettings, try_transform, decodeWcSettings.
  rewrite (decode_call_template name encoded Hw Hene Hq), Hdec. cbn [mbind result_bind].
  rewrite Hparse. cbn [mbind result_bind]. rewrite Hclone. cbn [mbind result_bind].
  rewrite Hmut. cbn [mbind result_bind]. unfold encodeWcSettings.
  rewrite Henc. cbn [mbind result_bind].
  rewrite (var_decl_template name encoded Hne Hw). reflexivity.
Qed.

End with_platform.

End TransformProps.


(** ** The loaders: attachment order, cache coverage, mounting *)

Module LoaderMore.
Import Sort Loader LoaderFacts Mount.

Lemma skipn_cons_nth {A} (l : list A) k x r :
  skipn k l = x :: r -> nth_error l k = Some x /\ skipn (S k) l = r /\ (k < length l)%nat.
Proof.
  revert l. induction k as [|k IH]; intros [|y l] H; try discriminate.
  - cbn in H. injection H as -> ->. cbn. repeat split. lia.
  - cbn [skipn] in H. destruct (IH l H) as (A1 & A2 & A3).
    cbn [nth_error length]. repeat split; [exact A1 | exact A2 | lia].
Qed.

Lemma StronglySorted_snoc (l : list nat) (n : nat) :
  StronglySorted lt l -> (forall m, In m l -> (m < n)%nat) -> StronglySorted lt (l ++ [n]).
Proof.
  induction 1 as [|a l Hl IH Ha]; intros Hn; cbn [app].
  - constructor; constructor.
  - constructor.
    + apply IH. intros m Hm. apply Hn. right. exact Hm.
    + apply Forall_app. split; [exact Ha|]. constructor; [|constructor].
      apply Hn. left. reflexivity.
Qed.

Section tracking.

Variable target : EnqueuedScript -> jsstring.
Variable sorted : list EnqueuedScript.

(** Steps that only write to the log, and attach no main element. *)
Lemma tracked_same st st' :
  currentIndex st' = currentIndex st -> LoadCache st' = LoadCache st ->
  pending st' = pending st -> attached st' = attached st ->
  tracked target sorted st -> tracked target sorted st'.
Proof using Type.
  intros Hi Hc Hp Ha [T1 T2 T3 T4 T5]. constructor.
  - rewrite Hi. exact T1.
  - rewrite Hi, Hc, Hp. exact T2.
  - rewrite Hi, Hp. exact T3.
  - rewrite Hi, Ha. exact T4.
  - rewrite Ha. exact T5.
Qed.

(** The listener hands over: its key enters the cache. *)
Lemma tracked_settle st l :
  pending st = Some l -> tracked target sorted st ->
  tracked target sorted (cache_add (l_cacheKey l) (set_pending None st)).
Proof using Type.
  intros Hp [T1 T2 T3 T4 T5]. constructor; cbn [currentIndex LoadCache pending cache_add set_pending].
  - exact T1.
  - intros i s Hi Hlt. left. destruct (T2 i s Hi Hlt) as [H|(l' & Hl' & _ & Hk)].
    + set_solver.
    + rewrite Hp in Hl'. injection Hl' as <-. rewrite Hk. set_solver.
  - discriminate.
  - exact T4.
  - exact T5.
Qed.

(** Passing to the next descriptor once the current key is in the cache. *)
Lemma tracked_advance st script rest k :
  pending st = None -> skipn (currentIndex st) sorted = script :: rest ->
  tracked target sorted st ->
  forall st',
    currentIndex st' = S (currentIndex st) -> LoadCache st' = {[ k ]} ∪ LoadCache st \/
                                               LoadCache st' = LoadCache st ->
    cacheKey script (S (currentIndex st)) ∈ LoadCache st' ->
    pending st' = None -> attached st' = attached st ->
    tracked target sorted st'.
Proof using Type.
  intros Hp Hskip [T1 T2 T3 T4 T5] st' Hi Hc Hk Hp' Ha.
  destruct (skipn_cons_nth _ _ _ _ Hskip) as (Hnth & _ & Hlen).
  constructor.
  - rewrite Hi. lia.
  - intros i s Hs Hlt. left. rewrite Hi in Hlt.
    destruct (Nat.eq_dec i (currentIndex st)) as [->|Hne].
    + rewrite Hnth in Hs. injection Hs as <-. exact Hk.
    + destruct (T2 i s Hs ltac:(lia)) as [H|(l & Hl & _)]; [|congruence].
      destruct Hc as [-> | ->]; set_solver.
  - rewrite Hp'. discriminate.
  - rewrite Ha, Hi. intros n s' Hin. destruct (T4 n s' Hin) as [Hle H]. split; [lia | exact H].
  - rewrite Ha. exact T5.
Qed.

(** Attaching the main element of the next descriptor. *)
Lemma tracked_attach st script rest st' l :
  pending st = None -> skipn (currentIndex st) sorted = script :: rest ->
  tracked target sorted st ->
  currentIndex st' = S (currentIndex st) -> LoadCache st' = LoadCache st ->
  pending st' = Some l -> l_rest l = rest -> l_asset l = S (currentIndex st) ->
  l_cacheKey l = cacheKey script (S (currentIndex st)) ->
  attached st' = attached st ++ [(S (currentIndex st), target script)] ->
  nonempty (target script) = true ->
  tracked target sorted st'.
Proof using Type.
  intros Hp Hskip [T1 T2 T3 T4 T5] Hi Hc Hp' Hr Ha Hk Hatt Hne.
  destruct (skipn_cons_nth _ _ _ _ Hskip) as (Hnth & Hskip' & Hlen).
  constructor.
  - rewrite Hi. lia.
  - intros i s Hs Hlt. rewrite Hi in Hlt.
    destruct (Nat.eq_dec i (currentIndex st)) as [->|Hne'].
    + right. exists l. rewrite Hnth in Hs. injection Hs as <-. auto.
    + left. rewrite Hc. destruct (T2 i s Hs ltac:(lia)) as [H|(l' & Hl' & _)];
        [exact H | congruence].
  - intros l' Hl'. rewrite Hp' in Hl'. injection Hl' as <-.
    rewrite Hi, Hr, Ha. split; [symmetry; exact Hskip' | reflexivity].
  - rewrite Hatt, Hi. intros n s' Hin. apply in_app_or in Hin.
    destruct Hin as [Hin|[[= <- <-]|[]]].
    + destruct (T4 n s' Hin) as [Hle H]. split; [lia | exact H].
    + split; [lia|]. exists script. cbn [Nat.pred]. auto.
  - rewrite Hatt, map_app. cbn [map fst]. apply StronglySorted_snoc; [exact T5|].
    intros m Hm. apply in_map_iff in Hm. destruct Hm as ([n s'] & <- & Hin).
    destruct (T4 n s' Hin) as [Hle _]. cbn [fst]. lia.
Qed.

Lemma tracked_initial cache : tracked target sorted (initial cache).
Proof using Type.
  constructor; cbn.
  - lia.
  - intros i s _ H. lia.
  - discriminate.
  - intros n s' [].
  - constructor.
Qed.

End tracking.

Section body.

Variable URL_parse : jsstring -> option URL.
Variable replaceProxyPlaceholders : jsstring -> jsstring -> jsstring.
Variable instance : jsstring.
Variable backendUrl : option jsstring.
Variable sorted : list EnqueuedScript.

Local Abbreviation loadNext :=
  (body_loadNextScript URL_parse replaceProxyPlaceholders instance backendUrl).
Local Abbreviation fire := (body_fire URL_parse replaceProxyPlaceholders instance backendUrl).
Local Abbreviation run := (body_run URL_parse replaceProxyPlaceholders instance backendUrl).
Local Abbreviation target := (body_src URL_parse instance backendUrl).
Local Abbreviation ok := (tracked target sorted).

Lemma body_loadNext_tracked rest :
  forall st,
    pending st = None -> skipn (currentIndex st) sorted = rest -> ok st ->
    ok (loadNext rest st) /\
    (pending (loadNext rest st) = None -> currentIndex (loadNext rest st) = length sorted).
Proof using Type.
  induction rest as [|script rest IH]; intros st Hp Hskip Ht.
  - cbn [body_loadNextScript]. unfold body_complete. split.
    + apply (tracked_same _ _ st); try reflexivity; [|exact Ht].
      rewrite !attached_emit, !app_nil_r. reflexivity.
    + intros _. cbn [currentIndex emit].
      pose proof (tr_index _ _ _ Ht) as Hle.
      pose proof (length_skipn (currentIndex st) sorted) as Hl.
      rewrite Hskip in Hl. cbn [length] in Hl. lia.
  - destruct (skipn_cons_nth _ _ _ _ Hskip) as (Hnth & Hskip' & Hlen).
    cbn [body_loadNextScript]. set (n := S (currentIndex st)).
    destruct (bool_decide (cacheKey script n ∈ LoadCache (set_index n st))) eqn:Hdec.
    + apply bool_decide_eq_true_1 in Hdec. apply IH; [exact Hp | exact Hskip' |].
      apply (tracked_advance _ _ st script rest [] Hp Hskip Ht);
        [reflexivity | right; reflexivity | exact Hdec | exact Hp | reflexivity].
    + destruct (body_inline_spec replaceProxyPlaceholders instance script n (set_index n st))
        as (Hi3 & Hc3 & Hp3 & _ & Ha3 & _).
      set (st3 := body_inline replaceProxyPlaceholders instance script n (set_index n st)) in *.
      cbn [currentIndex LoadCache pending set_index] in Hi3, Hc3, Hp3.
      change (attached (set_index n st)) with (attached st) in Ha3.
      destruct (nonempty (target script)) eqn:Hsrc.
      * split; [|cbn [pending set_pending]; discriminate].
        eapply (tracked_attach _ _ st script rest _ _ Hp Hskip Ht);
          cbn [currentIndex LoadCache pending set_pending emit l_rest l_asset l_cacheKey];
          try reflexivity; try assumption.
        match goal with
        | |- attached (set_pending ?p ?x) = _ => change (attached (set_pending p x)) with (attached x)
        end.
        rewrite attached_emit, Ha3. reflexivity.
      * apply IH.
        -- cbn [pending cache_add]. rewrite Hp3. exact Hp.
        -- cbn [currentIndex cache_add]. rewrite Hi3. exact Hskip'.
        -- apply (tracked_advance _ _ st script rest (cacheKey script n) Hp Hskip Ht);
             cbn [currentIndex LoadCache pending cache_add]; try assumption.
           ++ left. rewrite Hc3. reflexivity.
           ++ set_solver.
           ++ rewrite Hp3. exact Hp.
Qed.

Lemma body_fire_tracked ev st :
  ok st -> (pending st = None -> currentIndex st = length sorted) ->
  ok (fire ev st) /\ (pending (fire ev st) = None -> currentIndex (fire ev st) = length sorted).
Proof using Type.
  intros Ht Hdone. destruct (pending st) as [l|] eqn:Hp.
  - pose proof (tracked_settle _ _ st l Hp Ht) as Hs.
    destruct (tr_pending _ _ _ Ht l Hp) as [Hrest _].
    destruct ev; cbn [body_fire]; unfold body_on_load, body_on_error; rewrite Hp.
    + apply body_loadNext_tracked.
      * unfold emit_if. destruct (has_text _); reflexivity.
      * unfold emit_if. destruct (has_text _); cbn; symmetry; exact Hrest.
      * eapply tracked_same; [| | | |exact Hs]; unfold emit_if; destruct (has_text _);
          try reflexivity.
        match goal with
        | |- attached (cache_add ?k (emit ?e ?x)) = _ =>
            change (attached (cache_add k (emit e x))) with (attached (emit e x))
        end.
        rewrite attached_emit, app_nil_r. reflexivity.
    + apply body_loadNext_tracked.
      * reflexivity.
      * cbn. symmetry. exact Hrest.
      * eapply tracked_same; [| | | |exact Hs]; try reflexivity.
        match goal with
        | |- attached (cache_add ?k (emit ?e ?x)) = _ =>
            change (attached (cache_add k (emit e x))) with (attached (emit e x))
        end.
        rewrite attached_emit, app_nil_r. reflexivity.
  - rewrite (fire_idle URL_parse replaceProxyPlaceholders instance backendUrl ev st Hp).
    split; [exact Ht|]. intros _. apply Hdone. reflexivity.
Qed.

Lemma body_run_tracked cache evs :
  ok (run sorted cache evs) /\
  (pending (run sorted cache evs) = None -> currentIndex (run sorted cache evs) = length sorted).
Proof using Type.
  induction evs as [|ev evs IH] using rev_ind.
  - apply body_loadNext_tracked; [reflexivity | reflexivity | apply tracked_initial].
  - rewrite run_snoc. destruct IH as [A B]. apply body_fire_tracked; assumption.
Qed.

(** With every key in the cache, one call runs through the whole list and
    attaches nothing. *)
Lemma body_loadNext_cached rest :
  forall st,
    (forall i s, nth_error rest i = Some s ->
                 cacheKey s (S (currentIndex st + i)) ∈ LoadCache st) ->
    log (loadNext rest st) = log st ++ [TriggerDOMContentLoaded; OnComplete] /\
    LoadCache (loadNext rest st) = LoadCache st /\ pending (loadNext rest st) = pending st.
Proof using Type.
  induction rest as [|script rest IH]; intros st Hall.
  - cbn. rewrite <- app_assoc. auto.
  - cbn [body_loadNextScript].
    assert (Hk : cacheKey script (S (currentIndex st)) ∈ LoadCache (set_index (S (currentIndex st)) st)).
    { specialize (Hall O script eq_refl). rewrite Nat.add_0_r in Hall. exact Hall. }
    rewrite (bool_decide_eq_true_2 _ Hk). apply (IH (set_index (S (currentIndex st)) st)).
    intros i s Hi. specialize (Hall (S i) s Hi). cbn [currentIndex LoadCache set_index].
    replace (S (currentIndex st) + i)%nat with (currentIndex st + S i)%nat by lia. exact Hall.
Qed.

End body.

Section head.

Variable URL_parse : jsstring -> option URL.
Variable instance : jsstring.
Variable sorted : list EnqueuedScript.

Local Abbreviation loadNext := (head_loadNextScript URL_parse instance).
Local Abbreviation fire := (head_fire URL_parse instance).
Local Abbreviation target := (head_src URL_parse instance).
Local Abbreviation ok := (tracked target sorted).

(** What the head loader may log: main elements are blocking, and
    [DOMContentLoaded] is never fired. *)
Local Abbreviation head_effect :=
  (fun e => match e with
            | AppendChild _ (ScriptEl _ _ a d) => a = Some false /\ d = false
            | TriggerDOMContentLoaded => False
            | _ => True
            end).

Lemma head_inline_spec script n st :
  let st' := head_inline instance script n st in
  currentIndex st' = currentIndex st /\ LoadCache st' = LoadCache st /\
  pending st' = pending st /\ attached st' = attached st /\
  (Forall head_effect (log st) -> Forall head_effect (log st')).
Proof using Type.
  unfold head_inline, emit_if.
  destruct (has_text _), (nonempty _), (is_handle _ _); cbv zeta;
    rewrite ?attached_emit, ?app_nil_r; repeat split; try assumption;
    intros H; cbn [log emit]; rewrite ?Forall_app; repeat split; try assumption;
    repeat constructor.
Qed.

Lemma head_loadNext_tracked rest :
  forall st,
    pending st = None -> skipn (currentIndex st) sorted = rest -> ok st ->
    ok (loadNext rest st) /\
    (pending (loadNext rest st) = None -> currentIndex (loadNext rest st) = length sorted).
Proof using Type.
  induction rest as [|script rest IH]; intros st Hp Hskip Ht.
  - cbn [head_loadNextScript]. split.
    + apply (tracked_same _ _ st); try reflexivity; [|exact Ht].
      rewrite !attached_emit, !app_nil_r. reflexivity.
    + intros _. cbn [currentIndex emit].
      pose proof (tr_index _ _ _ Ht) as Hle.
      pose proof (length_skipn (currentIndex st) sorted) as Hl.
      rewrite Hskip in Hl. cbn [length] in Hl. lia.
  - destruct (skipn_cons_nth _ _ _ _ Hskip) as (Hnth & Hskip' & Hlen).
    cbn [head_loadNextScript]. set (n := S (currentIndex st)).
    destruct (bool_decide (cacheKey script n ∈ LoadCache (set_index n st))) eqn:Hdec.
    + apply bool_decide_eq_true_1 in Hdec. apply IH; [exact Hp | exact Hskip' |].
      apply (tracked_advance _ _ st script rest [] Hp Hskip Ht);
        [reflexivity | right; reflexivity | exact Hdec | exact Hp | reflexivity].
    + destruct (head_inline_spec script n (set_index n st)) as (Hi3 & Hc3 & Hp3 & Ha3 & _).
      set (st3 := head_inline instance script n (set_index n st)) in *.
      cbn [currentIndex LoadCache pending set_index] in Hi3, Hc3, Hp3.
      change (attached (set_index n st)) with (attached st) in Ha3.
      destruct (nonempty (target script)) eqn:Hsrc.
      * split; [|cbn [pending set_pending]; discriminate].
        eapply (tracked_attach _ _ st script rest _ _ Hp Hskip Ht);
          cbn [currentIndex LoadCache pending set_pending emit l_rest l_asset l_cacheKey];
          try reflexivity; try assumption.
        match goal with
        | |- attached (set_pending ?p ?x) = _ => change (attached (set_pending p x)) with (attached x)
        end.
        rewrite attached_emit, Ha3. reflexivity.
      * apply IH.
        -- cbn [pending cache_add]. rewrite Hp3. exact Hp.
        -- cbn [currentIndex cache_add]. rewrite Hi3. exact Hskip'.
        -- apply (tracked_advance _ _ st script rest (cacheKey script n) Hp Hskip Ht);
             cbn [currentIndex LoadCache pending cache_add]; try assumption.
           ++ left. rewrite Hc3. reflexivity.
           ++ set_solver.
           ++ rewrite Hp3. exact Hp.
Qed.

Lemma head_fire_tracked ev st :
  ok st -> (pending st = None -> currentIndex st = length sorted) ->
  ok (fire ev st) /\ (pending (fire ev st) = None -> currentIndex (fire ev st) = length sorted).
Proof using Type.
  intros Ht Hdone. destruct (pending st) as [l|] eqn:Hp.
  - pose proof (tracked_settle _ _ st l Hp Ht) as Hs.
    destruct (tr_pending _ _ _ Ht l Hp) as [Hrest _].
    destruct ev; cbn [head_fire]; unfold head_on_load, head_on_error; rewrite Hp.
    + apply head_loadNext_tracked.
      * unfold emit_if. destruct (has_text _); reflexivity.
      * unfold emit_if. destruct (has_text _); cbn; symmetry; exact Hrest.
      * eapply tracked_same; [| | | |exact Hs]; unfold emit_if; destruct (has_text _);
          try reflexivity.
        match goal with
        | |- attached (cache_add ?k (emit ?e ?x)) = _ =>
            change (attached (cache_add k (emit e x))) with (attached (emit e x))
        end.
        rewrite attached_emit, app_nil_r. reflexivity.
    + apply head_loadNext_tracked.
      * reflexivity.
      * cbn. symmetry. exact Hrest.
      * eapply tracked_same; [| | | |exact Hs]; try reflexivity.
        match goal with
        | |- attached (cache_add ?k (emit ?e ?x)) = _ =>
            change (attached (cache_add k (emit e x))) with (attached (emit e x))
        end.
        rewrite attached_emit, app_nil_r. reflexivity.
  - assert (Hidle : fire ev st = st).
    { destruct ev; cbn [head_fire]; unfold head_on_load, head_on_error; rewrite Hp; reflexivity. }
    rewrite Hidle. split; [exact Ht|]. intros _. apply Hdone. reflexivity.
Qed.

Lemma head_events_tracked evs :
  forall st,
    ok st -> (pending st = None -> currentIndex st = length sorted) ->
    ok (head_events URL_parse instance evs st).
Proof using Type.
  induction evs as [|ev evs IH]; intros st Ht Hdone; [exact Ht|].
  cbn [head_events fold_left]. destruct (head_fire_tracked ev st Ht Hdone) as [A B].
  apply IH; assumption.
Qed.

Lemma head_loadNext_effects rest :
  forall st, Forall head_effect (log st) -> Forall head_effect (log (loadNext rest st)).
Proof using Type.
  induction rest as [|script rest IH]; intros st H.
  - cbn [head_loadNextScript log emit]. apply Forall_app. split; [exact H|]. repeat constructor.
  - cbn [head_loadNextScript]. set (n := S (currentIndex st)).
    destruct (bool_decide _); [apply IH; exact H|].
    destruct (head_inline_spec script n (set_index n st)) as (_ & _ & _ & _ & Hl).
    specialize (Hl H).
    destruct (nonempty _); [|apply IH; exact Hl].
    cbn [log set_pending emit]. apply Forall_app. split; [exact Hl|]. repeat constructor.
Qed.

Lemma head_events_effects evs :
  forall st, Forall head_effect (log st) ->
             Forall head_effect (log (head_events URL_parse instance evs st)).
Proof using Type.
  induction evs as [|ev evs IH]; intros st H; [exact H|].
  cbn [head_events fold_left]. apply IH.
  destruct ev; cbn [head_fire]; unfold head_on_load, head_on_error;
    destruct (pending st); try exact H; apply head_loadNext_effects;
    unfold emit_if; try destruct (has_text _); cbn [log cache_add emit set_pending];
    rewrite ?Forall_app; repeat split; try exact H; repeat constructor.
Qed.

End head.

End LoaderMore.


Module LoaderProps.
Import Sort SortFacts SortMore Loader LoaderFacts Mount LoaderMore.

Section body.

Variable URL_parse : jsstring -> option URL.
Variable replaceProxyPlaceholders : jsstring -> jsstring -> jsstring.
Variable instance : jsstring.
Variable backendUrl : option jsstring.

Local Abbreviation run := (body_run URL_parse replaceProxyPlaceholders instance backendUrl).
Local Abbreviation start :=
  (body_start URL_parse replaceProxyPlaceholders instance backendUrl).
Local Abbreviation target := (body_src URL_parse instance backendUrl).

(** X19. At every moment of the body phase the main elements attached so far
    belong to distinct descriptors, were attached in the order of the sorted
    list, and each loads the target computed for its own descriptor, which
    is not empty. *)
Theorem body_attaches_in_order
    (sortedScripts : list EnqueuedScript) (cache : gset jsstring) (evs : list Terminal) :
  StronglySorted lt (map fst (attached (run sortedScripts cache evs))) /\
  forall n s', In (n, s') (attached (run sortedScripts cache evs)) ->
    exists script,
      nth_error sortedScripts (Nat.pred n) = Some script /\ n <> 0%nat /\
      s' = target script /\ s' <> [].
Proof using Type.
  destruct (body_run_tracked URL_parse replaceProxyPlaceholders instance backendUrl
              sortedScripts cache evs) as [[_ _ _ T4 T5] _].
  split; [exact T5|]. intros n s' Hin.
  destruct (T4 n s' Hin) as (_ & script & H1 & H2 & H3 & H4).
  exists script. repeat split; try assumption. intros ->. discriminate.
Qed.

(** X20. Once a body phase has completed, the key of every descriptor of the
    list is in [LoadCache]; mounting the component again over the same list
    then attaches nothing: it fires [DOMContentLoaded], completes, and
    leaves the cache as it is. *)
Theorem body_remount_loads_nothing
    (sortedScripts : list EnqueuedScript) (cache : gset jsstring) (evs : list Terminal) :
  (length sortedScripts <= length evs)%nat ->
  let st := run sortedScripts cache evs in
  (forall i script, nth_error sortedScripts i = Some script ->
                    cacheKey script (S i) ∈ LoadCache st) /\
  log (start sortedScripts (LoadCache st)) = [TriggerDOMContentLoaded; OnComplete] /\
  LoadCache (start sortedScripts (LoadCache st)) = LoadCache st.
Proof using Type.
  intros Hlen st.
  destruct (run_inv URL_parse replaceProxyPlaceholders instance backendUrl
              sortedScripts cache evs) as (_ & _ & Hrun).
  fold st in Hrun.
  destruct (pending st) as [l|] eqn:Hp; [destruct Hrun as [Hrun _]; lia|].
  destruct (body_run_tracked URL_parse replaceProxyPlaceholders instance backendUrl
              sortedScripts cache evs) as [[_ T2 _ _ _] Hdone].
  fold st in T2, Hdone. specialize (Hdone Hp).
  assert (Hall : forall i script, nth_error sortedScripts i = Some script ->
                                  cacheKey script (S i) ∈ LoadCache st).
  { intros i script Hi.
    assert (Hlt : (i < currentIndex st)%nat).
    { rewrite Hdone. apply nth_error_Some. congruence. }
    destruct (T2 i script Hi Hlt) as [H|(l & Hl & _)]; [exact H | congruence]. }
  split; [exact Hall|].
  destruct (body_loadNext_cached URL_parse replaceProxyPlaceholders instance backendUrl
              sortedScripts (initial (LoadCache st))) as (A & B & _).
  { intros i s Hi. cbn [currentIndex LoadCache initial Nat.add]. exact (Hall i s Hi). }
  split; [exact A | exact B].
Qed.

(** X21. [BodyScripts] as a whole: while [waitFor] is false it does nothing; with
    no footer descriptor it fires [DOMContentLoaded] and completes at once;
    and whatever terminal events follow, every main element it attaches
    loads the target of a footer descriptor of its input. *)
Theorem body_loads_footer_scripts_only
    (scripts : list EnqueuedScript) (cache : gset jsstring) (evs : list Terminal) :
  log (BodyScripts URL_parse replaceProxyPlaceholders scripts instance false backendUrl cache)
  = [] /\
  (filter is_footer scripts = [] ->
   log (BodyScripts URL_parse replaceProxyPlaceholders scripts instance true backendUrl cache)
   = [TriggerDOMContentLoaded; OnComplete]) /\
  forall n s',
    In (n, s')
       (attached
          (body_events URL_parse replaceProxyPlaceholders instance backendUrl evs
             (BodyScripts URL_parse replaceProxyPlaceholders scripts instance true
                backendUrl cache))) ->
    exists script,
      In script scripts /\ location script = Some FOOTER /\
      s' = target script /\ s' <> [].
Proof using Type.
  split; [reflexivity|]. split; [intros Hf; unfold BodyScripts; rewrite Hf; reflexivity|].
  intros n s'. unfold BodyScripts.
  destruct (filter is_footer scripts) as [|f0 footer] eqn:Hf.
  - unfold body_events.
    rewrite (fold_fire_idle URL_parse replaceProxyPlaceholders instance backendUrl)
      by reflexivity.
    intros [].
  - destruct (sort_total (f0 :: footer)) as [r Hr]. rewrite Hr.
    change (body_events URL_parse replaceProxyPlaceholders instance backendUrl evs
              (start (sortedScripts r) cache))
      with (run (sortedScripts r) cache evs).
    destruct (body_run_tracked URL_parse replaceProxyPlaceholders instance backendUrl
                (sortedScripts r) cache evs) as [[_ _ _ T4 _] _].
    intros Hin. destruct (T4 n s' Hin) as (_ & script & H1 & _ & H3 & H4).
    exists script. apply nth_error_In in H1.
    pose proof (sort_subset _ _ _ Hr H1) as Hs. rewrite <- Hf in Hs.
    apply filter_In in Hs. destruct Hs as [Hs Hloc].
    split; [exact Hs|]. split.
    + unfold is_footer in Hloc. destruct (location script) as [[]|]; try discriminate.
      reflexivity.
    + split; [exact H3|]. intros ->. discriminate.
Qed.

End body.

Section head.

Variable URL_parse : jsstring -> option URL.
Variable instance : jsstring.

(** X22. [HeadScripts] as a whole: whatever terminal events follow the mount,
    every main element it attaches belongs to a position of the list the
    resolver returns for the header descriptors of the input -- the
    element of ordinal [n] to the descriptor at position [n - 1] -- and
    loads the proxied target of that descriptor, with [async] forced to
    [false] and no [defer]; the ordinals increase along the document, so
    the elements are attached in the order of the sorted list, one per
    position at most; and the head phase never fires [DOMContentLoaded]. *)
Theorem head_loads_header_scripts_only
    (scripts : list EnqueuedScript) (cache : gset jsstring) (evs : list Terminal) :
  exists r,
    sortScriptsByDependencies (filter is_header scripts) = Some r /\
    let st :=
      head_events URL_parse instance evs (HeadScripts URL_parse scripts instance cache) in
    StronglySorted lt (map fst (attached st)) /\
    (forall n s', In (n, s') (attached st) ->
       exists script,
         nth_error (sortedScripts r) (Nat.pred n) = Some script /\ n <> 0%nat /\
         In script scripts /\ location script = Some HEADER /\
         s' = head_src URL_parse instance script /\ s' <> []) /\
    (forall n owner s' a d,
       In (AppendChild n (ScriptEl owner s' a d)) (log st) -> a = Some false /\ d = false) /\
    ~ In TriggerDOMContentLoaded (log st).
Proof using Type.
  assert (Hstart : exists r,
             sortScriptsByDependencies (filter is_header scripts) = Some r /\
             (forall s, In s (sortedScripts r) -> In s scripts /\ location s = Some HEADER) /\
             HeadScripts URL_parse scripts instance cache
             = head_start URL_parse instance (sortedScripts r) cache).
  { unfold HeadScripts. destruct (filter is_header scripts) as [|h0 header] eqn:Hf.
    - eexists. split; [reflexivity|]. split; [intros s []|reflexivity].
    - destruct (sort_total (h0 :: header)) as [r Hr]. rewrite Hr.
      exists r. split; [reflexivity|]. split; [|reflexivity]. intros s Hs.
      pose proof (sort_subset _ _ _ Hr Hs) as Hin. rewrite <- Hf in Hin.
      apply filter_In in Hin. destruct Hin as [Hin Hloc]. split; [exact Hin|].
      unfold is_header in Hloc. destruct (location s) as [[]|]; try discriminate.
      reflexivity. }
  destruct Hstart as (r & Hr & Hsub & Hst). exists r. split; [exact Hr|].
  intros st. unfold st. rewrite Hst. clear st Hst.
  set (sorted := sortedScripts r) in *.
  unfold head_start.
  destruct (head_loadNext_tracked URL_parse instance sorted sorted (initial cache))
    as [Ht Hdone]; [reflexivity | reflexivity | apply tracked_initial |].
  pose proof (head_events_tracked URL_parse instance sorted evs _ Ht Hdone)
    as [_ _ _ T4 T5].
  assert (Hlog : Forall (fun e => match e with
                                  | AppendChild _ (ScriptEl _ _ a d) =>
                                      a = Some false /\ d = false
                                  | TriggerDOMContentLoaded => False
                                  | _ => True
                                  end)
                   (log (head_events URL_parse instance evs
                           (head_loadNextScript URL_parse instance sorted (initial cache))))).
  { apply head_events_effects, head_loadNext_effects. constructor. }
  rewrite Forall_forall in Hlog.
  split; [exact T5|]. split; [|split].
  - intros n s' Hin. destruct (T4 n s' Hin) as (_ & script & H1 & H2 & H3 & H4).
    exists script. pose proof (nth_error_In _ _ H1) as H1'.
    destruct (Hsub script H1') as [Hs Hloc].
    repeat split; try assumption. intros ->. discriminate.
  - intros n owner s' a d Hin. exact (Hlog _ Hin).
  - intros Hin. exact (Hlog _ Hin).
Qed.

End head.

End LoaderProps.


(** ** The origin codec: alphabet and rejection *)

Module CodecMore.
Import Codec CodecFacts.

Lemma traverse_values_invalid data c :
  In c data -> b64_value c = None -> traverse_values data = None.
Proof.
  induction data as [|x data IH]; intros Hin Hc; [destruct Hin|].
  cbn [traverse_values]. destruct Hin as [->|Hin].
  - rewrite Hc. reflexivity.
  - rewrite (IH Hin Hc). destruct (b64_value x); reflexivity.
Qed.

Lemma In_strip_padding data c : In c data -> c <> 61 -> In c (strip_padding data).
Proof.
  intros Hin Hc. unfold strip_padding.
  destruct (Nat.eqb _ 0); [|exact Hin].
  apply in_rev in Hin.
  destruct (rev data) as [|x [|y r]] eqn:Hr; [destruct Hin| |].
  - destruct Hin as [E|[]]. subst x. rewrite (eqb_false c 61 Hc).
    apply in_rev. rewrite Hr. left; reflexivity.
  - destruct (Z.eqb_spec x 61) as [->|Hx]; cbn [andb].
    + destruct Hin as [E|Hin]; [congruence|].
      destruct (Z.eqb_spec y 61) as [->|Hy].
      * destruct Hin as [E|Hin]; [congruence|]. apply in_rev in Hin. exact Hin.
      * apply in_rev in Hin. exact Hin.
    + apply in_rev. rewrite Hr. exact Hin.
Qed.

End CodecMore.

Module CodecProps.
Import Codec CodecFacts CodecMore.

(** X23. What [encodeWithSalt] returns is padded base64: its length is a
    multiple of four and every code unit is a letter of the base64 alphabet
    or [=]; [decodeWithSalt] therefore never throws on it, whatever was
    encoded. *)
Theorem encodeWithSalt_is_base64 (data salt : jsstring) :
  valid_string data = true -> valid_string salt = true ->
  Nat.modulo (length (encodeWithSalt data salt)) 4 = 0%nat /\
  Forall (fun c => b64_value c <> None \/ c = 61) (encodeWithSalt data salt) /\
  exists text, decodeWithSalt (encodeWithSalt data salt) salt = Some text.
Proof.
  intros Hd Hs. unfold encodeWithSalt, decodeWithSalt.
  pose proof (xor_loop_bytes 0 _ _ (utf8_encode_bytes data Hd) (utf8_encode_bytes salt Hs))
    as Hb.
  set (bs := xor_loop 0 (utf8_encode data) (utf8_encode salt)) in *.
  split; [|split].
  - unfold base64_encode. rewrite length_app, length_map. apply sextets_length.
  - unfold base64_encode. apply Forall_app. split.
    + apply Forall_forall. intros c Hc. apply in_map_iff in Hc.
      destruct Hc as (v & <- & Hv). left.
      pose proof (sextets_sextet bs Hb) as Hsx. rewrite Forall_forall in Hsx.
      rewrite (b64_value_char v (Hsx v Hv)). discriminate.
    + destruct (padding_cases (length bs)) as [->|[->| ->]]; repeat constructor; right; reflexivity.
  - rewrite (atob_base64_encode bs Hb). eexists. reflexivity.
Qed.

(** X24. [decodeWithSalt] throws on any text that holds a code unit which is
    neither ASCII white space, nor [=], nor a letter of the base64
    alphabet. *)
Theorem decodeWithSalt_rejects (encoded salt : jsstring) (c : Z) :
  In c encoded -> is_ascii_whitespace c = false -> c <> 61 -> b64_value c = None ->
  decodeWithSalt encoded salt = None.
Proof.
  intros Hin Hws Hpad Hval. unfold decodeWithSalt, atob.
  assert (Hc : In c (strip_padding
                       (filter (fun c => negb (is_ascii_whitespace c)) encoded))).
  { apply In_strip_padding; [|exact Hpad]. apply filter_In. rewrite Hws. tauto. }
  rewrite (traverse_values_invalid _ c Hc Hval).
  destruct (Nat.eqb _ 1); reflexivity.
Qed.

End CodecProps.


(** ** Proxy placeholders *)

Module PlaceholderFacts.
Import WcSettings WcFacts ProxyFacts Placeholders.

Lemma contains_here needle s : is_prefix needle s = true -> contains needle s = true.
Proof. intros H. destruct s; cbn [contains]; rewrite H; reflexivity. Qed.

Lemma contains_app_r needle a b :
  contains needle b = true -> contains needle (a ++ b) = true.
Proof.
  intros H. induction a as [|x a IH]; [exact H|].
  cbn [app contains]. rewrite IH. apply orb_true_r.
Qed.

Lemma contains_intro needle a b : contains needle (a ++ needle ++ b) = true.
Proof. apply contains_app_r, contains_here, is_prefix_app. Qed.

Lemma contains_false_app needle a b :
  contains needle (a ++ b) = false -> contains needle b = false.
Proof.
  intros H. destruct (contains needle b) eqn:E; [|reflexivity].
  rewrite (contains_app_r needle a b E) in H. discriminate.
Qed.

Lemma contains_false_head needle s :
  contains needle s = false -> is_prefix needle s = false.
Proof.
  intros H. destruct (is_prefix needle s) eqn:E; [|reflexivity].
  rewrite (contains_here needle s E) in H. discriminate.
Qed.

Lemma scheme_at_spec s r :
  scheme_at s = Some r -> s = js "http:" ++ r \/ s = js "https:" ++ r.
Proof.
  unfold scheme_at. destruct (after_prefix (js "http") s) as [[|c t]|] eqn:Hp; try discriminate.
  apply after_prefix_Some in Hp. subst s.
  destruct (Z.eqb_spec c 115) as [->|_].
  - destruct t as [|d t]; [discriminate|].
    destruct (Z.eqb_spec d 58) as [->|_]; [|discriminate]. intros [= <-]. right. reflexivity.
  - destruct (Z.eqb_spec c 58) as [->|_]; [|discriminate]. intros [= <-]. left. reflexivity.
Qed.

Lemma slash_at_spec s r : slash_at s = Some r -> s = [47] ++ r \/ s = [92; 47] ++ r.
Proof.
  unfold slash_at. destruct s as [|c t]; [discriminate|].
  destruct (Z.eqb_spec c 92) as [->|_].
  - destruct t as [|d t]; [discriminate|].
    destruct (Z.eqb_spec d 47) as [->|_]; [|discriminate]. intros [= <-]. right. reflexivity.
  - destruct (Z.eqb_spec c 47) as [->|_]; [|discriminate]. intros [= <-]. left. reflexivity.
Qed.

(** A match is one of the eight prefixes followed by the marker. *)
Lemma placeholder_at_spec marker s n :
  placeholder_at marker s = Some n ->
  exists sp r, In sp url_prefixes /\ s = sp ++ marker ++ r /\ n = length (sp ++ marker).
Proof.
  unfold placeholder_at.
  destruct (scheme_at s) as [r1|] eqn:H1; [|discriminate].
  destruct (slash_at r1) as [r2|] eqn:H2; [|discriminate].
  destruct (slash_at r2) as [r3|] eqn:H3; [|discriminate].
  destruct (is_prefix marker r3) eqn:H4; [|discriminate]. intros [= <-].
  apply LoaderClaims.is_prefix_spec in H4. destruct H4 as [r ->].
  apply scheme_at_spec in H1. apply slash_at_spec in H2. apply slash_at_spec in H3.
  assert (Hs : exists sp, In sp url_prefixes /\ s = sp ++ marker ++ r).
  { destruct H1 as [-> | ->], H2 as [-> | ->], H3 as [-> | ->];
      match goal with
      | |- exists sp, _ /\ ?a ++ ?b ++ ?c ++ _ = _ => exists (a ++ b ++ c)
      end;
      (split; [vm_compute; auto 10 | rewrite <- !app_assoc; reflexivity]). }
  destruct Hs as (sp & Hsp & ->). exists sp, r. split; [exact Hsp|]. split; [reflexivity|].
  rewrite !length_app. lia.
Qed.

Lemma placeholder_at_intro marker sp r :
  In sp url_prefixes ->
  placeholder_at marker (sp ++ marker ++ r) = Some (length (sp ++ marker)).
Proof.
  intros Hsp.
  assert (Hparts : exists scheme sl1 sl2,
             sp = scheme ++ sl1 ++ sl2 /\
             (scheme = js "http:" \/ scheme = js "https:") /\
             (sl1 = [47] \/ sl1 = [92; 47]) /\ (sl2 = [47] \/ sl2 = [92; 47])).
  { unfold url_prefixes in Hsp. cbn [In] in Hsp.
    decompose [or] Hsp; try contradiction; subst sp.
    - exists (js "http:"), [47], [47]. auto.
    - exists (js "http:"), [47], [92; 47]. auto.
    - exists (js "http:"), [92; 47], [47]. auto.
    - exists (js "http:"), [92; 47], [92; 47]. auto.
    - exists (js "https:"), [47], [47]. auto.
    - exists (js "https:"), [47], [92; 47]. auto.
    - exists (js "https:"), [92; 47], [47]. auto.
    - exists (js "https:"), [92; 47], [92; 47]. auto. }
  destruct Hparts as (scheme & sl1 & sl2 & -> & Hscheme & Hsl1 & Hsl2).
  rewrite <- !app_assoc. unfold placeholder_at.
  assert (H1 : scheme_at (scheme ++ sl1 ++ sl2 ++ marker ++ r)
               = Some (sl1 ++ sl2 ++ marker ++ r))
    by (destruct Hscheme as [-> | ->]; reflexivity).
  assert (H2 : slash_at (sl1 ++ sl2 ++ marker ++ r) = Some (sl2 ++ marker ++ r))
    by (destruct Hsl1 as [-> | ->]; reflexivity).
  assert (H3 : slash_at (sl2 ++ marker ++ r) = Some (marker ++ r))
    by (destruct Hsl2 as [-> | ->]; reflexivity).
  rewrite H1, H2, H3, is_prefix_app. f_equal. rewrite !length_app. lia.
Qed.

Lemma placeholder_at_contains marker s n :
  placeholder_at marker s = Some n -> contains marker s = true.
Proof.
  intros H. apply placeholder_at_spec in H. destruct H as (sp & r & _ & -> & _).
  apply contains_intro.
Qed.

Lemma replace_matches_skip m a b :
  replace_matches m (length a) (a ++ b) = replace_matches m O b.
Proof. induction a as [|x a IH]; [reflexivity | exact IH]. Qed.

Lemma replace_matches_prefix m pre s :
  (forall t1 c t2, pre = t1 ++ c :: t2 -> m (c :: t2 ++ s) = None) ->
  replace_matches m O (pre ++ s) = pre ++ replace_matches m O s.
Proof.
  induction pre as [|c pre IH]; intros H; [reflexivity|].
  cbn [app replace_matches]. rewrite (H [] c pre eq_refl). f_equal.
  apply IH. intros t1 d t2 ->. exact (H (c :: t1) d t2 eq_refl).
Qed.

Lemma replace_placeholder_absent marker rep s :
  contains marker s = false -> replace_placeholder marker rep s = s.
Proof.
  intros H. unfold replace_placeholder. rewrite <- (app_nil_r s) at 1.
  rewrite replace_matches_prefix; [cbn; apply app_nil_r|].
  intros t1 c t2 ->. rewrite app_nil_r.
  destruct (placeholder_at marker (c :: t2)) as [n|] eqn:E; [|reflexivity].
  apply placeholder_at_contains in E.
  rewrite (contains_app_r marker t1 _ E) in H. discriminate.
Qed.

Lemma contains_spec needle s :
  contains needle s = true <-> exists a b, s = a ++ needle ++ b.
Proof.
  split.
  - induction s as [|c s IH]; cbn [contains]; intros H.
    + rewrite orb_false_r in H. apply LoaderClaims.is_prefix_spec in H.
      destruct H as [r ->]. exists [], r. reflexivity.
    + apply orb_true_iff in H. destruct H as [H|H].
      * apply LoaderClaims.is_prefix_spec in H. destruct H as [r ->].
        exists [], r. reflexivity.
      * destruct (IH H) as (a & b & ->). exists (c :: a), b. reflexivity.
  - intros (a & b & ->). apply contains_intro.
Qed.

Lemma contains_app_l needle a b :
  contains needle a = true -> contains needle (a ++ b) = true.
Proof.
  intros H. apply contains_spec in H. destruct H as (u & v & ->).
  rewrite <- !app_assoc. apply contains_intro.
Qed.

(** An occurrence in [a ++ b] lies in [a], lies in [b], or has a part on
    each side. *)
Lemma contains_app_cases needle a b :
  contains needle (a ++ b) = true ->
  contains needle a = true \/ contains needle b = true \/
  exists l l' a' b', l <> [] /\ l' <> [] /\ needle = l ++ l' /\
                     a = a' ++ l /\ b = l' ++ b'.
Proof.
  intros H. apply contains_spec in H. destruct H as (u & v & H).
  apply app_eq_app in H. destruct H as [l [[-> H] | [-> ->]]].
  - apply app_eq_app in H. destruct H as [l' [[-> ->] | [-> ->]]].
    + destruct l as [|x l].
      * right. left. apply (contains_intro l' [] v).
      * destruct l' as [|y l'].
        -- left. rewrite app_nil_r. rewrite <- (app_nil_r (x :: l)) at 2.
           apply (contains_intro (x :: l) u []).
        -- right. right. exists (x :: l), (y :: l'), u, v.
           repeat split; discriminate.
    + left. apply contains_intro.
  - right. left. apply contains_intro.
Qed.

Lemma contains_In x needle s : contains (x :: needle) s = true -> In x s.
Proof.
  intros H. apply contains_spec in H. destruct H as (a & b & ->).
  apply in_or_app. right. left. reflexivity.
Qed.

Lemma suffix_last (t1 t2 pre : jsstring) c q :
  pre ++ [q] = t1 ++ c :: t2 -> exists t', c :: t2 = t' ++ [q].
Proof.
  intros H. destruct (exists_last (l := c :: t2)) as (t' & x & E); [discriminate|].
  rewrite E, app_assoc in H. apply app_inj_tail in H. destruct H as [_ ->].
  exists t'. exact E.
Qed.

Lemma quote_not_in_prefix q sp :
  q = 34 \/ q = 39 -> In sp url_prefixes -> ~ In q sp.
Proof.
  intros Hq Hsp Hin. unfold url_prefixes in Hsp. cbn [In] in Hsp.
  decompose [or] Hsp; try contradiction; subst sp; vm_compute in Hin;
    decompose [or] Hin; try contradiction; destruct Hq; subst q; discriminate.
Qed.

(** In front of a quote that the marker does not hold, and after a text
    without the marker, no match starts. *)
Lemma no_match_before marker pre q s t1 c t2 :
  q = 34 \/ q = 39 -> ~ In q marker -> contains marker pre = false ->
  pre ++ [q] = t1 ++ c :: t2 ->
  placeholder_at marker (c :: t2 ++ s) = None.
Proof.
  intros Hq Hnq Hpre Hsplit.
  destruct (placeholder_at marker (c :: t2 ++ s)) as [n|] eqn:E; [exfalso|reflexivity].
  apply placeholder_at_spec in E. destruct E as (sp & r & Hsp & E & _).
  destruct (suffix_last _ _ _ _ _ Hsplit) as [t' Ht'].
  change (c :: t2 ++ s) with ((c :: t2) ++ s) in E. rewrite app_assoc in E.
  apply app_eq_app in E. destruct E as [l [[E _] | [E _]]].
  - assert (Hc : contains marker (pre ++ [q]) = true).
    { rewrite Hsplit, E, <- !app_assoc. apply contains_app_r, contains_app_r, contains_here.
      apply is_prefix_app. }
    apply contains_app_cases in Hc.
    destruct Hc as [Hc | [Hc | (l1 & l2 & a' & b' & _ & Hl2 & -> & _ & Hb)]].
    + congruence.
    + destruct marker as [|x marker]; [destruct pre; discriminate|].
      apply contains_In in Hc. destruct Hc as [->|[]]. apply Hnq. left. reflexivity.
    + destruct l2 as [|y l2]; [congruence|]. injection Hb as <- _.
      apply Hnq. apply in_or_app. right. left. reflexivity.
  - assert (Hin : In q (sp ++ marker)).
    { rewrite E, Ht'. apply in_or_app. left. apply in_or_app. right. left. reflexivity. }
    apply in_app_or in Hin. destruct Hin as [Hin|Hin]; [|exact (Hnq Hin)].
    exact (quote_not_in_prefix q sp Hq Hsp Hin).
Qed.

Lemma prefix_shape sp :
  In sp url_prefixes -> exists sp', sp = 104 :: sp' ++ [47].
Proof.
  intros Hsp. unfold url_prefixes in Hsp. cbn [In] in Hsp.
  decompose [or] Hsp; try contradiction; subst sp.
  - exists (js "ttp:/"). reflexivity.
  - exists (js "ttp:/\"). reflexivity.
  - exists (js "ttp:\/"). reflexivity.
  - exists (js "ttp:\/\"). reflexivity.
  - exists (js "ttps:/"). reflexivity.
  - exists (js "ttps:/\"). reflexivity.
  - exists (js "ttps:\/"). reflexivity.
  - exists (js "ttps:\/\"). reflexivity.
Qed.

(** Whether a match is written with an escaped slash is decided by its
    prefix. *)
Lemma contains_escaped sp marker :
  In sp url_prefixes -> ~ In 47 marker ->
  contains [92; 47] (sp ++ marker) = contains [92; 47] sp.
Proof.
  intros Hsp Hm. destruct (contains [92; 47] sp) eqn:E.
  - apply contains_app_l. exact E.
  - destruct (contains [92; 47] (sp ++ marker)) eqn:E'; [exfalso|reflexivity].
    apply contains_app_cases in E'.
    destruct E' as [Hc | [Hc | (l1 & l2 & a' & b' & Hl1 & Hl2 & Hn & Ha & Hb)]].
    + congruence.
    + apply contains_spec in Hc. destruct Hc as (a & b & ->).
      apply Hm. apply in_or_app. right. right. left. reflexivity.
    + destruct l1 as [|x [|y l1]]; [congruence| |].
      * injection Hn as <- <-. subst marker. apply Hm. left. reflexivity.
      * destruct l1; [|discriminate]. injection Hn as _ _ <-. congruence.
Qed.

Lemma replace_placeholder_quoted marker rep pre q sp rest :
  q = 34 \/ q = 39 -> ~ In q marker -> ~ In 47 marker ->
  In sp url_prefixes ->
  contains marker pre = false -> contains marker rest = false ->
  replace_placeholder marker rep (pre ++ q :: sp ++ marker ++ rest)
  = pre ++ q :: (if contains [92; 47] sp then escape_slashes rep else rep) ++ rest.
Proof.
  intros Hq Hnq Hns Hsp Hpre Hrest.
  pose proof (replace_placeholder_absent marker rep rest Hrest) as Habs.
  unfold replace_placeholder in *. set (m := fun t : jsstring => _) in *.
  change (pre ++ q :: sp ++ marker ++ rest) with (pre ++ [q] ++ sp ++ marker ++ rest).
  rewrite app_assoc, replace_matches_prefix.
  - rewrite <- app_assoc. cbn [app]. do 2 f_equal.
    destruct (prefix_shape sp Hsp) as [sp' Esp].
    assert (Hm : m (sp ++ marker ++ rest)
                 = Some (length (sp ++ marker),
                         if contains [92; 47] sp then escape_slashes rep else rep)).
    { unfold m. rewrite (placeholder_at_intro marker sp rest Hsp).
      rewrite app_assoc, firstn_app, Nat.sub_diag, firstn_all. cbn [firstn].
      rewrite app_nil_r, (contains_escaped sp marker Hsp Hns). reflexivity. }
    remember (sp ++ marker ++ rest) as s eqn:Es.
    destruct s as [|c s]; [rewrite Esp in Es; discriminate|].
    cbn [replace_matches]. rewrite Hm. f_equal.
    rewrite Esp in Es. cbn [app] in Es. injection Es as _ ->.
    rewrite Esp. cbn [app length Nat.pred].
    rewrite (app_assoc (sp' ++ [47])), replace_matches_skip. exact Habs.
  - intros t1 c t2 Hsplit.
    assert (Hnone : placeholder_at marker (c :: t2 ++ sp ++ marker ++ rest) = None)
      by (apply (no_match_before marker pre q _ t1 c t2); assumption).
    unfold m. rewrite Hnone. reflexivity.
Qed.

Lemma In_escape_slashes c s : In c (escape_slashes s) -> c = 92 \/ In c s.
Proof.
  unfold escape_slashes. rewrite EscFacts.replace_all_char.
  induction s as [|x s IH]; cbn [flat_map]; [intros []|].
  intros H. apply in_app_or in H. destruct H as [H|H].
  - destruct (Z.eqb_spec x 47) as [->|_].
    + destruct H as [<-|[<-|[]]]; [left; reflexivity | right; left; reflexivity].
    + destruct H as [<-|[]]. right. left. reflexivity.
  - destruct (IH H) as [->|Hin]; [left; reflexivity | right; right; exact Hin].
Qed.

(** Putting a text that shares no code unit with the needle in the place
    of another one, behind a quote, brings no occurrence of the needle. *)
Lemma contains_false_splice needle a q old new b :
  needle <> [] -> ~ In q needle ->
  (forall c, In c new -> ~ In c needle) ->
  contains needle (a ++ q :: old ++ b) = false ->
  contains needle (a ++ q :: new ++ b) = false.
Proof.
  intros Hne Hq Hnew Hold.
  destruct (contains needle (a ++ q :: new ++ b)) eqn:E; [exfalso|reflexivity].
  assert (Ha : contains needle (a ++ [q]) = false).
  { destruct (contains needle (a ++ [q])) eqn:Ea; [|reflexivity].
    apply (contains_app_l needle (a ++ [q]) (old ++ b)) in Ea.
    rewrite <- app_assoc in Ea. cbn [app] in Ea. congruence. }
  assert (Hb : contains needle b = false).
  { apply (contains_false_app needle (a ++ q :: old)).
    rewrite <- app_assoc. exact Hold. }
  change (a ++ q :: new ++ b) with (a ++ [q] ++ new ++ b) in E.
  rewrite app_assoc in E. apply contains_app_cases in E.
  destruct E as [E | [E | (l1 & l2 & a' & b' & Hl1 & _ & -> & Hsplit & _)]].
  - congruence.
  - apply contains_app_cases in E.
    destruct E as [E | [E | (l1 & l2 & a' & b' & Hl1 & _ & -> & -> & _)]].
    + destruct needle as [|x needle]; [congruence|].
      apply contains_In in E. apply (Hnew x E). left. reflexivity.
    + congruence.
    + destruct l1 as [|x l1]; [congruence|].
      apply (Hnew x); [apply in_or_app; right; left; reflexivity | left; reflexivity].
  - destruct (exists_last Hl1) as (l1' & x & ->).
    rewrite app_assoc in Hsplit. apply app_inj_tail in Hsplit. destruct Hsplit as [_ ->].
    apply Hq. apply in_or_app. left. apply in_or_app. right. left. reflexivity.
Qed.

Lemma get_substitution_unit m b a c r :
  c <> 36 -> get_substitution m b a (c :: r) = c :: get_substitution m b a r.
Proof.
  intros Hc. destruct c as [|p|p]; try reflexivity.
  do 6 (destruct p as [p|p|]; try reflexivity). congruence.
Qed.

Lemma get_substitution_no_dollar m b a r :
  ~ In 36 r -> get_substitution m b a r = r.
Proof.
  induction r as [|c r IH]; intros H; [reflexivity|].
  rewrite get_substitution_unit by (intros ->; apply H; left; reflexivity).
  f_equal. apply IH. intros Hin. apply H. right. exact Hin.
Qed.

Lemma plain_placeholder_at_intro marker scheme rest :
  scheme = js "http:" \/ scheme = js "https:" ->
  plain_placeholder_at marker (scheme ++ js "//" ++ marker ++ rest)
  = Some (length (scheme ++ js "//" ++ marker)).
Proof.
  intros Hs. unfold plain_placeholder_at.
  assert (H1 : scheme_at (scheme ++ js "//" ++ marker ++ rest)
               = Some (js "//" ++ marker ++ rest))
    by (destruct Hs as [-> | ->]; reflexivity).
  rewrite H1, app_assoc, is_prefix_app. f_equal. rewrite !length_app.
  change (length (js "//")) with 2%nat. lia.
Qed.

Lemma replace_first_head marker scheme rep rest :
  scheme = js "http:" \/ scheme = js "https:" -> ~ In 36 rep ->
  replace_first (plain_placeholder_at marker) rep []
    (scheme ++ js "//" ++ marker ++ rest)
  = rep ++ rest.
Proof.
  intros Hs Hrep.
  assert (E : forall s, replace_first (plain_placeholder_at marker) rep [] s
                        = match plain_placeholder_at marker s with
                          | Some n => get_substitution (firstn n s) [] (skipn n s) rep
                                      ++ skipn n s
                          | None => match s with
                                    | [] => []
                                    | c :: s' =>
                                        c :: replace_first (plain_placeholder_at marker)
                                               rep ([] ++ [c]) s'
                                    end
                          end) by (intros []; reflexivity).
  rewrite E, plain_placeholder_at_intro by exact Hs.
  rewrite get_substitution_no_dollar by exact Hrep. f_equal.
  rewrite (app_assoc (js "//") marker rest), (app_assoc scheme (js "//" ++ marker) rest).
  rewrite skipn_app, Nat.sub_diag, skipn_all. reflexivity.
Qed.

Lemma disjoint_code_units (text needle : jsstring) :
  forallb (fun c => negb (existsb (Z.eqb c) needle)) text = true ->
  forall c, In c text -> ~ In c needle.
Proof.
  intros H c Hin Hn. rewrite forallb_forall in H. specialize (H c Hin).
  apply negb_true_iff in H.
  assert (Ht : existsb (Z.eqb c) needle = true)
    by (apply existsb_exists; exists c; split; [exact Hn | apply Z.eqb_refl]).
  congruence.
Qed.

End PlaceholderFacts.


Module PlaceholderProps.
Import WcSettings WcFacts Placeholders PlaceholderFacts.

Lemma replaceProxyPlaceholders_steps frontendOrigin content instance :
  content <> [] ->
  replaceProxyPlaceholders frontendOrigin content instance
  = let result :=
      if contains (js "__NEXTPRESS_PROXY__") content
      then replace_placeholder (js "__NEXTPRESS_PROXY__") frontendOrigin content
      else content in
    if contains (js "__NEXTPRESS_ASSETS__") result
    then replace_placeholder (js "__NEXTPRESS_ASSETS__") (js "/atx/" ++ instance) result
    else result.
Proof. destruct content; [congruence | reflexivity]. Qed.

Lemma quote_not_in_marker q :
  q = 34 \/ q = 39 ->
  ~ In q (js "__NEXTPRESS_PROXY__") /\ ~ In q (js "__NEXTPRESS_ASSETS__").
Proof.
  intros Hq. split; intros Hin; vm_compute in Hin;
    decompose [or] Hin; try contradiction; destruct Hq; subst q; discriminate.
Qed.

Lemma slash_not_in_marker :
  ~ In 47 (js "__NEXTPRESS_PROXY__") /\ ~ In 47 (js "__NEXTPRESS_ASSETS__").
Proof.
  split; intros Hin; vm_compute in Hin; decompose [or] Hin; try contradiction; discriminate.
Qed.

(** X25. Asset URLs.  In a text without the page placeholder, take a URL
    that follows a quote, is written with plain or with escaped slashes
    and has the asset placeholder as its host, the text before it and the
    text after it being free of that placeholder.  Then
    [replaceProxyPlaceholders] puts the proxy route of the instance in the
    place of the scheme and the placeholder host, with its slashes escaped
    when the URL had an escaped slash, and changes nothing else. *)
Theorem assets_placeholder_replaced frontendOrigin instance pre q sp rest :
  q = 34 \/ q = 39 ->
  In sp url_prefixes ->
  contains (js "__NEXTPRESS_PROXY__")
    (pre ++ q :: sp ++ js "__NEXTPRESS_ASSETS__" ++ rest) = false ->
  contains (js "__NEXTPRESS_ASSETS__") pre = false ->
  contains (js "__NEXTPRESS_ASSETS__") rest = false ->
  replaceProxyPlaceholders frontendOrigin
    (pre ++ q :: sp ++ js "__NEXTPRESS_ASSETS__" ++ rest) instance
  = pre ++ q :: (if contains [92; 47] sp
                 then escape_slashes (js "/atx/" ++ instance)
                 else js "/atx/" ++ instance) ++ rest.
Proof.
  intros Hq Hsp Hproxy Hpre Hrest.
  rewrite replaceProxyPlaceholders_steps by (destruct pre; discriminate).
  cbv zeta. rewrite Hproxy.
  assert (Hc : contains (js "__NEXTPRESS_ASSETS__")
                 (pre ++ q :: sp ++ js "__NEXTPRESS_ASSETS__" ++ rest) = true).
  { change (pre ++ q :: sp ++ js "__NEXTPRESS_ASSETS__" ++ rest)
      with (pre ++ [q] ++ sp ++ js "__NEXTPRESS_ASSETS__" ++ rest).
    do 3 apply contains_app_r. apply contains_here, is_prefix_app. }
  rewrite Hc. apply replace_placeholder_quoted; try assumption.
  - apply (quote_not_in_marker q Hq).
  - apply slash_not_in_marker.
Qed.

(** X26. Page URLs.  In a text without the asset placeholder, take a URL
    that follows a quote, is written with plain or with escaped slashes
    and has the page placeholder as its host, the text before it and the
    text after it being free of that placeholder.  Then, for a frontend
    origin that shares no code unit with the asset placeholder,
    [replaceProxyPlaceholders] puts the origin in the place of the scheme
    and the placeholder host, with its slashes escaped when the URL had an
    escaped slash, and changes nothing else. *)
Theorem proxy_placeholder_replaced frontendOrigin instance pre q sp rest :
  q = 34 \/ q = 39 ->
  In sp url_prefixes ->
  (forall c, In c frontendOrigin -> ~ In c (js "__NEXTPRESS_ASSETS__")) ->
  contains (js "__NEXTPRESS_ASSETS__")
    (pre ++ q :: sp ++ js "__NEXTPRESS_PROXY__" ++ rest) = false ->
  contains (js "__NEXTPRESS_PROXY__") pre = false ->
  contains (js "__NEXTPRESS_PROXY__") rest = false ->
  replaceProxyPlaceholders frontendOrigin
    (pre ++ q :: sp ++ js "__NEXTPRESS_PROXY__" ++ rest) instance
  = pre ++ q :: (if contains [92; 47] sp
                 then escape_slashes frontendOrigin
                 else frontendOrigin) ++ rest.
Proof.
  intros Hq Hsp Horigin Hassets Hpre Hrest.
  rewrite replaceProxyPlaceholders_steps by (destruct pre; discriminate).
  cbv zeta.
  assert (Hc : contains (js "__NEXTPRESS_PROXY__")
                 (pre ++ q :: sp ++ js "__NEXTPRESS_PROXY__" ++ rest) = true).
  { change (pre ++ q :: sp ++ js "__NEXTPRESS_PROXY__" ++ rest)
      with (pre ++ [q] ++ sp ++ js "__NEXTPRESS_PROXY__" ++ rest).
    do 3 apply contains_app_r. apply contains_here, is_prefix_app. }
  rewrite Hc.
  rewrite replace_placeholder_quoted; try assumption;
    [|apply (quote_not_in_marker q Hq) | apply slash_not_in_marker].
  set (rep := if contains [92; 47] sp then _ else _).
  assert (Hnone : contains (js "__NEXTPRESS_ASSETS__") (pre ++ q :: rep ++ rest) = false).
  { apply (contains_false_splice _ pre q (sp ++ js "__NEXTPRESS_PROXY__") rep rest).
    - discriminate.
    - apply (quote_not_in_marker q Hq).
    - intros c Hin. unfold rep in Hin. destruct (contains [92; 47] sp).
      + apply In_escape_slashes in Hin. destruct Hin as [->|Hin]; [|exact (Horigin c Hin)].
        intros H92. vm_compute in H92. decompose [or] H92; try contradiction; discriminate.
      + exact (Horigin c Hin).
    - rewrite <- app_assoc. exact Hassets. }
  rewrite Hnone. reflexivity.
Qed.

Section with_platform.

Variable number : Type.
Variable frontendOrigin instance : jsstring.

Local Abbreviation processValue := (processValue number frontendOrigin instance).

(** X27. [processValue] gives back an equal copy of a value in which no string
    holds a placeholder and no object has a [__proto__] property. *)
Theorem processValue_unmarked (value : json number) :
  unmarked value = true -> processValue value = value.
Proof.
  revert value. fix IH 1. intros [ | b | n | s | items | props ]; cbn [unmarked Placeholders.processValue];
    try reflexivity.
  - intros H. apply andb_true_iff in H. destruct H as [H1 H2].
    apply negb_true_iff in H1, H2. rewrite H1, H2. reflexivity.
  - intros H. f_equal. induction items as [|x items IHl]; [reflexivity|].
    cbn [forallb] in H. apply andb_true_iff in H. destruct H as [Hx Hl].
    cbn [map]. rewrite (IH x Hx), (IHl Hl). reflexivity.
  - intros H. f_equal. induction props as [|[key v] props IHl]; [reflexivity|].
    apply andb_true_iff in H. destruct H as [H Hl].
    apply andb_true_iff in H. destruct H as [Hk Hv].
    apply negb_true_iff in Hk. rewrite Hk, (IH v Hv), (IHl Hl). reflexivity.
Qed.

(** X28. A string that starts with a placeholder URL, written with plain
    slashes, loses the scheme and the placeholder host to the frontend
    origin (page placeholder) or to the proxy route of the instance (asset
    placeholder, in a string without the page placeholder); all that
    follows is kept as it is, further placeholders included. *)
Theorem processValue_leading_url scheme rest :
  scheme = js "http:" \/ scheme = js "https:" ->
  ~ In 36 frontendOrigin -> ~ In 36 instance ->
  processValue (JString (scheme ++ js "//" ++ js "__NEXTPRESS_PROXY__" ++ rest))
  = JString (frontendOrigin ++ rest)
  /\ (contains (js "__NEXTPRESS_PROXY__")
        (scheme ++ js "//" ++ js "__NEXTPRESS_ASSETS__" ++ rest) = false ->
      processValue (JString (scheme ++ js "//" ++ js "__NEXTPRESS_ASSETS__" ++ rest))
      = JString (js "/atx/" ++ instance ++ rest)).
Proof.
  intros Hs Ho Hi. split.
  - cbn [Placeholders.processValue].
    rewrite (contains_app_r _ scheme), replace_first_head; try assumption; [reflexivity|].
    apply (contains_app_r _ (js "//")), contains_here, is_prefix_app.
  - intros Hp. cbn [Placeholders.processValue]. rewrite Hp.
    rewrite (contains_app_r _ scheme), replace_first_head; try assumption.
    + rewrite <- app_assoc. reflexivity.
    + intros Hin. apply in_app_or in Hin. destruct Hin as [Hin|Hin]; [|exact (Hi Hin)].
      vm_compute in Hin. decompose [or] Hin; try contradiction; discriminate.
    + apply (contains_app_r _ (js "//")), contains_here, is_prefix_app.
Qed.

End with_platform.

End PlaceholderProps.

(** ** Instances of the further properties *)

Module FurtherExamples.
Import Sort Codec Uri Loader WcSettings Proxy Placeholders Samples.

Ltac absent := apply ProxyFacts.forallb_not_char; vm_compute; reflexivity.

Lemma proxied_route_slug_witness :
  exists slug tail,
    js "/atx/default/wp-json/wc/store/cart" = js "/atx/" ++ slug ++ 47 :: tail /\
    slug <> [] /\ ~ In 47 slug /\
    extractSlugFromPath (js "/atx/default/wp-json/wc/store/cart") = Some slug.
Proof.
  apply ProxyProps.proxied_route_slug.
  - vm_compute. reflexivity.
  - absent.
Defined.

Lemma proxied_asset_reaches_backend_witness :
  let path := js "/wp-includes/js/dist/hooks.min.js" in
  let req := {| nextPath := proxied (js "default") path; method := js "GET";
                params := js "ver=6.4"; has_body := false |} in
  isProxiedRoute (nextPath req) = true /\
  proxyByWCR registry literal_RegExp_test None req
  = Ok (Rewrite ((if isInternalRoute path then wpSiteUrl shop else wpHomeUrl shop) ++ path)).
Proof.
  cbv zeta.
  apply (ProxyProps.proxied_asset_reaches_backend registry literal_RegExp_test None
           (js "default") (js "/wp-includes/js/dist/hooks.min.js") shop).
  - discriminate.
  - absent.
  - absent.
  - eexists. reflexivity.
  - vm_compute. reflexivity.
  - reflexivity.
  - absent.
  - absent.
  - reflexivity.
  - vm_compute. reflexivity.
Defined.

Lemma proxy_unknown_instance_witness :
  let req := {| nextPath := js "/atx/staging/wp-json/wc/store/cart"; method := js "GET";
                params := []; has_body := false |} in
  proxyByWCR registry literal_RegExp_test None req
  = Ok (if isProxiedRoute (nextPath req) then NotFound else Next).
Proof.
  cbv zeta.
  apply (ProxyProps.proxy_unknown_instance registry literal_RegExp_test None
           (js "staging") (js "wp-json/wc/store/cart") _ (JsError (js "unknown instance"))).
  - reflexivity.
  - discriminate.
  - absent.
  - absent.
  - reflexivity.
Defined.

Lemma proxy_backend_routes_witness :
  let req := {| nextPath := js "/atx/default/wc"; method := js "POST";
                params := js "wc-ajax=get_refreshed_fragments"; has_body := true |} in
  let proxy := proxyByWCR registry literal_RegExp_test None in
  let relay route :=
    Ok (Forward route (method req) (has_payload req) (has_payload req && has_body req)) in
  (forall rest,
      nextPath req = js "/atx/" ++ js "default" ++ js "/wp-json/" ++ rest ->
      forallb (fun c => negb (is_line_terminator c)) rest = true ->
      proxy req = relay (wpHomeUrl shop ++ js "/wp-json/" ++ rest ++ js "?" ++ params req)) /\
  (nextPath req = js "/atx/" ++ js "default" ++ js "/wp" ->
   proxy req = relay (wpSiteUrl shop ++ js "/wp-admin/admin-ajax.php?" ++ params req)) /\
  (nextPath req = js "/atx/" ++ js "default" ++ js "/wc" ->
   proxy req = relay (wpHomeUrl shop ++ js "/?" ++ params req)) /\
  (method req = js "GET" \/ method req = js "HEAD" -> has_payload req = false).
Proof.
  cbv zeta.
  apply (ProxyProps.proxy_backend_routes registry literal_RegExp_test None (js "default") shop).
  - discriminate.
  - absent.
  - absent.
  - reflexivity.
  - intros p. reflexivity.
  - intros p. reflexivity.
  - intros p. reflexivity.
  - absent.
  - absent.
Defined.

Lemma backend_url_handshake_witness :
  let req := {| nextPath := js "/atx/default/proxiee"; method := js "POST";
                params := []; has_body := false |} in
  let proxy := proxyByWCR registry literal_RegExp_test None in
  (method req = js "POST" ->
   exists d,
     proxy req = Ok (Json d) /\
     Backend.getBackendUrl None [] (js "default") (Backend.Responded true d)
     = (Some (wpHomeUrl shop), JsMap.set [] (js "default") (wpHomeUrl shop)) /\
     forall fetched,
       Backend.getBackendUrl None (JsMap.set [] (js "default") (wpHomeUrl shop))
         (js "default") fetched
       = (Some (wpHomeUrl shop), JsMap.set [] (js "default") (wpHomeUrl shop))) /\
  (method req <> js "POST" -> proxy req = Ok Next).
Proof.
  cbv zeta.
  apply (ProxyProps.backend_url_handshake registry literal_RegExp_test None (js "default") shop).
  - discriminate.
  - absent.
  - absent.
  - reflexivity.
  - reflexivity.
  - intros p. reflexivity.
  - intros p. reflexivity.
  - intros p. reflexivity.
  - vm_compute. reflexivity.
  - vm_compute. reflexivity.
  - intros x'. vm_compute. discriminate.
  - intros s. discriminate.
  - reflexivity.
Defined.

Lemma sort_without_edges_keeps_order_witness :
  exists r, sortScriptsByDependencies missing_dependency = Some r /\
    sortedScripts r
    = filter has_handle missing_dependency ++ filter no_handle missing_dependency /\
    warned r = negb (forallb has_handle missing_dependency).
Proof.
  apply SortProps.sort_without_edges_keeps_order.
  - intros s d [<-|[<-|[]]] Hd; vm_compute in Hd.
    + destruct Hd as [<-|[]]. vm_compute. reflexivity.
    + destruct Hd.
  - vm_compute. repeat constructor; intros H; cbn [In] in H;
      decompose [or] H; try contradiction; discriminate.
Defined.

Lemma sort_without_free_script_keeps_order_witness :
  sortScriptsByDependencies mutual_cycle
  = Some {| sortedScripts := filter has_handle mutual_cycle ++ filter no_handle mutual_cycle;
            warned := true |}.
Proof.
  apply SortProps.sort_without_free_script_keeps_order.
  - discriminate.
  - intros s [<-|[<-|[]]] _.
    + exists (js "b"). split; [left; reflexivity | vm_compute; reflexivity].
    + exists (js "a"). split; [left; reflexivity | vm_compute; reflexivity].
  - vm_compute. repeat constructor; intros H; cbn [In] in H;
      decompose [or] H; try contradiction; discriminate.
Defined.

Lemma unescape_js_esc_js_witness :
  unescape_js (esc_js (js "it's" ++ [10; 34])) = js "it's" ++ [10; 34].
Proof.
  apply EscProps.unescape_js_esc_js; absent.
Defined.

Lemma mutate_leaves_other_settings_witness :
  exists props',
    JObject store_settings_out = JObject props' /\
    map fst props' = map fst store_settings /\
    forall k,
      ~ In k [js "storePages"; js "homeUrl"; js "dashboardUrl"; js "wcBlocksConfig";
              js "stripe_settings"] ->
      (k = js "wpLoginUrl" -> false = false) ->
      lookup Z props' k = lookup Z store_settings k.
Proof.
  apply (MutateProps.mutate_leaves_other_settings Z (fun z => negb (z =? 0))
           Reference.int_to_js plain_URL_parse (js "http://localhost:3000") (js "default")
           false store_settings (JObject store_settings_out)).
  vm_compute. reflexivity.
Defined.

Lemma mutate_rewrites_urls_witness :
  let frontendUrl := js "http://localhost:3000" in
  (forall s, lookup Z store_settings (js "homeUrl") = Some (JString s) -> s <> [] ->
             lookup Z store_settings_out (js "homeUrl") = Some (JString frontendUrl)) /\
  (forall s, lookup Z store_settings (js "dashboardUrl") = Some (JString s) -> s <> [] ->
             lookup Z store_settings_out (js "dashboardUrl")
             = Some (JString (match plain_URL_parse s with
                              | Some url => frontendUrl ++ pathname url
                              | None => replace_origin s frontendUrl
                              end))) /\
  (forall v, false = true ->
             lookup Z store_settings (js "wpLoginUrl") = Some v ->
             truthy_json Z (fun z => negb (z =? 0)) v = true ->
             lookup Z store_settings_out (js "wpLoginUrl")
             = Some (JString (frontendUrl ++ js "/login"))).
Proof.
  cbv zeta.
  apply (MutateProps.mutate_rewrites_urls Z (fun z => negb (z =? 0))
           Reference.int_to_js plain_URL_parse (js "http://localhost:3000") (js "default")
           false store_settings store_settings_out).
  vm_compute. reflexivity.
Defined.

Lemma mutate_store_pages_witness :
  let frontendUrl := js "http://localhost:3000" in
  let pages :=
    [(js "cart",
      JObject [(js "id", JNumber 7);
               (js "permalink", JString (js "https://shop.test/cart/"))])] in
  exists pages',
    lookup Z store_settings_out (js "storePages") = Some (JObject pages') /\
    map fst pages' = map fst pages /\
    forall i key page permalink url,
      nth_error pages i = Some (key, JObject page) ->
      lookup Z page (js "permalink") = Some (JString permalink) -> permalink <> [] ->
      plain_URL_parse permalink = Some url ->
      exists page',
        nth_error pages' i = Some (key, JObject page') /\
        lookup Z page' (js "permalink") = Some (JString (frontendUrl ++ pathname url)) /\
        map fst page' = map fst page /\
        forall k, k <> js "permalink" -> lookup Z page' k = lookup Z page k.
Proof.
  cbv zeta.
  apply (MutateProps.mutate_store_pages Z (fun z => negb (z =? 0))
           Reference.int_to_js plain_URL_parse (js "http://localhost:3000") (js "default")
           false store_settings store_settings_out).
  - vm_compute. reflexivity.
  - vm_compute. reflexivity.
Defined.

Lemma mutate_fails_only_on_permalink_witness :
  TypeError = TypeError /\
  exists storePages page permalink,
    truthy_prop Z (fun z => negb (z =? 0)) (JObject bad_permalink) (js "storePages")
    = Some storePages /\
    ((exists pages key, storePages = JObject pages /\ In (key, page) pages) \/
     (exists pages, storePages = JArray pages /\ In page pages)) /\
    truthy_prop Z (fun z => negb (z =? 0)) page (js "permalink") = Some permalink /\
    plain_URL_parse (to_string Z Reference.int_to_js permalink) = None.
Proof.
  apply (MutateProps.mutate_fails_only_on_permalink Z (fun z => negb (z =? 0))
           Reference.int_to_js plain_URL_parse (js "http://localhost:3000") (js "default")
           false bad_permalink TypeError).
  vm_compute. reflexivity.
Defined.


Lemma transform_keeps_declaration_witness :
  Reference.transformWcSettings
    (template (js "wcSettings") (js "%7B%22homeUrl%22%3A%22https%3A%2F%2Fshop.test%22%7D"))
    (js "http://localhost:3000") (js "default") false
  = template (js "wcSettings")
      (esc_js (js "%7B%22homeUrl%22%3A%22http%3A%2F%2Flocalhost%3A3000%22%7D")).
Proof.
  apply (TransformProps.transform_keeps_declaration Z (fun z => negb (z =? 0))
           Reference.int_to_js Reference.JSON_parse Reference.JSON_stringify plain_URL_parse
           (js "wcSettings") (js "%7B%22homeUrl%22%3A%22https%3A%2F%2Fshop.test%22%7D")
           (js "{" ++ 34 :: js "homeUrl" ++ 34 :: js ":" ++ 34 :: js "https://shop.test"
            ++ [34; 125])
           (js "%7B%22homeUrl%22%3A%22http%3A%2F%2Flocalhost%3A3000%22%7D")
           (js "http://localhost:3000") (js "default") false
           Reference.home_payload Reference.home_payload
           (JObject [(js "homeUrl", JString (js "http://localhost:3000"))])).
  - discriminate.
  - vm_compute. reflexivity.
  - discriminate.
  - vm_compute. reflexivity.
  - vm_compute. reflexivity.
  - vm_compute. reflexivity.
  - vm_compute. reflexivity.
  - vm_compute. reflexivity.
  - vm_compute. reflexivity.
Defined.

Lemma body_remount_loads_nothing_witness :
  let run := body_run plain_URL_parse (fun content _ => content) (js "shop") None in
  let start := body_start plain_URL_parse (fun content _ => content) (js "shop") None in
  let st := run [versioned_core_script] ∅ [Load] in
  (forall i script, nth_error [versioned_core_script] i = Some script ->
                    cacheKey script (S i) ∈ LoadCache st) /\
  log (start [versioned_core_script] (LoadCache st)) = [TriggerDOMContentLoaded; OnComplete] /\
  LoadCache (start [versioned_core_script] (LoadCache st)) = LoadCache st.
Proof.
  cbv zeta.
  apply (LoaderProps.body_remount_loads_nothing plain_URL_parse (fun content _ => content)
           (js "shop") None [versioned_core_script] ∅ [Load]).
  cbn [length]. lia.
Defined.

Lemma encodeWithSalt_is_base64_witness :
  let encoded := encodeWithSalt (js "https://wp.example.com") (js "nextpress-default-salt") in
  Nat.modulo (length encoded) 4 = 0%nat /\
  Forall (fun c => b64_value c <> None \/ c = 61) encoded /\
  exists text, decodeWithSalt encoded (js "nextpress-default-salt") = Some text.
Proof.
  cbv zeta. apply CodecProps.encodeWithSalt_is_base64; vm_compute; reflexivity.
Defined.

Lemma decodeWithSalt_rejects_witness :
  decodeWithSalt (js "aGk*") (js "nextpress-default-salt") = None.
Proof.
  apply (CodecProps.decodeWithSalt_rejects (js "aGk*") (js "nextpress-default-salt") 42).
  - right. right. right. left. reflexivity.
  - reflexivity.
  - discriminate.
  - reflexivity.
Defined.

Lemma assets_placeholder_replaced_witness :
  replaceProxyPlaceholders (js "http://localhost:3000")
    (js "var u = " ++ 39 :: js "https:\/\/" ++ js "__NEXTPRESS_ASSETS__"
     ++ js "\/wp-content\/a.js';")
    (js "default")
  = js "var u = " ++ 39 :: (if contains [92; 47] (js "https:\/\/")
                            then escape_slashes (js "/atx/" ++ js "default")
                            else js "/atx/" ++ js "default")
    ++ js "\/wp-content\/a.js';".
Proof.
  apply PlaceholderProps.assets_placeholder_replaced.
  - right. reflexivity.
  - unfold url_prefixes. cbn [In]. auto 10.
  - vm_compute. reflexivity.
  - vm_compute. reflexivity.
  - vm_compute. reflexivity.
Defined.

Lemma proxy_placeholder_replaced_witness :
  replaceProxyPlaceholders (js "http://localhost:3000")
    (js "{" ++ 34 :: js "http://" ++ js "__NEXTPRESS_PROXY__" ++ js "/checkout/" ++ [34; 125])
    (js "default")
  = js "{" ++ 34 :: (if contains [92; 47] (js "http://")
                     then escape_slashes (js "http://localhost:3000")
                     else js "http://localhost:3000")
    ++ js "/checkout/" ++ [34; 125].
Proof.
  apply PlaceholderProps.proxy_placeholder_replaced.
  - left. reflexivity.
  - unfold url_prefixes. cbn [In]. auto 10.
  - apply PlaceholderFacts.disjoint_code_units. vm_compute. reflexivity.
  - vm_compute. reflexivity.
  - vm_compute. reflexivity.
  - vm_compute. reflexivity.
Defined.

Lemma processValue_unmarked_witness :
  processValue Z (js "http://localhost:3000") (js "default")
    (JObject [(js "currency", JString (js "USD"));
              (js "prices", JArray [JNumber 1; JNull; JBool true])])
  = JObject [(js "currency", JString (js "USD"));
             (js "prices", JArray [JNumber 1; JNull; JBool true])].
Proof.
  apply PlaceholderProps.processValue_unmarked. vm_compute. reflexivity.
Defined.

Lemma processValue_leading_url_witness :
  let rest := js "/a.png 1x, https://__NEXTPRESS_ASSETS__/b.png 2x" in
  processValue Z (js "http://localhost:3000") (js "default")
    (JString (js "https:" ++ js "//" ++ js "__NEXTPRESS_PROXY__" ++ rest))
  = JString (js "http://localhost:3000" ++ rest)
  /\ (contains (js "__NEXTPRESS_PROXY__")
        (js "https:" ++ js "//" ++ js "__NEXTPRESS_ASSETS__" ++ rest) = false ->
      processValue Z (js "http://localhost:3000") (js "default")
        (JString (js "https:" ++ js "//" ++ js "__NEXTPRESS_ASSETS__" ++ rest))
      = JString (js "/atx/" ++ js "default" ++ rest)).
Proof.
  cbv zeta. apply PlaceholderProps.processValue_leading_url.
  - right. reflexivity.
  - absent.
  - absent.
Defined.

End FurtherExamples.
